(** * sqlf: printf-style composition of parameterized SQL

    A shallow embedding of the Go package [sqlf] (directive scanner,
    index resolution, the two composition paths of [Sprintf], rendering
    with a bind-variable dialect, and [Join]) together with the
    properties of its specification.

    Conventions of the embedding:
    - a Go [string] is a sequence of bytes: [list ascii];
    - a Go [int] is a [Z]; slice lengths and slice positions, which the
      code never lets go negative, are [nat];
    - a [*Query] argument is a pointer [Ptr] into a store of immutable
      [Query] values, so that "the same object" and "an equal copy" are
      different things; nil pointers are not part of the model;
    - a panic is an explicit outcome carrying its message. *)

From Stdlib Require Import ZArith List Ascii String Bool Lia DecimalString DecimalPos.
From stdpp Require Import base option list gmap.

Local Open Scope Z_scope.
Local Open Scope nat_scope.

(** ** Go strings *)

Abbreviation gostring := (list ascii).

Definition str (s : string) : gostring := list_ascii_of_string s.

(** [format[lo:hi]] and [format[lo:]] for [lo <= hi <= len(format)]. *)
Definition slice (s : gostring) (lo hi : nat) : gostring := take (hi - lo) (drop lo s).
Definition sliceFrom (s : gostring) (lo : nat) : gostring := drop lo s.

Definition isPercent (c : ascii) : bool := Ascii.eqb c "%"%char.

(** ['0' <= c && c <= '9'] *)
Definition isDigit (c : ascii) : bool :=
  let n := nat_of_ascii c in (48 <=? n) && (n <=? 57).

Definition digitVal (c : ascii) : Z := Z.of_nat (nat_of_ascii c) - 48.

(** The flag bytes skipped by the scanner: [#0+- ] and the apostrophe. *)
Definition isFlag (c : ascii) : bool :=
  Ascii.eqb c "#"%char || Ascii.eqb c "0"%char || Ascii.eqb c "+"%char || Ascii.eqb c "-"%char
  || Ascii.eqb c " "%char || Ascii.eqb c "'"%char.

Fixpoint dropWhile (f : ascii -> bool) (s : gostring) : gostring :=
  match s with
  | c :: s' => if f c then dropWhile f s' else s
  | [] => []
  end.

Fixpoint takeWhile (f : ascii -> bool) (s : gostring) : gostring :=
  match s with
  | c :: s' => if f c then c :: takeWhile f s' else []
  | [] => []
  end.

(** Decimal value of a run of digits. *)
Definition decimal (ds : gostring) : Z :=
  fold_left (fun acc c => (10 * acc + digitVal c)%Z) ds 0%Z.

(** [strconv.Atoi] on a non-empty run of decimal digits, for a 64-bit
    [int]: the value, or the largest [int] when the value does not fit
    (the scanner discards the range error). *)
Definition maxInt : Z := (2 ^ 63 - 1)%Z.
Definition Atoi (ds : gostring) : Z := Z.min (decimal ds) maxInt.

(** [strconv.Itoa] / the [%d] of an [int]. *)
Definition itoa (z : Z) : gostring := str (NilZero.string_of_int (Z.to_int z)).

(** ** Directives and the scanner *)

Record directive := mkDirective {
  d_start : nat;      (* start position in format string *)
  d_end : nat;        (* end position (exclusive) *)
  hasIndex : bool;    (* whether an explicit index [n] was present *)
  index : Z;          (* the explicit index (1-based), or 0 if implicit *)
  isLiteral : bool    (* true if this is %% (literal percent) *)
}.

(** The scanner works on the unread suffix [format[i:]]; a position is
    recovered from the number of bytes consumed. *)

(** [skipOptionalIndex]: the suffix after an optional [[n]]. *)
Definition skipOptionalIndex (s : gostring) : gostring :=
  match s with
  | "["%char :: s1 =>
      match dropWhile isDigit s1 with
      | "]"%char :: r => if bool_decide (takeWhile isDigit s1 = []) then s else r
      | _ => s
      end
  | _ => s
  end.

(** The optional explicit argument index [[n]] right after the marker:
    [(hasIndex, index, rest)]. *)
Definition parseIndex (s : gostring) : bool * Z * gostring :=
  match s with
  | "["%char :: s1 =>
      match dropWhile isDigit s1 with
      | "]"%char :: r =>
          if bool_decide (takeWhile isDigit s1 = []) then (false, 0%Z, s)
          else (true, Atoi (takeWhile isDigit s1), r)
      | _ => (false, 0%Z, s)
      end
  | _ => (false, 0%Z, s)
  end.

(** Width: [*] with an optional [[n]], or digits. *)
Definition skipWidth (s : gostring) : gostring :=
  match s with
  | "*"%char :: s1 => skipOptionalIndex s1
  | _ => dropWhile isDigit s
  end.

(** Precision: [.] followed by [*] with an optional [[n]], or digits. *)
Definition skipPrecision (s : gostring) : gostring :=
  match s with
  | "."%char :: s1 =>
      match s1 with
      | "*"%char :: s2 => skipOptionalIndex s2
      | _ => dropWhile isDigit s1
      end
  | _ => s
  end.

(** Everything between the marker and the verb. *)
Definition parseDecor (s : gostring) : bool * Z * gostring :=
  let '(hi, ix, s1) := parseIndex s in
  (hi, ix, skipPrecision (skipWidth (dropWhile isFlag s1))).

(** The main loop of [parseDirectives], at position [i] with [s = format[i:]].
    Every iteration consumes at least one byte, so [fuel] above the
    length of [s] is never exhausted. *)
Fixpoint scan (fuel : nat) (i : nat) (s : gostring) : list directive :=
  match fuel with
  | O => []
  | S fuel' =>
      match s with
      | [] => []
      | c :: s1 =>
          if negb (isPercent c) then scan fuel' (S i) s1
          else
            match s1 with
            | [] => []                                   (* break *)
            | c1 :: s2 =>
                if isPercent c1 then
                  mkDirective i (i + 2) false 0%Z true :: scan fuel' (i + 2) s2
                else
                  let '(hi, ix, s3) := parseDecor s1 in
                  match s3 with
                  | [] => []                             (* no verb *)
                  | _ :: s4 =>
                      let e := i + 1 + (length s1 - length s4) in
                      mkDirective i e hi ix false :: scan fuel' e s4
                  end
            end
      end
  end.

Definition parseDirectives (format : gostring) : list directive :=
  scan (S (length format)) 0 format.


(** ** Package [fmt] on [Formatter] operands

    [Sprintf] and [Query.Query] hand every operand to [fmt.Sprintf]
    wrapped in [ignoreFormat], whose [Format] method writes its string
    whatever the verb, flags, width and precision are.  [doPrintf] below
    follows the loop of the same name in Go's package [fmt] for such
    operands; an operand is represented by the string it writes.  Three
    things are left out and give [None]: the verbs [T], [p] and [w]
    applied to an operand (they do not reach [Format]), and a verb byte
    outside ASCII. *)

(** The flags of package [fmt]: [#0+- ]. *)
Definition isFmtFlag (c : ascii) : bool :=
  Ascii.eqb c "#"%char || Ascii.eqb c "0"%char || Ascii.eqb c "+"%char || Ascii.eqb c "-"%char
  || Ascii.eqb c " "%char.

Definition tooLarge (x : Z) : bool := (1000000 <? x)%Z.

(** [parsenum] on the segment [s]: [(num, isnum, unread part of s)]; on
    overflow it gives up and skips the whole segment. *)
Fixpoint parsenumLoop (s : gostring) (num : Z) (isnum : bool) : Z * bool * gostring :=
  match s with
  | c :: s' =>
      if isDigit c then
        if tooLarge num then (0%Z, false, [])
        else parsenumLoop s' (num * 10 + digitVal c)%Z true
      else (num, isnum, s)
  | [] => (num, isnum, [])
  end.

Definition parsenum (s : gostring) : Z * bool * gostring := parsenumLoop s 0%Z false.

(** Split at the first closing bracket. *)
Fixpoint findBracket (s : gostring) : option (gostring * gostring) :=
  match s with
  | [] => None
  | c :: s' =>
      if Ascii.eqb c "]"%char then Some ([], s')
      else match findBracket s' with
           | Some (body, r) => Some (c :: body, r)
           | None => None
           end
  end.

(** [parseArgNumber] on [s1], the text after an opening bracket:
    [(index, unread text, ok)]. *)
Definition parseArgNumber (s1 : gostring) : Z * gostring * bool :=
  if length s1 <? 2 then (0%Z, s1, false)
  else
    match findBracket s1 with
    | Some (body, r) =>
        let '(width, ok, rest) := parsenum body in
        if ok && bool_decide (rest = []) then ((width - 1)%Z, r, true)
        else (0%Z, r, false)
    | None => (0%Z, s1, false)
    end.

(** The part of the printer state that the loop threads. *)
Record pp := mkPp {
  argNum : nat;
  reordered : bool;
  goodArgNum : bool
}.

(** [argNumber]: [(printer state, unread text, found)]. *)
Definition argNumber (p : pp) (s : gostring) (numArgs : nat) : pp * gostring * bool :=
  match s with
  | "["%char :: s1 =>
      let '(ix, r, ok) := parseArgNumber s1 in
      if ok && (0 <=? ix)%Z && (ix <? Z.of_nat numArgs)%Z
      then (mkPp (Z.to_nat ix) true (goodArgNum p), r, true)
      else (mkPp (argNum p) true false, r, ok)
  | _ => (p, s, false)
  end.

(** [intFromArg] on an operand that is never an integer: the operand, if
    there is one, is used up. *)
Definition intFromArg (numArgs : nat) (n : nat) : nat :=
  if n <? numArgs then S n else n.

Definition setArgNum (p : pp) (n : nat) : pp := mkPp n (reordered p) (goodArgNum p).
Definition setBad (p : pp) : pp := mkPp (argNum p) (reordered p) false.

Inductive verbResult :=
| VNext (out : gostring) (p : pp) (rest : gostring)
| VStop (out : gostring) (p : pp)
| VNone.

Definition specialVerb (c : ascii) : bool :=
  Ascii.eqb c "T"%char || Ascii.eqb c "p"%char || Ascii.eqb c "w"%char.

(** The width: [(text written, printer state, unread text, afterIndex)]. *)
Definition doWidth (n : nat) (p : pp) (s : gostring) (afterIndex : bool)
    : gostring * pp * gostring * bool :=
  match s with
  | "*"%char :: r => (str "%!(BADWIDTH)", setArgNum p (intFromArg n (argNum p)), r, false)
  | _ =>
      let '(_, present, r) := parsenum s in
      ([], (if afterIndex && present then setBad p else p), r, afterIndex)
  end.

(** The precision, same shape. *)
Definition doPrecision (n : nat) (p : pp) (s : gostring) (afterIndex : bool)
    : gostring * pp * gostring * bool :=
  match s with
  | "."%char :: r =>
      let '(p1, r1, afterIndex1) := argNumber (if afterIndex then setBad p else p) r n in
      match r1 with
      | "*"%char :: r2 => (str "%!(BADPREC)", setArgNum p1 (intFromArg n (argNum p1)), r2, false)
      | _ =>
          let '(_, _, r2) := parsenum r1 in
          ([], p1, r2, afterIndex1)
      end
  | _ => ([], p, s, afterIndex)
  end.

(** The verb byte itself, with the text [out] already written for it. *)
Definition doVerbByte (a : list gostring) (out : gostring) (p : pp) (s : gostring) : verbResult :=
  match s with
  | [] => VStop (out ++ str "%!(NOVERB)") p
  | verb :: rest =>
      if 128 <=? nat_of_ascii verb then VNone
      else if isPercent verb then VNext (out ++ str "%") p rest
      else if negb (goodArgNum p) then
        VNext (out ++ str "%!" ++ verb :: str "(BADINDEX)") p rest
      else
        match a !! argNum p with
        | None => VNext (out ++ str "%!" ++ verb :: str "(MISSING)") p rest
        | Some x =>
            if specialVerb verb then VNone
            else VNext (out ++ x) (setArgNum p (S (argNum p))) rest
        end
  end.

(** One verb: [s] is the text after the marker. *)
Definition doVerb (a : list gostring) (p0 : pp) (s : gostring) : verbResult :=
  let n := length a in
  let '(p1, s1, afterIndex1) := argNumber p0 (dropWhile isFmtFlag s) n in
  let '(out2, p2, s2, afterIndex2) := doWidth n p1 s1 afterIndex1 in
  let '(out3, p3, s3, afterIndex3) := doPrecision n p2 s2 afterIndex2 in
  let '(p4, s4, _) := if afterIndex3 then (p3, s3, true) else argNumber p3 s3 n in
  doVerbByte a (out2 ++ out3) p4 s4.

(** [strings.Join]. *)
Fixpoint stringsJoin (elems : list gostring) (sep : gostring) : gostring :=
  match elems with
  | [] => []
  | x :: rest =>
      match rest with
      | [] => x
      | _ => x ++ sep ++ stringsJoin rest sep
      end
  end.

(** The report on operands that no verb used. *)
Definition extraArgs (a : list gostring) (p : pp) : gostring :=
  if negb (reordered p) && (argNum p <? length a) then
    str "%!(EXTRA "
    ++ stringsJoin (map (fun x => str "sqlf.ignoreFormat=" ++ x) (drop (argNum p) a)) (str ", ")
    ++ str ")"
  else [].

Fixpoint doPrintf (fuel : nat) (a : list gostring) (p : pp) (s : gostring) : option gostring :=
  match fuel with
  | O => None
  | S fuel' =>
      match s with
      | [] => Some (extraArgs a p)
      | c :: s1 =>
          if negb (isPercent c) then cons c <$> doPrintf fuel' a p s1
          else
            match doVerb a (mkPp (argNum p) (reordered p) true) s1 with
            | VNext out p' rest => app out <$> doPrintf fuel' a p' rest
            | VStop out p' => Some (out ++ extraArgs a p')
            | VNone => None
            end
      end
  end.

(** [fmt.Sprintf(format, a...)] with every operand an [ignoreFormat]. *)
Definition fmtSprintf (format : gostring) (a : list gostring) : option gostring :=
  doPrintf (S (length format)) a (mkPp 0 false true) format.

(** [strings.ReplaceAll(format, "%%", "%%%%")]. *)
Fixpoint doublePercents (s : gostring) : gostring :=
  match s with
  | [] => []
  | c :: s1 =>
      match s1 with
      | c1 :: s2 =>
          if isPercent c && isPercent c1 then str "%%%%" ++ doublePercents s2
          else c :: doublePercents s1
      | [] => [c]
      end
  end.

(** ** Queries *)

(** Leaf values are opaque to the package. *)
Inductive Value :=
| VString (s : string)
| VInt (n : Z).

Definition Ptr := nat.

Record Query := mkQuery {
  fmt : gostring;
  args : list Value;
  (* argIndices maps each placeholder position to its argument index;
     [None] is the nil slice: placeholders map 1:1 to args. *)
  argIndices : option (list nat)
}.

(** An [interface{}] argument: the type assertion "q, ok := arg" to a Query pointer
    succeeds exactly on [Ref]. *)
Inductive Arg :=
| Leaf (v : Value)
| Ref (p : Ptr).

(** The store read through [*Query] pointers. *)
Definition Heap := Ptr -> Query.

Inductive outcome (A : Type) :=
| Ok (a : A)
| Panic (msg : gostring)
| Unmodelled.
Arguments Ok {A} a.
Arguments Panic {A} msg.
Arguments Unmodelled {A}.

(** A slice grown by [append] from the nil slice is nil exactly when
    nothing was appended. *)
Definition sliceOf (l : list nat) : option (list nat) :=
  match l with [] => None | _ => Some l end.

Definition hasArgIndices (q : Query) : bool :=
  match argIndices q with Some _ => true | None => false end.

(** [needsExplicitPath] *)
Definition needsExplicitPath (h : Heap) (format : gostring) (fargs : list Arg) : bool :=
  existsb (fun arg => match arg with Ref p => hasArgIndices (h p) | Leaf _ => false end) fargs
  || existsb hasIndex (parseDirectives format).

(** [nestedInfo] tracks a nested query that has been processed for reuse. *)
Record nestedInfo := mkNestedInfo {
  n_offset : nat;
  n_fmt : gostring;
  n_argIndices : list nat
}.

(** The local variables of [sprintfExplicit]. *)
Record state := mkState {
  resultFmt : gostring;
  s_argIndices : list nat;
  resultArgs : list Value;
  argToResultPos : gmap Z nat;
  nestedQueries : gmap Ptr nestedInfo;
  lastEnd : nat;
  currentImplicitArg : Z
}.

Definition outOfRange (argIdx : Z) (n : nat) : gostring :=
  str "sqlf.Sprintf: argument index [" ++ itoa (argIdx + 1) ++ str "] out of range; have "
  ++ itoa (Z.of_nat n) ++ str " args".

(** Which argument a verb refers to: [(argIdx, currentImplicitArg)]. *)
Definition resolve (d : directive) (cur : Z) : Z * Z :=
  if hasIndex d then ((index d - 1)%Z, index d) else (cur, (cur + 1)%Z).

(** Legacy query: 1:1 indices. *)
Definition normIndices (q : Query) : list nat :=
  match argIndices q with
  | Some ai => ai
  | None => seq 0 (length (args q))
  end.

(** One iteration of the loop over the directives. *)
Definition step (h : Heap) (format : gostring) (fargs : list Arg)
    (st : state) (d : directive) : outcome state :=
  let rf := resultFmt st ++ slice format (lastEnd st) (d_start d) in
  if isLiteral d then
    Ok (mkState (rf ++ str "%%") (s_argIndices st) (resultArgs st) (argToResultPos st)
          (nestedQueries st) (d_end d) (currentImplicitArg st))
  else
    let '(argIdx, cur) := resolve d (currentImplicitArg st) in
    if (argIdx <? 0)%Z || (Z.of_nat (length fargs) <=? argIdx)%Z then
      Panic (outOfRange argIdx (length fargs))
    else
      match fargs !! Z.to_nat argIdx with
      | None => Panic (outOfRange argIdx (length fargs))     (* not reached: in range *)
      | Some (Ref q) =>
          match nestedQueries st !! q with
          | Some info =>
              Ok (mkState (rf ++ n_fmt info)
                    (s_argIndices st ++ map (fun qArgIdx => n_offset info + qArgIdx) (n_argIndices info))
                    (resultArgs st) (argToResultPos st) (nestedQueries st) (d_end d) cur)
          | None =>
              let offset := length (resultArgs st) in
              let qArgIndices := normIndices (h q) in
              Ok (mkState (rf ++ fmt (h q))
                    (s_argIndices st ++ map (fun qArgIdx => offset + qArgIdx) qArgIndices)
                    (resultArgs st ++ args (h q)) (argToResultPos st)
                    (<[q := mkNestedInfo offset (fmt (h q)) qArgIndices]> (nestedQueries st))
                    (d_end d) cur)
          end
      | Some (Leaf v) =>
          match argToResultPos st !! argIdx with
          | Some pos =>
              Ok (mkState (rf ++ str "%s") (s_argIndices st ++ [pos]) (resultArgs st)
                    (argToResultPos st) (nestedQueries st) (d_end d) cur)
          | None =>
              let pos := length (resultArgs st) in
              Ok (mkState (rf ++ str "%s") (s_argIndices st ++ [pos]) (resultArgs st ++ [v])
                    (<[argIdx := pos]> (argToResultPos st)) (nestedQueries st) (d_end d) cur)
          end
      end.

Fixpoint loop (h : Heap) (format : gostring) (fargs : list Arg)
    (ds : list directive) (st : state) : outcome state :=
  match ds with
  | [] => Ok st
  | d :: ds' =>
      match step h format fargs st d with
      | Ok st' => loop h format fargs ds' st'
      | Panic msg => Panic msg
      | Unmodelled => Unmodelled
      end
  end.

Definition initState : state := mkState [] [] [] ∅ ∅ 0 0%Z.

(** [sprintfExplicit] *)
Definition sprintfExplicit (h : Heap) (format : gostring) (fargs : list Arg) : outcome Query :=
  match loop h format fargs (parseDirectives format) initState with
  | Ok st =>
      Ok (mkQuery (resultFmt st ++ sliceFrom format (lastEnd st)) (resultArgs st)
            (sliceOf (s_argIndices st)))
  | Panic msg => Panic msg
  | Unmodelled => Unmodelled
  end.

(** [Sprintf] *)
Definition Sprintf (h : Heap) (format : gostring) (fargs : list Arg) : outcome Query :=
  if needsExplicitPath h format fargs then sprintfExplicit h format fargs
  else
    let f := map (fun arg => match arg with Ref q => fmt (h q) | Leaf _ => str "%s" end) fargs in
    let a := flat_map (fun arg => match arg with Ref q => args (h q) | Leaf v => [v] end) fargs in
    match fmtSprintf (doublePercents format) f with
    | Some text => Ok (mkQuery text a None)
    | None => Unmodelled
    end.

(** A dialect: the bind variable of a slot. *)
Definition BindVar := nat -> gostring.

(** Modelled from the spec: [PostgresBindVar] is declared in a file of
    the package that is not among the sources; the spec gives it as the
    sequential numbered dialect, slot [i] being named [$(i+1)]. *)
Definition PostgresBindVar : BindVar := fun i => "$"%char :: itoa (Z.of_nat (S i)).

(** [Query.Query] *)
Definition Query_Query (q : Query) (binder : BindVar) : option gostring :=
  match argIndices q with
  | Some ai => fmtSprintf (fmt q) (map binder ai)
  | None => fmtSprintf (fmt q) (map binder (seq 0 (length (args q))))
  end.

(** [Query.Args] *)
Definition Query_Args (q : Query) : list Value := args q.

(** The loop of [Join]: [(f, a, argIndices)] after the queries from the
    running [offset] on. *)
Fixpoint joinLoop (hasExplicitIndices : bool) (queries : list Query) (offset : nat)
    : list gostring * list Value * list nat :=
  match queries with
  | [] => ([], [], [])
  | q :: rest =>
      let '(f, a, ai) := joinLoop hasExplicitIndices rest (offset + length (args q)) in
      let mine :=
        if hasExplicitIndices then
          match argIndices q with
          | Some idxs => map (fun idx => offset + idx) idxs
          | None => map (fun i => offset + i) (seq 0 (length (args q)))
          end
        else [] in
      (fmt q :: f, args q ++ a, mine ++ ai)
  end.

(** [Join] *)
Definition Join (queries : list Query) (sep : gostring) : Query :=
  let hasExplicitIndices := existsb hasArgIndices queries in
  let '(f, a, ai) := joinLoop hasExplicitIndices queries 0 in
  mkQuery (stringsJoin f (str " " ++ sep ++ str " ")) a
    (if hasExplicitIndices then sliceOf ai else None).

(** ** The composition of the explicit path, stated on its own

    The definitions below do not come from the code: they say, in closed
    form, which slots the explicit path hands out, and are compared with
    [sprintfExplicit] in the theorems. *)

(** The resolved logical indices of the non-literal directives, in
    source order. *)
Fixpoint resolveAll (ds : list directive) (cur : Z) : list Z :=
  match ds with
  | [] => []
  | d :: ds' =>
      if isLiteral d then resolveAll ds' cur
      else fst (resolve d cur) :: resolveAll ds' (snd (resolve d cur))
  end.

Definition inRange (n : nat) (i : Z) : bool := (0 <=? i)%Z && (i <? Z.of_nat n)%Z.

(** What a placeholder refers to: a leaf by its source position, a
    nested query by its pointer. *)
Inductive key :=
| KLeaf (i : Z)
| KRef (p : Ptr).

Global Instance key_eq_dec : EqDecision key.
Proof. solve_decision. Defined.

Definition keyAt (fargs : list Arg) (i : Z) : key :=
  match fargs !! Z.to_nat i with
  | Some (Ref p) => KRef p
  | _ => KLeaf i
  end.

(** The arguments a key brings into the result. *)
Definition contrib (h : Heap) (fargs : list Arg) (k : key) : list Value :=
  match k with
  | KLeaf i => match fargs !! Z.to_nat i with Some (Leaf v) => [v] | _ => [] end
  | KRef p => args (h p)
  end.

(** The index entries of one placeholder whose key starts at [off]. *)
Definition block (h : Heap) (off : nat) (k : key) : list nat :=
  match k with
  | KLeaf _ => [off]
  | KRef p => map (fun x => off + x) (normIndices (h p))
  end.

(** The distinct keys in order of first reference. *)
Definition firstRefs (ks : list key) : list key :=
  fold_left (fun acc k => if decide (k ∈ acc) then acc else acc ++ [k]) ks [].

(** The part of [l] before [k]. *)
Fixpoint before (k : key) (l : list key) : list key :=
  match l with
  | [] => []
  | x :: l' => if decide (x = k) then [] else x :: before k l'
  end.

Definition offsetOf (h : Heap) (fargs : list Arg) (ks : list key) (k : key) : nat :=
  length (flat_map (contrib h fargs) (before k (firstRefs ks))).

(** The keys of the placeholders of a call, in source order. *)
Definition placeholderKeys (format : gostring) (fargs : list Arg) : list key :=
  map (keyAt fargs) (resolveAll (parseDirectives format) 0%Z).

Definition indexList (q : Query) : list nat := default [] (argIndices q).

(** What the local variables hold once the placeholders with keys [ks]
    have been processed. *)
Record Inv (h : Heap) (fargs : list Arg) (st : state) (ks : list key) : Prop := {
  inv_args : resultArgs st = flat_map (contrib h fargs) (firstRefs ks);
  inv_indices : s_argIndices st = flat_map (fun k => block h (offsetOf h fargs ks k) k) ks;
  inv_leaf : forall i, argToResultPos st !! i =
               if decide (KLeaf i ∈ ks) then Some (offsetOf h fargs ks (KLeaf i)) else None;
  inv_nested : forall p, nestedQueries st !! p =
               if decide (KRef p ∈ ks)
               then Some (mkNestedInfo (offsetOf h fargs ks (KRef p)) (fmt (h p)) (normIndices (h p)))
               else None
}.

(** The text that replaces a placeholder. *)
Definition replacement (h : Heap) (k : key) : gostring :=
  match k with
  | KLeaf _ => str "%s"
  | KRef p => fmt (h p)
  end.

(** The template text the explicit path builds from the directives [ds],
    the last of the earlier directives ending at [last]. *)
Fixpoint composeText (h : Heap) (format : gostring) (fargs : list Arg)
    (ds : list directive) (last : nat) (cur : Z) : gostring :=
  match ds with
  | [] => sliceFrom format last
  | d :: ds' =>
      slice format last (d_start d) ++
      (if isLiteral d then str "%%" ++ composeText h format fargs ds' (d_end d) cur
       else replacement h (keyAt fargs (fst (resolve d cur)))
            ++ composeText h format fargs ds' (d_end d) (snd (resolve d cur)))
  end.

(** The number of non-literal directives. *)
Definition countPlaceholders (ds : list directive) : nat :=
  length (filter (fun d => isLiteral d = false) ds).

(** The non-literal placeholders of a template, as the scanner of the
    package sees them. *)
Definition placeholders (template : gostring) : nat :=
  countPlaceholders (parseDirectives template).

(** ** [Join], in the words of the specification *)

(** The running argument offset of the input at position [i]. *)
Definition runningOffset (qs : list Query) (i : nat) : nat :=
  length (concat (map args (take i qs))).

(** Every normalized index list, shifted by the running offset of its
    input, one after the other. *)
Definition mergedIndices (qs : list Query) : list nat :=
  concat (imap (fun i q => map (fun x => runningOffset qs i + x) (normIndices q)) qs).

(** The implicit counter after the directives [ds]. *)
Fixpoint counterAfter (ds : list directive) (cur : Z) : Z :=
  match ds with
  | [] => cur
  | d :: ds' => if isLiteral d then counterAfter ds' cur else counterAfter ds' (snd (resolve d cur))
  end.

(** A small store for examples: the pointer [p] is the [p]-th query of
    the list. *)
Definition emptyQuery : Query := mkQuery [] [] None.
Definition heapOf (qs : list Query) : Heap := fun p => nth p qs emptyQuery.

(** A byte that the scanner takes for the verb right after the marker:
    not a marker, bracket, flag, digit, star or dot. *)
Definition plainVerb (v : ascii) : bool :=
  negb (isPercent v || Ascii.eqb v "["%char || isFlag v || isDigit v
        || Ascii.eqb v "*"%char || Ascii.eqb v "."%char).

(** A verb that package [fmt] as modelled hands to [Format]. *)
Definition simpleVerb (v : ascii) : bool :=
  plainVerb v && negb (specialVerb v) && (nat_of_ascii v <? 128).

(** The text [t] holds [k] placeholders whatever text follows it. *)
Definition countsAs (t : gostring) (k : nat) : Prop :=
  forall rest, placeholders (t ++ rest) = k + placeholders rest.

(** A nested query is consistent when its template holds as many
    placeholders as its normalized index list has entries, and the
    entries lie within its arguments. *)
Definition consistent (q : Query) : Prop :=
  countsAs (fmt q) (length (normIndices q))
  /\ Forall (fun x => x < length (args q)) (normIndices q).

Definition keyConsistent (h : Heap) (k : key) : Prop :=
  match k with
  | KLeaf _ => True
  | KRef p => consistent (h p)
  end.

(** ** Templates given piece by piece

    A template made of text without markers, literal percents and
    directives that are a marker followed by a simple verb.  [Sprintf]
    turns such templates into templates of the same kind. *)
Inductive piece :=
| PText (t : gostring)
| PLit
| PHole (v : ascii).

Definition flatPiece (p : piece) : gostring :=
  match p with
  | PText t => t
  | PLit => str "%%"
  | PHole v => ["%"%char; v]
  end.

Definition flat (ps : list piece) : gostring := flat_map flatPiece ps.

Definition okPiece (p : piece) : bool :=
  match p with
  | PText t => negb (existsb isPercent t)
  | PLit => true
  | PHole v => simpleVerb v
  end.

Definition isHole (p : piece) : bool :=
  match p with PHole _ => true | _ => false end.

Definition holes (ps : list piece) : nat := length (filter (fun p => isHole p = true) ps).

(** The text printed for the pieces when the holes take the operands
    [a] in order. *)
Fixpoint render (ps : list piece) (a : list gostring) : gostring :=
  match ps with
  | [] => []
  | PText t :: ps' => t ++ render ps' a
  | PLit :: ps' => "%"%char :: render ps' a
  | PHole _ :: ps' =>
      match a with
      | x :: a' => x ++ render ps' a'
      | [] => render ps' []
      end
  end.

(** The same, the hole of ordinal [j] taking the bind variable of slot
    [j]. *)
Fixpoint renderFrom (binder : BindVar) (j : nat) (ps : list piece) : gostring :=
  match ps with
  | [] => []
  | PText t :: ps' => t ++ renderFrom binder j ps'
  | PLit :: ps' => "%"%char :: renderFrom binder j ps'
  | PHole _ :: ps' => binder j ++ renderFrom binder (S j) ps'
  end.

(** What [strings.ReplaceAll] makes of the pieces. *)
Definition doubleLits (ps : list piece) : list piece :=
  flat_map (fun p => match p with PLit => [PLit; PLit] | _ => [p] end) ps.

(** The pieces with the holes replaced, in order, by the pieces [fs]. *)
Fixpoint splice (ps : list piece) (fs : list (list piece)) : list piece :=
  match ps with
  | [] => []
  | PHole v :: ps' =>
      match fs with
      | f :: fs' => f ++ splice ps' fs'
      | [] => PHole v :: splice ps' []
      end
  | p :: ps' => p :: splice ps' fs
  end.

(** The arguments an argument of the identity path brings. *)
Definition argValues (h : Heap) (arg : Arg) : list Value :=
  match arg with
  | Leaf v => [v]
  | Ref p => args (h p)
  end.

(** A query composed earlier on the identity path from a template given
    piece by piece: no index list, and one argument for every hole. *)
Definition regular (q : Query) (f : list piece) : Prop :=
  argIndices q = None /\ fmt q = flat f /\ forallb okPiece f = true
  /\ holes f = length (args q).

(** [f] is the template an argument stands for: the placeholder of a
    leaf, the pieces of a nested query. *)
Definition argPieces (h : Heap) (arg : Arg) (f : list piece) : Prop :=
  match arg with
  | Leaf _ => f = [PHole "s"%char]
  | Ref p => regular (h p) f
  end.

(** The rendering of a composition, told from the outer template and its
    arguments: a leaf at slot [off] prints the bind variable of [off]; a
    nested query whose block starts at [off] prints what it renders to
    on its own with every slot number shifted by [off]. *)
Fixpoint renderNested (h : Heap) (binder : BindVar) (off : nat)
    (ps : list piece) (fargs : list Arg) : gostring :=
  match ps with
  | [] => []
  | PText t :: ps' => t ++ renderNested h binder off ps' fargs
  | PLit :: ps' => "%"%char :: renderNested h binder off ps' fargs
  | PHole _ :: ps' =>
      match fargs with
      | arg :: fargs' =>
          match arg with
          | Leaf _ => binder off
          | Ref p => default [] (Query_Query (h p) (fun x => binder (off + x)))
          end ++ renderNested h binder (off + length (argValues h arg)) ps' fargs'
      | [] => renderNested h binder off ps' []
      end
  end.

(** Where the last directive ends: the value of [lastEnd] after the loop
    of [sprintfExplicit]. *)
Definition lastEndOf (ds : list directive) (i : nat) : nat :=
  fold_left (fun _ d => d_end d) ds i.

(** The text after the last directive. *)
Definition trailing (format : gostring) : gostring :=
  sliceFrom format (lastEndOf (parseDirectives format) 0).

(** The scan of [s] from position [i] leaves no marker after its last
    directive. *)
Definition cleanFrom (fuel i : nat) (s : gostring) : Prop :=
  existsb isPercent (drop (lastEndOf (scan fuel i s) i - i) s) = false.

(** A nested query whose template is given piece by piece, with one
    index entry for every hole. *)
Definition shaped (q : Query) (f : list piece) : Prop :=
  fmt q = flat f /\ forallb okPiece f = true /\ holes f = length (normIndices q)
  /\ argIndices q <> Some [].

Definition keyShaped (h : Heap) (k : key) : Prop :=
  match k with
  | KLeaf _ => True
  | KRef p => exists f, shaped (h p) f
  end.

(** What a placeholder of the explicit path renders to: a leaf in slot
    [off] prints the bind variable of [off]; a nested query whose block
    starts at [off] prints what it renders to on its own with every
    slot number shifted by [off]. *)
Definition renderKey (h : Heap) (binder : BindVar) (off : nat) (k : key) : gostring :=
  match k with
  | KLeaf _ => binder off
  | KRef p => default [] (Query_Query (h p) (fun x => binder (off + x)))
  end.

(** The rendering of an explicit composition, told from the format, its
    directives and the offsets [offs] of the keys. *)
Fixpoint renderedText (h : Heap) (format : gostring) (fargs : list Arg) (binder : BindVar)
    (offs : key -> nat) (ds : list directive) (last : nat) (cur : Z) : gostring :=
  match ds with
  | [] => sliceFrom format last
  | d :: ds' =>
      slice format last (d_start d) ++
      (if isLiteral d then "%"%char :: renderedText h format fargs binder offs ds' (d_end d) cur
       else renderKey h binder (offs (keyAt fargs (fst (resolve d cur))))
              (keyAt fargs (fst (resolve d cur)))
            ++ renderedText h format fargs binder offs ds' (d_end d) (snd (resolve d cur)))
  end.

(** The rendering of an explicit composition up to the end of its last
    directive. *)
Fixpoint renderedHead (h : Heap) (format : gostring) (fargs : list Arg) (binder : BindVar)
    (offs : key -> nat) (ds : list directive) (last : nat) (cur : Z) : gostring :=
  match ds with
  | [] => []
  | d :: ds' =>
      slice format last (d_start d) ++
      (if isLiteral d then "%"%char :: renderedHead h format fargs binder offs ds' (d_end d) cur
       else renderKey h binder (offs (keyAt fargs (fst (resolve d cur))))
              (keyAt fargs (fst (resolve d cur)))
            ++ renderedHead h format fargs binder offs ds' (d_end d) (snd (resolve d cur)))
  end.

(** What a test of the package compares: the rendering with
    [PostgresBindVar] and the arguments. *)
Definition rendered (o : outcome Query) : option (gostring * list Value) :=
  match o with
  | Ok q =>
      match Query_Query q PostgresBindVar with
      | Some text => Some (text, Query_Args q)
      | None => None
      end
  | _ => None
  end.

Definition query (o : outcome Query) : Query :=
  match o with Ok q => q | _ => emptyQuery end.

Definition spans (ds : list directive) :=
  map (fun d => (d_start d, d_end d, hasIndex d, index d, isLiteral d)) ds.

(** ** Directives with flags, width and precision

    A directive of a template may carry flags, a width and a precision
    between the marker and the verb.  The decorations below are the
    ones that the scanner of the package and package [fmt] read alike:
    flags among [#0+- ], a width in digits, and a precision that is a
    dot followed by digits. *)

(** The digits that [parsenum] of package [fmt] reads to the end,
    having read [num] so far: it gives up once the number is over a
    million. *)
Fixpoint digitsOk (num : Z) (w : gostring) : bool :=
  match w with
  | [] => true
  | c :: w' => isDigit c && negb (tooLarge num) && digitsOk (num * 10 + digitVal c)%Z w'
  end.

(** Flags of package [fmt], then digits, then possibly a dot and
    digits. *)
Definition okDecoration (dec : gostring) : bool :=
  let s1 := dropWhile isFmtFlag dec in
  digitsOk 0%Z (takeWhile isDigit s1)
  && match dropWhile isDigit s1 with
     | [] => true
     | c :: pr => Ascii.eqb c "."%char && digitsOk 0%Z pr
     end.

(** A template piece whose directives may be decorated. *)
Inductive dpiece :=
| DText (t : gostring)
| DLit
| DHole (dec : gostring) (v : ascii).

Definition dflatPiece (p : dpiece) : gostring :=
  match p with
  | DText t => t
  | DLit => str "%%"
  | DHole dec v => "%"%char :: dec ++ [v]
  end.

Definition dflat (ps : list dpiece) : gostring := flat_map dflatPiece ps.

Definition okDPiece (p : dpiece) : bool :=
  match p with
  | DText t => negb (existsb isPercent t)
  | DLit => true
  | DHole dec v => okDecoration dec && simpleVerb v
  end.

(** The piece without its decoration. *)
Definition bare (p : dpiece) : piece :=
  match p with
  | DText t => PText t
  | DLit => PLit
  | DHole _ v => PHole v
  end.

(** A decorated piece once [strings.ReplaceAll] has doubled the literal
    percents. *)
Definition doubleDLits (dps : list dpiece) : list dpiece :=
  flat_map (fun p => match p with DLit => [DLit; DLit] | _ => [p] end) dps.

(** ** Further vocabulary for the properties of the package

    Like the definitions above, these do not come from the code; the
    theorems at the end of the file state properties of the code with
    them. *)

(** The directives [ds] lie one after the other between the positions
    [i] and [n], each spanning at least two bytes. *)
Fixpoint chained (i : nat) (ds : list directive) (n : nat) : Prop :=
  match ds with
  | [] => i <= n
  | d :: ds' => i <= d_start d /\ d_start d + 2 <= d_end d /\ chained (d_end d) ds' n
  end.

(** An index list that is not nil holds an entry: what [append] on a nil
    slice gives, and so what [Sprintf] and [Join] return. *)
Definition properIndices (q : Query) : Prop := argIndices q <> Some [].

(** The pieces of a join: those of the inputs with the separator text
    in between. *)
Fixpoint joinPieces (fs : list (list piece)) (sep : gostring) : list piece :=
  match fs with
  | [] => []
  | f :: rest =>
      match rest with
      | [] => f
      | _ => f ++ PText sep :: joinPieces rest sep
      end
  end.

(** What the inputs of a join render to, each on its own, the slot
    numbers of an input shifted by the number of arguments before it. *)
Fixpoint renderShifted (binder : BindVar) (off : nat) (qs : list Query) : list gostring :=
  match qs with
  | [] => []
  | q :: rest =>
      default [] (Query_Query q (fun x => binder (off + x)))
      :: renderShifted binder (off + length (args q)) rest
  end.

(** What package [fmt] prints for the pieces whatever the number of
    operands: a hole that no operand is left for prints the error text
    of the missing operand. *)
Fixpoint renderAny (ps : list piece) (a : list gostring) : gostring :=
  match ps with
  | [] => []
  | PText t :: ps' => t ++ renderAny ps' a
  | PLit :: ps' => "%"%char :: renderAny ps' a
  | PHole v :: ps' =>
      match a with
      | x :: a' => x ++ renderAny ps' a'
      | [] => str "%!" ++ v :: str "(MISSING)" ++ renderAny ps' []
      end
  end.

(** The operands the identity path hands to [fmt.Sprintf]: the template
    of a nested query, a placeholder for a leaf. *)
Definition operandTexts (h : Heap) (fargs : list Arg) : list gostring :=
  map (fun arg => match arg with Ref q => fmt (h q) | Leaf _ => str "%s" end) fargs.

(** An argument seen as a query: a leaf is the query of one placeholder
    and one argument. *)
Definition asQuery (h : Heap) (arg : Arg) : Query :=
  match arg with
  | Leaf v => mkQuery (str "%s") [v] None
  | Ref p => h p
  end.

(** The pointers among the arguments. *)
Definition refs (fargs : list Arg) : list Ptr :=
  flat_map (fun arg => match arg with Ref p => [p] | Leaf _ => [] end) fargs.

(** The keys of the arguments [fargs], the first one at position [j]. *)
Fixpoint keysFrom (j : nat) (fargs : list Arg) : list key :=
  match fargs with
  | [] => []
  | Leaf _ :: rest => KLeaf (Z.of_nat j) :: keysFrom (S j) rest
  | Ref p :: rest => KRef p :: keysFrom (S j) rest
  end.

(** The pieces written with every placeholder numbered in order: the
    hole of ordinal [j] carries the explicit index [j+1]. *)
Fixpoint flatIx (j : nat) (ps : list piece) : gostring :=
  match ps with
  | [] => []
  | PText t :: ps' => t ++ flatIx j ps'
  | PLit :: ps' => str "%%" ++ flatIx j ps'
  | PHole v :: ps' =>
      "%"%char :: "["%char :: itoa (Z.of_nat (S j)) ++ "]"%char :: v :: flatIx (S j) ps'
  end.

(** * Checks against the package's tests *)

Example scan_mixed :
  spans (parseDirectives (str "a = %[1]s, b = %[1]02d %% c = %s")) =
  [(4, 9, true, 1%Z, false); (15, 22, true, 1%Z, false);
   (23, 25, false, 0%Z, true); (30, 32, false, 0%Z, false)].
Proof. vm_compute. reflexivity. Qed.

Example scan_star : spans (parseDirectives (str "SELECT %[1]*[2]d")) = [(7, 16, true, 1%Z, false)].
Proof. vm_compute. reflexivity. Qed.

Example scan_dangling : spans (parseDirectives (str "x = %s AND %")) = [(4, 6, false, 0%Z, false)].
Proof. vm_compute. reflexivity. Qed.

(** [TestSprintf] and [TestJoinWithExplicitIndices], case by case. *)

Example simple_substitute :
  rendered (Sprintf (heapOf []) (str "SELECT * FROM test_table WHERE a = %s AND b = %d")
              [Leaf (VString "foo"); Leaf (VInt 1)]) =
  Some (str "SELECT * FROM test_table WHERE a = $1 AND b = $2", [VString "foo"; VInt 1]).
Proof. vm_compute. reflexivity. Qed.

Example simple_embedded :
  rendered (Sprintf
              (heapOf [query (Sprintf (heapOf []) (str "SELECT b FROM b_table WHERE x = %d")
                                [Leaf (VInt 1)])])
              (str "SELECT * FROM test_table WHERE a = (%s)") [Ref 0]) =
  Some (str "SELECT * FROM test_table WHERE a = (SELECT b FROM b_table WHERE x = $1)", [VInt 1]).
Proof. vm_compute. reflexivity. Qed.

Example embedded :
  rendered (Sprintf
              (heapOf [query (Sprintf (heapOf []) (str "SELECT b FROM b_table WHERE x = %d")
                                [Leaf (VInt 1)])])
              (str "SELECT * FROM test_table WHERE a = %s AND c = (%s) AND d = %s")
              [Leaf (VString "foo"); Ref 0; Leaf (VString "bar")]) =
  Some (str "SELECT * FROM test_table WHERE a = $1 AND c = (SELECT b FROM b_table WHERE x = $2) AND d = $3",
        [VString "foo"; VInt 1; VString "bar"]).
Proof. vm_compute. reflexivity. Qed.

Example embedded_embedded :
  rendered (Sprintf
              (heapOf [query (Sprintf
                                (heapOf [query (Sprintf (heapOf []) (str "SELECT %s")
                                                  [Leaf (VString "baz")])])
                                (str "SELECT b FROM b_table WHERE x = %d AND y = (%s)")
                                [Leaf (VInt 1); Ref 0])])
              (str "SELECT * FROM test_table WHERE a = %s AND c = (%s) AND d = %s")
              [Leaf (VString "foo"); Ref 0; Leaf (VString "bar")]) =
  Some (str "SELECT * FROM test_table WHERE a = $1 AND c = (SELECT b FROM b_table WHERE x = $2 AND y = (SELECT $3)) AND d = $4",
        [VString "foo"; VInt 1; VString "baz"; VString "bar"]).
Proof. vm_compute. reflexivity. Qed.

Example literal_percent_operator :
  rendered (Sprintf (heapOf []) (str "SELECT * FROM test_table WHERE a <<%% %s AND b = %d")
              [Leaf (VString "foo"); Leaf (VInt 1)]) =
  Some (str "SELECT * FROM test_table WHERE a <<% $1 AND b = $2", [VString "foo"; VInt 1]).
Proof. vm_compute. reflexivity. Qed.

Example explicit_index_single_reuse :
  rendered (Sprintf (heapOf []) (str "UPDATE t SET a = %[1]s, b = %[1]s WHERE c = %[1]s")
              [Leaf (VString "val")]) =
  Some (str "UPDATE t SET a = $1, b = $1 WHERE c = $1", [VString "val"]).
Proof. vm_compute. reflexivity. Qed.

Example explicit_index_multiple_args :
  rendered (Sprintf (heapOf []) (str "SELECT * FROM t WHERE a = %[1]s AND b = %[2]s AND c = %[1]s")
              [Leaf (VString "foo"); Leaf (VString "bar")]) =
  Some (str "SELECT * FROM t WHERE a = $1 AND b = $2 AND c = $1", [VString "foo"; VString "bar"]).
Proof. vm_compute. reflexivity. Qed.

Example explicit_index_with_percent :
  rendered (Sprintf (heapOf []) (str "SELECT * FROM t WHERE a %% %[1]s AND b = %[1]s")
              [Leaf (VString "val")]) =
  Some (str "SELECT * FROM t WHERE a % $1 AND b = $1", [VString "val"]).
Proof. vm_compute. reflexivity. Qed.

Example explicit_and_implicit_mixed :
  rendered (Sprintf (heapOf []) (str "UPDATE t SET a = %[1]s, b = %[1]s WHERE c = %s")
              [Leaf (VString "id"); Leaf (VString "name")]) =
  Some (str "UPDATE t SET a = $1, b = $1 WHERE c = $2", [VString "id"; VString "name"]).
Proof. vm_compute. reflexivity. Qed.

Example explicit_then_implicit_multiple :
  rendered (Sprintf (heapOf []) (str "SELECT * FROM t WHERE a = %[1]s AND b = %s AND c = %s")
              [Leaf (VString "x"); Leaf (VString "y"); Leaf (VString "z")]) =
  Some (str "SELECT * FROM t WHERE a = $1 AND b = $2 AND c = $3",
        [VString "x"; VString "y"; VString "z"]).
Proof. vm_compute. reflexivity. Qed.

Example explicit_with_flags :
  rendered (Sprintf (heapOf []) (str "SELECT * FROM t WHERE a = %[1]02d OR b = %[1]02d")
              [Leaf (VInt 42)]) =
  Some (str "SELECT * FROM t WHERE a = $1 OR b = $1", [VInt 42]).
Proof. vm_compute. reflexivity. Qed.

Example explicit_with_precision :
  rendered (Sprintf (heapOf []) (str "SELECT * FROM t WHERE a = %[1].2f OR b = %[1].2f")
              [Leaf (VString "3.14")]) =
  Some (str "SELECT * FROM t WHERE a = $1 OR b = $1", [VString "3.14"]).
Proof. vm_compute. reflexivity. Qed.

Example explicit_with_width_and_precision :
  rendered (Sprintf (heapOf []) (str "SELECT * FROM t WHERE a = %[1]10.2f")
              [Leaf (VString "3.14")]) =
  Some (str "SELECT * FROM t WHERE a = $1", [VString "3.14"]).
Proof. vm_compute. reflexivity. Qed.

Example explicit_nested_into_implicit_outer :
  rendered (Sprintf
              (heapOf [query (Sprintf (heapOf []) (str "(%[1]s OR %[1]s)") [Leaf (VString "x")])])
              (str "WHERE a = %s AND b = %s") [Ref 0; Leaf (VString "y")]) =
  Some (str "WHERE a = ($1 OR $1) AND b = $2", [VString "x"; VString "y"]).
Proof. vm_compute. reflexivity. Qed.

Example explicit_nested_into_explicit_outer :
  rendered (Sprintf
              (heapOf [query (Sprintf (heapOf []) (str "(%[1]s OR %[1]s)") [Leaf (VString "x")])])
              (str "WHERE a = %[1]s AND b = %[2]s AND c = %[1]s") [Ref 0; Leaf (VString "y")]) =
  Some (str "WHERE a = ($1 OR $1) AND b = $2 AND c = ($1 OR $1)", [VString "x"; VString "y"]).
Proof. vm_compute. reflexivity. Qed.

Example implicit_nested_into_explicit_outer :
  rendered (Sprintf
              (heapOf [query (Sprintf (heapOf []) (str "(%s OR %s)")
                                [Leaf (VString "x"); Leaf (VString "y")])])
              (str "WHERE a = %[1]s AND b = %[1]s") [Ref 0]) =
  Some (str "WHERE a = ($1 OR $2) AND b = ($1 OR $2)", [VString "x"; VString "y"]).
Proof. vm_compute. reflexivity. Qed.

Example explicit_out_of_order :
  rendered (Sprintf (heapOf []) (str "a = %[2]s AND b = %[1]s")
              [Leaf (VString "first"); Leaf (VString "second")]) =
  Some (str "a = $1 AND b = $2", [VString "second"; VString "first"]).
Proof. vm_compute. reflexivity. Qed.

Example explicit_out_of_order_with_reuse :
  rendered (Sprintf (heapOf []) (str "a = %[2]s AND b = %[1]s AND c = %[2]s")
              [Leaf (VString "first"); Leaf (VString "second")]) =
  Some (str "a = $1 AND b = $2 AND c = $1", [VString "second"; VString "first"]).
Proof. vm_compute. reflexivity. Qed.

Example explicit_with_apostrophe_flag :
  rendered (Sprintf (heapOf []) (str "SELECT %[1]'d, %[1]'d") [Leaf (VInt 1000)]) =
  Some (str "SELECT $1, $1", [VInt 1000]).
Proof. vm_compute. reflexivity. Qed.

Example star_width_with_index :
  rendered (Sprintf (heapOf []) (str "SELECT %[1]*[2]d") [Leaf (VInt 42); Leaf (VInt 10)]) =
  Some (str "SELECT $1", [VInt 42]).
Proof. vm_compute. reflexivity. Qed.

Example same_query_multiple_positions_explicit :
  rendered (Sprintf
              (heapOf [query (Sprintf (heapOf []) (str "(%s)") [Leaf (VString "x")])])
              (str "a = %[1]s AND b = %[1]s") [Ref 0]) =
  Some (str "a = ($1) AND b = ($1)", [VString "x"]).
Proof. vm_compute. reflexivity. Qed.

Example join_explicit_queries :
  rendered (Ok (Join
      [query (Sprintf (heapOf []) (str "a = %[1]s OR a = %[1]s") [Leaf (VString "x")]);
       query (Sprintf (heapOf []) (str "b = %s") [Leaf (VString "y")])]
      (str "AND"))) =
  Some (str "a = $1 OR a = $1 AND b = $2", [VString "x"; VString "y"]).
Proof. vm_compute. reflexivity. Qed.

Example join_mixed_explicit_implicit :
  rendered (Ok (Join
      [query (Sprintf (heapOf []) (str "a = %[1]s OR a = %[1]s") [Leaf (VString "x")]);
       query (Sprintf (heapOf []) (str "b = %s AND c = %s") [Leaf (VString "y"); Leaf (VString "z")])]
      (str "AND"))) =
  Some (str "a = $1 OR a = $1 AND b = $2 AND c = $3", [VString "x"; VString "y"; VString "z"]).
Proof. vm_compute. reflexivity. Qed.

Example join_all_implicit :
  rendered (Ok (Join
      [query (Sprintf (heapOf []) (str "a = %s") [Leaf (VString "x")]);
       query (Sprintf (heapOf []) (str "b = %s") [Leaf (VString "y")])]
      (str "OR"))) =
  Some (str "a = $1 OR b = $2", [VString "x"; VString "y"]).
Proof. vm_compute. reflexivity. Qed.

(** The remaining examples of the specification. *)

Example spec_example_2 :
  rendered (Sprintf (heapOf []) (str "a = %[1]s, b = %[1]s WHERE c = %s")
              [Leaf (VString "v"); Leaf (VString "w")]) =
  Some (str "a = $1, b = $1 WHERE c = $2", [VString "v"; VString "w"]).
Proof. vm_compute. reflexivity. Qed.

Example spec_example_5 :
  rendered (Sprintf (heapOf []) (str "x <<%% %s") [Leaf (VString "q")]) =
  Some (str "x <<% $1", [VString "q"]).
Proof. vm_compute. reflexivity. Qed.


(** * The explicit path *)

Section FirstRefs.

Lemma firstRefs_snoc (ks : list key) (k : key) :
  firstRefs (ks ++ [k]) =
  if decide (k ∈ firstRefs ks) then firstRefs ks else firstRefs ks ++ [k].
Proof. unfold firstRefs. rewrite fold_left_app. reflexivity. Qed.

Lemma elem_of_firstRefs (ks : list key) (k : key) : k ∈ firstRefs ks <-> k ∈ ks.
Proof.
  induction ks as [|x ks IH] using rev_ind.
  - reflexivity.
  - rewrite firstRefs_snoc. destruct (decide (x ∈ firstRefs ks)) as [Hin|Hin];
      rewrite !elem_of_app, ?list_elem_of_singleton; split; intros H.
    + left. apply IH, H.
    + destruct H as [H| ->]; [apply IH, H | exact Hin].
    + destruct H as [H|H]; [left; apply IH, H | right; exact H].
    + destruct H as [H|H]; [left; apply IH, H | right; exact H].
Qed.

Lemma NoDup_firstRefs (ks : list key) : NoDup (firstRefs ks).
Proof.
  induction ks as [|x ks IH] using rev_ind.
  - constructor.
  - rewrite firstRefs_snoc. destruct (decide (x ∈ firstRefs ks)) as [Hin|Hin]; [exact IH|].
    apply NoDup_app. split; [exact IH|]. split.
    + intros y Hy Hy'. apply list_elem_of_singleton in Hy'. subst. contradiction.
    + apply NoDup_singleton.
Qed.

Lemma before_app_elem (k : key) (l l' : list key) : k ∈ l -> before k (l ++ l') = before k l.
Proof.
  induction l as [|x l IH]; intros Hin.
  - inversion Hin.
  - simpl. destruct (decide (x = k)); [reflexivity|].
    f_equal. apply IH. apply elem_of_cons in Hin. destruct Hin; [congruence | assumption].
Qed.

Lemma before_fresh (k : key) (l l' : list key) : k ∉ l -> before k (l ++ k :: l') = l.
Proof.
  induction l as [|x l IH]; intros Hin; simpl.
  - destruct (decide (k = k)); congruence.
  - destruct (decide (x = k)) as [->|].
    + exfalso. apply Hin. left.
    + f_equal. apply IH. intros H. apply Hin. right. exact H.
Qed.

Lemma before_split (k : key) (l : list key) :
  k ∈ l -> exists post, l = before k l ++ k :: post /\ k ∉ before k l.
Proof.
  induction l as [|x l IH]; intros Hin.
  - inversion Hin.
  - simpl. destruct (decide (x = k)) as [->|Hne].
    + exists l. split; [reflexivity | apply not_elem_of_nil].
    + apply elem_of_cons in Hin. destruct Hin as [->|Hin]; [congruence|].
      destruct (IH Hin) as (post & Heq & Hnot). exists post. split.
      * simpl. f_equal. exact Heq.
      * intros H. apply elem_of_cons in H. destruct H; [congruence | contradiction].
Qed.

End FirstRefs.

Section ExplicitLoop.

Variable h : Heap.
Variable format : gostring.
Variable fargs : list Arg.

Local Abbreviation contrib' := (contrib h fargs).
Local Abbreviation offsetOf' := (offsetOf h fargs).

Lemma Inv_init : Inv h fargs initState [].
Proof.
  split; simpl; try reflexivity; intros x; rewrite lookup_empty;
    case_decide as H; solve [inversion H | reflexivity].
Qed.

Lemma offsetOf_snoc_old (ks : list key) (k k' : key) :
  k ∈ ks -> offsetOf' (ks ++ [k']) k = offsetOf' ks k.
Proof.
  intros Hin. unfold offsetOf. rewrite firstRefs_snoc.
  destruct (decide (k' ∈ firstRefs ks)); [reflexivity|].
  rewrite before_app_elem; [reflexivity | apply elem_of_firstRefs, Hin].
Qed.

Lemma offsetOf_snoc_new (ks : list key) (k : key) :
  k ∉ ks -> offsetOf' (ks ++ [k]) k = length (flat_map contrib' (firstRefs ks)).
Proof.
  intros Hin. unfold offsetOf. rewrite firstRefs_snoc.
  destruct (decide (k ∈ firstRefs ks)) as [H|H].
  - exfalso. apply Hin. apply elem_of_firstRefs. exact H.
  - rewrite before_fresh; [reflexivity | exact H].
Qed.

Lemma blocks_snoc_old (ks : list key) (k' : key) :
  flat_map (fun k => block h (offsetOf' (ks ++ [k']) k) k) ks =
  flat_map (fun k => block h (offsetOf' ks k) k) ks.
Proof.
  assert (forall l, (forall k, k ∈ l -> k ∈ ks) ->
    flat_map (fun k => block h (offsetOf' (ks ++ [k']) k) k) l =
    flat_map (fun k => block h (offsetOf' ks k) k) l) as H.
  { induction l as [|x l IH]; intros Hl; [reflexivity|]. simpl.
    rewrite offsetOf_snoc_old by (apply Hl; left). f_equal. apply IH.
    intros k Hk. apply Hl. right. exact Hk. }
  apply H. auto.
Qed.


Lemma Inv_old_key (st : state) (ks : list key) (k : key) rf e c :
  k ∈ ks ->
  Inv h fargs st ks ->
  Inv h fargs
    (mkState rf (s_argIndices st ++ block h (offsetOf' ks k) k) (resultArgs st)
       (argToResultPos st) (nestedQueries st) e c)
    (ks ++ [k]).
Proof.
  intros Hin [Ha Hi Hl Hn]. split; simpl.
  - rewrite firstRefs_snoc. rewrite decide_True by (apply elem_of_firstRefs, Hin). exact Ha.
  - rewrite flat_map_app. simpl. rewrite ?app_nil_r, blocks_snoc_old, offsetOf_snoc_old by exact Hin.
    rewrite Hi. reflexivity.
  - intros i. rewrite Hl. destruct (decide (KLeaf i ∈ ks)) as [H|H].
    + rewrite decide_True by (apply elem_of_app; left; exact H).
      rewrite offsetOf_snoc_old by exact H. reflexivity.
    + rewrite decide_False; [reflexivity|]. intros H'. apply elem_of_app in H'.
      destruct H' as [H'|H']; [contradiction|]. apply list_elem_of_singleton in H'. subst. contradiction.
  - intros p. rewrite Hn. destruct (decide (KRef p ∈ ks)) as [H|H].
    + rewrite decide_True by (apply elem_of_app; left; exact H).
      rewrite offsetOf_snoc_old by exact H. reflexivity.
    + rewrite decide_False; [reflexivity|]. intros H'. apply elem_of_app in H'.
      destruct H' as [H'|H']; [contradiction|]. apply list_elem_of_singleton in H'. subst. contradiction.
Qed.

Lemma Inv_new_leaf (st : state) (ks : list key) (i : Z) (v : Value) rf e c :
  KLeaf i ∉ ks ->
  fargs !! Z.to_nat i = Some (Leaf v) ->
  Inv h fargs st ks ->
  Inv h fargs
    (mkState rf (s_argIndices st ++ [length (resultArgs st)]) (resultArgs st ++ [v])
       (<[i := length (resultArgs st)]> (argToResultPos st)) (nestedQueries st)
       e c)
    (ks ++ [KLeaf i]).
Proof.
  intros Hin Hv [Ha Hi Hl Hn].
  assert (offsetOf' (ks ++ [KLeaf i]) (KLeaf i) = length (resultArgs st)) as Hoff.
  { rewrite offsetOf_snoc_new by exact Hin. rewrite Ha. reflexivity. }
  split; simpl.
  - rewrite firstRefs_snoc. rewrite decide_False by (rewrite elem_of_firstRefs; exact Hin).
    rewrite flat_map_app. simpl. rewrite Hv, Ha. reflexivity.
  - rewrite flat_map_app. simpl. rewrite ?app_nil_r, blocks_snoc_old, Hoff, Hi. reflexivity.
  - intros j. destruct (decide (i = j)) as [<-|Hne].
    + rewrite lookup_insert_eq. rewrite decide_True by (apply elem_of_app; right; left).
      rewrite Hoff. reflexivity.
    + rewrite lookup_insert_ne by exact Hne. rewrite Hl.
      destruct (decide (KLeaf j ∈ ks)) as [H|H].
      * rewrite decide_True by (apply elem_of_app; left; exact H).
        rewrite offsetOf_snoc_old by exact H. reflexivity.
      * rewrite decide_False; [reflexivity|]. intros H'. apply elem_of_app in H'.
        destruct H' as [H'|H']; [contradiction|]. apply list_elem_of_singleton in H'. congruence.
  - intros p. rewrite Hn. destruct (decide (KRef p ∈ ks)) as [H|H].
    + rewrite decide_True by (apply elem_of_app; left; exact H).
      rewrite offsetOf_snoc_old by exact H. reflexivity.
    + rewrite decide_False; [reflexivity|]. intros H'. apply elem_of_app in H'.
      destruct H' as [H'|H']; [contradiction|]. apply list_elem_of_singleton in H'. congruence.
Qed.

Lemma Inv_new_ref (st : state) (ks : list key) (p : Ptr) rf e c :
  KRef p ∉ ks ->
  Inv h fargs st ks ->
  Inv h fargs
    (mkState rf
       (s_argIndices st ++ map (fun x => length (resultArgs st) + x) (normIndices (h p)))
       (resultArgs st ++ args (h p)) (argToResultPos st)
       (<[p := mkNestedInfo (length (resultArgs st)) (fmt (h p)) (normIndices (h p))]>
          (nestedQueries st))
       e c)
    (ks ++ [KRef p]).
Proof.
  intros Hin [Ha Hi Hl Hn].
  assert (offsetOf' (ks ++ [KRef p]) (KRef p) = length (resultArgs st)) as Hoff.
  { rewrite offsetOf_snoc_new by exact Hin. rewrite Ha. reflexivity. }
  split; simpl.
  - rewrite firstRefs_snoc. rewrite decide_False by (rewrite elem_of_firstRefs; exact Hin).
    rewrite flat_map_app. simpl. rewrite app_nil_r, Ha. reflexivity.
  - rewrite flat_map_app. simpl. rewrite ?app_nil_r, blocks_snoc_old, Hoff, Hi. reflexivity.
  - intros j. rewrite Hl. destruct (decide (KLeaf j ∈ ks)) as [H|H].
    + rewrite decide_True by (apply elem_of_app; left; exact H).
      rewrite offsetOf_snoc_old by exact H. reflexivity.
    + rewrite decide_False; [reflexivity|]. intros H'. apply elem_of_app in H'.
      destruct H' as [H'|H']; [contradiction|]. apply list_elem_of_singleton in H'. congruence.
  - intros q. destruct (decide (p = q)) as [<-|Hne].
    + rewrite lookup_insert_eq. rewrite decide_True by (apply elem_of_app; right; left).
      rewrite Hoff. reflexivity.
    + rewrite lookup_insert_ne by exact Hne. rewrite Hn.
      destruct (decide (KRef q ∈ ks)) as [H|H].
      * rewrite decide_True by (apply elem_of_app; left; exact H).
        rewrite offsetOf_snoc_old by exact H. reflexivity.
      * rewrite decide_False; [reflexivity|]. intros H'. apply elem_of_app in H'.
        destruct H' as [H'|H']; [contradiction|]. apply list_elem_of_singleton in H'. congruence.
Qed.


Lemma inRange_lookup (i : Z) :
  inRange (length fargs) i = true -> exists arg, fargs !! Z.to_nat i = Some arg.
Proof.
  unfold inRange. intros H. apply andb_true_iff in H. destruct H as [H0 H1].
  apply Z.leb_le in H0. apply Z.ltb_lt in H1.
  apply lookup_lt_is_Some_2. lia.
Qed.

Lemma step_panic (st : state) (d : directive) :
  isLiteral d = false ->
  inRange (length fargs) (fst (resolve d (currentImplicitArg st))) = false ->
  step h format fargs st d =
  Panic (outOfRange (fst (resolve d (currentImplicitArg st))) (length fargs)).
Proof.
  intros Hlit Hr. unfold step. rewrite Hlit.
  destruct (resolve d (currentImplicitArg st)) as [i cur'] eqn:Hres. simpl in *.
  unfold inRange in Hr.
  destruct (i <? 0)%Z eqn:H0; [reflexivity|].
  destruct (Z.of_nat (length fargs) <=? i)%Z eqn:H1; [reflexivity|]. exfalso.
  apply Z.ltb_ge in H0. apply Z.leb_gt in H1.
  apply andb_false_iff in Hr. destruct Hr as [Hr|Hr]; [apply Z.leb_gt in Hr | apply Z.ltb_ge in Hr]; lia.
Qed.

Lemma step_literal (st : state) (d : directive) (ks : list key) :
  isLiteral d = true ->
  Inv h fargs st ks ->
  exists st', step h format fargs st d = Ok st'
    /\ Inv h fargs st' ks
    /\ currentImplicitArg st' = currentImplicitArg st
    /\ lastEnd st' = d_end d
    /\ resultFmt st' = (resultFmt st ++ slice format (lastEnd st) (d_start d)) ++ str "%%".
Proof.
  intros Hlit [Ha Hi Hl Hn]. unfold step. rewrite Hlit. eexists. split; [reflexivity|].
  split; [split; assumption|]. simpl. auto.
Qed.

Lemma step_ok (st : state) (d : directive) (ks : list key) :
  isLiteral d = false ->
  inRange (length fargs) (fst (resolve d (currentImplicitArg st))) = true ->
  Inv h fargs st ks ->
  exists st', step h format fargs st d = Ok st'
    /\ Inv h fargs st' (ks ++ [keyAt fargs (fst (resolve d (currentImplicitArg st)))])
    /\ currentImplicitArg st' = snd (resolve d (currentImplicitArg st))
    /\ lastEnd st' = d_end d
    /\ resultFmt st' = (resultFmt st ++ slice format (lastEnd st) (d_start d))
         ++ replacement h (keyAt fargs (fst (resolve d (currentImplicitArg st)))).
Proof.
  intros Hlit Hr HI. unfold step. rewrite Hlit.
  destruct (resolve d (currentImplicitArg st)) as [i cur'] eqn:Hres. simpl in *.
  destruct (inRange_lookup i Hr) as [arg Harg].
  unfold inRange in Hr. apply andb_true_iff in Hr. destruct Hr as [H0 H1].
  apply Z.leb_le in H0. apply Z.ltb_lt in H1.
  destruct (i <? 0)%Z eqn:E0; [apply Z.ltb_lt in E0; lia|].
  destruct (Z.of_nat (length fargs) <=? i)%Z eqn:E1; [apply Z.leb_le in E1; lia|]. simpl.
  unfold keyAt. rewrite Harg. destruct arg as [v|p].
  - rewrite (inv_leaf _ _ _ _ HI). assert (keyAt fargs i = KLeaf i) as Hk by (unfold keyAt; rewrite Harg; reflexivity).
    destruct (decide (KLeaf i ∈ ks)) as [Hin|Hin]; eexists; (split; [reflexivity|]); simpl.
    + split; [|auto]. apply (Inv_old_key st ks (KLeaf i)); assumption.
    + split; [|auto]. apply Inv_new_leaf; assumption.
  - rewrite (inv_nested _ _ _ _ HI).
    destruct (decide (KRef p ∈ ks)) as [Hin|Hin]; eexists; (split; [reflexivity|]); simpl.
    + split; [|auto]. apply (Inv_old_key st ks (KRef p)); assumption.
    + split; [|auto]. apply Inv_new_ref; assumption.
Qed.

(** The loop panics at the first resolved index out of range. *)
Lemma loop_panic (ds : list directive) (st : state) (pre post : list Z) (i : Z) (ks : list key) :
  resolveAll ds (currentImplicitArg st) = pre ++ i :: post ->
  forallb (inRange (length fargs)) pre = true ->
  inRange (length fargs) i = false ->
  Inv h fargs st ks ->
  loop h format fargs ds st = Panic (outOfRange i (length fargs)).
Proof.
  revert st pre ks. induction ds as [|d ds IH]; intros st pre ks Hres Hpre Hi HI.
  - destruct pre; discriminate.
  - simpl in *. destruct (isLiteral d) eqn:Hlit.
    + destruct (step_literal st d ks Hlit HI) as (st' & Hs & HI' & Hc & _).
      rewrite Hs. apply (IH st' pre ks); [rewrite Hc|..]; assumption.
    + destruct pre as [|j pre]; simpl in *.
      * injection Hres as Hj _. rewrite step_panic; [congruence | assumption | congruence].
      * injection Hres as Hj Hrest. apply andb_true_iff in Hpre. destruct Hpre as [Hj' Hpre].
        subst j. destruct (step_ok st d ks Hlit Hj' HI) as (st' & Hs & HI' & Hc & _).
        rewrite Hs. eapply (IH st' pre); [rewrite Hc|..]; eassumption.
Qed.

(** When every resolved index is in range the loop runs to the end. *)
Lemma loop_ok (ds : list directive) (st : state) (ks : list key) :
  forallb (inRange (length fargs)) (resolveAll ds (currentImplicitArg st)) = true ->
  Inv h fargs st ks ->
  exists st', loop h format fargs ds st = Ok st'
    /\ Inv h fargs st' (ks ++ map (keyAt fargs) (resolveAll ds (currentImplicitArg st)))
    /\ resultFmt st' ++ sliceFrom format (lastEnd st') =
       resultFmt st ++ composeText h format fargs ds (lastEnd st) (currentImplicitArg st).
Proof.
  revert st ks. induction ds as [|d ds IH]; intros st ks Hall HI.
  - exists st. simpl. rewrite app_nil_r. auto.
  - simpl in *. destruct (isLiteral d) eqn:Hlit.
    + destruct (step_literal st d ks Hlit HI) as (st' & Hs & HI' & Hc & He & Hf).
      rewrite Hs. rewrite <- Hc in Hall. destruct (IH st' ks Hall HI') as (st'' & Hl & HI'' & Hf').
      exists st''. split; [exact Hl|]. rewrite <- Hc. split; [exact HI''|].
      rewrite Hf', Hf, He, <- !app_assoc. reflexivity.
    + simpl in Hall. apply andb_true_iff in Hall. destruct Hall as [Hj Hall].
      destruct (step_ok st d ks Hlit Hj HI) as (st' & Hs & HI' & Hc & He & Hf).
      rewrite Hs. rewrite <- Hc in Hall. destruct (IH st' _ Hall HI') as (st'' & Hl & HI'' & Hf').
      exists st''. split; [exact Hl|]. rewrite <- Hc. split.
      * rewrite <- app_assoc in HI''. exact HI''.
      * rewrite Hf', Hf, He, <- !app_assoc. reflexivity.
Qed.

End ExplicitLoop.

(** Splitting a list at the first element that fails a test. *)
Lemma first_failure {A} (f : A -> bool) (l : list A) :
  forallb f l = false ->
  exists pre x post, l = pre ++ x :: post /\ forallb f pre = true /\ f x = false.
Proof.
  induction l as [|a l IH]; intros H; [discriminate|]. simpl in H.
  destruct (f a) eqn:Ha.
  - simpl in H. destruct (IH H) as (pre & x & post & -> & Hp & Hx).
    exists (a :: pre), x, post. simpl. rewrite Ha, Hp. auto.
  - exists [], a, l. auto.
Qed.

(** ** What [sprintfExplicit] computes *)

Lemma sprintfExplicit_panic (h : Heap) (format : gostring) (fargs : list Arg)
    (pre post : list Z) (i : Z) :
  resolveAll (parseDirectives format) 0%Z = pre ++ i :: post ->
  forallb (inRange (length fargs)) pre = true ->
  inRange (length fargs) i = false ->
  sprintfExplicit h format fargs = Panic (outOfRange i (length fargs)).
Proof.
  intros Hres Hpre Hi. unfold sprintfExplicit.
  rewrite (loop_panic h format fargs _ initState pre post i [] Hres Hpre Hi (Inv_init h fargs)).
  reflexivity.
Qed.

Lemma sprintfExplicit_ok (h : Heap) (format : gostring) (fargs : list Arg) :
  forallb (inRange (length fargs)) (resolveAll (parseDirectives format) 0%Z) = true ->
  sprintfExplicit h format fargs =
  Ok (mkQuery
        (composeText h format fargs (parseDirectives format) 0 0%Z)
        (flat_map (contrib h fargs) (firstRefs (placeholderKeys format fargs)))
        (sliceOf (flat_map (fun k => block h (offsetOf h fargs (placeholderKeys format fargs) k) k)
                    (placeholderKeys format fargs)))).
Proof.
  intros Hall. unfold sprintfExplicit.
  destruct (loop_ok h format fargs _ initState [] Hall (Inv_init h fargs)) as (st & Hl & HI & Hf).
  rewrite Hl. simpl in *. rewrite Hf.
  rewrite (inv_args _ _ _ _ HI), (inv_indices _ _ _ _ HI). reflexivity.
Qed.

(** The explicit path either panics at the first placeholder out of
    range or returns the closed form. *)
Lemma sprintfExplicit_result (h : Heap) (format : gostring) (fargs : list Arg) (r : Query) :
  sprintfExplicit h format fargs = Ok r ->
  forallb (inRange (length fargs)) (resolveAll (parseDirectives format) 0%Z) = true
  /\ fmt r = composeText h format fargs (parseDirectives format) 0 0%Z
  /\ args r = flat_map (contrib h fargs) (firstRefs (placeholderKeys format fargs))
  /\ indexList r =
     flat_map (fun k => block h (offsetOf h fargs (placeholderKeys format fargs) k) k)
       (placeholderKeys format fargs).
Proof.
  intros Hr.
  destruct (forallb (inRange (length fargs)) (resolveAll (parseDirectives format) 0%Z)) eqn:Hall.
  - rewrite (sprintfExplicit_ok h format fargs Hall) in Hr. injection Hr as <-. simpl.
    repeat split. unfold indexList. simpl.
    destruct (flat_map _ _); reflexivity.
  - destruct (first_failure _ _ Hall) as (pre & x & post & Heq & Hp & Hx).
    rewrite (sprintfExplicit_panic h format fargs pre post x Heq Hp Hx) in Hr. discriminate.
Qed.

(** * Index resolution *)

Lemma resolveAll_implicit (ds : list directive) (cur : Z) :
  Forall (fun x => hasIndex x = false) ds ->
  resolveAll ds cur = map (fun j => (cur + Z.of_nat j)%Z) (seq 0 (countPlaceholders ds)).
Proof.
  intros H. revert cur. induction H as [|d ds Hd _ IH]; intros cur; [reflexivity|].
  unfold countPlaceholders in *. simpl. rewrite filter_cons.
  destruct (isLiteral d) eqn:Hlit.
  - rewrite decide_False by discriminate. apply IH.
  - rewrite decide_True by reflexivity. unfold resolve. rewrite Hd. simpl.
    rewrite Z.add_0_r. f_equal. rewrite IH, <- seq_shift, map_map.
    apply map_ext. intros j. lia.
Qed.

(** * Join *)

Lemma joinLoop_fmt (b : bool) (qs : list Query) (off : nat) :
  fst (fst (joinLoop b qs off)) = map fmt qs.
Proof.
  revert off. induction qs as [|q qs IH]; intros off; [reflexivity|]. simpl.
  specialize (IH (off + length (args q))).
  destruct (joinLoop b qs (off + length (args q))) as [[f a] ai]. simpl in *. congruence.
Qed.

Lemma joinLoop_args (b : bool) (qs : list Query) (off : nat) :
  snd (fst (joinLoop b qs off)) = concat (map args qs).
Proof.
  revert off. induction qs as [|q qs IH]; intros off; [reflexivity|]. simpl.
  specialize (IH (off + length (args q))).
  destruct (joinLoop b qs (off + length (args q))) as [[f a] ai]. simpl in *. congruence.
Qed.

Lemma joinLoop_indices_false (qs : list Query) (off : nat) :
  snd (joinLoop false qs off) = [].
Proof.
  revert off. induction qs as [|q qs IH]; intros off; [reflexivity|]. simpl.
  specialize (IH (off + length (args q))).
  destruct (joinLoop false qs (off + length (args q))) as [[f a] ai]. simpl in *. congruence.
Qed.

Lemma joinLoop_indices_true (qs : list Query) (off : nat) :
  snd (joinLoop true qs off) =
  concat (imap (fun i q => map (fun x => off + runningOffset qs i + x) (normIndices q)) qs).
Proof.
  revert off. induction qs as [|q qs IH]; intros off; [reflexivity|]. simpl.
  specialize (IH (off + length (args q))).
  destruct (joinLoop true qs (off + length (args q))) as [[f a] ai]. simpl in *. subst ai.
  f_equal.
  - unfold normIndices, runningOffset. simpl.
    destruct (argIndices q); apply map_ext; intros x; lia.
  - f_equal. apply imap_ext. intros i x _. simpl. apply map_ext. intros y.
    unfold runningOffset. simpl. rewrite length_app. lia.
Qed.

(** [Join] in closed form. *)
Lemma Join_closed_form (qs : list Query) (sep : gostring) :
  fmt (Join qs sep) = stringsJoin (map fmt qs) (str " " ++ sep ++ str " ")
  /\ Query_Args (Join qs sep) = concat (map Query_Args qs)
  /\ argIndices (Join qs sep) =
     if existsb hasArgIndices qs then sliceOf (mergedIndices qs) else None.
Proof.
  unfold Join, Query_Args.
  pose proof (joinLoop_fmt (existsb hasArgIndices qs) qs 0) as Hf.
  pose proof (joinLoop_args (existsb hasArgIndices qs) qs 0) as Ha.
  destruct (existsb hasArgIndices qs) eqn:Hb.
  - pose proof (joinLoop_indices_true qs 0) as Hi.
    destruct (joinLoop true qs 0) as [[f a] ai]. simpl in *. subst. repeat split.
  - destruct (joinLoop false qs 0) as [[f a] ai]. simpl in *. subst. repeat split.
Qed.

(** C6. [Join] concatenates the templates with the separator between
    single spaces and the arguments in order.  When some input carries
    an index list the result carries the normalized lists, each shifted
    by its input's running argument offset, one after the other (as a Go
    slice: nil when that is empty); when none does, the result carries
    none. *)
Theorem join_spec (qs : list Query) (sep : gostring) :
  fmt (Join qs sep) = stringsJoin (map fmt qs) (str " " ++ sep ++ str " ")
  /\ Query_Args (Join qs sep) = concat (map Query_Args qs)
  /\ argIndices (Join qs sep) =
     if existsb hasArgIndices qs then sliceOf (mergedIndices qs) else None.
Proof. exact (Join_closed_form qs sep). Qed.

(** * Errors of the explicit path *)

Lemma resolveAll_app (ds1 ds2 : list directive) (cur : Z) :
  resolveAll (ds1 ++ ds2) cur = resolveAll ds1 cur ++ resolveAll ds2 (counterAfter ds1 cur).
Proof.
  revert cur. induction ds1 as [|d ds1 IH]; intros cur; [reflexivity|]. simpl.
  destruct (isLiteral d); [apply IH|]. simpl. f_equal. apply IH.
Qed.

Lemma scan_literal (fuel i : nat) (s : gostring) (d : directive) :
  d ∈ scan fuel i s -> isLiteral d = true -> hasIndex d = false.
Proof.
  revert i s. induction fuel as [|fuel IH]; intros i s Hin Hlit; [inversion Hin|].
  simpl in Hin. destruct s as [|c s1]; [inversion Hin|].
  destruct (negb (isPercent c)); [eapply IH; eassumption|].
  destruct s1 as [|c1 s2]; [inversion Hin|].
  destruct (isPercent c1).
  - apply elem_of_cons in Hin. destruct Hin as [->|Hin]; [reflexivity | eapply IH; eassumption].
  - destruct (parseDecor (c1 :: s2)) as [[hi ix] s3]. destruct s3 as [|v s4]; [inversion Hin|].
    apply elem_of_cons in Hin. destruct Hin as [->|Hin]; [discriminate | eapply IH; eassumption].
Qed.

Lemma in_resolveAll_fails (n : nat) (l : list Z) (i : Z) :
  i ∈ l -> inRange n i = false -> forallb (inRange n) l = false.
Proof.
  intros Hin Hi. destruct (forallb (inRange n) l) eqn:H; [|reflexivity].
  rewrite forallb_forall in H. rewrite H in Hi; [discriminate|]. apply list_elem_of_In, Hin.
Qed.

(** C5, on the input that refutes it.  The identity path does not
    validate anything: a template whose only placeholder has no
    argument is composed without a panic, the text that package [fmt]
    prints for a missing operand ending up in the template. *)
Lemma missing_argument_identity_path :
  resolveAll (parseDirectives (str "a = %s")) 0%Z = [0%Z]
  /\ inRange (length (@nil Arg)) 0%Z = false
  /\ Sprintf (heapOf []) (str "a = %s") [] = Ok (mkQuery (str "a = %!s(MISSING)") [] None)
  /\ ~ (exists msg, Sprintf (heapOf []) (str "a = %s") [] = Panic msg).
Proof.
  split; [reflexivity|]. split; [reflexivity|].
  assert (Sprintf (heapOf []) (str "a = %s") [] = Ok (mkQuery (str "a = %!s(MISSING)") [] None)) as H
    by (vm_compute; reflexivity).
  split; [exact H|]. intros [msg Hm]. rewrite H in Hm. discriminate.
Qed.

(** The explicit path panics at the first directive whose resolved index
    is out of range, naming its 1-based index and the argument count. *)
Lemma first_out_of_range (h : Heap) (format : gostring) (fargs : list Arg) (i : Z) :
  needsExplicitPath h format fargs = true ->
  i ∈ resolveAll (parseDirectives format) 0%Z ->
  inRange (length fargs) i = false ->
  exists pre j post,
    resolveAll (parseDirectives format) 0%Z = pre ++ j :: post
    /\ forallb (inRange (length fargs)) pre = true
    /\ inRange (length fargs) j = false
    /\ Sprintf h format fargs =
       Panic (str "sqlf.Sprintf: argument index [" ++ itoa (j + 1) ++ str "] out of range; have "
              ++ itoa (Z.of_nat (length fargs)) ++ str " args").
Proof.
  intros Hpath Hin Hi.
  destruct (first_failure _ _ (in_resolveAll_fails _ _ _ Hin Hi)) as (pre & j & post & Heq & Hp & Hj).
  exists pre, j, post. repeat (split; [assumption|]).
  unfold Sprintf. rewrite Hpath. exact (sprintfExplicit_panic h format fargs pre post j Heq Hp Hj).
Qed.

(** C5, amended.  On the explicit path, a non-literal directive whose
    resolved index is outside [[0, argCount)] makes [Sprintf] panic: no
    query is returned, and the message names the 1-based index of the
    first such directive and the number of arguments. *)
Theorem out_of_range_panics (h : Heap) (format : gostring) (fargs : list Arg) (i : Z) :
  needsExplicitPath h format fargs = true ->
  i ∈ resolveAll (parseDirectives format) 0%Z ->
  inRange (length fargs) i = false ->
  exists pre j post,
    resolveAll (parseDirectives format) 0%Z = pre ++ j :: post
    /\ forallb (inRange (length fargs)) pre = true
    /\ inRange (length fargs) j = false
    /\ Sprintf h format fargs =
       Panic (str "sqlf.Sprintf: argument index [" ++ itoa (j + 1) ++ str "] out of range; have "
              ++ itoa (Z.of_nat (length fargs)) ++ str " args").
Proof. exact (first_out_of_range h format fargs i). Qed.

Lemma out_of_range_panics_witness :
  exists pre j post,
    resolveAll (parseDirectives (str "a = %[3]s")) 0%Z = pre ++ j :: post
    /\ forallb (inRange 1) pre = true
    /\ inRange 1 j = false
    /\ Sprintf (heapOf []) (str "a = %[3]s") [Leaf (VInt 7)] =
       Panic (str "sqlf.Sprintf: argument index [" ++ itoa (j + 1) ++ str "] out of range; have "
              ++ itoa (Z.of_nat 1) ++ str " args").
Proof.
  apply (out_of_range_panics (heapOf []) (str "a = %[3]s") [Leaf (VInt 7)] 2%Z);
    [reflexivity | left | reflexivity].
Defined.

(** C10, on the input that refutes it.  With a directive out of range
    before the one indexed [[0]], the panic reports that earlier
    directive, not index 0. *)
Lemma zero_index_not_reported :
  (exists d, d ∈ parseDirectives (str "%[5]s %[0]s") /\ hasIndex d = true /\ index d = 0%Z)
  /\ Sprintf (heapOf []) (str "%[5]s %[0]s") [Leaf (VInt 1)] =
     Panic (str "sqlf.Sprintf: argument index [5] out of range; have 1 args")
  /\ Sprintf (heapOf []) (str "%[5]s %[0]s") [Leaf (VInt 1)] <>
     Panic (str "sqlf.Sprintf: argument index [0] out of range; have 1 args").
Proof.
  split.
  - exists (mkDirective 6 11 true 0%Z false). split; [|auto]. right. left.
  - assert (Sprintf (heapOf []) (str "%[5]s %[0]s") [Leaf (VInt 1)] =
            Panic (str "sqlf.Sprintf: argument index [5] out of range; have 1 args")) as H
      by (vm_compute; reflexivity).
    split; [exact H|]. rewrite H. intros Heq. inversion Heq.
Qed.

(** C10, amended.  A template with a directive indexed [[0]] never
    composes, whatever the arguments: the scanner accepts the index, it
    resolves to -1, and [Sprintf] panics with the index-out-of-range
    error.  The error reports the first directive that is out of range:
    index 0 when every directive before the [[0]] one resolves in
    range. *)
Theorem zero_index_panics (h : Heap) (format : gostring) (fargs : list Arg)
    (ds1 ds2 : list directive) (d : directive) :
  parseDirectives format = ds1 ++ d :: ds2 ->
  hasIndex d = true ->
  index d = 0%Z ->
  (exists j, inRange (length fargs) j = false
     /\ Sprintf h format fargs =
        Panic (str "sqlf.Sprintf: argument index [" ++ itoa (j + 1) ++ str "] out of range; have "
               ++ itoa (Z.of_nat (length fargs)) ++ str " args"))
  /\ (forallb (inRange (length fargs)) (resolveAll ds1 0%Z) = true ->
      Sprintf h format fargs =
      Panic (str "sqlf.Sprintf: argument index [0] out of range; have "
             ++ itoa (Z.of_nat (length fargs)) ++ str " args")).
Proof.
  intros Hds Hhi Hix0.
  assert (isLiteral d = false) as Hlit.
  { destruct (isLiteral d) eqn:E; [|reflexivity].
    assert (d ∈ parseDirectives format) as Hin by (rewrite Hds; apply elem_of_app; right; left).
    rewrite (scan_literal _ _ _ _ Hin E) in Hhi. discriminate. }
  assert (needsExplicitPath h format fargs = true) as Hpath.
  { unfold needsExplicitPath. apply orb_true_iff. right. apply existsb_exists.
    exists d. split; [|exact Hhi]. rewrite Hds. apply in_or_app. right. left. reflexivity. }
  assert (resolveAll (parseDirectives format) 0%Z =
          resolveAll ds1 0%Z ++ (-1)%Z :: resolveAll ds2 0%Z) as Hres.
  { rewrite Hds, resolveAll_app. simpl. rewrite Hlit. unfold resolve. rewrite Hhi, Hix0. reflexivity. }
  assert (inRange (length fargs) (-1) = false) as Hm1 by reflexivity.
  split.
  - assert ((-1)%Z ∈ resolveAll (parseDirectives format) 0%Z) as Hin.
    { rewrite Hres. apply elem_of_app. right. left. }
    destruct (first_out_of_range h format fargs (-1)%Z Hpath Hin Hm1)
      as (pre & j & post & _ & _ & Hj & Hs).
    exists j. auto.
  - intros Hpre. unfold Sprintf. rewrite Hpath.
    exact (sprintfExplicit_panic h format fargs _ _ _ Hres Hpre Hm1).
Qed.

Lemma zero_index_panics_witness :
  (exists j, inRange 1 j = false
     /\ Sprintf (heapOf []) (str "a = %[0]s") [Leaf (VInt 7)] =
        Panic (str "sqlf.Sprintf: argument index [" ++ itoa (j + 1) ++ str "] out of range; have "
               ++ itoa (Z.of_nat 1) ++ str " args"))
  /\ (forallb (inRange 1) (resolveAll [] 0%Z) = true ->
      Sprintf (heapOf []) (str "a = %[0]s") [Leaf (VInt 7)] =
      Panic (str "sqlf.Sprintf: argument index [0] out of range; have "
             ++ itoa (Z.of_nat 1) ++ str " args")).
Proof.
  apply (zero_index_panics (heapOf []) (str "a = %[0]s") [Leaf (VInt 7)]
           [] [] (mkDirective 4 9 true 0%Z false)); reflexivity.
Defined.

(** * Slots of the explicit path *)

Lemma before_order (k1 k2 : key) (l : list key) :
  k1 ∈ l -> k2 ∈ l -> k1 <> k2 ->
  (exists mid, before k2 l = before k1 l ++ k1 :: mid)
  \/ (exists mid, before k1 l = before k2 l ++ k2 :: mid).
Proof.
  intros H1 H2 Hne. induction l as [|x l IH]; [inversion H1|]. simpl.
  destruct (decide (x = k1)) as [->|Hx1].
  - left. rewrite decide_False by exact Hne. eexists. reflexivity.
  - destruct (decide (x = k2)) as [->|Hx2].
    + right. eexists. reflexivity.
    + apply elem_of_cons in H1. destruct H1 as [->|H1]; [congruence|].
      apply elem_of_cons in H2. destruct H2 as [->|H2]; [congruence|].
      destruct (IH H1 H2) as [[mid ->]|[mid ->]]; [left | right]; exists mid; reflexivity.
Qed.

Lemma blocks_of_keys (h : Heap) (fargs : list Arg) (ks : list key) (l : list nat) :
  l = flat_map (fun k => block h (offsetOf h fargs ks k) k) ks ->
  exists blocks, l = concat blocks /\ length blocks = length ks
    /\ forall j k, ks !! j = Some k -> blocks !! j = Some (block h (offsetOf h fargs ks k) k).
Proof.
  intros ->. exists (map (fun k => block h (offsetOf h fargs ks k) k) ks).
  split; [apply flat_map_concat_map|]. split; [apply length_map|].
  intros j k Hj. rewrite list_lookup_fmap, Hj. reflexivity.
Qed.

Lemma leaf_key_arg (fargs : list Arg) (l : list Z) (i : Z) :
  forallb (inRange (length fargs)) l = true ->
  KLeaf i ∈ map (keyAt fargs) l ->
  exists v, fargs !! Z.to_nat i = Some (Leaf v).
Proof.
  intros Hall Hin. apply list_elem_of_fmap in Hin. destruct Hin as (i0 & Hk & Hi0).
  rewrite forallb_forall in Hall. specialize (Hall i0 (proj1 (list_elem_of_In _ _) Hi0)).
  destruct (inRange_lookup fargs i0 Hall) as [arg Harg].
  unfold keyAt in Hk. rewrite Harg in Hk. destruct arg as [v|p]; [|discriminate].
  injection Hk as ->. exists v. exact Harg.
Qed.

(** C1, on the input that refutes it.  On the identity path the same
    nested query at two placeholders brings its arguments twice. *)
Lemma same_query_twice_identity_path :
  Sprintf (heapOf []) (str "(x = %s)") [Leaf (VString "v")] =
    Ok (mkQuery (str "(x = %s)") [VString "v"] None)
  /\ Sprintf (heapOf [mkQuery (str "(x = %s)") [VString "v"] None]) (str "%s AND %s") [Ref 0; Ref 0] =
    Ok (mkQuery (str "(x = %s) AND (x = %s)") [VString "v"; VString "v"] None)
  /\ Query_Query (mkQuery (str "(x = %s) AND (x = %s)") [VString "v"; VString "v"] None)
       PostgresBindVar = Some (str "(x = $1) AND (x = $2)")
  /\ length [VString "v"; VString "v"] <> length (args (mkQuery (str "(x = %s)") [VString "v"] None)).
Proof. split; [|split; [|split]]; try (vm_compute; reflexivity). simpl. lia. Qed.

(** C1, amended.  On the explicit path, a nested query that one or more
    placeholders refer to through the same pointer brings its arguments
    once: the distinct keys in order of first reference contain it once,
    the argument array is the concatenation of their contributions, and
    every placeholder that refers to it gets the query's normalized
    index list shifted by the offset at which that one block starts. *)
Theorem nested_block_once (h : Heap) (format : gostring) (fargs : list Arg) (r : Query) (p : Ptr) :
  needsExplicitPath h format fargs = true ->
  Sprintf h format fargs = Ok r ->
  KRef p ∈ placeholderKeys format fargs ->
  exists pre post blocks,
    firstRefs (placeholderKeys format fargs) = pre ++ KRef p :: post
    /\ (KRef p ∉ pre) /\ (KRef p ∉ post)
    /\ args r = flat_map (contrib h fargs) pre ++ args (h p) ++ flat_map (contrib h fargs) post
    /\ indexList r = concat blocks
    /\ length blocks = length (placeholderKeys format fargs)
    /\ forall j, placeholderKeys format fargs !! j = Some (KRef p) ->
         blocks !! j =
         Some (map (fun x => length (flat_map (contrib h fargs) pre) + x) (normIndices (h p))).
Proof.
  intros Hpath Hs Hin. unfold Sprintf in Hs. rewrite Hpath in Hs.
  destruct (sprintfExplicit_result h format fargs r Hs) as (Hall & Hf & Ha & Hi).
  set (ks := placeholderKeys format fargs) in *.
  assert (KRef p ∈ firstRefs ks) as Hin' by (apply elem_of_firstRefs, Hin).
  destruct (before_split _ _ Hin') as (post & Heq & Hpre).
  destruct (blocks_of_keys h fargs ks _ Hi) as (blocks & Hc & Hlen & Hb).
  exists (before (KRef p) (firstRefs ks)), post, blocks.
  split; [exact Heq|]. split; [exact Hpre|]. split.
  { pose proof (NoDup_firstRefs ks) as Hnd. rewrite Heq in Hnd.
    apply NoDup_app in Hnd. destruct Hnd as (_ & _ & Hnd). apply NoDup_cons in Hnd. tauto. }
  split.
  { rewrite Ha. rewrite Heq at 1. rewrite flat_map_app. simpl. reflexivity. }
  split; [exact Hc|]. split; [exact Hlen|].
  intros j Hj. rewrite (Hb j _ Hj). reflexivity.
Qed.

Lemma nested_block_once_witness :
  exists pre post blocks,
    firstRefs (placeholderKeys (str "a = %[1]s AND b = %[1]s") [Ref 0]) = pre ++ KRef 0 :: post
    /\ (KRef 0 ∉ pre) /\ (KRef 0 ∉ post)
    /\ args (mkQuery (str "a = (%s) AND b = (%s)") [VString "x"] (Some [0; 0])) =
       flat_map (contrib (heapOf [mkQuery (str "(%s)") [VString "x"] None]) [Ref 0]) pre
       ++ args (heapOf [mkQuery (str "(%s)") [VString "x"] None] 0)
       ++ flat_map (contrib (heapOf [mkQuery (str "(%s)") [VString "x"] None]) [Ref 0]) post
    /\ indexList (mkQuery (str "a = (%s) AND b = (%s)") [VString "x"] (Some [0; 0])) = concat blocks
    /\ length blocks = length (placeholderKeys (str "a = %[1]s AND b = %[1]s") [Ref 0])
    /\ forall j, placeholderKeys (str "a = %[1]s AND b = %[1]s") [Ref 0] !! j = Some (KRef 0) ->
         blocks !! j =
         Some (map (fun x => length (flat_map
                      (contrib (heapOf [mkQuery (str "(%s)") [VString "x"] None]) [Ref 0]) pre) + x)
                 (normIndices (heapOf [mkQuery (str "(%s)") [VString "x"] None] 0))).
Proof.
  apply (nested_block_once (heapOf [mkQuery (str "(%s)") [VString "x"] None])
           (str "a = %[1]s AND b = %[1]s") [Ref 0]
           (mkQuery (str "a = (%s) AND b = (%s)") [VString "x"] (Some [0; 0])) 0);
    [reflexivity | vm_compute; reflexivity | vm_compute; left].
Defined.

Lemma slot_of_leaf (h : Heap) (fargs : list Arg) (ks : list key) (i : Z) (v : Value) :
  KLeaf i ∈ ks ->
  fargs !! Z.to_nat i = Some (Leaf v) ->
  flat_map (contrib h fargs) (firstRefs ks) !! offsetOf h fargs ks (KLeaf i) = Some v.
Proof.
  intros Hin Hv. apply elem_of_firstRefs in Hin.
  destruct (before_split _ _ Hin) as (post & Heq & _). unfold offsetOf.
  generalize dependent (before (KLeaf i) (firstRefs ks)). intros pre Heq.
  rewrite Heq, flat_map_app. simpl. rewrite Hv. simpl.
  rewrite lookup_app_r by lia. rewrite Nat.sub_diag. reflexivity.
Qed.

Lemma leaf_slots_distinct (h : Heap) (fargs : list Arg) (ks : list key) (i i' : Z) (v v' : Value) :
  KLeaf i ∈ ks -> KLeaf i' ∈ ks -> i <> i' ->
  fargs !! Z.to_nat i = Some (Leaf v) ->
  fargs !! Z.to_nat i' = Some (Leaf v') ->
  offsetOf h fargs ks (KLeaf i) <> offsetOf h fargs ks (KLeaf i').
Proof.
  intros H1 H2 Hne Hv Hv'. apply elem_of_firstRefs in H1, H2. unfold offsetOf.
  destruct (before_order (KLeaf i) (KLeaf i') _ H1 H2) as [[mid ->]|[mid ->]]; [congruence|..];
    rewrite flat_map_app, length_app; simpl; rewrite ?Hv, ?Hv'; simpl; lia.
Qed.

(** C2.  On the explicit path the argument array holds the
    contributions of the distinct keys in order of first reference.  A
    placeholder that resolves to the leaf at source position [i] gets
    the slot of that position, which is where the array stood when the
    position was first referred to, and the slot holds that leaf; two
    source positions never share a slot, whatever their values.  The
    example of the specification is computed at the end. *)
Theorem leaf_slots_by_first_reference :
  (forall (h : Heap) (format : gostring) (fargs : list Arg) (r : Query),
     needsExplicitPath h format fargs = true ->
     Sprintf h format fargs = Ok r ->
     args r = flat_map (contrib h fargs) (firstRefs (placeholderKeys format fargs))
     /\ (exists blocks,
           indexList r = concat blocks
           /\ length blocks = length (placeholderKeys format fargs)
           /\ forall j i, placeholderKeys format fargs !! j = Some (KLeaf i) ->
                blocks !! j = Some [offsetOf h fargs (placeholderKeys format fargs) (KLeaf i)])
     /\ (forall i, KLeaf i ∈ placeholderKeys format fargs ->
           exists v, fargs !! Z.to_nat i = Some (Leaf v)
             /\ offsetOf h fargs (placeholderKeys format fargs) (KLeaf i) =
                length (flat_map (contrib h fargs)
                          (before (KLeaf i) (firstRefs (placeholderKeys format fargs))))
             /\ args r !! offsetOf h fargs (placeholderKeys format fargs) (KLeaf i) = Some v)
     /\ (forall i i', KLeaf i ∈ placeholderKeys format fargs ->
           KLeaf i' ∈ placeholderKeys format fargs -> i <> i' ->
           offsetOf h fargs (placeholderKeys format fargs) (KLeaf i) <>
           offsetOf h fargs (placeholderKeys format fargs) (KLeaf i')))
  /\ (exists q,
        Sprintf (heapOf []) (str "a = %[2]s AND b = %[1]s")
          [Leaf (VString "first"); Leaf (VString "second")] = Ok q
        /\ Query_Query q PostgresBindVar = Some (str "a = $1 AND b = $2")
        /\ Query_Args q = [VString "second"; VString "first"]).
Proof.
  split.
  - intros h format fargs r Hpath Hs. unfold Sprintf in Hs. rewrite Hpath in Hs.
    destruct (sprintfExplicit_result h format fargs r Hs) as (Hall & Hf & Ha & Hi).
    set (ks := placeholderKeys format fargs) in *.
    split; [exact Ha|]. split.
    { destruct (blocks_of_keys h fargs ks _ Hi) as (blocks & Hc & Hlen & Hb).
      exists blocks. split; [exact Hc|]. split; [exact Hlen|].
      intros j i Hj. rewrite (Hb j _ Hj). reflexivity. }
    split.
    { intros i Hin. destruct (leaf_key_arg fargs _ i Hall Hin) as [v Hv].
      exists v. split; [exact Hv|]. split; [reflexivity|].
      rewrite Ha. apply slot_of_leaf; assumption. }
    intros i i' Hin Hin' Hne.
    destruct (leaf_key_arg fargs _ i Hall Hin) as [v Hv].
    destruct (leaf_key_arg fargs _ i' Hall Hin') as [v' Hv'].
    eapply leaf_slots_distinct; eassumption.
  - exists (mkQuery (str "a = %s AND b = %s") [VString "second"; VString "first"] (Some [0; 1])).
    split; [|split]; vm_compute; reflexivity.
Qed.

Lemma leaf_slots_by_first_reference_witness :
  args (mkQuery (str "a = %s AND b = %s AND c = %s") [VString "second"; VString "first"]
          (Some [0; 1; 0])) =
  flat_map (contrib (heapOf []) [Leaf (VString "first"); Leaf (VString "second")])
    (firstRefs (placeholderKeys (str "a = %[2]s AND b = %[1]s AND c = %[2]s")
                  [Leaf (VString "first"); Leaf (VString "second")])).
Proof.
  destruct leaf_slots_by_first_reference as [H _].
  apply (H (heapOf []) (str "a = %[2]s AND b = %[1]s AND c = %[2]s")
           [Leaf (VString "first"); Leaf (VString "second")]
           (mkQuery (str "a = %s AND b = %s AND c = %s") [VString "second"; VString "first"]
              (Some [0; 1; 0])));
    [reflexivity | vm_compute; reflexivity].
Defined.

(** * Index resolution in the loop *)

Lemma step_resolves (h : Heap) (format : gostring) (fargs : list Arg) (st st' : state)
    (d : directive) :
  isLiteral d = false ->
  step h format fargs st d = Ok st' ->
  currentImplicitArg st' = snd (resolve d (currentImplicitArg st))
  /\ inRange (length fargs) (fst (resolve d (currentImplicitArg st))) = true.
Proof.
  intros Hlit Hs.
  destruct (inRange (length fargs) (fst (resolve d (currentImplicitArg st)))) eqn:Hr.
  - split; [|reflexivity]. unfold step in Hs. rewrite Hlit in Hs.
    destruct (resolve d (currentImplicitArg st)) as [i cur']. simpl.
    destruct ((i <? 0)%Z || (Z.of_nat (length fargs) <=? i)%Z); [discriminate|].
    destruct (fargs !! Z.to_nat i) as [[v|p]|]; [| |discriminate].
    + destruct (argToResultPos st !! i); injection Hs as <-; reflexivity.
    + destruct (nestedQueries st !! p); injection Hs as <-; reflexivity.
  - rewrite (step_panic h format fargs st d Hlit Hr) in Hs. discriminate.
Qed.

(** The loop leaves the implicit counter where the rule leaves it. *)
Lemma loop_counter (h : Heap) (format : gostring) (fargs : list Arg) (ds : list directive)
    (st st' : state) :
  loop h format fargs ds st = Ok st' ->
  currentImplicitArg st' = counterAfter ds (currentImplicitArg st).
Proof.
  revert st. induction ds as [|d ds IH]; intros st Hl; simpl in *.
  - injection Hl as <-. reflexivity.
  - destruct (step h format fargs st d) as [st1| |] eqn:Hs; [|discriminate..].
    rewrite (IH st1 Hl). destruct (isLiteral d) eqn:Hlit.
    + unfold step in Hs. rewrite Hlit in Hs. injection Hs as <-. reflexivity.
    + destruct (step_resolves h format fargs st st1 d Hlit Hs) as [-> _]. reflexivity.
Qed.

(** The arguments of a nested query stand in the result at the offset
    of its key. *)
Lemma slots_of_ref (h : Heap) (fargs : list Arg) (ks : list key) (p : Ptr) :
  KRef p ∈ ks ->
  take (length (args (h p)))
    (drop (offsetOf h fargs ks (KRef p)) (flat_map (contrib h fargs) (firstRefs ks))) = args (h p).
Proof.
  intros Hin. apply elem_of_firstRefs in Hin.
  destruct (before_split _ _ Hin) as (post & Heq & _). unfold offsetOf.
  generalize dependent (before (KRef p) (firstRefs ks)). intros pre Heq.
  rewrite Heq, flat_map_app. simpl. rewrite drop_app_length. apply take_app_length.
Qed.

(** C4. A directive carrying the explicit index [n] resolves to [n-1]
    and sets the implicit counter to [n]; an implicit directive resolves
    to the counter and increments it.  Hence the implicit directives
    that follow [n] resolve to [n], [n+1], ..., and with no explicit
    index before it an implicit directive resolves to the number of
    implicit resolutions before it.  The code resolves with exactly
    this rule: a step of the loop that returns has moved the counter by
    the rule and found the resolved index in range; on any directive
    list whose resolved indices are in range the loop of
    [sprintfExplicit] runs to the end, leaves the counter where the
    rule leaves it, and has taken, placeholder by placeholder, the
    argument at the resolved index; it panics at the first resolved
    index out of range.  So [sprintfExplicit] returns exactly when the
    resolved indices of its template are in range, and in what it
    returns the [j]-th placeholder is bound to the argument at the
    [j]-th resolved index: a leaf by the slot that holds it, a nested
    query by its index list shifted to where its arguments stand. *)
Theorem index_resolution :
  (forall d cur, hasIndex d = true -> resolve d cur = ((index d - 1)%Z, index d))
  /\ (forall d cur, hasIndex d = false -> resolve d cur = (cur, (cur + 1)%Z))
  /\ (forall d ds cur,
        hasIndex d = true -> isLiteral d = false ->
        Forall (fun x => hasIndex x = false) ds ->
        resolveAll (d :: ds) cur =
        (index d - 1)%Z :: map (fun j => (index d + Z.of_nat j)%Z) (seq 0 (countPlaceholders ds)))
  /\ (forall ds,
        Forall (fun x => hasIndex x = false) ds ->
        resolveAll ds 0%Z = map Z.of_nat (seq 0 (countPlaceholders ds)))
  /\ (forall h format fargs st d st',
        isLiteral d = false ->
        step h format fargs st d = Ok st' ->
        currentImplicitArg st' = snd (resolve d (currentImplicitArg st))
        /\ inRange (length fargs) (fst (resolve d (currentImplicitArg st))) = true)
  /\ (forall h format fargs ds,
        forallb (inRange (length fargs)) (resolveAll ds 0%Z) = true ->
        exists st, loop h format fargs ds initState = Ok st
          /\ currentImplicitArg st = counterAfter ds 0%Z
          /\ resultArgs st =
             flat_map (contrib h fargs) (firstRefs (map (keyAt fargs) (resolveAll ds 0%Z)))
          /\ s_argIndices st =
             flat_map (fun k => block h (offsetOf h fargs (map (keyAt fargs) (resolveAll ds 0%Z)) k) k)
               (map (keyAt fargs) (resolveAll ds 0%Z)))
  /\ (forall h format fargs ds pre i post,
        resolveAll ds 0%Z = pre ++ i :: post ->
        forallb (inRange (length fargs)) pre = true ->
        inRange (length fargs) i = false ->
        loop h format fargs ds initState = Panic (outOfRange i (length fargs)))
  /\ (forall h format fargs,
        (exists r, sprintfExplicit h format fargs = Ok r)
        <-> forallb (inRange (length fargs)) (resolveAll (parseDirectives format) 0%Z) = true)
  /\ (forall h format fargs r,
        sprintfExplicit h format fargs = Ok r ->
        exists blocks,
          indexList r = concat blocks
          /\ length blocks = length (resolveAll (parseDirectives format) 0%Z)
          /\ forall j i, resolveAll (parseDirectives format) 0%Z !! j = Some i ->
               (0 <= i < Z.of_nat (length fargs))%Z
               /\ match fargs !! Z.to_nat i with
                  | Some (Leaf v) =>
                      exists pos, blocks !! j = Some [pos] /\ args r !! pos = Some v
                  | Some (Ref p) =>
                      exists off, blocks !! j = Some (map (fun x => off + x) (normIndices (h p)))
                        /\ take (length (args (h p))) (drop off (args r)) = args (h p)
                  | None => False
                  end).
Proof.
  split; [|split; [|split; [|split; [|split; [|split; [|split; [|split]]]]]]].
  - intros d cur H. unfold resolve. rewrite H. reflexivity.
  - intros d cur H. unfold resolve. rewrite H. reflexivity.
  - intros d ds cur Hd Hlit Hds. simpl. rewrite Hlit. unfold resolve at 1 2. rewrite Hd. simpl.
    f_equal. apply resolveAll_implicit, Hds.
  - intros ds Hds. rewrite resolveAll_implicit by exact Hds. apply map_ext. intros j. lia.
  - intros h format fargs st d st'. apply step_resolves.
  - intros h format fargs ds Hall.
    destruct (loop_ok h format fargs ds initState [] Hall (Inv_init h fargs)) as (st & Hl & HI & _).
    exists st. split; [exact Hl|]. split; [exact (loop_counter _ _ _ _ _ _ Hl)|].
    simpl in HI. split; [apply (inv_args _ _ _ _ HI) | apply (inv_indices _ _ _ _ HI)].
  - intros h format fargs ds pre i post Hres Hpre Hi.
    exact (loop_panic h format fargs ds initState pre post i [] Hres Hpre Hi (Inv_init h fargs)).
  - intros h format fargs. split.
    + intros [r Hr]. apply (sprintfExplicit_result h format fargs r Hr).
    + intros Hall. eexists. apply sprintfExplicit_ok, Hall.
  - intros h format fargs r Hr.
    destruct (sprintfExplicit_result h format fargs r Hr) as (Hall & _ & Ha & Hi).
    destruct (blocks_of_keys h fargs _ _ Hi) as (blocks & Hc & Hlen & Hb).
    exists blocks. split; [exact Hc|].
    split; [rewrite Hlen; unfold placeholderKeys; apply length_map|].
    intros j i Hj.
    assert (inRange (length fargs) i = true) as Hin.
    { rewrite forallb_forall in Hall. apply Hall, list_elem_of_In.
      eapply list_elem_of_lookup_2, Hj. }
    assert (placeholderKeys format fargs !! j = Some (keyAt fargs i)) as Hk.
    { unfold placeholderKeys. rewrite list_lookup_fmap, Hj. reflexivity. }
    assert (keyAt fargs i ∈ placeholderKeys format fargs) as Hmem
      by (eapply list_elem_of_lookup_2, Hk).
    split.
    { unfold inRange in Hin. apply andb_true_iff in Hin. destruct Hin as [H0 H1].
      apply Z.leb_le in H0. apply Z.ltb_lt in H1. lia. }
    destruct (inRange_lookup fargs i Hin) as [arg Harg]. rewrite Harg.
    specialize (Hb j _ Hk). unfold keyAt in Hb, Hmem. rewrite Harg in Hb, Hmem.
    destruct arg as [v|p]; simpl in Hb.
    + eexists. split; [exact Hb|]. rewrite Ha. apply slot_of_leaf; assumption.
    + eexists. split; [exact Hb|]. rewrite Ha. apply slots_of_ref. exact Hmem.
Qed.

Lemma index_resolution_witness :
  resolveAll (parseDirectives (str "a = %[2]s AND b = %s AND c = %s")) 0%Z = [1%Z; 2%Z; 3%Z]
  /\ exists st,
       loop (heapOf []) (str "a = %[2]s AND b = %s AND c = %s")
         [Leaf (VInt 10); Leaf (VInt 11); Leaf (VInt 12); Leaf (VInt 13)]
         (parseDirectives (str "a = %[2]s AND b = %s AND c = %s")) initState = Ok st
       /\ currentImplicitArg st = 4%Z
       /\ resultArgs st = [VInt 11; VInt 12; VInt 13]
       /\ s_argIndices st = [0; 1; 2].
Proof.
  destruct index_resolution as (_ & _ & H3 & _ & _ & H6 & _).
  split.
  - apply (H3 (mkDirective 4 9 true 2%Z false)
             [mkDirective 18 20 false 0%Z false; mkDirective 29 31 false 0%Z false] 0%Z);
      [reflexivity | reflexivity | repeat constructor].
  - apply (H6 (heapOf []) (str "a = %[2]s AND b = %s AND c = %s")
             [Leaf (VInt 10); Leaf (VInt 11); Leaf (VInt 12); Leaf (VInt 13)]
             (parseDirectives (str "a = %[2]s AND b = %s AND c = %s"))).
    vm_compute. reflexivity.
Defined.

(** * The scanner *)

Lemma dropWhile_suffix (f : ascii -> bool) (s : gostring) : dropWhile f s `suffix_of` s.
Proof.
  induction s as [|c s IH]; simpl; [reflexivity|].
  destruct (f c); [apply suffix_cons_r, IH | reflexivity].
Qed.

Lemma skipOptionalIndex_suffix (s : gostring) : skipOptionalIndex s `suffix_of` s.
Proof.
  unfold skipOptionalIndex. destruct s as [|c s1]; [reflexivity|].
  destruct (Ascii.eqb_spec c "["%char) as [->|Hc].
  - pose proof (dropWhile_suffix isDigit s1) as Hd.
    destruct (dropWhile isDigit s1) as [|c' r]; [reflexivity|].
    destruct (Ascii.eqb_spec c' "]"%char) as [->|Hc'].
    + case_bool_decide; [reflexivity|].
      apply suffix_cons_r. etransitivity; [|exact Hd]. apply suffix_cons_r. reflexivity.
    + destruct c' as [[] [] [] [] [] [] [] []]; try reflexivity. congruence.
  - destruct c as [[] [] [] [] [] [] [] []]; try reflexivity. congruence.
Qed.

Lemma parseIndex_suffix (s : gostring) : snd (parseIndex s) `suffix_of` s.
Proof.
  unfold parseIndex. destruct s as [|c s1]; [reflexivity|].
  destruct (Ascii.eqb_spec c "["%char) as [->|Hc].
  - pose proof (dropWhile_suffix isDigit s1) as Hd.
    destruct (dropWhile isDigit s1) as [|c' r]; [reflexivity|].
    destruct (Ascii.eqb_spec c' "]"%char) as [->|Hc'].
    + case_bool_decide; [reflexivity|]. simpl.
      apply suffix_cons_r. etransitivity; [|exact Hd]. apply suffix_cons_r. reflexivity.
    + destruct c' as [[] [] [] [] [] [] [] []]; try reflexivity. congruence.
  - destruct c as [[] [] [] [] [] [] [] []]; try reflexivity. congruence.
Qed.

Lemma skipWidth_suffix (s : gostring) : skipWidth s `suffix_of` s.
Proof.
  unfold skipWidth. destruct s as [|c s1]; [reflexivity|].
  destruct (Ascii.eqb_spec c "*"%char) as [->|Hc].
  - apply suffix_cons_r, skipOptionalIndex_suffix.
  - destruct c as [[] [] [] [] [] [] [] []]; try apply dropWhile_suffix. congruence.
Qed.

Lemma skipPrecision_suffix (s : gostring) : skipPrecision s `suffix_of` s.
Proof.
  unfold skipPrecision. destruct s as [|c s1]; [reflexivity|].
  destruct (Ascii.eqb_spec c "."%char) as [->|Hc].
  - apply suffix_cons_r. destruct s1 as [|c1 s2]; [reflexivity|].
    destruct (Ascii.eqb_spec c1 "*"%char) as [->|Hc1].
    + apply suffix_cons_r, skipOptionalIndex_suffix.
    + destruct c1 as [[] [] [] [] [] [] [] []]; try apply dropWhile_suffix. congruence.
  - destruct c as [[] [] [] [] [] [] [] []]; try reflexivity. congruence.
Qed.

Lemma parseDecor_suffix (s : gostring) : snd (parseDecor s) `suffix_of` s.
Proof.
  unfold parseDecor. pose proof (parseIndex_suffix s) as H.
  destruct (parseIndex s) as [[hi ix] s1]. simpl in *.
  etransitivity; [apply skipPrecision_suffix|].
  etransitivity; [apply skipWidth_suffix|].
  etransitivity; [apply dropWhile_suffix|]. exact H.
Qed.

(** The verb of a directive and what follows it, inside the text after
    the marker. *)
Lemma parseDecor_verb (s : gostring) (hi : bool) (ix : Z) (v : ascii) (s4 : gostring) :
  parseDecor s = (hi, ix, v :: s4) ->
  exists pre, s = pre ++ v :: s4 /\ length s - length s4 = S (length pre).
Proof.
  intros H. pose proof (parseDecor_suffix s) as Hs. rewrite H in Hs. simpl in Hs.
  destruct Hs as [pre ->]. exists pre. split; [reflexivity|].
  rewrite length_app. simpl. lia.
Qed.

(** More fuel than the text is long is never used up. *)
Lemma scan_fuel (fuel fuel' i : nat) (s : gostring) :
  length s < fuel -> length s < fuel' -> scan fuel i s = scan fuel' i s.
Proof.
  revert fuel' i s. induction fuel as [|fuel IH]; intros fuel' i s H H'; [lia|].
  destruct fuel' as [|fuel']; [lia|]. simpl.
  destruct s as [|c s1]; [reflexivity|]. simpl in H, H'.
  destruct (negb (isPercent c)); [apply IH; lia|].
  destruct s1 as [|c1 s2]; [reflexivity|]. simpl in H, H'.
  destruct (isPercent c1); [f_equal; apply IH; lia|].
  destruct (parseDecor (c1 :: s2)) as [[hi ix] s3] eqn:Hd.
  destruct s3 as [|v s4]; [reflexivity|].
  destruct (parseDecor_verb _ _ _ _ _ Hd) as (pre & Hpre & _).
  assert (length s4 < length (c1 :: s2)) as Hlen.
  { rewrite Hpre, length_app. simpl. lia. }
  simpl in Hlen. f_equal. apply IH; lia.
Qed.

Lemma parseDirectives_scan (fuel : nat) (s : gostring) :
  length s < fuel -> parseDirectives s = scan fuel 0 s.
Proof. intros H. unfold parseDirectives. apply scan_fuel; lia. Qed.

(** Where a directive starts and ends. *)
Lemma scan_bounds (fuel i : nat) (s : gostring) (d : directive) :
  d ∈ scan fuel i s -> i <= d_start d /\ d_start d < d_end d /\ d_end d <= i + length s.
Proof.
  revert i s. induction fuel as [|fuel IH]; intros i s Hin; [inversion Hin|].
  simpl in Hin. destruct s as [|c s1]; [inversion Hin|].
  destruct (negb (isPercent c)).
  { apply IH in Hin. simpl. lia. }
  destruct s1 as [|c1 s2]; [inversion Hin|].
  destruct (isPercent c1).
  { apply elem_of_cons in Hin. destruct Hin as [->|Hin]; [simpl; lia|].
    apply IH in Hin. simpl. lia. }
  destruct (parseDecor (c1 :: s2)) as [[hi ix] s3] eqn:Hd.
  destruct s3 as [|v s4]; [inversion Hin|].
  destruct (parseDecor_verb _ _ _ _ _ Hd) as (pre & Hpre & Hlen).
  assert (length (c1 :: s2) = length pre + S (length s4)) as Hl
    by (rewrite Hpre, length_app; reflexivity).
  apply elem_of_cons in Hin. destruct Hin as [->|Hin].
  - simpl in *. lia.
  - apply IH in Hin. simpl in *. lia.
Qed.

(** The number of placeholders does not depend on the position the scan
    starts from. *)
Lemma scan_count_shift (fuel i j : nat) (s : gostring) :
  map isLiteral (scan fuel i s) = map isLiteral (scan fuel j s).
Proof.
  revert i j s. induction fuel as [|fuel IH]; intros i j s; [reflexivity|]. simpl.
  destruct s as [|c s1]; [reflexivity|].
  destruct (negb (isPercent c)); [apply IH|].
  destruct s1 as [|c1 s2]; [reflexivity|].
  destruct (isPercent c1); [simpl; f_equal; apply IH|].
  destruct (parseDecor (c1 :: s2)) as [[hi ix] s3].
  destruct s3 as [|v s4]; [reflexivity|]. simpl. f_equal. apply IH.
Qed.

Lemma countPlaceholders_literals (ds : list directive) :
  countPlaceholders ds = length (filter (fun b => b = false) (map isLiteral ds)).
Proof.
  unfold countPlaceholders. induction ds as [|d ds IH]; [reflexivity|].
  change (map isLiteral (d :: ds)) with (isLiteral d :: map isLiteral ds).
  rewrite !filter_cons. destruct (isLiteral d); repeat case_decide; try congruence.
  simpl. f_equal. exact IH.
Qed.

Lemma placeholders_scan (fuel i : nat) (s : gostring) :
  length s < fuel -> placeholders s = countPlaceholders (scan fuel i s).
Proof.
  intros H. unfold placeholders. rewrite (parseDirectives_scan fuel s H).
  rewrite !countPlaceholders_literals, (scan_count_shift fuel 0 i). reflexivity.
Qed.

(** ** The cases of the scanner's loop *)

Lemma scan_nil (fuel i : nat) : scan fuel i [] = [].
Proof. destruct fuel; reflexivity. Qed.

Lemma scan_text (fuel i : nat) (c : ascii) (s : gostring) :
  isPercent c = false -> scan (S fuel) i (c :: s) = scan fuel (S i) s.
Proof. intros H. simpl. rewrite H. reflexivity. Qed.

Lemma scan_lone (fuel i : nat) : scan (S fuel) i ["%"%char] = [].
Proof. reflexivity. Qed.

Lemma scan_percent (fuel i : nat) (s : gostring) :
  scan (S fuel) i ("%"%char :: "%"%char :: s) =
  mkDirective i (i + 2) false 0%Z true :: scan fuel (i + 2) s.
Proof. reflexivity. Qed.

Lemma scan_noverb (fuel i : nat) (c1 : ascii) (s2 : gostring) (hi : bool) (ix : Z) :
  isPercent c1 = false ->
  parseDecor (c1 :: s2) = (hi, ix, []) ->
  scan (S fuel) i ("%"%char :: c1 :: s2) = [].
Proof. intros H Hd. cbn [scan isPercent Ascii.eqb negb]. simpl. rewrite H, Hd. reflexivity. Qed.

Lemma scan_directive (fuel i : nat) (c1 : ascii) (s2 : gostring) (hi : bool) (ix : Z)
    (v : ascii) (s4 : gostring) :
  isPercent c1 = false ->
  parseDecor (c1 :: s2) = (hi, ix, v :: s4) ->
  scan (S fuel) i ("%"%char :: c1 :: s2) =
  mkDirective i (i + 1 + (length (c1 :: s2) - length s4)) hi ix false
    :: scan fuel (i + 1 + (length (c1 :: s2) - length s4)) s4.
Proof. intros H Hd. simpl. rewrite H, Hd. reflexivity. Qed.

Arguments scan : simpl never.

(** ** Counting placeholders piece by piece *)

Lemma countPlaceholders_cons (d : directive) (ds : list directive) :
  countPlaceholders (d :: ds) =
  (if isLiteral d then 0 else 1) + countPlaceholders ds.
Proof.
  unfold countPlaceholders. rewrite filter_cons.
  destruct (isLiteral d); case_decide; try congruence; reflexivity.
Qed.

Lemma placeholders_text (c : ascii) (rest : gostring) :
  isPercent c = false -> placeholders (c :: rest) = placeholders rest.
Proof.
  intros Hc. rewrite (placeholders_scan (S (S (length rest))) 0) by (simpl; lia).
  rewrite scan_text by exact Hc. symmetry. apply placeholders_scan. lia.
Qed.

Lemma placeholders_literal (rest : gostring) :
  placeholders ("%"%char :: "%"%char :: rest) = placeholders rest.
Proof.
  rewrite (placeholders_scan (S (S (S (length rest)))) 0) by (simpl; lia).
  rewrite scan_percent, countPlaceholders_cons. simpl. symmetry. apply placeholders_scan. lia.
Qed.

Lemma parseDecor_plain (v : ascii) (rest : gostring) :
  plainVerb v = true -> parseDecor (v :: rest) = (false, 0%Z, v :: rest).
Proof.
  destruct v as [[] [] [] [] [] [] [] []]; intros H; try discriminate H; reflexivity.
Qed.

Lemma plainVerb_not_percent (v : ascii) : plainVerb v = true -> isPercent v = false.
Proof. unfold plainVerb. destruct (isPercent v); [discriminate | reflexivity]. Qed.

Lemma placeholders_hole (v : ascii) (rest : gostring) :
  plainVerb v = true -> placeholders ("%"%char :: v :: rest) = S (placeholders rest).
Proof.
  intros Hv. rewrite (placeholders_scan (S (S (S (length rest)))) 0) by (simpl; lia).
  rewrite (scan_directive _ _ _ _ _ _ _ _ (plainVerb_not_percent v Hv) (parseDecor_plain v rest Hv)).
  rewrite countPlaceholders_cons. simpl plus. f_equal. symmetry. apply placeholders_scan. lia.
Qed.

Lemma countsAs_nil : countsAs [] 0.
Proof. intros rest. reflexivity. Qed.

Lemma countsAs_app (t1 t2 : gostring) (k1 k2 : nat) :
  countsAs t1 k1 -> countsAs t2 k2 -> countsAs (t1 ++ t2) (k1 + k2).
Proof. intros H1 H2 rest. rewrite <- app_assoc, H1, H2. lia. Qed.

Lemma countsAs_text (t : gostring) : existsb isPercent t = false -> countsAs t 0.
Proof.
  intros H rest. induction t as [|c t IH]; [reflexivity|].
  simpl in H. apply orb_false_iff in H. destruct H as [Hc Ht].
  simpl. rewrite placeholders_text by exact Hc. apply IH, Ht.
Qed.

Lemma countsAs_literal : countsAs (str "%%") 0.
Proof. intros rest. apply placeholders_literal. Qed.

Lemma countsAs_hole (v : ascii) : plainVerb v = true -> countsAs ["%"%char; v] 1.
Proof. intros Hv rest. apply placeholders_hole, Hv. Qed.

Lemma countsAs_total (t : gostring) (k : nat) : countsAs t k -> placeholders t = k.
Proof.
  intros H. specialize (H []). rewrite app_nil_r in H. rewrite H.
  change (placeholders []) with 0. lia.
Qed.

Lemma drop_app_suffix (format pre r : gostring) (i : nat) :
  drop i format = pre ++ r -> drop (i + length pre) format = r.
Proof. intros H. rewrite <- drop_drop, H. apply drop_app_length. Qed.

Section ComposeText.

Variable h : Heap.
Variable format : gostring.
Variable fargs : list Arg.

Lemma composeText_skip (ds : list directive) (i : nat) (cur : Z) (c : ascii) (s1 : gostring) :
  drop i format = c :: s1 ->
  (forall d, d ∈ ds -> S i <= d_start d) ->
  composeText h format fargs ds i cur = c :: composeText h format fargs ds (S i) cur.
Proof.
  intros Hd Hb.
  assert (drop (S i) format = s1) as Hd'.
  { replace (S i) with (i + length [c]) by (simpl; lia). apply drop_app_suffix. exact Hd. }
  destruct ds as [|d ds]; cbn [composeText].
  - unfold sliceFrom. rewrite Hd, Hd'. reflexivity.
  - assert (S i <= d_start d) as Hs by (apply Hb; left).
    unfold slice. rewrite Hd, Hd'.
    replace (d_start d - i) with (S (d_start d - S i)) by lia. reflexivity.
Qed.

Lemma block_length (off : nat) (k : key) : length (block h off k) = length (block h 0 k).
Proof. destruct k; simpl; [reflexivity|]. rewrite !length_map. reflexivity. Qed.

Lemma replacement_counts (k : key) :
  keyConsistent h k -> countsAs (replacement h k) (length (block h 0 k)).
Proof.
  destruct k as [i|p]; simpl.
  - intros _. apply (countsAs_hole "s"%char). reflexivity.
  - intros [Hc _]. rewrite length_map. exact Hc.
Qed.

(** The template of the explicit path holds one placeholder per index
    entry, when the nested queries it splices in are consistent. *)
Lemma composeText_count (fuel i : nat) (s : gostring) (cur : Z) :
  length s < fuel ->
  drop i format = s ->
  Forall (keyConsistent h) (map (keyAt fargs) (resolveAll (scan fuel i s) cur)) ->
  placeholders (composeText h format fargs (scan fuel i s) i cur) =
  length (flat_map (block h 0) (map (keyAt fargs) (resolveAll (scan fuel i s) cur))).
Proof.
  revert i s cur. induction fuel as [|fuel IH]; intros i s cur Hfuel Hdrop Hks; [lia|].
  destruct s as [|c s1].
  { simpl. unfold sliceFrom. rewrite Hdrop. reflexivity. }
  simpl in Hfuel.
  destruct (isPercent c) eqn:Hc.
  2:{ rewrite (scan_text fuel i c s1 Hc) in *.
      rewrite (composeText_skip _ i cur c s1 Hdrop).
      - rewrite placeholders_text by exact Hc. apply IH; [lia | | exact Hks].
        replace (S i) with (i + length [c]) by (simpl; lia). apply drop_app_suffix. exact Hdrop.
      - intros d Hd. apply scan_bounds in Hd. lia. }
  assert (c = "%"%char) as -> by (apply Ascii.eqb_eq; exact Hc).
  destruct s1 as [|c1 s2].
  { rewrite scan_lone. simpl. unfold sliceFrom. rewrite Hdrop.
    rewrite (placeholders_scan 2 0) by (simpl; lia). rewrite scan_lone. reflexivity. }
  simpl in Hfuel.
  destruct (isPercent c1) eqn:Hc1.
  { assert (c1 = "%"%char) as -> by (apply Ascii.eqb_eq; exact Hc1).
    rewrite scan_percent in *. simpl in Hks |- *. unfold slice. rewrite Nat.sub_diag. simpl.
    rewrite placeholders_literal. apply IH; [lia | | exact Hks].
    replace (i + 2) with (i + length ["%"%char; "%"%char]) by (simpl; lia).
    apply drop_app_suffix. exact Hdrop. }
  destruct (parseDecor (c1 :: s2)) as [[hi ix] s3] eqn:Hd.
  destruct s3 as [|v s4].
  { rewrite (scan_noverb fuel i c1 s2 hi ix Hc1 Hd). simpl. unfold sliceFrom. rewrite Hdrop.
    rewrite (placeholders_scan (S (S (S (length s2)))) 0) by (simpl; lia).
    rewrite (scan_noverb _ 0 c1 s2 hi ix Hc1 Hd). reflexivity. }
  destruct (parseDecor_verb _ _ _ _ _ Hd) as (pre & Hpre & Hlen).
  rewrite (scan_directive fuel i c1 s2 hi ix v s4 Hc1 Hd) in *.
  rewrite Hlen in *.
  cbn [composeText resolveAll isLiteral map flat_map d_start d_end] in Hks |- *.
  unfold slice. rewrite Nat.sub_diag, take_0, app_nil_l.
  apply Forall_cons in Hks. destruct Hks as [Hk Hks].
  rewrite (replacement_counts _ Hk). rewrite length_app. f_equal.
  apply IH; [| | exact Hks].
  - assert (length (c1 :: s2) = length pre + S (length s4)) as Hl
      by (rewrite Hpre, length_app; reflexivity).
    simpl in Hl. lia.
  - replace (i + 1 + S (length pre)) with (i + length ("%"%char :: pre ++ [v]))
      by (simpl; rewrite length_app; simpl; lia).
    apply drop_app_suffix. rewrite Hdrop, Hpre. simpl. rewrite <- app_assoc. reflexivity.
Qed.

End ComposeText.

(** * The invariants of the index list *)

Lemma flat_map_block_length (h : Heap) (f : key -> nat) (ks : list key) :
  length (flat_map (fun k => block h (f k) k) ks) = length (flat_map (block h 0) ks).
Proof.
  induction ks as [|k ks IH]; [reflexivity|]. simpl.
  rewrite !length_app, IH, (block_length h (f k)). reflexivity.
Qed.

Lemma block_in_range (h : Heap) (fargs : list Arg) (l : list Z) (k : key) :
  forallb (inRange (length fargs)) l = true ->
  k ∈ map (keyAt fargs) l ->
  keyConsistent h k ->
  Forall (fun x => x < length (flat_map (contrib h fargs) (firstRefs (map (keyAt fargs) l))))
    (block h (offsetOf h fargs (map (keyAt fargs) l) k) k).
Proof.
  intros Hall Hin Hk. set (ks := map (keyAt fargs) l) in *.
  assert (k ∈ firstRefs ks) as Hin' by (apply elem_of_firstRefs, Hin).
  destruct (before_split _ _ Hin') as (post & Heq & _). unfold offsetOf.
  generalize dependent (before k (firstRefs ks)). intros pre Heq.
  rewrite Heq, flat_map_app, length_app. simpl. rewrite length_app.
  destruct k as [i|p]; simpl.
  - destruct (leaf_key_arg fargs l i Hall Hin) as [v Hv]. rewrite Hv.
    constructor; [simpl; lia | constructor].
  - destruct Hk as [_ Hr]. apply Forall_map. eapply Forall_impl; [exact Hr|].
    simpl. intros x Hx. lia.
Qed.

Lemma joinLoop_length (qs : list Query) (off : nat) :
  length (snd (joinLoop true qs off)) = length (concat (map normIndices qs)).
Proof.
  revert off. induction qs as [|q qs IH]; intros off; [reflexivity|]. simpl.
  specialize (IH (off + length (args q))).
  destruct (joinLoop true qs (off + length (args q))) as [[f a] ai]. simpl in *.
  rewrite !length_app, IH. f_equal. unfold normIndices.
  destruct (argIndices q); rewrite length_map; reflexivity.
Qed.

Lemma joinLoop_range (qs : list Query) (off : nat) :
  Forall (fun q => Forall (fun x => x < length (args q)) (normIndices q)) qs ->
  Forall (fun x => x < off + length (concat (map args qs))) (snd (joinLoop true qs off)).
Proof.
  intros H. revert off. induction H as [|q qs Hq _ IH]; intros off; [constructor|]. simpl.
  specialize (IH (off + length (args q))).
  destruct (joinLoop true qs (off + length (args q))) as [[f a] ai]. simpl in *.
  rewrite length_app. apply Forall_app. split.
  - assert (Forall (fun x => x < off + (length (args q) + length (concat (map args qs))))
              (map (fun x => off + x) (normIndices q))) as Hm.
    { apply Forall_map. eapply Forall_impl; [exact Hq|]. simpl. intros x Hx. lia. }
    unfold normIndices in Hm. destruct (argIndices q); exact Hm.
  - eapply Forall_impl; [exact IH|]. simpl. intros x Hx. lia.
Qed.

Lemma stringsJoin_counts (qs : list Query) (sep : gostring) :
  Forall (fun q => countsAs (fmt q) (length (normIndices q))) qs ->
  countsAs sep 0 ->
  countsAs (stringsJoin (map fmt qs) sep) (length (concat (map normIndices qs))).
Proof.
  intros H Hsep. induction H as [|q qs Hq Hqs IH]; [apply countsAs_nil|].
  destruct qs as [|q' qs].
  - simpl. rewrite app_nil_r. exact Hq.
  - change (stringsJoin (map fmt (q :: q' :: qs)) sep)
      with (fmt q ++ sep ++ stringsJoin (map fmt (q' :: qs)) sep).
    change (concat (map normIndices (q :: q' :: qs)))
      with (normIndices q ++ concat (map normIndices (q' :: qs))).
    rewrite length_app. apply countsAs_app; [exact Hq|].
    apply (countsAs_app sep _ 0); assumption.
Qed.

(** C7, on the input that refutes it.  A query composed on the identity
    path with one argument short keeps the text that package [fmt]
    prints for the missing operand; spliced into an explicit
    composition, the result has one index entry and a template with two
    placeholders. *)
Lemma index_list_shorter_than_placeholders :
  Sprintf (heapOf []) (str "a = %s AND b = %s") [Leaf (VString "x")] =
    Ok (mkQuery (str "a = %s AND b = %!s(MISSING)") [VString "x"] None)
  /\ Sprintf (heapOf [mkQuery (str "a = %s AND b = %!s(MISSING)") [VString "x"] None])
       (str "(%[1]s)") [Ref 0] =
     Ok (mkQuery (str "(a = %s AND b = %!s(MISSING))") [VString "x"] (Some [0]))
  /\ placeholders (str "(a = %s AND b = %!s(MISSING))") = 2
  /\ length [0] <> placeholders (str "(a = %s AND b = %!s(MISSING))").
Proof.
  split; [vm_compute; reflexivity|]. split; [vm_compute; reflexivity|].
  assert (placeholders (str "(a = %s AND b = %!s(MISSING))") = 2) as H by (vm_compute; reflexivity).
  split; [exact H|]. rewrite H. simpl. lia.
Qed.

(** C7, amended.  A query returned by [Sprintf] or [Join] with an index
    list has every entry of the list inside its arguments and as many
    entries as its template has placeholders, provided its inputs are
    consistent: every nested query spliced in (every joined query) has
    index entries inside its own arguments and a template holding as
    many placeholders as its normalized index list has entries, and the
    separator of [Join] contains no marker. *)
Theorem index_list_invariants :
  (forall (h : Heap) (format : gostring) (fargs : list Arg) (r : Query) (l : list nat),
     Sprintf h format fargs = Ok r ->
     argIndices r = Some l ->
     Forall (keyConsistent h) (placeholderKeys format fargs) ->
     length l = placeholders (fmt r) /\ Forall (fun x => x < length (args r)) l)
  /\ (forall (qs : list Query) (sep : gostring) (l : list nat),
        argIndices (Join qs sep) = Some l ->
        Forall consistent qs ->
        existsb isPercent sep = false ->
        length l = placeholders (fmt (Join qs sep))
        /\ Forall (fun x => x < length (args (Join qs sep))) l).
Proof.
  split.
  - intros h format fargs r l Hs Hl Hks. unfold Sprintf in Hs.
    destruct (needsExplicitPath h format fargs).
    2:{ destruct (fmtSprintf _ _); [|discriminate]. injection Hs as <-. discriminate. }
    destruct (sprintfExplicit_result h format fargs r Hs) as (Hall & Hf & Ha & Hi).
    unfold indexList in Hi. rewrite Hl in Hi. simpl in Hi. split.
    + rewrite Hi, Hf, flat_map_block_length. symmetry.
      unfold parseDirectives. apply composeText_count; [lia | reflexivity | exact Hks].
    + rewrite Hi, Ha. unfold placeholderKeys in *.
      apply Forall_flat_map. apply Forall_forall. intros k Hk.
      apply block_in_range; [exact Hall | exact Hk |].
      rewrite Forall_forall in Hks. apply Hks, Hk.
  - intros qs sep l Hl Hqs Hsep.
    destruct (Join_closed_form qs sep) as (Hf & Ha & _). unfold Query_Args in Ha.
    assert (l = snd (joinLoop true qs 0)) as ->.
    { unfold Join in Hl. destruct (existsb hasArgIndices qs).
      - destruct (joinLoop true qs 0) as [[f a] ai]. simpl in *.
        destruct ai; [discriminate|]. injection Hl as <-. reflexivity.
      - destruct (joinLoop false qs 0) as [[f a] ai]. discriminate. }
    split.
    + rewrite joinLoop_length, Hf. symmetry. apply countsAs_total, stringsJoin_counts.
      * eapply Forall_impl; [exact Hqs|]. intros q [Hq _]. exact Hq.
      * apply (countsAs_text (str " " ++ sep ++ str " ")).
        rewrite !existsb_app, Hsep. reflexivity.
    + rewrite Ha. apply (joinLoop_range qs 0).
      eapply Forall_impl; [exact Hqs|]. intros q [_ Hq]. exact Hq.
Qed.


(** * Templates given piece by piece *)

Lemma holes_cons (p : piece) (ps : list piece) :
  holes (p :: ps) = (if isHole p then 1 else 0) + holes ps.
Proof.
  unfold holes. rewrite filter_cons. destruct (isHole p); case_decide; try congruence; reflexivity.
Qed.

Lemma holes_app (ps qs : list piece) : holes (ps ++ qs) = holes ps + holes qs.
Proof. unfold holes. rewrite filter_app, length_app. reflexivity. Qed.

Lemma flat_app (ps qs : list piece) : flat (ps ++ qs) = flat ps ++ flat qs.
Proof. apply flat_map_app. Qed.

Lemma simpleVerb_plain (v : ascii) : simpleVerb v = true -> plainVerb v = true.
Proof.
  unfold simpleVerb. intros H. apply andb_true_iff in H. destruct H as [H _].
  apply andb_true_iff in H. tauto.
Qed.

(** The scanner counts the holes of the pieces, whatever follows. *)
Lemma flat_counts (ps : list piece) :
  forallb okPiece ps = true -> countsAs (flat ps) (holes ps).
Proof.
  induction ps as [|p ps IH]; intros H; [apply countsAs_nil|].
  simpl in H. apply andb_true_iff in H. destruct H as [Hp Hps].
  rewrite holes_cons. change (flat (p :: ps)) with (flatPiece p ++ flat ps).
  apply countsAs_app; [|apply IH, Hps].
  destruct p as [t| |v]; simpl in *.
  - apply countsAs_text. apply negb_true_iff. exact Hp.
  - apply countsAs_literal.
  - apply countsAs_hole, simpleVerb_plain, Hp.
Qed.

(** No directive of such a template carries an explicit index. *)
Lemma piece_no_index (p : piece) (fuel i : nat) (rest : gostring) :
  okPiece p = true ->
  length (flatPiece p ++ rest) < fuel ->
  existsb hasIndex (scan fuel i (flatPiece p ++ rest)) =
  existsb hasIndex (scan fuel (i + length (flatPiece p)) rest).
Proof.
  intros Hp Hfuel. destruct p as [t| |v].
  - change (flatPiece (PText t)) with t in *. simpl in Hp.
    apply negb_true_iff in Hp. revert fuel i Hfuel.
    induction t as [|c t IH]; intros fuel i Hfuel.
    + simpl. rewrite Nat.add_0_r. reflexivity.
    + simpl in Hp. apply orb_false_iff in Hp. destruct Hp as [Hc Ht].
      destruct fuel as [|fuel]; [lia|]. simpl in Hfuel.
      change ((c :: t) ++ rest) with (c :: t ++ rest).
      rewrite scan_text by exact Hc. rewrite IH by (assumption || lia).
      simpl length. replace (i + S (length t)) with (S i + length t) by lia.
      f_equal. apply scan_fuel; rewrite length_app in Hfuel; lia.
  - change (flatPiece PLit ++ rest) with ("%"%char :: "%"%char :: rest) in *.
    change (length (flatPiece PLit)) with 2.
    destruct fuel as [|fuel]; [lia|]. simpl in Hfuel.
    rewrite scan_percent. simpl. f_equal. apply scan_fuel; lia.
  - change (flatPiece (PHole v) ++ rest) with ("%"%char :: v :: rest) in *.
    change (length (flatPiece (PHole v))) with 2.
    destruct fuel as [|fuel]; [lia|]. simpl in Hfuel.
    pose proof (simpleVerb_plain v Hp) as Hv.
    rewrite (scan_directive _ _ _ _ _ _ _ _ (plainVerb_not_percent v Hv) (parseDecor_plain v rest Hv)).
    simpl length. replace (i + 1 + (S (length rest) - length rest)) with (i + 2) by lia.
    simpl. f_equal. apply scan_fuel; lia.
Qed.

Lemma flat_no_index (ps : list piece) (fuel i : nat) (rest : gostring) :
  forallb okPiece ps = true ->
  length (flat ps ++ rest) < fuel ->
  existsb hasIndex (scan fuel i (flat ps ++ rest)) =
  existsb hasIndex (scan fuel (i + length (flat ps)) rest).
Proof.
  revert i. induction ps as [|p ps IH]; intros i H Hfuel.
  - simpl. rewrite Nat.add_0_r. reflexivity.
  - simpl in H. apply andb_true_iff in H. destruct H as [Hp Hps].
    change (flat (p :: ps)) with (flatPiece p ++ flat ps) in *.
    rewrite <- app_assoc in *. rewrite piece_no_index by assumption.
    rewrite IH; [|exact Hps|rewrite length_app in Hfuel; lia].
    rewrite length_app, Nat.add_assoc. reflexivity.
Qed.

Lemma flat_explicit_free (ps : list piece) :
  forallb okPiece ps = true -> existsb hasIndex (parseDirectives (flat ps)) = false.
Proof.
  intros H. unfold parseDirectives.
  pose proof (flat_no_index ps (S (length (flat ps))) 0 [] H) as Hn.
  rewrite app_nil_r in Hn. rewrite Hn by lia. reflexivity.
Qed.

(** [strings.ReplaceAll] doubles the literal percents and nothing else. *)
Lemma doublePercents_cons (c : ascii) (s : gostring) :
  isPercent c = false -> doublePercents (c :: s) = c :: doublePercents s.
Proof.
  intros H. destruct s as [|c1 s]; [reflexivity|]. cbn [doublePercents]. rewrite H. reflexivity.
Qed.

Lemma doublePercents_literal (s : gostring) :
  doublePercents ("%"%char :: "%"%char :: s) = str "%%%%" ++ doublePercents s.
Proof. reflexivity. Qed.

Lemma doublePercents_hole (v : ascii) (s : gostring) :
  isPercent v = false -> doublePercents ("%"%char :: v :: s) = "%"%char :: v :: doublePercents s.
Proof.
  intros H. cbn [doublePercents]. rewrite H, andb_false_r.
  destruct s as [|c1 s]; reflexivity.
Qed.

Lemma doublePercents_flat (ps : list piece) :
  forallb okPiece ps = true -> doublePercents (flat ps) = flat (doubleLits ps).
Proof.
  induction ps as [|p ps IH]; intros H; [reflexivity|].
  simpl in H. apply andb_true_iff in H. destruct H as [Hp Hps]. specialize (IH Hps).
  change (flat (p :: ps)) with (flatPiece p ++ flat ps).
  change (doubleLits (p :: ps))
    with ((match p with PLit => [PLit; PLit] | _ => [p] end) ++ doubleLits ps).
  rewrite flat_app, <- IH. clear IH Hps.
  destruct p as [t| |v].
  - change (flatPiece (PText t)) with t. change (flat [PText t]) with (t ++ []).
    rewrite app_nil_r. simpl in Hp. apply negb_true_iff in Hp.
    induction t as [|c t IHt]; [reflexivity|].
    simpl in Hp. apply orb_false_iff in Hp. destruct Hp as [Hc Ht]. specialize (IHt Ht).
    change ((c :: t) ++ flat ps) with (c :: (t ++ flat ps)).
    rewrite doublePercents_cons by exact Hc. rewrite IHt. reflexivity.
  - reflexivity.
  - apply simpleVerb_plain, plainVerb_not_percent in Hp.
    change (flatPiece (PHole v) ++ flat ps) with ("%"%char :: v :: flat ps).
    rewrite doublePercents_hole by exact Hp. reflexivity.
Qed.

(** * Package [fmt] on templates given piece by piece *)

Lemma doPrintf_nil (fuel : nat) (a : list gostring) (p : pp) :
  doPrintf (S fuel) a p [] = Some (extraArgs a p).
Proof. reflexivity. Qed.

Lemma doPrintf_text (fuel : nat) (a : list gostring) (p : pp) (c : ascii) (s : gostring) :
  isPercent c = false -> doPrintf (S fuel) a p (c :: s) = cons c <$> doPrintf fuel a p s.
Proof. intros H. simpl. rewrite H. reflexivity. Qed.

Lemma doPrintf_marker (fuel : nat) (a : list gostring) (p : pp) (s : gostring) :
  doPrintf (S fuel) a p ("%"%char :: s) =
  match doVerb a (mkPp (argNum p) (reordered p) true) s with
  | VNext out p' rest => app out <$> doPrintf fuel a p' rest
  | VStop out p' => Some (out ++ extraArgs a p')
  | VNone => None
  end.
Proof. reflexivity. Qed.

Lemma doVerb_percent (a : list gostring) (p : pp) (rest : gostring) :
  doVerb a p ("%"%char :: rest) = VNext (str "%") p rest.
Proof. destruct p. reflexivity. Qed.

Lemma doVerb_end (a : list gostring) (p : pp) : doVerb a p [] = VStop (str "%!(NOVERB)") p.
Proof. destruct p. reflexivity. Qed.

Lemma doVerb_plain (a : list gostring) (p : pp) (v : ascii) (rest : gostring) :
  plainVerb v = true -> doVerb a p (v :: rest) = doVerbByte a [] p (v :: rest).
Proof.
  destruct v as [[] [] [] [] [] [] [] []]; intros Hv; try discriminate Hv; reflexivity.
Qed.

Lemma doVerb_hole (a : list gostring) (n : nat) (r : bool) (v : ascii) (rest x : gostring) :
  simpleVerb v = true ->
  a !! n = Some x ->
  doVerb a (mkPp n r true) (v :: rest) = VNext x (mkPp (S n) r true) rest.
Proof.
  intros Hv Hx. unfold simpleVerb in Hv.
  apply andb_true_iff in Hv. destruct Hv as [Hv H128].
  apply andb_true_iff in Hv. destruct Hv as [Hv Hsp]. apply negb_true_iff in Hsp.
  rewrite (doVerb_plain a _ v rest Hv). unfold doVerbByte.
  apply Nat.ltb_lt in H128. rewrite (proj2 (Nat.leb_gt _ _)) by exact H128.
  rewrite (plainVerb_not_percent v Hv). cbn [argNum goodArgNum negb].
  rewrite Hx, Hsp. reflexivity.
Qed.

(** The text left after a verb is part of the text after its marker. *)
Lemma parsenumLoop_suffix (s : gostring) (num : Z) (isnum : bool) :
  snd (parsenumLoop s num isnum) `suffix_of` s.
Proof.
  revert num isnum. induction s as [|c s IH]; intros num isnum; simpl; [reflexivity|].
  destruct (isDigit c); [|reflexivity].
  destruct (tooLarge num); [apply suffix_nil | apply suffix_cons_r, IH].
Qed.

Lemma findBracket_suffix (s body r : gostring) :
  findBracket s = Some (body, r) -> r `suffix_of` s.
Proof.
  revert body r. induction s as [|c s IH]; intros body r H; [discriminate|]. simpl in H.
  destruct (Ascii.eqb c "]"%char).
  - injection H as _ <-. apply suffix_cons_r. reflexivity.
  - destruct (findBracket s) as [[b' r']|]; [|discriminate]. injection H as _ <-.
    apply suffix_cons_r. eapply IH. reflexivity.
Qed.

Lemma parseArgNumber_suffix (s1 : gostring) : snd (fst (parseArgNumber s1)) `suffix_of` s1.
Proof.
  unfold parseArgNumber. destruct (length s1 <? 2); [reflexivity|].
  destruct (findBracket s1) as [[body r]|] eqn:E; [|reflexivity].
  apply findBracket_suffix in E.
  destruct (parsenum body) as [[w ok] rest]. destruct (ok && bool_decide (rest = [])); exact E.
Qed.

Lemma argNumber_suffix (p : pp) (s : gostring) (n : nat) :
  snd (fst (argNumber p s n)) `suffix_of` s.
Proof.
  unfold argNumber. destruct s as [|c s1]; [reflexivity|].
  destruct (Ascii.eqb_spec c "["%char) as [->|Hc].
  - pose proof (parseArgNumber_suffix s1) as H.
    destruct (parseArgNumber s1) as [[ix r] ok]. simpl in H.
    destruct (ok && (0 <=? ix)%Z && (ix <? Z.of_nat n)%Z); apply suffix_cons_r; exact H.
  - destruct c as [[] [] [] [] [] [] [] []]; try reflexivity. congruence.
Qed.

Lemma doWidth_suffix (n : nat) (p : pp) (s : gostring) (b : bool) :
  snd (fst (doWidth n p s b)) `suffix_of` s.
Proof.
  unfold doWidth. destruct s as [|c s1].
  - reflexivity.
  - destruct (Ascii.eqb_spec c "*"%char) as [->|Hc].
    + apply suffix_cons_r. reflexivity.
    + pose proof (parsenumLoop_suffix (c :: s1) 0%Z false) as H. unfold parsenum.
      destruct (parsenumLoop (c :: s1) 0%Z false) as [[w pr] r]. simpl in H.
      destruct c as [[] [] [] [] [] [] [] []]; try exact H. congruence.
Qed.

Lemma doPrecision_suffix (n : nat) (p : pp) (s : gostring) (b : bool) :
  snd (fst (doPrecision n p s b)) `suffix_of` s.
Proof.
  unfold doPrecision. destruct s as [|c s1]; [reflexivity|].
  destruct (Ascii.eqb_spec c "."%char) as [->|Hc].
  - pose proof (argNumber_suffix (if b then setBad p else p) s1 n) as H.
    destruct (argNumber (if b then setBad p else p) s1 n) as [[p1 r1] b1]. simpl in H.
    apply suffix_cons_r. etransitivity; [|exact H].
    destruct r1 as [|c2 r2]; [reflexivity|].
    destruct (Ascii.eqb_spec c2 "*"%char) as [->|Hc2].
    + apply suffix_cons_r. reflexivity.
    + pose proof (parsenumLoop_suffix (c2 :: r2) 0%Z false) as H2. unfold parsenum.
      destruct (parsenumLoop (c2 :: r2) 0%Z false) as [[w pr] r]. simpl in H2.
      destruct c2 as [[] [] [] [] [] [] [] []]; try exact H2. congruence.
  - destruct c as [[] [] [] [] [] [] [] []]; try reflexivity. congruence.
Qed.

Lemma doVerbByte_suffix (a : list gostring) (out : gostring) (p : pp) (s : gostring)
    (out' : gostring) (p' : pp) (rest : gostring) :
  doVerbByte a out p s = VNext out' p' rest -> length rest < length s.
Proof.
  unfold doVerbByte. destruct s as [|v r]; [discriminate|].
  destruct (128 <=? nat_of_ascii v); [discriminate|].
  destruct (isPercent v); [intros H; injection H as _ _ <-; simpl; lia|].
  destruct (negb (goodArgNum p)); [intros H; injection H as _ _ <-; simpl; lia|].
  destruct (a !! argNum p); [|intros H; injection H as _ _ <-; simpl; lia].
  destruct (specialVerb v); [discriminate|]. intros H; injection H as _ _ <-. simpl. lia.
Qed.

Lemma doVerb_suffix (a : list gostring) (p : pp) (s : gostring)
    (out : gostring) (p' : pp) (rest : gostring) :
  doVerb a p s = VNext out p' rest -> length rest < length s.
Proof.
  unfold doVerb. intros H.
  pose proof (argNumber_suffix p (dropWhile isFmtFlag s) (length a)) as H1.
  destruct (argNumber p (dropWhile isFmtFlag s) (length a)) as [[p1 s1] b1]. simpl in H1.
  pose proof (doWidth_suffix (length a) p1 s1 b1) as H2.
  destruct (doWidth (length a) p1 s1 b1) as [[[o2 p2] s2] b2]. simpl in H2.
  pose proof (doPrecision_suffix (length a) p2 s2 b2) as H3.
  destruct (doPrecision (length a) p2 s2 b2) as [[[o3 p3] s3] b3]. simpl in H3.
  assert (exists p4 s4, (if b3 then (p3, s3, true) else argNumber p3 s3 (length a)) = (p4, s4, true)
                        \/ (if b3 then (p3, s3, true) else argNumber p3 s3 (length a)) = (p4, s4, false))
    as (p4 & s4 & Hor).
  { destruct (if b3 then (p3, s3, true) else argNumber p3 s3 (length a)) as [[p4 s4] [|]]; eauto. }
  assert (s4 `suffix_of` s3) as H4.
  { destruct b3.
    - destruct Hor as [Hor|Hor]; injection Hor as _ <-; reflexivity.
    - pose proof (argNumber_suffix p3 s3 (length a)) as Hs.
      destruct Hor as [Hor|Hor]; rewrite Hor in Hs; exact Hs. }
  assert (doVerbByte a (o2 ++ o3) p4 s4 = VNext out p' rest) as Hb.
  { destruct Hor as [Hor|Hor]; rewrite Hor in H; exact H. }
  apply doVerbByte_suffix in Hb.
  pose proof (dropWhile_suffix isFmtFlag s) as H0.
  apply suffix_length in H0, H1, H2, H3, H4. lia.
Qed.

Arguments doPrintf : simpl never.
Arguments doVerb : simpl never.

(** More fuel than the format is long is never used up: [None] only
    stands for what the model leaves out. *)
Lemma doPrintf_fuel (fuel fuel' : nat) (a : list gostring) (p : pp) (s : gostring) :
  length s < fuel -> length s < fuel' -> doPrintf fuel a p s = doPrintf fuel' a p s.
Proof.
  revert fuel' p s. induction fuel as [|fuel IH]; intros fuel' p s H H'; [lia|].
  destruct fuel' as [|fuel']; [lia|].
  destruct s as [|c s1]; [reflexivity|]. simpl in H, H'.
  destruct (isPercent c) eqn:Hc.
  - assert (c = "%"%char) as -> by (apply Ascii.eqb_eq; exact Hc).
    rewrite !doPrintf_marker.
    destruct (doVerb a _ s1) as [o p' rest|o p'|] eqn:E; [|reflexivity..].
    apply doVerb_suffix in E. rewrite (IH fuel' p' rest) by lia. reflexivity.
  - rewrite !doPrintf_text by exact Hc. rewrite (IH fuel' p s1) by lia. reflexivity.
Qed.

(** More fuel does not change a result. *)
Lemma doPrintf_mono (fuel k : nat) (a : list gostring) (p : pp) (s out : gostring) :
  doPrintf fuel a p s = Some out -> doPrintf (k + fuel) a p s = Some out.
Proof.
  revert p s out. induction fuel as [|fuel IH]; intros p s out H; [discriminate|].
  replace (k + S fuel) with (S (k + fuel)) by lia.
  destruct s as [|c s1]; [exact H|].
  destruct (isPercent c) eqn:Hc.
  - assert (c = "%"%char) as -> by (apply Ascii.eqb_eq; exact Hc).
    rewrite doPrintf_marker in *.
    destruct (doVerb a _ s1) as [o p' rest|o p'|]; [|exact H|exact H].
    destruct (doPrintf fuel a p' rest) as [out'|] eqn:E; [|discriminate].
    rewrite (IH _ _ _ E). exact H.
  - rewrite doPrintf_text in * by exact Hc.
    destruct (doPrintf fuel a p s1) as [out'|] eqn:E; [|discriminate].
    rewrite (IH _ _ _ E). exact H.
Qed.

(** The loop resets [goodArgNum] at every verb. *)
Lemma doPrintf_good (fuel : nat) (a : list gostring) (n : nat) (r g g' : bool) (s : gostring) :
  doPrintf fuel a (mkPp n r g) s = doPrintf fuel a (mkPp n r g') s.
Proof.
  revert s. induction fuel as [|fuel IH]; intros s; [reflexivity|].
  destruct s as [|c s1]; [reflexivity|].
  destruct (isPercent c) eqn:Hc.
  - assert (c = "%"%char) as -> by (apply Ascii.eqb_eq; exact Hc).
    rewrite !doPrintf_marker. reflexivity.
  - rewrite !doPrintf_text by exact Hc. rewrite IH. reflexivity.
Qed.

Lemma doPrintf_plain_text (fuel : nat) (a : list gostring) (p : pp) (t rest out : gostring) :
  existsb isPercent t = false ->
  doPrintf fuel a p rest = Some out ->
  doPrintf (length t + fuel) a p (t ++ rest) = Some (t ++ out).
Proof.
  intros Ht H. induction t as [|c t IH]; [exact H|].
  simpl in Ht. apply orb_false_iff in Ht. destruct Ht as [Hc Ht].
  change (length (c :: t) + fuel) with (S (length t + fuel)).
  change ((c :: t) ++ rest) with (c :: (t ++ rest)).
  rewrite doPrintf_text by exact Hc. rewrite (IH Ht). reflexivity.
Qed.

(** The pieces print their text, a percent for a literal and the next
    operand for a hole. *)
Lemma doPrintf_flat (ps : list piece) (fuel : nat) (a : list gostring)
    (n : nat) (r g : bool) (rest out : gostring) :
  forallb okPiece ps = true ->
  n + holes ps <= length a ->
  doPrintf fuel a (mkPp (n + holes ps) r true) rest = Some out ->
  doPrintf (length (flat ps) + fuel) a (mkPp n r g) (flat ps ++ rest) =
  Some (render ps (drop n a) ++ out).
Proof.
  revert n g. induction ps as [|p ps IH]; intros n g Hok Hn H.
  - simpl. change (holes []) with 0 in H. rewrite Nat.add_0_r in H.
    rewrite (doPrintf_good fuel a n r g true). exact H.
  - simpl in Hok. apply andb_true_iff in Hok. destruct Hok as [Hp Hps].
    rewrite holes_cons in Hn, H.
    change (flat (p :: ps)) with (flatPiece p ++ flat ps).
    rewrite <- app_assoc, length_app, <- Nat.add_assoc.
    destruct p as [t| |v].
    + change (flatPiece (PText t)) with t. simpl in Hp. apply negb_true_iff in Hp.
      simpl in Hn, H. cbn [render]. rewrite <- app_assoc.
      apply doPrintf_plain_text; [exact Hp|]. apply IH; assumption.
    + simpl in Hn, H. cbn [render].
      change (flatPiece PLit ++ flat ps ++ rest) with ("%"%char :: "%"%char :: flat ps ++ rest).
      change (length (flatPiece PLit) + (length (flat ps) + fuel))
        with (S (1 + (length (flat ps) + fuel))).
      rewrite doPrintf_marker, doVerb_percent. simpl argNum. simpl reordered.
      rewrite (doPrintf_mono _ 1 _ _ _ _ (IH n true Hps Hn H)). reflexivity.
    + simpl in Hp. simpl isHole in Hn, H. cbn iota in Hn, H.
      destruct (lookup_lt_is_Some_2 a n) as [x Hx]; [lia|].
      rewrite (drop_S _ _ _ Hx). cbn [render].
      change (flatPiece (PHole v) ++ flat ps ++ rest) with ("%"%char :: v :: flat ps ++ rest).
      change (length (flatPiece (PHole v)) + (length (flat ps) + fuel))
        with (S (1 + (length (flat ps) + fuel))).
      rewrite doPrintf_marker. simpl argNum. simpl reordered.
      rewrite (doVerb_hole a n r v _ x Hp Hx).
      replace (n + (1 + holes ps)) with (S n + holes ps) in H by lia.
      rewrite (doPrintf_mono _ 1 _ _ _ _ (IH (S n) true Hps ltac:(lia) H)).
      simpl. rewrite <- app_assoc. reflexivity.
Qed.

Lemma extraArgs_done (a : list gostring) (r g : bool) : extraArgs a (mkPp (length a) r g) = [].
Proof.
  unfold extraArgs. simpl. rewrite (proj2 (Nat.ltb_ge _ _)) by lia.
  rewrite andb_false_r. reflexivity.
Qed.

(** [fmt.Sprintf] on a template given piece by piece, with one operand
    for every hole. *)
Lemma fmtSprintf_flat (ps : list piece) (a : list gostring) :
  forallb okPiece ps = true ->
  holes ps = length a ->
  fmtSprintf (flat ps) a = Some (render ps a).
Proof.
  intros Hok Hn. unfold fmtSprintf.
  pose proof (doPrintf_flat ps 1 a 0 false true [] [] Hok ltac:(lia)) as H.
  rewrite !app_nil_r in H. replace (S (length (flat ps))) with (length (flat ps) + 1) by lia.
  apply H. simpl. rewrite Hn. rewrite doPrintf_nil, extraArgs_done. reflexivity.
Qed.

(** The same template followed by a marker that nothing completes:
    package [fmt] prints its error text for the missing verb. *)
Lemma fmtSprintf_flat_dangling (ps : list piece) (a : list gostring) :
  forallb okPiece ps = true ->
  holes ps = length a ->
  fmtSprintf (flat ps ++ str "%") a = Some (render ps a ++ str "%!(NOVERB)").
Proof.
  intros Hok Hn. unfold fmtSprintf.
  pose proof (doPrintf_flat ps 2 a 0 false true (str "%") (str "%!(NOVERB)") Hok ltac:(lia)) as H.
  rewrite length_app. simpl length.
  replace (S (length (flat ps) + 1)) with (length (flat ps) + 2) by lia.
  apply H. simpl. rewrite Hn.
  change (str "%") with ["%"%char]. rewrite doPrintf_marker, doVerb_end. simpl.
  rewrite extraArgs_done, ?app_nil_r. reflexivity.
Qed.

(** * The identity path on templates given piece by piece *)

Lemma okPiece_doubleLits (ps : list piece) :
  forallb okPiece ps = true -> forallb okPiece (doubleLits ps) = true.
Proof.
  induction ps as [|p ps IH]; intros H; [reflexivity|].
  simpl in H. apply andb_true_iff in H. destruct H as [Hp Hps].
  unfold doubleLits in *. simpl. rewrite forallb_app, (IH Hps), andb_true_r.
  destruct p; simpl in *; rewrite ?Hp; reflexivity.
Qed.

Lemma holes_doubleLits (ps : list piece) : holes (doubleLits ps) = holes ps.
Proof.
  induction ps as [|p ps IH]; [reflexivity|].
  unfold doubleLits in *. simpl. rewrite holes_app, holes_cons, IH.
  destruct p; reflexivity.
Qed.

Lemma render_doubleLits (ps : list piece) (fs : list (list piece)) :
  holes ps = length fs ->
  render (doubleLits ps) (map flat fs) = flat (splice ps fs).
Proof.
  revert fs. induction ps as [|p ps IH]; intros fs H; [reflexivity|].
  rewrite holes_cons in H. destruct p as [t| |v]; simpl in H.
  - change (doubleLits (PText t :: ps)) with (PText t :: doubleLits ps).
    simpl. rewrite (IH fs H). reflexivity.
  - change (doubleLits (PLit :: ps)) with (PLit :: PLit :: doubleLits ps).
    simpl. rewrite (IH fs H). reflexivity.
  - change (doubleLits (PHole v :: ps)) with (PHole v :: doubleLits ps).
    destruct fs as [|f fs]; [discriminate|]. simpl in H.
    simpl. rewrite (IH fs) by lia. rewrite flat_app. reflexivity.
Qed.

Lemma okPiece_splice (ps : list piece) (fs : list (list piece)) :
  forallb okPiece ps = true ->
  Forall (fun f => forallb okPiece f = true) fs ->
  forallb okPiece (splice ps fs) = true.
Proof.
  revert fs. induction ps as [|p ps IH]; intros fs H Hfs; [reflexivity|].
  simpl in H. apply andb_true_iff in H. destruct H as [Hp Hps].
  destruct p as [t| |v].
  - cbn [splice forallb]. rewrite Hp. apply IH; assumption.
  - cbn [splice forallb]. rewrite Hp. apply IH; assumption.
  - destruct fs as [|f fs]; cbn [splice].
    + cbn [forallb]. rewrite Hp. apply IH; assumption.
    + apply Forall_cons in Hfs. destruct Hfs as [Hf Hfs].
      rewrite forallb_app, Hf. apply IH; assumption.
Qed.

Lemma render_app (ps qs : list piece) (a b : list gostring) :
  holes ps = length a ->
  render (ps ++ qs) (a ++ b) = render ps a ++ render qs b.
Proof.
  revert a. induction ps as [|p ps IH]; intros a H.
  - destruct a; [reflexivity | discriminate].
  - rewrite holes_cons in H. destruct p as [t| |v]; simpl in H |- *.
    + rewrite (IH a H), app_assoc. reflexivity.
    + rewrite (IH a H). reflexivity.
    + destruct a as [|x a]; [discriminate|]. simpl in H |- *.
      rewrite (IH a) by lia. rewrite app_assoc. reflexivity.
Qed.

Lemma Query_Query_regular (q : Query) (f : list piece) (binder : BindVar) :
  regular q f ->
  Query_Query q binder = Some (render f (map binder (seq 0 (length (args q))))).
Proof.
  intros (Hi & Hf & Hok & Hh). unfold Query_Query. rewrite Hi, Hf.
  apply fmtSprintf_flat; [exact Hok|]. rewrite length_map, length_seq. exact Hh.
Qed.

Lemma map_seq_shift {A} (f : nat -> A) (off k : nat) :
  map f (seq off k) = map (fun x => f (off + x)) (seq 0 k).
Proof.
  revert off. induction k as [|k IH]; intros off; [reflexivity|].
  simpl. rewrite Nat.add_0_r. f_equal.
  rewrite (IH (S off)), <- (seq_shift k 0), map_map.
  apply map_ext. intros x. f_equal. lia.
Qed.

Section IdentityPath.

Variable h : Heap.

Lemma argPieces_ok (fargs : list Arg) (fs : list (list piece)) :
  Forall2 (argPieces h) fargs fs ->
  Forall (fun f => forallb okPiece f = true) fs.
Proof.
  induction 1 as [|arg f fargs fs Hf _ IH]; constructor; [|exact IH].
  destruct arg as [v|p]; simpl in Hf; [subst; reflexivity|]. destruct Hf as (_ & _ & Hok & _). exact Hok.
Qed.

Lemma argPieces_holes (arg : Arg) (f : list piece) :
  argPieces h arg f -> holes f = length (argValues h arg).
Proof.
  destruct arg as [v|p]; simpl; [intros ->; reflexivity|]. intros (_ & _ & _ & Hh). exact Hh.
Qed.

Lemma argPieces_fmt (fargs : list Arg) (fs : list (list piece)) :
  Forall2 (argPieces h) fargs fs ->
  map (fun arg => match arg with Ref q => fmt (h q) | Leaf _ => str "%s" end) fargs = map flat fs.
Proof.
  induction 1 as [|arg f fargs fs Hf _ IH]; [reflexivity|]. cbn [map]. f_equal; [|exact IH].
  destruct arg as [v|p]; simpl in Hf; [subst; reflexivity|]. destruct Hf as (_ & Hfm & _). exact Hfm.
Qed.

Lemma argPieces_implicit (fargs : list Arg) (fs : list (list piece)) :
  Forall2 (argPieces h) fargs fs ->
  existsb (fun arg => match arg with Ref p => hasArgIndices (h p) | Leaf _ => false end) fargs = false.
Proof.
  induction 1 as [|arg f fargs fs Hf _ IH]; [reflexivity|]. simpl. rewrite IH, orb_false_r.
  destruct arg as [v|p]; simpl in Hf; [reflexivity|]. destruct Hf as (Hi & _).
  unfold hasArgIndices. rewrite Hi. reflexivity.
Qed.

Lemma holes_splice_args (ps : list piece) (fargs : list Arg) (fs : list (list piece)) :
  holes ps = length fargs ->
  Forall2 (argPieces h) fargs fs ->
  holes (splice ps fs) = length (flat_map (argValues h) fargs).
Proof.
  intros Hn HF. revert ps Hn. induction HF as [|arg f fargs fs Hf _ IH]; intros ps Hn.
  - simpl. induction ps as [|p ps IHp]; [reflexivity|].
    rewrite holes_cons in Hn. destruct p; simpl in Hn; try discriminate;
      simpl; rewrite holes_cons; apply IHp; exact Hn.
  - induction ps as [|p ps IHp]; [discriminate|].
    rewrite holes_cons in Hn. destruct p as [t| |v]; simpl in Hn.
    + simpl. rewrite holes_cons. apply IHp. exact Hn.
    + simpl. rewrite holes_cons. apply IHp. exact Hn.
    + simpl. rewrite holes_app, length_app, (argPieces_holes _ _ Hf). f_equal. apply IH. lia.
Qed.

(** The rendering of the spliced template is the outer text with, at
    every hole, the rendering of what the argument stands for. *)
Lemma render_splice (binder : BindVar) (ps : list piece) (fargs : list Arg)
    (fs : list (list piece)) (off : nat) :
  holes ps = length fargs ->
  Forall2 (argPieces h) fargs fs ->
  render (splice ps fs) (map binder (seq off (length (flat_map (argValues h) fargs)))) =
  renderNested h binder off ps fargs.
Proof.
  intros Hn HF. revert ps off Hn. induction HF as [|arg f fargs fs Hf HF IH]; intros ps off Hn.
  - simpl. induction ps as [|p ps IHp]; [reflexivity|].
    rewrite holes_cons in Hn. destruct p; simpl in Hn; try discriminate;
      simpl; rewrite IHp by exact Hn; reflexivity.
  - induction ps as [|p ps IHp]; [discriminate|].
    rewrite holes_cons in Hn. destruct p as [t| |v]; simpl in Hn.
    + simpl in *. rewrite IHp by exact Hn. reflexivity.
    + simpl in *. rewrite IHp by exact Hn. reflexivity.
    + cbn [splice renderNested flat_map]. rewrite length_app, seq_app, map_app.
      rewrite render_app by (rewrite length_map, length_seq; apply argPieces_holes, Hf).
      rewrite IH by lia. f_equal.
      destruct arg as [w|p]; simpl in Hf |- *.
      * subst f. simpl. rewrite app_nil_r. reflexivity.
      * rewrite (Query_Query_regular _ _ _ Hf). simpl.
        rewrite map_seq_shift. reflexivity.
Qed.

(** The identity path on a template given piece by piece whose holes
    are matched, in order, by leaves and by nested queries composed
    earlier on the identity path. *)
Lemma identity_path_spec (ps : list piece) (fargs : list Arg) (fs : list (list piece)) :
  forallb okPiece ps = true ->
  holes ps = length fargs ->
  Forall2 (argPieces h) fargs fs ->
  Sprintf h (flat ps) fargs =
    Ok (mkQuery (flat (splice ps fs)) (flat_map (argValues h) fargs) None)
  /\ regular (mkQuery (flat (splice ps fs)) (flat_map (argValues h) fargs) None) (splice ps fs)
  /\ forall binder,
       Query_Query (mkQuery (flat (splice ps fs)) (flat_map (argValues h) fargs) None) binder =
       Some (renderNested h binder 0 ps fargs).
Proof.
  intros Hok Hn HF.
  assert (regular (mkQuery (flat (splice ps fs)) (flat_map (argValues h) fargs) None) (splice ps fs))
    as Hreg.
  { repeat split.
    - apply okPiece_splice; [exact Hok | eapply argPieces_ok; exact HF].
    - apply holes_splice_args; assumption. }
  split; [|split; [exact Hreg|]].
  - unfold Sprintf, needsExplicitPath.
    rewrite (argPieces_implicit _ _ HF), (flat_explicit_free ps Hok). cbn [orb].
    rewrite (argPieces_fmt _ _ HF), (doublePercents_flat ps Hok).
    rewrite fmtSprintf_flat.
    + rewrite render_doubleLits; [reflexivity|].
      rewrite Hn. apply (Forall2_length _ _ _ HF).
    + apply okPiece_doubleLits, Hok.
    + rewrite holes_doubleLits, length_map, Hn. apply (Forall2_length _ _ _ HF).
  - intros binder. rewrite (Query_Query_regular _ _ binder Hreg).
    simpl args. rewrite render_splice by assumption. reflexivity.
Qed.

End IdentityPath.

Lemma renderNested_leaves (h : Heap) (binder : BindVar) (ps : list piece) (vs : list Value) (off : nat) :
  holes ps = length vs ->
  renderNested h binder off ps (map Leaf vs) = renderFrom binder off ps.
Proof.
  revert vs off. induction ps as [|p ps IH]; intros vs off H; [reflexivity|].
  rewrite holes_cons in H. destruct p as [t| |v]; simpl in H |- *.
  - rewrite (IH vs off H). reflexivity.
  - rewrite (IH vs off H). reflexivity.
  - destruct vs as [|w vs]; [discriminate|]. simpl in H |- *.
    rewrite (IH vs) by lia. rewrite Nat.add_1_r. reflexivity.
Qed.

Lemma argPieces_leaves (h : Heap) (vs : list Value) :
  Forall2 (argPieces h) (map Leaf vs) (map (fun _ => [PHole "s"%char]) vs).
Proof. induction vs as [|v vs IH]; constructor; [reflexivity | exact IH]. Qed.

Lemma argValues_leaves (h : Heap) (vs : list Value) : flat_map (argValues h) (map Leaf vs) = vs.
Proof. induction vs as [|v vs IH]; [reflexivity|]. simpl. rewrite IH. reflexivity. Qed.

(** * Directives with flags, width and precision *)

Lemma takeWhile_dropWhile (f : ascii -> bool) (s : gostring) :
  takeWhile f s ++ dropWhile f s = s.
Proof.
  induction s as [|c s IH]; [reflexivity|]. simpl.
  destruct (f c); [simpl; f_equal; exact IH | reflexivity].
Qed.

Lemma takeWhile_all (f : ascii -> bool) (s : gostring) : forallb f (takeWhile f s) = true.
Proof.
  induction s as [|c s IH]; [reflexivity|]. simpl.
  destruct (f c) eqn:E; [simpl; rewrite E; exact IH | reflexivity].
Qed.

Lemma dropWhile_app_stop (f : ascii -> bool) (l : gostring) (x : ascii) (r : gostring) :
  f x = false -> dropWhile f (l ++ x :: r) = dropWhile f l ++ x :: r.
Proof.
  intros Hx. induction l as [|c l IH]; simpl; [rewrite Hx; reflexivity|].
  destruct (f c); [exact IH | reflexivity].
Qed.

Lemma dropWhile_head (f : ascii -> bool) (l : gostring) (c : ascii) (r : gostring) :
  dropWhile f l = c :: r -> f c = false.
Proof.
  induction l as [|x l IH]; simpl; [discriminate|].
  destruct (f x) eqn:E; [exact IH|]. intros H. injection H as <- _. exact E.
Qed.

Lemma dropWhile_all (f : ascii -> bool) (l r : gostring) :
  forallb f l = true -> dropWhile f (l ++ r) = dropWhile f r.
Proof.
  induction l as [|c l IH]; intros H; [reflexivity|]. simpl in *.
  apply andb_prop in H. destruct H as [-> H]. exact (IH H).
Qed.

Lemma dropWhile_id (f : ascii -> bool) (c : ascii) (r : gostring) :
  f c = false -> dropWhile f (c :: r) = c :: r.
Proof. intros H. simpl. rewrite H. reflexivity. Qed.

Lemma digitsOk_digits (num : Z) (w : gostring) : digitsOk num w = true -> forallb isDigit w = true.
Proof.
  revert num. induction w as [|c w IH]; intros num H; [reflexivity|]. simpl in *.
  apply andb_prop in H. destruct H as [H Hw]. apply andb_prop in H. destruct H as [-> _].
  exact (IH _ Hw).
Qed.

(** [parsenum] reads such digits to the end. *)
Lemma parsenumLoop_digitsOk (w : gostring) (num : Z) (isnum : bool) (c : ascii) (r : gostring) :
  digitsOk num w = true -> isDigit c = false ->
  snd (parsenumLoop (w ++ c :: r) num isnum) = c :: r.
Proof.
  revert num isnum. induction w as [|x w IH]; intros num isnum H Hc; simpl.
  - rewrite Hc. reflexivity.
  - simpl in H. apply andb_prop in H. destruct H as [H Hw]. apply andb_prop in H.
    destruct H as [Hx Hl]. apply negb_true_iff in Hl. rewrite Hx, Hl. apply IH; assumption.
Qed.

(** The three parts of a decoration. *)
Lemma okDecoration_parts (dec : gostring) :
  okDecoration dec = true ->
  exists fl w tl,
    dec = fl ++ w ++ tl
    /\ forallb isFmtFlag fl = true
    /\ digitsOk 0%Z w = true
    /\ (match w with c :: _ => isFmtFlag c = false | [] => True end)
    /\ (tl = [] \/ exists pr, tl = "."%char :: pr /\ digitsOk 0%Z pr = true).
Proof.
  unfold okDecoration. intros H. apply andb_prop in H. destruct H as [Hw Htl].
  exists (takeWhile isFmtFlag dec), (takeWhile isDigit (dropWhile isFmtFlag dec)),
         (dropWhile isDigit (dropWhile isFmtFlag dec)).
  rewrite !takeWhile_dropWhile. split; [reflexivity|].
  split; [apply takeWhile_all|]. split; [exact Hw|]. split.
  - destruct (dropWhile isFmtFlag dec) as [|c s1] eqn:E; [exact I|].
    pose proof (dropWhile_head _ _ _ _ E) as Hc. simpl.
    destruct (isDigit c); [exact Hc | exact I].
  - destruct (dropWhile isDigit (dropWhile isFmtFlag dec)) as [|c pr]; [left; reflexivity|].
    apply andb_prop in Htl. destruct Htl as [Hc Hpr]. apply Ascii.eqb_eq in Hc. subst c.
    right. exists pr. split; [reflexivity | exact Hpr].
Qed.

Lemma takeWhile_app_stop (f : ascii -> bool) (ds : gostring) (x : ascii) (r : gostring) :
  forallb f ds = true -> f x = false ->
  takeWhile f (ds ++ x :: r) = ds /\ dropWhile f (ds ++ x :: r) = x :: r.
Proof.
  intros Hds Hx. induction ds as [|c ds IH]; simpl.
  - rewrite Hx. split; reflexivity.
  - simpl in Hds. apply andb_prop in Hds. destruct Hds as [Hc Hds]. rewrite Hc.
    destruct (IH Hds) as [-> ->]. split; reflexivity.
Qed.

(** Package [fmt] reads any run of up to seven digits to the end. *)
Lemma digitsOk_short (w : gostring) (num : Z) (k : nat) :
  forallb isDigit w = true ->
  (0 <= num < 10 ^ Z.of_nat k)%Z ->
  k + length w <= 7 ->
  digitsOk num w = true.
Proof.
  revert num k. induction w as [|c w IH]; intros num k Hw Hnum Hk; [reflexivity|].
  simpl in Hw, Hk |- *. apply andb_prop in Hw. destruct Hw as [Hc Hw]. rewrite Hc.
  assert (10 ^ Z.of_nat k <= 10 ^ 6)%Z as Hpow by (apply Z.pow_le_mono_r; lia).
  assert (tooLarge num = false) as -> by (unfold tooLarge; apply Z.ltb_ge; lia).
  simpl. apply (IH _ (S k)); [exact Hw| |lia].
  assert (0 <= digitVal c <= 9)%Z as Hd.
  { unfold isDigit in Hc. unfold digitVal. apply andb_prop in Hc. destruct Hc as [H1 H2].
    apply Nat.leb_le in H1, H2. lia. }
  rewrite Nat2Z.inj_succ, Z.pow_succ_r by lia. lia.
Qed.

Lemma takeWhile_full (f : ascii -> bool) (l : gostring) :
  forallb f l = true -> takeWhile f l = l.
Proof.
  induction l as [|c l IH]; intros H; [reflexivity|]. simpl in *.
  apply andb_prop in H. destruct H as [-> H]. rewrite (IH H). reflexivity.
Qed.

Lemma dropWhile_full (f : ascii -> bool) (l : gostring) :
  forallb f l = true -> dropWhile f l = [].
Proof.
  induction l as [|c l IH]; intros H; [reflexivity|]. simpl in *.
  apply andb_prop in H. destruct H as [-> H]. exact (IH H).
Qed.

(** Flags, then at most seven digits, then possibly a dot and at most
    seven digits, make a decoration. *)
Lemma okDecoration_intro (fl w pr : gostring) :
  forallb isFmtFlag fl = true ->
  forallb isDigit w = true -> length w <= 7 ->
  forallb isDigit pr = true -> length pr <= 7 ->
  okDecoration (fl ++ w) = true /\ okDecoration (fl ++ w ++ "."%char :: pr) = true.
Proof.
  intros Hfl Hw Hlw Hpr Hlp.
  assert (forall tl, tl = [] \/ tl = "."%char :: pr -> okDecoration (fl ++ w ++ tl) = true) as H.
  { intros tl Htl. unfold okDecoration. rewrite (dropWhile_all isFmtFlag fl _ Hfl). clear fl Hfl.
    induction w as [|c w IH].
    - destruct Htl as [->| ->]; [reflexivity|]. simpl.
      apply (digitsOk_short pr 0%Z 0 Hpr); [simpl; lia | lia].
    - simpl in Hw, Hlw. apply andb_prop in Hw. destruct Hw as [Hc Hw].
      change ((c :: w) ++ tl) with (c :: (w ++ tl)). cbn [dropWhile].
      destruct (isFmtFlag c) eqn:Hf; [apply IH; [exact Hw | lia]|].
      assert (takeWhile isDigit (c :: w ++ tl) = c :: w
              /\ dropWhile isDigit (c :: w ++ tl) = tl) as [-> ->].
      { change (c :: w ++ tl) with ((c :: w) ++ tl).
        assert (forallb isDigit (c :: w) = true) as Hcw by (simpl; rewrite Hc; exact Hw).
        destruct Htl as [->| ->].
        - rewrite app_nil_r. split; [apply takeWhile_full | apply dropWhile_full]; exact Hcw.
        - apply takeWhile_app_stop; [exact Hcw | reflexivity]. }
      rewrite (digitsOk_short (c :: w) 0%Z 0); [|simpl; rewrite Hc; exact Hw|simpl; lia|simpl; lia].
      destruct Htl as [->| ->]; [reflexivity|]. simpl.
      apply (digitsOk_short pr 0%Z 0 Hpr); [simpl; lia | lia]. }
  split.
  - rewrite <- (app_nil_r w). apply H. left. reflexivity.
  - apply H. right. reflexivity.
Qed.

(** What the bytes that may follow the flags of a decoration are not. *)
Lemma digit_facts (c : ascii) :
  isDigit c = true ->
  Ascii.eqb c "["%char = false /\ Ascii.eqb c "*"%char = false /\ Ascii.eqb c "."%char = false
  /\ Ascii.eqb c "'"%char = false /\ isPercent c = false.
Proof.
  destruct c as [[] [] [] [] [] [] [] []]; intros H; try discriminate H; repeat split.
Qed.

Lemma plainVerb_facts (v : ascii) :
  plainVerb v = true ->
  Ascii.eqb v "["%char = false /\ Ascii.eqb v "*"%char = false /\ Ascii.eqb v "."%char = false
  /\ isDigit v = false /\ isFlag v = false /\ isFmtFlag v = false /\ isPercent v = false.
Proof.
  destruct v as [[] [] [] [] [] [] [] []]; intros H; try discriminate H; repeat split.
Qed.

Lemma fmtFlag_flag (c : ascii) : isFmtFlag c = true -> isFlag c = true /\ isPercent c = false.
Proof.
  destruct c as [[] [] [] [] [] [] [] []]; intros H; try discriminate H; repeat split.
Qed.

Lemma not_fmtFlag_digit (c : ascii) : isDigit c = true -> isFmtFlag c = false -> isFlag c = false.
Proof.
  destruct c as [[] [] [] [] [] [] [] []]; intros H H'; try discriminate H; try discriminate H';
    reflexivity.
Qed.

Lemma parseIndex_other (c : ascii) (r : gostring) :
  Ascii.eqb c "["%char = false -> parseIndex (c :: r) = (false, 0%Z, c :: r).
Proof.
  destruct c as [[] [] [] [] [] [] [] []]; intros H; try discriminate H; reflexivity.
Qed.

Lemma skipWidth_other (c : ascii) (r : gostring) :
  Ascii.eqb c "*"%char = false -> skipWidth (c :: r) = dropWhile isDigit (c :: r).
Proof.
  destruct c as [[] [] [] [] [] [] [] []]; intros H; try discriminate H; reflexivity.
Qed.

Lemma skipPrecision_other (c : ascii) (r : gostring) :
  Ascii.eqb c "."%char = false -> skipPrecision (c :: r) = c :: r.
Proof.
  destruct c as [[] [] [] [] [] [] [] []]; intros H; try discriminate H; reflexivity.
Qed.

Lemma skipPrecision_digits (c : ascii) (r : gostring) :
  Ascii.eqb c "*"%char = false ->
  skipPrecision ("."%char :: c :: r) = dropWhile isDigit (c :: r).
Proof.
  destruct c as [[] [] [] [] [] [] [] []]; intros H; try discriminate H; reflexivity.
Qed.

Lemma argNumber_other (p : pp) (c : ascii) (r : gostring) (n : nat) :
  Ascii.eqb c "["%char = false -> argNumber p (c :: r) n = (p, c :: r, false).
Proof.
  destruct c as [[] [] [] [] [] [] [] []]; intros H; try discriminate H; reflexivity.
Qed.

Lemma doWidth_digits (n : nat) (p : pp) (c : ascii) (r : gostring) :
  Ascii.eqb c "*"%char = false ->
  doWidth n p (c :: r) false = ([], p, snd (parsenum (c :: r)), false).
Proof.
  intros H. unfold doWidth.
  destruct (parsenum (c :: r)) as [[num present] r'].
  destruct c as [[] [] [] [] [] [] [] []]; try discriminate H; reflexivity.
Qed.

Lemma doPrecision_other (n : nat) (p : pp) (c : ascii) (r : gostring) (b : bool) :
  Ascii.eqb c "."%char = false -> doPrecision n p (c :: r) b = ([], p, c :: r, b).
Proof.
  destruct c as [[] [] [] [] [] [] [] []]; intros H; try discriminate H; reflexivity.
Qed.

Lemma doPrecision_digits (n : nat) (p : pp) (c : ascii) (r : gostring) :
  Ascii.eqb c "["%char = false -> Ascii.eqb c "*"%char = false ->
  doPrecision n p ("."%char :: c :: r) false = ([], p, snd (parsenum (c :: r)), false).
Proof.
  intros H1 H2. unfold doPrecision. rewrite (argNumber_other p c r n H1).
  destruct (parsenum (c :: r)) as [[num present] r'].
  destruct c as [[] [] [] [] [] [] [] []]; try discriminate H2; reflexivity.
Qed.

(** A run of digits that [parsenum] reads to the end, followed by a
    byte that is no digit, bracket or star. *)
Lemma digits_then (w : gostring) (c : ascii) (r : gostring) :
  digitsOk 0%Z w = true ->
  isDigit c = false -> Ascii.eqb c "["%char = false -> Ascii.eqb c "*"%char = false ->
  exists c' r', w ++ c :: r = c' :: r'
    /\ Ascii.eqb c' "["%char = false /\ Ascii.eqb c' "*"%char = false
    /\ dropWhile isDigit (c' :: r') = c :: r
    /\ snd (parsenum (c' :: r')) = c :: r.
Proof.
  intros Hw Hc Hb Hs. exists (hd c (w ++ c :: r)), (tl (w ++ c :: r)).
  assert (w ++ c :: r = hd c (w ++ c :: r) :: tl (w ++ c :: r)) as Heq by (destruct w; reflexivity).
  split; [exact Heq|]. rewrite <- Heq.
  split; [|split; [|split]].
  - destruct w as [|d w]; [exact Hb|]. simpl in *.
    apply andb_prop in Hw. destruct Hw as [Hd _]. apply andb_prop in Hd. destruct Hd as [Hd _].
    apply (digit_facts d Hd).
  - destruct w as [|d w]; [exact Hs|]. simpl in *.
    apply andb_prop in Hw. destruct Hw as [Hd _]. apply andb_prop in Hd. destruct Hd as [Hd _].
    apply (digit_facts d Hd).
  - rewrite (dropWhile_all isDigit w (c :: r) (digitsOk_digits _ _ Hw)).
    apply dropWhile_id, Hc.
  - apply parsenumLoop_digitsOk; assumption.
Qed.

(** The scanner reads a decoration and stops at the verb. *)
Lemma parseDecor_decorated (dec : gostring) (v : ascii) (rest : gostring) :
  okDecoration dec = true -> plainVerb v = true ->
  parseDecor (dec ++ v :: rest) = (false, 0%Z, v :: rest).
Proof.
  intros Hdec Hv.
  destruct (okDecoration_parts dec Hdec) as (fl & w & tl & -> & Hfl & Hw & Hw0 & Htl).
  destruct (plainVerb_facts v Hv) as (Hvb & Hvs & Hvd & Hvg & Hvf & Hvff & Hvp).
  assert (exists pr, digitsOk 0%Z pr = true
            /\ skipPrecision (tl ++ v :: rest) = v :: rest
            /\ exists c r, tl ++ v :: rest = c :: r /\ isDigit c = false
                 /\ Ascii.eqb c "["%char = false /\ Ascii.eqb c "*"%char = false
                 /\ isFlag c = false) as (pr & Hpr & Hprec & c & r & Heq & Hcd & Hcb & Hcs & Hcf).
  { destruct Htl as [->|(pr & -> & Hpr)].
    - exists []. split; [reflexivity|]. split; [apply skipPrecision_other, Hvd|].
      exists v, rest. repeat split; assumption.
    - exists pr. split; [exact Hpr|]. split.
      + destruct (digits_then pr v rest Hpr Hvg Hvb Hvs) as (c' & r' & Heq & _ & Hs' & Hd' & _).
        change (("."%char :: pr) ++ v :: rest) with ("."%char :: (pr ++ v :: rest)).
        rewrite Heq, (skipPrecision_digits c' r' Hs'). exact Hd'.
      + exists "."%char, (pr ++ v :: rest). repeat split. }
  unfold parseDecor. rewrite <- !app_assoc.
  assert (exists c0 r0, fl ++ w ++ tl ++ v :: rest = c0 :: r0 /\ Ascii.eqb c0 "["%char = false)
    as (c0 & r0 & Heq0 & Hc0).
  { destruct fl as [|f fl].
    - destruct (digits_then w c r Hw Hcd Hcb Hcs) as (c' & r' & Heq' & Hb' & _).
      simpl. rewrite Heq, Heq'. eauto.
    - exists f, (fl ++ w ++ tl ++ v :: rest). split; [reflexivity|].
      simpl in Hfl. apply andb_prop in Hfl. destruct Hfl as [Hf _].
      destruct f as [[] [] [] [] [] [] [] []]; try discriminate Hf; reflexivity. }
  rewrite Heq0, (parseIndex_other c0 r0 Hc0), <- Heq0.
  rewrite dropWhile_all.
  2:{ clear -Hfl. induction fl as [|f fl IH]; [reflexivity|]. simpl in *.
      apply andb_prop in Hfl. destruct Hfl as [Hf Hfl].
      rewrite (proj1 (fmtFlag_flag f Hf)). exact (IH Hfl). }
  rewrite Heq.
  destruct (digits_then w c r Hw Hcd Hcb Hcs) as (c' & r' & Heq' & _ & Hs' & Hd' & _).
  rewrite Heq'.
  assert (isFlag c' = false) as Hf'.
  { destruct w as [|d w]; simpl in Heq'; injection Heq' as <- _; [exact Hcf|].
    simpl in Hw. apply andb_prop in Hw. destruct Hw as [Hd _].
    apply andb_prop in Hd. destruct Hd as [Hd _]. apply not_fmtFlag_digit; assumption. }
  rewrite (dropWhile_id isFlag c' r' Hf'), (skipWidth_other c' r' Hs'), Hd', <- Heq, Hprec.
  reflexivity.
Qed.

(** Package [fmt] reads the same decoration and comes to the same verb. *)
Lemma doVerb_decorated (a : list gostring) (p : pp) (dec : gostring) (v : ascii) (rest : gostring) :
  okDecoration dec = true -> plainVerb v = true ->
  doVerb a p (dec ++ v :: rest) = doVerbByte a [] p (v :: rest).
Proof.
  intros Hdec Hv.
  destruct (okDecoration_parts dec Hdec) as (fl & w & tl & -> & Hfl & Hw & Hw0 & Htl).
  destruct (plainVerb_facts v Hv) as (Hvb & Hvs & Hvd & Hvg & Hvf & Hvff & Hvp).
  assert (doPrecision (length a) p (tl ++ v :: rest) false = ([], p, v :: rest, false)
          /\ exists c r, tl ++ v :: rest = c :: r /\ isDigit c = false
               /\ Ascii.eqb c "["%char = false /\ Ascii.eqb c "*"%char = false
               /\ isFmtFlag c = false) as (Hprec & c & r & Heq & Hcd & Hcb & Hcs & Hcf).
  { destruct Htl as [->|(pr & -> & Hpr)].
    - split; [apply doPrecision_other, Hvd|].
      exists v, rest. repeat split; assumption.
    - split.
      + destruct (digits_then pr v rest Hpr Hvg Hvb Hvs) as (c' & r' & Heq & Hb' & Hs' & _ & Hn').
        change (("."%char :: pr) ++ v :: rest) with ("."%char :: (pr ++ v :: rest)).
        rewrite Heq, (doPrecision_digits _ p c' r' Hb' Hs'), Hn'. reflexivity.
      + exists "."%char, (pr ++ v :: rest). repeat split. }
  unfold doVerb. rewrite <- !app_assoc.
  rewrite (dropWhile_all isFmtFlag fl _ Hfl), Heq.
  destruct (digits_then w c r Hw Hcd Hcb Hcs) as (c' & r' & Heq' & Hb' & Hs' & _ & Hn').
  rewrite Heq'.
  assert (isFmtFlag c' = false) as Hf'.
  { destruct w as [|d w]; simpl in Heq'; injection Heq' as <- _; [exact Hcf | exact Hw0]. }
  rewrite (dropWhile_id isFmtFlag c' r' Hf'), (argNumber_other p c' r' _ Hb').
  rewrite (doWidth_digits _ p c' r' Hs'), Hn', <- Heq, Hprec.
  rewrite (argNumber_other p v rest _ Hvb). reflexivity.
Qed.

Lemma okDecoration_no_percent (dec : gostring) :
  okDecoration dec = true -> existsb isPercent dec = false.
Proof.
  intros H. destruct (okDecoration_parts dec H) as (fl & w & tl & -> & Hfl & Hw & _ & Htl).
  assert (forall l, forallb isDigit l = true -> existsb isPercent l = false) as Hdig.
  { induction l as [|c l IH]; intros Hl; [reflexivity|]. simpl in *.
    apply andb_prop in Hl. destruct Hl as [Hc Hl].
    destruct (digit_facts c Hc) as (_ & _ & _ & _ & ->). exact (IH Hl). }
  rewrite !existsb_app. apply orb_false_iff. split; [|apply orb_false_iff; split].
  - clear -Hfl. induction fl as [|c fl IH]; [reflexivity|]. simpl in *.
    apply andb_prop in Hfl. destruct Hfl as [Hc Hfl].
    rewrite (proj2 (fmtFlag_flag c Hc)). exact (IH Hfl).
  - apply Hdig, (digitsOk_digits _ _ Hw).
  - destruct Htl as [->|(pr & -> & Hpr)]; [reflexivity|]. simpl.
    apply Hdig, (digitsOk_digits _ _ Hpr).
Qed.

Lemma bare_ok (dps : list dpiece) :
  forallb okDPiece dps = true -> forallb okPiece (map bare dps) = true.
Proof.
  induction dps as [|p dps IH]; intros H; [reflexivity|]. simpl in *.
  apply andb_prop in H. destruct H as [Hp H]. rewrite (IH H), andb_true_r.
  destruct p as [t| |dec v]; simpl in *; [exact Hp | reflexivity|].
  apply andb_prop in Hp. apply Hp.
Qed.

(** No directive of a decorated template carries an explicit index. *)
Lemma dpiece_no_index (p : dpiece) (fuel i : nat) (rest : gostring) :
  okDPiece p = true ->
  length (dflatPiece p ++ rest) < fuel ->
  existsb hasIndex (scan fuel i (dflatPiece p ++ rest)) =
  existsb hasIndex (scan fuel (i + length (dflatPiece p)) rest).
Proof.
  intros Hp Hfuel. destruct p as [t| |dec v].
  - exact (piece_no_index (PText t) fuel i rest Hp Hfuel).
  - exact (piece_no_index PLit fuel i rest Hp Hfuel).
  - simpl in Hp. apply andb_prop in Hp. destruct Hp as [Hdec Hv].
    apply simpleVerb_plain in Hv.
    change (dflatPiece (DHole dec v) ++ rest) with ("%"%char :: (dec ++ [v]) ++ rest) in *.
    rewrite <- app_assoc in *. change ([v] ++ rest) with (v :: rest) in *.
    destruct fuel as [|fuel]; [lia|]. simpl in Hfuel.
    assert (exists c1 s2, dec ++ v :: rest = c1 :: s2 /\ isPercent c1 = false) as (c1 & s2 & Heq & Hc1).
    { pose proof (okDecoration_no_percent dec Hdec) as Hn.
      destruct dec as [|c dec]; simpl in *.
      - exists v, rest. split; [reflexivity | apply plainVerb_not_percent, Hv].
      - apply orb_false_iff in Hn. exists c, (dec ++ v :: rest). split; [reflexivity | apply Hn]. }
    pose proof (parseDecor_decorated dec v rest Hdec Hv) as Hpd. rewrite Heq in Hpd |- *.
    rewrite (scan_directive _ _ _ _ _ _ _ _ Hc1 Hpd).
    assert (length (c1 :: s2) = length dec + S (length rest)) as Hl
      by (rewrite <- Heq, length_app; reflexivity).
    replace (i + 1 + (length (c1 :: s2) - length rest))
      with (i + length (dflatPiece (DHole dec v)))
      by (simpl dflatPiece; rewrite length_cons, length_app, Hl; simpl; lia).
    simpl existsb. f_equal. apply scan_fuel; rewrite length_app in Hfuel; simpl in Hfuel; lia.
Qed.

Lemma dflat_explicit_free (dps : list dpiece) :
  forallb okDPiece dps = true -> existsb hasIndex (parseDirectives (dflat dps)) = false.
Proof.
  intros H. unfold parseDirectives.
  assert (forall fuel i rest, length (dflat dps ++ rest) < fuel ->
            existsb hasIndex (scan fuel i (dflat dps ++ rest)) =
            existsb hasIndex (scan fuel (i + length (dflat dps)) rest)) as Hn.
  { induction dps as [|p dps IH]; intros fuel i rest Hfuel.
    - simpl. rewrite Nat.add_0_r. reflexivity.
    - simpl in H. apply andb_prop in H. destruct H as [Hp Hps].
      change (dflat (p :: dps)) with (dflatPiece p ++ dflat dps) in *.
      rewrite <- app_assoc in *. rewrite dpiece_no_index by assumption.
      rewrite (IH Hps); [|rewrite length_app in Hfuel; lia].
      rewrite length_app, Nat.add_assoc. reflexivity. }
  specialize (Hn (S (length (dflat dps))) 0 []). rewrite app_nil_r in Hn.
  rewrite Hn by lia. reflexivity.
Qed.

(** A decorated directive is one placeholder for the scanner. *)
Lemma countsAs_decorated (dec : gostring) (v : ascii) :
  okDecoration dec = true -> plainVerb v = true -> countsAs ("%"%char :: dec ++ [v]) 1.
Proof.
  intros Hdec Hv rest.
  change (("%"%char :: dec ++ [v]) ++ rest) with ("%"%char :: (dec ++ [v]) ++ rest).
  rewrite <- app_assoc. change ([v] ++ rest) with (v :: rest).
  assert (exists c1 s2, dec ++ v :: rest = c1 :: s2 /\ isPercent c1 = false) as (c1 & s2 & Heq & Hc1).
  { pose proof (okDecoration_no_percent dec Hdec) as Hn.
    destruct dec as [|c dec]; simpl in *.
    - exists v, rest. split; [reflexivity | apply plainVerb_not_percent, Hv].
    - apply orb_false_iff in Hn. exists c, (dec ++ v :: rest). split; [reflexivity | apply Hn]. }
  pose proof (parseDecor_decorated dec v rest Hdec Hv) as Hpd. rewrite Heq in Hpd |- *.
  rewrite (placeholders_scan (S (S (length (c1 :: s2)))) 0) by (simpl; lia).
  rewrite (scan_directive _ _ _ _ _ _ _ _ Hc1 Hpd).
  rewrite countPlaceholders_cons. simpl plus. f_equal. symmetry. apply placeholders_scan.
  assert (length (c1 :: s2) = length dec + S (length rest)) as Hl
    by (rewrite <- Heq, length_app; reflexivity).
  simpl length in *. lia.
Qed.

Lemma dflat_counts (dps : list dpiece) :
  forallb okDPiece dps = true ->
  countPlaceholders (parseDirectives (dflat dps)) = holes (map bare dps).
Proof.
  intros H. apply (countsAs_total (dflat dps)).
  induction dps as [|p dps IH]; [apply countsAs_nil|].
  simpl in H. apply andb_prop in H. destruct H as [Hp Hps].
  change (map bare (p :: dps)) with (bare p :: map bare dps). rewrite holes_cons.
  change (dflat (p :: dps)) with (dflatPiece p ++ dflat dps).
  apply countsAs_app; [|apply IH, Hps].
  destruct p as [t| |dec v]; simpl in *.
  - apply countsAs_text. apply negb_true_iff. exact Hp.
  - apply countsAs_literal.
  - apply andb_prop in Hp. destruct Hp as [Hdec Hv].
    apply countsAs_decorated; [exact Hdec | apply simpleVerb_plain, Hv].
Qed.

(** [strings.ReplaceAll] leaves a decorated directive as it is. *)
Lemma doublePercents_text (t s : gostring) :
  existsb isPercent t = false -> doublePercents (t ++ s) = t ++ doublePercents s.
Proof.
  induction t as [|c t IH]; intros H; [reflexivity|]. simpl in H.
  apply orb_false_iff in H. destruct H as [Hc Ht].
  change ((c :: t) ++ s) with (c :: (t ++ s)).
  rewrite doublePercents_cons by exact Hc. rewrite (IH Ht). reflexivity.
Qed.

Lemma doublePercents_marker (c : ascii) (s : gostring) :
  isPercent c = false -> doublePercents ("%"%char :: c :: s) = "%"%char :: doublePercents (c :: s).
Proof. intros H. cbn [doublePercents]. rewrite H, andb_false_r. reflexivity. Qed.

Lemma doublePercents_decorated (dec : gostring) (v : ascii) (s : gostring) :
  okDecoration dec = true -> plainVerb v = true ->
  doublePercents ("%"%char :: (dec ++ [v]) ++ s) = "%"%char :: (dec ++ [v]) ++ doublePercents s.
Proof.
  intros Hdec Hv.
  assert (existsb isPercent (dec ++ [v]) = false) as Hn.
  { rewrite existsb_app, (okDecoration_no_percent dec Hdec). simpl.
    rewrite (plainVerb_not_percent v Hv). reflexivity. }
  destruct (dec ++ [v]) as [|c l] eqn:E; [destruct dec; discriminate E|].
  change ((c :: l) ++ s) with (c :: (l ++ s)).
  rewrite doublePercents_marker by (simpl in Hn; apply orb_false_iff in Hn; apply Hn).
  change (c :: (l ++ s)) with ((c :: l) ++ s). rewrite doublePercents_text by exact Hn.
  reflexivity.
Qed.

Lemma doublePercents_dflat (dps : list dpiece) :
  forallb okDPiece dps = true -> doublePercents (dflat dps) = dflat (doubleDLits dps).
Proof.
  induction dps as [|p dps IH]; intros H; [reflexivity|].
  simpl in H. apply andb_prop in H. destruct H as [Hp Hps]. specialize (IH Hps).
  change (dflat (p :: dps)) with (dflatPiece p ++ dflat dps).
  change (doubleDLits (p :: dps))
    with ((match p with DLit => [DLit; DLit] | _ => [p] end) ++ doubleDLits dps).
  unfold dflat at 2. rewrite flat_map_app. fold (dflat (doubleDLits dps)). rewrite <- IH.
  destruct p as [t| |dec v].
  - simpl in Hp. apply negb_true_iff in Hp. simpl. rewrite app_nil_r.
    apply doublePercents_text, Hp.
  - reflexivity.
  - simpl in Hp. apply andb_prop in Hp. destruct Hp as [Hdec Hv].
    simpl flat_map. rewrite app_nil_r. 
    change (dflatPiece (DHole dec v) ++ dflat dps) with ("%"%char :: (dec ++ [v]) ++ dflat dps).
    change (dflatPiece (DHole dec v)) with ("%"%char :: (dec ++ [v])).
    rewrite doublePercents_decorated by (try apply simpleVerb_plain; assumption). reflexivity.
Qed.

Lemma okDPiece_doubleDLits (dps : list dpiece) :
  forallb okDPiece dps = true -> forallb okDPiece (doubleDLits dps) = true.
Proof.
  induction dps as [|p dps IH]; intros H; [reflexivity|].
  simpl in H. apply andb_prop in H. destruct H as [Hp Hps].
  change (doubleDLits (p :: dps))
    with ((match p with DLit => [DLit; DLit] | _ => [p] end) ++ doubleDLits dps).
  rewrite forallb_app, (IH Hps), andb_true_r.
  destruct p; simpl in *; rewrite ?Hp; reflexivity.
Qed.

Lemma bare_doubleDLits (dps : list dpiece) :
  map bare (doubleDLits dps) = doubleLits (map bare dps).
Proof.
  induction dps as [|p dps IH]; [reflexivity|].
  change (doubleDLits (p :: dps))
    with ((match p with DLit => [DLit; DLit] | _ => [p] end) ++ doubleDLits dps).
  rewrite map_app, IH. destruct p; reflexivity.
Qed.

(** Package [fmt] prints a decorated template as it prints the template
    without the decorations. *)
Lemma doPrintf_decorated (dps : list dpiece) (a : list gostring) (rest rest' : gostring) :
  forallb okDPiece dps = true ->
  (forall p, doPrintf (S (length rest)) a p rest = doPrintf (S (length rest')) a p rest') ->
  forall p,
    doPrintf (S (length (dflat dps ++ rest))) a p (dflat dps ++ rest) =
    doPrintf (S (length (flat (map bare dps) ++ rest'))) a p (flat (map bare dps) ++ rest').
Proof.
  intros Hok Hrest. induction dps as [|dp dps IH]; [exact Hrest|].
  simpl in Hok. apply andb_prop in Hok. destruct Hok as [Hp Hps]. specialize (IH Hps).
  change (dflat (dp :: dps)) with (dflatPiece dp ++ dflat dps).
  change (flat (map bare (dp :: dps))) with (flatPiece (bare dp) ++ flat (map bare dps)).
  rewrite <- !app_assoc.
  set (X := dflat dps ++ rest) in *. set (X' := flat (map bare dps) ++ rest') in *.
  destruct dp as [t| |dec v]; intros p.
  - simpl in Hp. apply negb_true_iff in Hp. simpl dflatPiece. simpl bare. simpl flatPiece.
    induction t as [|c t IHt]; [apply IH|].
    simpl in Hp. apply orb_false_iff in Hp. destruct Hp as [Hc Ht].
    change ((c :: t) ++ X) with (c :: (t ++ X)). change ((c :: t) ++ X') with (c :: (t ++ X')).
    simpl length. rewrite !doPrintf_text by exact Hc. rewrite (IHt Ht). reflexivity.
  - change (dflatPiece DLit ++ X) with ("%"%char :: "%"%char :: X).
    change (flatPiece (bare DLit) ++ X') with ("%"%char :: "%"%char :: X').
    simpl length. rewrite !doPrintf_marker, !doVerb_percent.
    rewrite (doPrintf_fuel (S (S (length X))) (S (length X))) by lia.
    rewrite (doPrintf_fuel (S (S (length X'))) (S (length X'))) by lia.
    rewrite IH. reflexivity.
  - simpl in Hp. apply andb_prop in Hp. destruct Hp as [Hdec Hv].
    pose proof (simpleVerb_plain v Hv) as Hpl.
    change (dflatPiece (DHole dec v) ++ X) with ("%"%char :: (dec ++ [v]) ++ X).
    change (flatPiece (bare (DHole dec v)) ++ X') with ("%"%char :: v :: X').
    rewrite <- app_assoc. change ([v] ++ X) with (v :: X).
    simpl length. rewrite !doPrintf_marker.
    rewrite (doVerb_decorated a _ dec v X Hdec Hpl), (doVerb_plain a _ v X' Hpl).
    unfold doVerbByte.
    destruct (128 <=? nat_of_ascii v); [reflexivity|].
    rewrite (plainVerb_not_percent v Hpl). cbn [goodArgNum negb].
    assert (forall out q, app out <$> doPrintf (S (length (dec ++ v :: X))) a q X =
                          app out <$> doPrintf (S (S (length X'))) a q X') as Hstep.
    { intros out q. rewrite (doPrintf_fuel (S (length (dec ++ v :: X))) (S (length X))).
      - rewrite IH. rewrite (doPrintf_fuel (S (S (length X'))) (S (length X'))) by lia.
        reflexivity.
      - rewrite length_app. simpl. lia.
      - lia. }
    destruct (a !! argNum _); [destruct (specialVerb v); [reflexivity|]|]; apply Hstep.
Qed.

Lemma fmtSprintf_decorated (dps : list dpiece) (a : list gostring) :
  forallb okDPiece dps = true ->
  fmtSprintf (dflat dps) a = fmtSprintf (flat (map bare dps)) a.
Proof.
  intros Hok. unfold fmtSprintf.
  pose proof (doPrintf_decorated dps a [] [] Hok ltac:(reflexivity) (mkPp 0 false true)) as H.
  rewrite !app_nil_r in H. exact H.
Qed.

(** On the identity path the decorations of the directives change
    nothing: [Sprintf] returns what it returns for the template without
    them. *)
Lemma Sprintf_decorated (h : Heap) (dps : list dpiece) (fargs : list Arg) :
  forallb okDPiece dps = true ->
  existsb (fun arg => match arg with Ref p => hasArgIndices (h p) | Leaf _ => false end) fargs = false ->
  Sprintf h (dflat dps) fargs = Sprintf h (flat (map bare dps)) fargs.
Proof.
  intros Hok Hargs. unfold Sprintf, needsExplicitPath.
  rewrite Hargs, (dflat_explicit_free dps Hok), (flat_explicit_free _ (bare_ok dps Hok)).
  cbn [orb].
  rewrite (doublePercents_dflat dps Hok), (doublePercents_flat _ (bare_ok dps Hok)).
  rewrite (fmtSprintf_decorated _ _ (okDPiece_doubleDLits dps Hok)), bare_doubleDLits.
  reflexivity.
Qed.

(** * The part of a template that the arguments fill *)

Lemma fmap_app_nil (x : option gostring) : app [] <$> x = x.
Proof. destruct x; reflexivity. Qed.

Lemma fmap_app_app (u v : gostring) (x : option gostring) :
  app u <$> (app v <$> x) = app (u ++ v) <$> x.
Proof. destruct x; simpl; [rewrite app_assoc|]; reflexivity. Qed.

Lemma fmap_cons_app (c : ascii) (v : gostring) (x : option gostring) :
  cons c <$> (app v <$> x) = app (c :: v) <$> x.
Proof. destruct x; reflexivity. Qed.

Lemma doPrintf_text_then (fuel : nat) (a : list gostring) (p : pp) (t rest : gostring) :
  existsb isPercent t = false ->
  doPrintf (length t + fuel) a p (t ++ rest) = app t <$> doPrintf fuel a p rest.
Proof.
  intros Ht. induction t as [|c t IH]; [simpl; rewrite fmap_app_nil; reflexivity|].
  simpl in Ht. apply orb_false_iff in Ht. destruct Ht as [Hc Ht].
  change (length (c :: t) + fuel) with (S (length t + fuel)).
  change ((c :: t) ++ rest) with (c :: (t ++ rest)).
  rewrite doPrintf_text by exact Hc. rewrite (IH Ht). apply fmap_cons_app.
Qed.

(** Package [fmt] prints the pieces and goes on with what follows
    them. *)
Lemma doPrintf_flat_then (ps : list piece) (fuel : nat) (a : list gostring)
    (n : nat) (r g : bool) (rest : gostring) :
  forallb okPiece ps = true ->
  n + holes ps <= length a ->
  length rest < fuel ->
  doPrintf (length (flat ps) + fuel) a (mkPp n r g) (flat ps ++ rest) =
  app (render ps (drop n a)) <$> doPrintf fuel a (mkPp (n + holes ps) r true) rest.
Proof.
  revert n g. induction ps as [|p ps IH]; intros n g Hok Hn Hfuel.
  - simpl. change (holes []) with 0. rewrite Nat.add_0_r, fmap_app_nil.
    apply doPrintf_good.
  - simpl in Hok. apply andb_true_iff in Hok. destruct Hok as [Hp Hps].
    rewrite holes_cons in Hn |- *.
    change (flat (p :: ps)) with (flatPiece p ++ flat ps).
    rewrite <- app_assoc, length_app, <- Nat.add_assoc.
    assert (length (flat ps ++ rest) < length (flat ps) + fuel) as Hlen
      by (rewrite length_app; lia).
    destruct p as [t| |v].
    + change (flatPiece (PText t)) with t. simpl in Hp. apply negb_true_iff in Hp.
      simpl in Hn |- *. rewrite doPrintf_text_then by exact Hp.
      rewrite (IH n g Hps Hn Hfuel). apply fmap_app_app.
    + simpl in Hn |- *. 
      change (str "%%" ++ flat ps ++ rest) with ("%"%char :: "%"%char :: flat ps ++ rest).
      rewrite doPrintf_marker, doVerb_percent. simpl argNum. simpl reordered.
      rewrite (doPrintf_fuel (S (length (flat ps) + fuel)) (length (flat ps) + fuel)) by lia.
      rewrite (IH n true Hps Hn Hfuel).
      rewrite fmap_app_app. reflexivity.
    + simpl in Hp. simpl isHole in Hn |- *. cbn iota in Hn |- *.
      destruct (lookup_lt_is_Some_2 a n) as [x Hx]; [lia|].
      rewrite (drop_S _ _ _ Hx). cbn [render].
      change (flatPiece (PHole v) ++ flat ps ++ rest) with ("%"%char :: v :: flat ps ++ rest).
      change (length (flatPiece (PHole v)) + (length (flat ps) + fuel))
        with (S (S (length (flat ps) + fuel))).
      rewrite doPrintf_marker. simpl argNum. simpl reordered.
      rewrite (doVerb_hole a n r v _ x Hp Hx).
      rewrite (doPrintf_fuel (S (length (flat ps) + fuel)) (length (flat ps) + fuel)) by lia.
      rewrite (IH (S n) true Hps ltac:(lia) Hfuel).
      replace (n + (1 + holes ps)) with (S n + holes ps) by lia.
      rewrite fmap_app_app. reflexivity.
Qed.

Lemma render_extra (ps : list piece) (a b : list gostring) :
  holes ps = length a -> render ps (a ++ b) = render ps a.
Proof.
  intros H. rewrite <- (app_nil_r ps) at 1. rewrite (render_app ps [] a b H).
  apply app_nil_r.
Qed.

Lemma doublePercents_dflat_then (dps : list dpiece) (rest : gostring) :
  forallb okDPiece dps = true ->
  doublePercents (dflat dps ++ rest) = dflat (doubleDLits dps) ++ doublePercents rest.
Proof.
  induction dps as [|p dps IH]; intros H; [reflexivity|].
  simpl in H. apply andb_prop in H. destruct H as [Hp Hps]. specialize (IH Hps).
  change (dflat (p :: dps)) with (dflatPiece p ++ dflat dps).
  change (doubleDLits (p :: dps))
    with ((match p with DLit => [DLit; DLit] | _ => [p] end) ++ doubleDLits dps).
  unfold dflat at 2. rewrite flat_map_app. fold (dflat (doubleDLits dps)).
  rewrite <- !app_assoc, <- IH.
  destruct p as [t| |dec v].
  - simpl in Hp. apply negb_true_iff in Hp. simpl. rewrite app_nil_r.
    apply doublePercents_text, Hp.
  - reflexivity.
  - simpl in Hp. apply andb_prop in Hp. destruct Hp as [Hdec Hv].
    simpl flat_map. rewrite app_nil_r.
    change (dflatPiece (DHole dec v) ++ dflat dps ++ rest)
      with ("%"%char :: (dec ++ [v]) ++ dflat dps ++ rest).
    change (dflatPiece (DHole dec v)) with ("%"%char :: (dec ++ [v])).
    rewrite doublePercents_decorated by (try apply simpleVerb_plain; assumption). reflexivity.
Qed.

Section FilledPart.

Variable h : Heap.

(** The identity path on a template that begins with pieces the
    arguments [fargs] fill, whatever text [rest] follows them and
    whatever further arguments [extra] are passed: what [Sprintf]
    returns begins with the composition of the pieces, and what the
    result renders to begins with their rendering. *)
Lemma identity_path_prefix (dps : list dpiece) (rest : gostring) (fargs extra : list Arg)
    (fs : list (list piece)) (q : Query) :
  forallb okDPiece dps = true ->
  holes (map bare dps) = length fargs ->
  Forall2 (argPieces h) fargs fs ->
  needsExplicitPath h (dflat dps ++ rest) (fargs ++ extra) = false ->
  Sprintf h (dflat dps ++ rest) (fargs ++ extra) = Ok q ->
  (exists tail, fmt q = flat (splice (map bare dps) fs) ++ tail)
  /\ args q = flat_map (argValues h) (fargs ++ extra)
  /\ argIndices q = None
  /\ forall binder out,
       Query_Query q binder = Some out ->
       exists tail, out = renderNested h binder 0 (map bare dps) fargs ++ tail.
Proof.
  intros Hok Hn HF Hpath Hs.
  pose proof (bare_ok dps Hok) as Hok'.
  unfold Sprintf in Hs. rewrite Hpath in Hs.
  rewrite (doublePercents_dflat_then dps rest Hok) in Hs.
  rewrite map_app, (argPieces_fmt h _ _ HF) in Hs.
  set (ops2 := map (fun arg => match arg with Ref p => fmt (h p) | Leaf _ => str "%s" end) extra) in *.
  set (R := doublePercents rest) in *.
  unfold fmtSprintf in Hs.
  rewrite (doPrintf_decorated (doubleDLits dps) _ R R (okDPiece_doubleDLits dps Hok)
             ltac:(reflexivity)) in Hs.
  rewrite bare_doubleDLits in Hs.
  assert (length fs = length fargs) as Hfs by (symmetry; apply (Forall2_length _ _ _ HF)).
  replace (S (length (flat (doubleLits (map bare dps)) ++ R)))
    with (length (flat (doubleLits (map bare dps))) + S (length R)) in Hs
    by (rewrite length_app; lia).
  rewrite (doPrintf_flat_then _ (S (length R)) _ 0 false true R
             (okPiece_doubleLits _ Hok')) in Hs;
    [|rewrite holes_doubleLits, length_app, length_map; lia | lia].
  rewrite drop_0, render_extra in Hs by (rewrite holes_doubleLits, length_map; lia).
  rewrite render_doubleLits in Hs by lia.
  destruct (doPrintf (S (length R)) _ _ R) as [out1|]; [|discriminate].
  simpl in Hs. injection Hs as <-. cbn [fmt args argIndices].
  split; [exists out1; reflexivity|]. split; [reflexivity|]. split; [reflexivity|].
  intros binder out Hq. unfold Query_Query in Hq. cbn [fmt args argIndices] in Hq.
  change (flat_map _ (fargs ++ extra)) with (flat_map (argValues h) (fargs ++ extra)) in Hq.
  unfold fmtSprintf in Hq.
  set (SP := splice (map bare dps) fs) in *.
  assert (forallb okPiece SP = true) as HokS
    by (apply okPiece_splice; [exact Hok' | eapply argPieces_ok; exact HF]).
  assert (holes SP = length (flat_map (argValues h) fargs)) as HhS
    by (apply holes_splice_args; assumption).
  replace (S (length (flat SP ++ out1))) with (length (flat SP) + S (length out1)) in Hq
    by (rewrite length_app; lia).
  rewrite flat_map_app, length_app, seq_app, map_app in Hq.
  rewrite (doPrintf_flat_then SP (S (length out1)) _ 0 false true out1 HokS) in Hq;
    [|rewrite length_app, !length_map, !length_seq; lia | lia].
  rewrite drop_0, render_extra in Hq by (rewrite length_map, length_seq; exact HhS).
  unfold SP in Hq. rewrite (render_splice h binder _ _ _ 0 Hn HF) in Hq.
  destruct (doPrintf (S (length out1)) _ _ out1) as [tail|]; [|discriminate].
  simpl in Hq. injection Hq as <-. exists tail. reflexivity.
Qed.

End FilledPart.

(** C8, on the inputs that refute it.  With fewer leaves than
    placeholders nothing panics on the identity path; the second
    placeholder is not rendered as [$2] but as error text of package
    [fmt].  A width given as a star takes the leaf for the width, an
    apostrophe is a flag for the scanner and the verb for package
    [fmt], and digits that package [fmt] gives up on leave the
    directive without its verb: each time the one placeholder is not
    rendered as [$1] alone. *)
Lemma too_few_leaves_not_numbered :
  existsb hasIndex (parseDirectives (str "a = %s AND b = %s")) = false
  /\ Sprintf (heapOf []) (str "a = %s AND b = %s") [Leaf (VString "q")] =
     Ok (mkQuery (str "a = %s AND b = %!s(MISSING)") [VString "q"] None)
  /\ Query_Query (mkQuery (str "a = %s AND b = %!s(MISSING)") [VString "q"] None) PostgresBindVar =
     Some (str "a = $1 AND b = %!!(MISSING)s(MISSING)")
  /\ Query_Query (mkQuery (str "a = %s AND b = %!s(MISSING)") [VString "q"] None) PostgresBindVar <>
     Some (str "a = $1 AND b = $2")
  /\ (placeholders (str "n = %*d") = 1
      /\ Sprintf (heapOf []) (str "n = %*d") [Leaf (VInt 7)] =
         Ok (mkQuery (str "n = %!(BADWIDTH)%!d(MISSING)") [VInt 7] None)
      /\ Query_Query (mkQuery (str "n = %!(BADWIDTH)%!d(MISSING)") [VInt 7] None) PostgresBindVar =
         Some (str "n = $1(BADWIDTH)%!!(MISSING)d(MISSING)"))
  /\ (placeholders (str "n = %'d") = 1
      /\ Sprintf (heapOf []) (str "n = %'d") [Leaf (VInt 7)] =
         Ok (mkQuery (str "n = %sd") [VInt 7] None)
      /\ Query_Query (mkQuery (str "n = %sd") [VInt 7] None) PostgresBindVar =
         Some (str "n = $1d"))
  /\ (placeholders (str "n = %10000010d") = 1
      /\ Sprintf (heapOf []) (str "n = %10000010d") [Leaf (VInt 7)] =
         Ok (mkQuery (str "n = %!(NOVERB)%!(EXTRA sqlf.ignoreFormat=%s)") [VInt 7] None)
      /\ Query_Query (mkQuery (str "n = %!(NOVERB)%!(EXTRA sqlf.ignoreFormat=%s)") [VInt 7] None)
           PostgresBindVar =
         Some (str "n = $1(NOVERB)%!!(MISSING)(EXTRA sqlf.ignoreFormat=%!s(MISSING))")).
Proof.
  split; [vm_compute; reflexivity|]. split; [vm_compute; reflexivity|].
  assert (Query_Query (mkQuery (str "a = %s AND b = %!s(MISSING)") [VString "q"] None)
            PostgresBindVar = Some (str "a = $1 AND b = %!!(MISSING)s(MISSING)")) as H
    by (vm_compute; reflexivity).
  split; [exact H|]. split; [rewrite H; intros Heq; inversion Heq|].
  split; [|split].
  - split; [|split]; vm_compute; reflexivity.
  - split; [|split]; vm_compute; reflexivity.
  - split; [|split]; vm_compute; reflexivity.
Qed.

(** C8, amended.  For a template made of marker-free text, literal
    percents and directives that are the marker, flags, a width and a
    precision in digits, and a verb byte, with exactly one leaf
    argument for every placeholder, [Sprintf] returns the leaves as the
    arguments, and rendering replaces the placeholder of ordinal [j]
    (from 0, in source order) by the bind variable of slot [j]: [$1],
    [$2], ... for the numbered dialect.  When such pieces, with one
    leaf for every placeholder among them, are only the beginning of
    the template, whatever text follows and whatever further arguments
    are passed, what the identity path returns still renders to a text
    that begins in this way.  Any flags of package [fmt] followed by at
    most seven digits and possibly by a dot and at most seven digits
    can stand between the marker and the verb.  The example of the
    specification and one with flags, width and precision are computed
    at the end. *)
Theorem implicit_leaves_in_order :
  (forall (h : Heap) (dps : list dpiece) (vs : list Value),
     forallb okDPiece dps = true ->
     holes (map bare dps) = length vs ->
     exists q, Sprintf h (dflat dps) (map Leaf vs) = Ok q
       /\ Query_Args q = vs
       /\ argIndices q = None
       /\ forall binder, Query_Query q binder = Some (renderFrom binder 0 (map bare dps)))
  /\ (forall (h : Heap) (dps : list dpiece) (rest : gostring) (vs : list Value)
             (extra : list Arg) (q : Query),
        forallb okDPiece dps = true ->
        holes (map bare dps) = length vs ->
        needsExplicitPath h (dflat dps ++ rest) (map Leaf vs ++ extra) = false ->
        Sprintf h (dflat dps ++ rest) (map Leaf vs ++ extra) = Ok q ->
        forall binder out,
          Query_Query q binder = Some out ->
          exists tail, out = renderFrom binder 0 (map bare dps) ++ tail)
  /\ (forall fl w pr : gostring,
        forallb isFmtFlag fl = true ->
        forallb isDigit w = true -> length w <= 7 ->
        forallb isDigit pr = true -> length pr <= 7 ->
        okDecoration (fl ++ w) = true /\ okDecoration (fl ++ w ++ "."%char :: pr) = true)
  /\ (forall j, PostgresBindVar j = "$"%char :: itoa (Z.of_nat j + 1))
  /\ (exists q,
        Sprintf (heapOf []) (str "a = %s AND b = %d") [Leaf (VString "foo"); Leaf (VInt 1)] = Ok q
        /\ Query_Query q PostgresBindVar = Some (str "a = $1 AND b = $2")
        /\ Query_Args q = [VString "foo"; VInt 1])
  /\ (exists q,
        Sprintf (heapOf []) (str "a = %-5s AND b = %05d AND c = %.2f AND d = %+v")
          [Leaf (VString "foo"); Leaf (VInt 1); Leaf (VInt 2); Leaf (VInt 3)] = Ok q
        /\ Query_Query q PostgresBindVar = Some (str "a = $1 AND b = $2 AND c = $3 AND d = $4")
        /\ Query_Args q = [VString "foo"; VInt 1; VInt 2; VInt 3]).
Proof.
  split; [|split; [|split; [|split; [|split]]]].
  - intros h dps vs Hok Hn.
    assert (holes (map bare dps) = length (map Leaf vs)) as Hn' by (rewrite length_map; exact Hn).
    destruct (identity_path_spec h (map bare dps) (map Leaf vs) _ (bare_ok dps Hok) Hn'
                (argPieces_leaves h vs)) as (Hs & _ & Hq).
    rewrite <- (Sprintf_decorated h dps _ Hok
                  (argPieces_implicit h _ _ (argPieces_leaves h vs))) in Hs.
    eexists. split; [exact Hs|]. split; [apply argValues_leaves|]. split; [reflexivity|].
    intros binder. rewrite Hq. rewrite renderNested_leaves by exact Hn. reflexivity.
  - intros h dps rest vs extra q Hok Hn Hpath Hs binder out Hq.
    assert (holes (map bare dps) = length (map Leaf vs)) as Hn' by (rewrite length_map; exact Hn).
    destruct (identity_path_prefix h dps rest (map Leaf vs) extra _ q Hok Hn'
                (argPieces_leaves h vs) Hpath Hs) as (_ & _ & _ & Hr).
    destruct (Hr binder out Hq) as [tail ->]. exists tail.
    rewrite renderNested_leaves by exact Hn. reflexivity.
  - exact okDecoration_intro.
  - intros j. unfold PostgresBindVar. f_equal. f_equal. lia.
  - exists (mkQuery (str "a = %s AND b = %s") [VString "foo"; VInt 1] None).
    split; [|split]; vm_compute; reflexivity.
  - exists (mkQuery (str "a = %s AND b = %s AND c = %s AND d = %s")
              [VString "foo"; VInt 1; VInt 2; VInt 3] None).
    split; [|split]; vm_compute; reflexivity.
Qed.

Lemma implicit_leaves_in_order_witness :
  exists q,
    Sprintf (heapOf [])
      (dflat [DText (str "a = "); DHole (str "-5") "s"%char; DText (str " AND b <<"); DLit;
              DText (str " "); DHole (str "+08.3") "d"%char; DText (str " "); DHole [] "v"%char])
      (map Leaf [VString "foo"; VInt 1; VInt 2]) = Ok q
    /\ Query_Args q = [VString "foo"; VInt 1; VInt 2]
    /\ argIndices q = None
    /\ forall binder, Query_Query q binder =
         Some (renderFrom binder 0
                 (map bare
                    [DText (str "a = "); DHole (str "-5") "s"%char; DText (str " AND b <<"); DLit;
                     DText (str " "); DHole (str "+08.3") "d"%char; DText (str " ");
                     DHole [] "v"%char])).
Proof.
  destruct implicit_leaves_in_order as [H _].
  apply (H (heapOf [])
           [DText (str "a = "); DHole (str "-5") "s"%char; DText (str " AND b <<"); DLit;
            DText (str " "); DHole (str "+08.3") "d"%char; DText (str " "); DHole [] "v"%char]
           [VString "foo"; VInt 1; VInt 2]); reflexivity.
Defined.

(** * A marker that nothing completes *)

Lemma dropWhile_stop (f : ascii -> bool) (s : gostring) (x : ascii) :
  f x = false -> dropWhile f (s ++ [x]) = dropWhile f s ++ [x].
Proof.
  intros Hx. induction s as [|c s IH]; simpl; [rewrite Hx; reflexivity|].
  destruct (f c); [exact IH | reflexivity].
Qed.

Lemma takeWhile_stop (f : ascii -> bool) (s : gostring) (x : ascii) :
  f x = false -> takeWhile f (s ++ [x]) = takeWhile f s.
Proof.
  intros Hx. induction s as [|c s IH]; simpl; [rewrite Hx; reflexivity|].
  destruct (f c); [rewrite IH; reflexivity | reflexivity].
Qed.

Lemma skipOptionalIndex_stop (s : gostring) :
  skipOptionalIndex (s ++ ["%"%char]) = skipOptionalIndex s ++ ["%"%char].
Proof.
  destruct s as [|c s1]; [reflexivity|].
  destruct (Ascii.eqb_spec c "["%char) as [->|Hc].
  - change (("["%char :: s1) ++ ["%"%char]) with ("["%char :: (s1 ++ ["%"%char])).
    unfold skipOptionalIndex.
    rewrite (dropWhile_stop isDigit s1 "%"%char eq_refl), (takeWhile_stop isDigit s1 "%"%char eq_refl).
    destruct (dropWhile isDigit s1) as [|c' r]; [reflexivity|].
    destruct (Ascii.eqb_spec c' "]"%char) as [->|Hc'].
    + simpl. case_bool_decide; reflexivity.
    + destruct c' as [[] [] [] [] [] [] [] []]; try reflexivity. congruence.
  - destruct c as [[] [] [] [] [] [] [] []]; try reflexivity. congruence.
Qed.

Lemma parseIndex_stop (s : gostring) :
  parseIndex (s ++ ["%"%char]) =
  (fst (fst (parseIndex s)), snd (fst (parseIndex s)), snd (parseIndex s) ++ ["%"%char]).
Proof.
  destruct s as [|c s1]; [reflexivity|].
  destruct (Ascii.eqb_spec c "["%char) as [->|Hc].
  - change (("["%char :: s1) ++ ["%"%char]) with ("["%char :: (s1 ++ ["%"%char])).
    unfold parseIndex.
    rewrite (dropWhile_stop isDigit s1 "%"%char eq_refl), (takeWhile_stop isDigit s1 "%"%char eq_refl).
    destruct (dropWhile isDigit s1) as [|c' r]; [reflexivity|].
    destruct (Ascii.eqb_spec c' "]"%char) as [->|Hc'].
    + simpl. case_bool_decide; reflexivity.
    + destruct c' as [[] [] [] [] [] [] [] []]; try reflexivity. congruence.
  - destruct c as [[] [] [] [] [] [] [] []]; try reflexivity. congruence.
Qed.

Lemma skipWidth_stop (s : gostring) :
  skipWidth (s ++ ["%"%char]) = skipWidth s ++ ["%"%char].
Proof.
  destruct s as [|c s1]; [reflexivity|].
  destruct (Ascii.eqb_spec c "*"%char) as [->|Hc].
  - apply skipOptionalIndex_stop.
  - pose proof (dropWhile_stop isDigit (c :: s1) "%"%char eq_refl) as H.
    destruct c as [[] [] [] [] [] [] [] []]; try exact H. congruence.
Qed.

Lemma skipPrecision_stop (s : gostring) :
  skipPrecision (s ++ ["%"%char]) = skipPrecision s ++ ["%"%char].
Proof.
  destruct s as [|c s1]; [reflexivity|].
  destruct (Ascii.eqb_spec c "."%char) as [->|Hc].
  - destruct s1 as [|c1 s2]; [reflexivity|].
    destruct (Ascii.eqb_spec c1 "*"%char) as [->|Hc1].
    + apply skipOptionalIndex_stop.
    + pose proof (dropWhile_stop isDigit (c1 :: s2) "%"%char eq_refl) as H.
      destruct c1 as [[] [] [] [] [] [] [] []]; try exact H. congruence.
  - destruct c as [[] [] [] [] [] [] [] []]; try reflexivity. congruence.
Qed.

Lemma parseDecor_stop (s : gostring) :
  parseDecor (s ++ ["%"%char]) =
  (fst (fst (parseDecor s)), snd (fst (parseDecor s)), snd (parseDecor s) ++ ["%"%char]).
Proof.
  unfold parseDecor. rewrite parseIndex_stop.
  destruct (parseIndex s) as [[hi ix] s1]. simpl.
  rewrite (dropWhile_stop isFlag s1 "%"%char eq_refl), skipWidth_stop, skipPrecision_stop.
  reflexivity.
Qed.

Lemma lastEndOf_cons (d : directive) (ds : list directive) (i : nat) :
  lastEndOf (d :: ds) i = lastEndOf ds (d_end d).
Proof. reflexivity. Qed.

Lemma lastEndOf_bounds (fuel i : nat) (s : gostring) (j : nat) :
  i <= j <= i + length s ->
  i <= lastEndOf (scan fuel i s) j <= i + length s.
Proof.
  intros Hj. unfold lastEndOf.
  assert (forall ds, (forall d, d ∈ ds -> i <= d_end d <= i + length s) ->
            forall k, i <= k <= i + length s ->
            i <= fold_left (fun _ d => d_end d) ds k <= i + length s) as H.
  { induction ds as [|d ds IH]; intros Hds k Hk; [exact Hk|]. simpl. apply IH.
    - intros d' Hd'. apply Hds. right. exact Hd'.
    - apply Hds. left. }
  apply H; [|exact Hj]. intros d Hd. apply scan_bounds in Hd. lia.
Qed.

(** When the text after the last directive holds no marker, a marker
    appended to the template adds no directive. *)
Lemma scan_marker (fuel i : nat) (s : gostring) :
  length s < fuel ->
  existsb isPercent (drop (lastEndOf (scan fuel i s) i - i) s) = false ->
  scan (S fuel) i (s ++ ["%"%char]) = scan fuel i s.
Proof.
  revert i s. induction fuel as [|fuel IH]; intros i s Hfuel Htail; [lia|].
  destruct s as [|c s1]; [reflexivity|]. simpl in Hfuel.
  change ((c :: s1) ++ ["%"%char]) with (c :: (s1 ++ ["%"%char])).
  destruct (isPercent c) eqn:Hc.
  2:{ rewrite (scan_text (S fuel)), (scan_text fuel) by exact Hc.
      rewrite (scan_text fuel) in Htail by exact Hc.
      apply IH; [lia|].
      pose proof (lastEndOf_bounds fuel (S i) s1 (S i) ltac:(lia)) as Hb.
      destruct (scan fuel (S i) s1) as [|d ds] eqn:E.
      - unfold lastEndOf in Htail |- *. cbn [fold_left] in Htail |- *.
        rewrite Nat.sub_diag in Htail. rewrite Nat.sub_diag.
        simpl in Htail. rewrite Hc in Htail. exact Htail.
      - rewrite lastEndOf_cons in *.
        assert (S i <= lastEndOf ds (d_end d)) as Hl by lia.
        replace (lastEndOf ds (d_end d) - i) with (S (lastEndOf ds (d_end d) - S i)) in Htail by lia.
        exact Htail. }
  assert (c = "%"%char) as -> by (apply Ascii.eqb_eq; exact Hc).
  destruct s1 as [|c1 s2].
  { rewrite scan_lone in Htail. simpl in Htail. rewrite Nat.sub_diag in Htail. discriminate Htail. }
  simpl in Hfuel.
  change ((c1 :: s2) ++ ["%"%char]) with (c1 :: (s2 ++ ["%"%char])).
  destruct (isPercent c1) eqn:Hc1.
  { assert (c1 = "%"%char) as -> by (apply Ascii.eqb_eq; exact Hc1).
    rewrite !scan_percent in *. f_equal. apply IH; [lia|].
    rewrite lastEndOf_cons in Htail. simpl d_end in Htail.
    pose proof (lastEndOf_bounds fuel (i + 2) s2 (i + 2) ltac:(lia)) as Hb.
    assert (lastEndOf (scan fuel (i + 2) s2) (i + 2) - i =
            S (S (lastEndOf (scan fuel (i + 2) s2) (i + 2) - (i + 2)))) as Heq by lia.
    rewrite Heq in Htail. exact Htail. }
  destruct (parseDecor (c1 :: s2)) as [[hi ix] s3] eqn:Hd.
  pose proof (parseDecor_stop (c1 :: s2)) as Hstop. rewrite Hd in Hstop. simpl in Hstop.
  destruct s3 as [|v s4].
  { rewrite (scan_noverb fuel i c1 s2 hi ix Hc1 Hd) in Htail.
    simpl in Htail. rewrite Nat.sub_diag in Htail. discriminate Htail. }
  destruct (parseDecor_verb _ _ _ _ _ Hd) as (pre & Hpre & Hlen).
  rewrite (scan_directive fuel i c1 s2 hi ix v s4 Hc1 Hd) in *.
  change (c1 :: (s2 ++ ["%"%char])) with ((c1 :: s2) ++ ["%"%char]).
  assert (isPercent (hd c1 ((c1 :: s2) ++ ["%"%char])) = false) as Hhd by exact Hc1.
  change ((c1 :: s2) ++ ["%"%char]) with (c1 :: (s2 ++ ["%"%char])) in Hstop |- *.
  change ((v :: s4) ++ ["%"%char]) with (v :: (s4 ++ ["%"%char])) in Hstop.
  rewrite (scan_directive (S fuel) i c1 (s2 ++ ["%"%char]) hi ix v (s4 ++ ["%"%char]) Hc1 Hstop).
  assert (length (c1 :: s2 ++ ["%"%char]) - length (s4 ++ ["%"%char]) =
          length (c1 :: s2) - length s4) as Hl.
  { simpl. rewrite !length_app. simpl.
    assert (length (c1 :: s2) = length pre + S (length s4)) as Hq
      by (rewrite Hpre, length_app; reflexivity).
    simpl in Hq. lia. }
  rewrite Hl. f_equal. rewrite Hlen in *.
  assert (length (c1 :: s2) = length pre + S (length s4)) as Hq
    by (rewrite Hpre, length_app; reflexivity).
  simpl in Hq.
  apply IH; [lia|].
  rewrite lastEndOf_cons in Htail. simpl d_end in Htail.
  pose proof (lastEndOf_bounds fuel (i + 1 + S (length pre)) s4 (i + 1 + S (length pre)) ltac:(lia)) as Hb.
  set (e := i + 1 + S (length pre)) in *.
  assert (drop (lastEndOf (scan fuel e s4) e - i) ("%"%char :: c1 :: s2) =
          drop (lastEndOf (scan fuel e s4) e - e) s4) as Hdrop.
  { replace (lastEndOf (scan fuel e s4) e - i)
      with (length ("%"%char :: pre ++ [v]) + (lastEndOf (scan fuel e s4) e - e))
      by (simpl; rewrite length_app; simpl; unfold e in *; lia).
    rewrite <- drop_drop. f_equal. rewrite Hpre.
    change ("%"%char :: pre ++ v :: s4) with (("%"%char :: pre) ++ [v] ++ s4).
    rewrite app_assoc. apply drop_app_length. }
  rewrite Hdrop in Htail. exact Htail.
Qed.

Lemma parseDirectives_marker (t : gostring) :
  existsb isPercent (trailing t) = false ->
  parseDirectives (t ++ str "%") = parseDirectives t.
Proof.
  intros H. unfold trailing, sliceFrom, parseDirectives in *.
  rewrite length_app. simpl length. replace (length t + 1) with (S (length t)) by lia.
  apply scan_marker; [lia|]. rewrite Nat.sub_0_r. exact H.
Qed.

Lemma composeText_app (h : Heap) (t x : gostring) (fargs : list Arg)
    (ds : list directive) (last : nat) (cur : Z) :
  last <= length t ->
  (forall d, d ∈ ds -> d_start d <= length t /\ d_end d <= length t) ->
  composeText h (t ++ x) fargs ds last cur = composeText h t fargs ds last cur ++ x.
Proof.
  revert last cur. induction ds as [|d ds IH]; intros last cur Hlast Hds.
  - simpl. unfold sliceFrom. apply drop_app_le. exact Hlast.
  - destruct (Hds d ltac:(left)) as [Hs He].
    assert (slice (t ++ x) last (d_start d) = slice t last (d_start d)) as Hsl.
    { unfold slice. rewrite drop_app_le by exact Hlast.
      apply take_app_le. rewrite length_drop. lia. }
    cbn [composeText]. rewrite Hsl.
    assert (forall d', d' ∈ ds -> d_start d' <= length t /\ d_end d' <= length t) as Hds'
      by (intros d' Hd'; apply Hds; right; exact Hd').
    destruct (isLiteral d); rewrite IH by assumption; rewrite <- !app_assoc; reflexivity.
Qed.

Lemma parseDirectives_bounds (t : gostring) (d : directive) :
  d ∈ parseDirectives t -> d_start d <= length t /\ d_end d <= length t.
Proof. intros H. apply scan_bounds in H. lia. Qed.

(** C9, on the input that refutes it.  The scanner emits nothing for
    the marker and nothing panics, but the marker is not dropped: on
    the explicit path it stays in the composed template and is rendered
    as error text of package [fmt]; on the identity path that error
    text is already in the composed template.  Without the marker the
    rendering is ["a = $1 "]. *)
Lemma dangling_marker_is_rendered :
  parseDirectives (str "a = %[1]s %") = parseDirectives (str "a = %[1]s ")
  /\ Sprintf (heapOf []) (str "a = %[1]s %") [Leaf (VString "q")] =
     Ok (mkQuery (str "a = %s %") [VString "q"] (Some [0]))
  /\ Query_Query (mkQuery (str "a = %s %") [VString "q"] (Some [0])) PostgresBindVar =
     Some (str "a = $1 %!(NOVERB)")
  /\ Sprintf (heapOf []) (str "a = %[1]s ") [Leaf (VString "q")] =
     Ok (mkQuery (str "a = %s ") [VString "q"] (Some [0]))
  /\ Query_Query (mkQuery (str "a = %s ") [VString "q"] (Some [0])) PostgresBindVar =
     Some (str "a = $1 ")
  /\ Sprintf (heapOf []) (str "a = %s %") [Leaf (VString "q")] =
     Ok (mkQuery (str "a = %s %!(NOVERB)") [VString "q"] None)
  /\ Query_Query (mkQuery (str "a = %s %!(NOVERB)") [VString "q"] None) PostgresBindVar =
     Some (str "a = $1 %!!(MISSING)(NOVERB)").
Proof. repeat (split; [vm_compute; reflexivity|]). vm_compute. reflexivity. Qed.

(** C9, amended.  Let the text after the last directive of [t] hold no
    marker, so that the marker appended to [t] is one that nothing
    completes.  The scanner emits no directive for it and raises no
    error, and the explicit path composes [t] with the marker exactly as
    [t] alone (same arguments, same index list, same panic if any)
    except that the marker stays at the end of the composed template.
    Rendering does not drop it: a composed template that is text,
    literal percents and placeholders with one operand each, followed by
    the marker, renders with the error text [%!(NOVERB)] of package
    [fmt] at the end. *)
Theorem dangling_marker (t : gostring) :
  existsb isPercent (trailing t) = false ->
  parseDirectives (t ++ str "%") = parseDirectives t
  /\ (forall h fargs, needsExplicitPath h (t ++ str "%") fargs = needsExplicitPath h t fargs)
  /\ (forall h fargs,
        sprintfExplicit h (t ++ str "%") fargs =
        match sprintfExplicit h t fargs with
        | Ok r => Ok (mkQuery (fmt r ++ str "%") (args r) (argIndices r))
        | Panic msg => Panic msg
        | Unmodelled => Unmodelled
        end)
  /\ (forall (q : Query) (ps : list piece) (binder : BindVar),
        forallb okPiece ps = true ->
        holes ps = length (normIndices q) ->
        fmt q = flat ps ++ str "%" ->
        Query_Query q binder =
        Some (render ps (map binder (normIndices q)) ++ str "%!(NOVERB)")).
Proof.
  intros Htail. pose proof (parseDirectives_marker t Htail) as Hpd.
  split; [exact Hpd|]. split; [|split].
  - intros h fargs. unfold needsExplicitPath. rewrite Hpd. reflexivity.
  - intros h fargs.
    destruct (forallb (inRange (length fargs)) (resolveAll (parseDirectives t) 0%Z)) eqn:Hall.
    + rewrite (sprintfExplicit_ok h t fargs Hall).
      rewrite sprintfExplicit_ok by (rewrite Hpd; exact Hall).
      unfold placeholderKeys. rewrite Hpd. cbn [fmt args argIndices]. f_equal. f_equal.
      apply composeText_app; [lia | apply parseDirectives_bounds].
    + destruct (first_failure _ _ Hall) as (pre & x & post & Heq & Hp & Hx).
      rewrite (sprintfExplicit_panic h t fargs pre post x Heq Hp Hx).
      apply (sprintfExplicit_panic h (t ++ str "%") fargs pre post x); [|assumption..].
      rewrite Hpd. exact Heq.
  - intros q ps binder Hok Hn Hf.
    assert (Query_Query q binder = fmtSprintf (fmt q) (map binder (normIndices q))) as ->.
    { unfold Query_Query, normIndices. destruct (argIndices q); reflexivity. }
    rewrite Hf. apply fmtSprintf_flat_dangling; [exact Hok|]. rewrite length_map. exact Hn.
Qed.

Lemma dangling_marker_witness :
  parseDirectives (str "a = %[1]s " ++ str "%") = parseDirectives (str "a = %[1]s ")
  /\ (forall h fargs,
        needsExplicitPath h (str "a = %[1]s " ++ str "%") fargs =
        needsExplicitPath h (str "a = %[1]s ") fargs)
  /\ (forall h fargs,
        sprintfExplicit h (str "a = %[1]s " ++ str "%") fargs =
        match sprintfExplicit h (str "a = %[1]s ") fargs with
        | Ok r => Ok (mkQuery (fmt r ++ str "%") (args r) (argIndices r))
        | Panic msg => Panic msg
        | Unmodelled => Unmodelled
        end)
  /\ (forall (q : Query) (ps : list piece) (binder : BindVar),
        forallb okPiece ps = true ->
        holes ps = length (normIndices q) ->
        fmt q = flat ps ++ str "%" ->
        Query_Query q binder =
        Some (render ps (map binder (normIndices q)) ++ str "%!(NOVERB)")).
Proof. apply (dangling_marker (str "a = %[1]s ")). vm_compute. reflexivity. Defined.

(** * Rendering a composition of the explicit path *)

Lemma cleanFrom_text (fuel i : nat) (c : ascii) (s1 : gostring) :
  isPercent c = false ->
  cleanFrom (S fuel) i (c :: s1) -> cleanFrom fuel (S i) s1.
Proof.
  unfold cleanFrom. intros Hc Htail. rewrite (scan_text fuel) in Htail by exact Hc.
  pose proof (lastEndOf_bounds fuel (S i) s1 (S i) ltac:(lia)) as Hb.
  destruct (scan fuel (S i) s1) as [|d ds] eqn:E.
  - unfold lastEndOf in Htail |- *. cbn [fold_left] in Htail |- *.
    rewrite Nat.sub_diag in Htail. rewrite Nat.sub_diag.
    simpl in Htail. rewrite Hc in Htail. exact Htail.
  - rewrite lastEndOf_cons in *.
    replace (lastEndOf ds (d_end d) - i) with (S (lastEndOf ds (d_end d) - S i)) in Htail by lia.
    exact Htail.
Qed.

Lemma cleanFrom_lone (fuel i : nat) : cleanFrom (S fuel) i ["%"%char] -> False.
Proof.
  unfold cleanFrom. rewrite scan_lone. simpl. rewrite Nat.sub_diag. discriminate.
Qed.

Lemma cleanFrom_percent (fuel i : nat) (s2 : gostring) :
  cleanFrom (S fuel) i ("%"%char :: "%"%char :: s2) -> cleanFrom fuel (i + 2) s2.
Proof.
  unfold cleanFrom. intros Htail. rewrite scan_percent, lastEndOf_cons in Htail.
  simpl d_end in Htail.
  pose proof (lastEndOf_bounds fuel (i + 2) s2 (i + 2) ltac:(lia)) as Hb.
  assert (lastEndOf (scan fuel (i + 2) s2) (i + 2) - i =
          S (S (lastEndOf (scan fuel (i + 2) s2) (i + 2) - (i + 2)))) as Heq by lia.
  rewrite Heq in Htail. exact Htail.
Qed.

Lemma cleanFrom_noverb (fuel i : nat) (c1 : ascii) (s2 : gostring) (hi : bool) (ix : Z) :
  isPercent c1 = false ->
  parseDecor (c1 :: s2) = (hi, ix, []) ->
  cleanFrom (S fuel) i ("%"%char :: c1 :: s2) -> False.
Proof.
  unfold cleanFrom. intros Hc1 Hd. rewrite (scan_noverb fuel i c1 s2 hi ix Hc1 Hd).
  simpl. rewrite Nat.sub_diag. discriminate.
Qed.

Lemma cleanFrom_directive (fuel i : nat) (c1 : ascii) (s2 : gostring) (hi : bool) (ix : Z)
    (v : ascii) (s4 pre : gostring) :
  isPercent c1 = false ->
  parseDecor (c1 :: s2) = (hi, ix, v :: s4) ->
  c1 :: s2 = pre ++ v :: s4 ->
  cleanFrom (S fuel) i ("%"%char :: c1 :: s2) ->
  cleanFrom fuel (i + 1 + S (length pre)) s4.
Proof.
  unfold cleanFrom. intros Hc1 Hd Hpre Htail.
  rewrite (scan_directive fuel i c1 s2 hi ix v s4 Hc1 Hd) in Htail.
  assert (length (c1 :: s2) - length s4 = S (length pre)) as Hlen
    by (rewrite Hpre, length_app; simpl; lia).
  rewrite Hlen in Htail. rewrite lastEndOf_cons in Htail. simpl d_end in Htail.
  set (e := i + 1 + S (length pre)) in *.
  pose proof (lastEndOf_bounds fuel e s4 e ltac:(lia)) as Hb.
  assert (drop (lastEndOf (scan fuel e s4) e - i) ("%"%char :: c1 :: s2) =
          drop (lastEndOf (scan fuel e s4) e - e) s4) as Hdrop.
  { replace (lastEndOf (scan fuel e s4) e - i)
      with (length ("%"%char :: pre ++ [v]) + (lastEndOf (scan fuel e s4) e - e))
      by (simpl; rewrite length_app; simpl; unfold e in *; lia).
    rewrite <- drop_drop. f_equal. rewrite Hpre.
    change ("%"%char :: pre ++ v :: s4) with (("%"%char :: pre) ++ [v] ++ s4).
    rewrite app_assoc. apply drop_app_length. }
  rewrite Hdrop in Htail. exact Htail.
Qed.

Lemma Query_Query_shaped (q : Query) (f : list piece) (binder : BindVar) :
  shaped q f ->
  Query_Query q binder = Some (render f (map binder (normIndices q))).
Proof.
  intros (Hf & Hok & Hh & _).
  assert (Query_Query q binder = fmtSprintf (fmt q) (map binder (normIndices q))) as ->.
  { unfold Query_Query, normIndices. destruct (argIndices q); reflexivity. }
  rewrite Hf. apply fmtSprintf_flat; [exact Hok|]. rewrite length_map. exact Hh.
Qed.

Section RenderExplicit.

Variable h : Heap.
Variable format : gostring.
Variable fargs : list Arg.
Variable binder : BindVar.
Variable offs : key -> nat.

Lemma renderedText_skip (ds : list directive) (i : nat) (cur : Z) (c : ascii) (s1 : gostring) :
  drop i format = c :: s1 ->
  (forall d, d ∈ ds -> S i <= d_start d) ->
  renderedText h format fargs binder offs ds i cur =
  c :: renderedText h format fargs binder offs ds (S i) cur.
Proof.
  intros Hd Hb.
  assert (drop (S i) format = s1) as Hd'.
  { replace (S i) with (i + length [c]) by (simpl; lia). apply drop_app_suffix. exact Hd. }
  destruct ds as [|d ds]; cbn [renderedText].
  - unfold sliceFrom. rewrite Hd, Hd'. reflexivity.
  - assert (S i <= d_start d) as Hs by (apply Hb; left).
    unfold slice. rewrite Hd, Hd'.
    replace (d_start d - i) with (S (d_start d - S i)) by lia. reflexivity.
Qed.

(** Package [fmt] on the composed template, verb by verb along the scan
    of the format. *)
Lemma render_composeText (fuel i : nat) (s : gostring) (cur : Z)
    (a : list gostring) (n : nat) (r g : bool) :
  length s < fuel ->
  drop i format = s ->
  cleanFrom fuel i s ->
  Forall (keyShaped h) (map (keyAt fargs) (resolveAll (scan fuel i s) cur)) ->
  n <= length a ->
  drop n a = map binder (flat_map (fun k => block h (offs k) k)
                           (map (keyAt fargs) (resolveAll (scan fuel i s) cur))) ->
  doPrintf (length (composeText h format fargs (scan fuel i s) i cur) + 1) a (mkPp n r g)
    (composeText h format fargs (scan fuel i s) i cur) =
  Some (renderedText h format fargs binder offs (scan fuel i s) i cur).
Proof.
  revert i s cur n g. induction fuel as [|fuel IH]; intros i s cur n g Hfuel Hdrop Hclean Hks Hn Ha; [lia|].
  destruct s as [|c s1].
  { change (scan (S fuel) i []) with (@nil directive) in *.
    cbn [composeText renderedText resolveAll map flat_map] in *.
    unfold sliceFrom. rewrite Hdrop. simpl. rewrite doPrintf_nil.
    assert (n = length a) as ->.
    { apply (f_equal length) in Ha. rewrite length_drop in Ha. simpl in Ha. lia. }
    rewrite extraArgs_done. reflexivity. }
  simpl in Hfuel.
  destruct (isPercent c) eqn:Hc.
  2:{ apply cleanFrom_text in Hclean; [|exact Hc].
      rewrite (scan_text fuel i c s1 Hc) in *.
      assert (forall d, d ∈ scan fuel (S i) s1 -> S i <= d_start d) as Hb
        by (intros d Hd; apply scan_bounds in Hd; lia).
      rewrite (composeText_skip h format fargs _ i cur c s1 Hdrop Hb).
      rewrite (renderedText_skip _ i cur c s1 Hdrop Hb).
      cbn [length Nat.add]. rewrite doPrintf_text by exact Hc.
      rewrite (IH (S i) s1 cur n g); [reflexivity | lia | | assumption..].
      replace (S i) with (i + length [c]) by (simpl; lia). apply drop_app_suffix. exact Hdrop. }
  assert (c = "%"%char) as -> by (apply Ascii.eqb_eq; exact Hc).
  destruct s1 as [|c1 s2]; [exfalso; exact (cleanFrom_lone _ _ Hclean)|].
  simpl in Hfuel.
  destruct (isPercent c1) eqn:Hc1.
  { assert (c1 = "%"%char) as -> by (apply Ascii.eqb_eq; exact Hc1).
    apply cleanFrom_percent in Hclean.
    rewrite scan_percent in *.
    cbn [composeText renderedText resolveAll isLiteral map flat_map d_start d_end] in Hks, Ha |- *.
    unfold slice. rewrite Nat.sub_diag, take_0, !app_nil_l.
    change (str "%%" ++ ?x) with ("%"%char :: "%"%char :: x).
    cbn [length Nat.add]. rewrite doPrintf_marker, doVerb_percent. cbn [argNum reordered].
    assert (drop (i + 2) format = s2) as Hdrop2.
    { replace (i + 2) with (i + length ["%"%char; "%"%char]) by (simpl; lia).
      apply drop_app_suffix. exact Hdrop. }
    pose proof (doPrintf_mono _ 1 _ _ _ _
                  (IH (i + 2) s2 cur n true ltac:(lia) Hdrop2 Hclean Hks Hn Ha)) as Hm.
    cbn [Nat.add] in Hm. rewrite Hm. reflexivity. }
  destruct (parseDecor (c1 :: s2)) as [[hi ix] s3] eqn:Hd.
  destruct s3 as [|v s4]; [exfalso; exact (cleanFrom_noverb _ _ _ _ _ _ Hc1 Hd Hclean)|].
  destruct (parseDecor_verb _ _ _ _ _ Hd) as (pre & Hpre & Hlen).
  apply (cleanFrom_directive fuel i c1 s2 hi ix v s4 pre Hc1 Hd Hpre) in Hclean.
  rewrite (scan_directive fuel i c1 s2 hi ix v s4 Hc1 Hd) in *.
  rewrite Hlen in *.
  set (e := i + 1 + S (length pre)) in *.
  cbn [composeText renderedText resolveAll isLiteral map flat_map d_start d_end] in Hks, Ha |- *.
  unfold slice. rewrite Nat.sub_diag, take_0, !app_nil_l.
  set (d := mkDirective i e hi ix false) in *.
  set (k := keyAt fargs (fst (resolve d cur))) in *.
  apply Forall_cons in Hks. destruct Hks as [Hk Hks].
  rewrite map_app in Ha.
  assert (length (c1 :: s2) = length pre + S (length s4)) as Hq
    by (rewrite Hpre, length_app; reflexivity).
  simpl in Hq.
  assert (drop e format = s4) as Hdrop4.
  { unfold e. replace (i + 1 + S (length pre)) with (i + length ("%"%char :: pre ++ [v]))
      by (simpl; rewrite length_app; simpl; lia).
    apply drop_app_suffix. rewrite Hdrop, Hpre. simpl. rewrite <- app_assoc. reflexivity. }
  assert (length a = n + length (drop n a)) as Hla by (rewrite length_drop; lia).
  rewrite Ha, length_app, !length_map in Hla.
  assert (drop (n + length (block h (offs k) k)) a =
          map binder (flat_map (fun k0 => block h (offs k0) k0)
                        (map (keyAt fargs) (resolveAll (scan fuel e s4) (snd (resolve d cur)))))) as Hrest.
  { rewrite <- drop_drop, Ha.
    rewrite <- (length_map binder (block h (offs k) k)). apply drop_app_length. }
  destruct k as [j|p] eqn:Ek.
  - (* a leaf: the placeholder [%s] *)
    cbn [replacement renderKey block] in *. cbn [length] in Hla, Hrest.
    change (str "%s" ++ ?x) with ("%"%char :: "s"%char :: x).
    cbn [length Nat.add]. rewrite doPrintf_marker. cbn [argNum reordered].
    assert (a !! n = Some (binder (offs (KLeaf j)))) as Hx.
    { rewrite <- (Nat.add_0_r n), <- lookup_drop, Ha. reflexivity. }
    rewrite (doVerb_hole a n r "s"%char _ _ eq_refl Hx).
    replace (n + 1) with (S n) in Hrest by lia.
    pose proof (doPrintf_mono _ 1 _ _ _ _
                  (IH e s4 _ (S n) true ltac:(lia) Hdrop4 Hclean Hks ltac:(lia) Hrest)) as Hm.
    cbn [Nat.add] in Hm. rewrite Hm. reflexivity.
  - (* a nested query: its template, piece by piece *)
    cbn [replacement renderKey block] in *. destruct Hk as (f & Hf & Hok & Hh & Hne).
    rewrite length_map in Hla, Hrest. rewrite Hf.
    rewrite (Query_Query_shaped (h p) f _ (conj Hf (conj Hok (conj Hh Hne)))).
    cbn [default]. rewrite length_app, <- Nat.add_assoc.
    rewrite <- Hh in Hrest, Hla.
    rewrite (doPrintf_flat f _ a n r g _ _ Hok ltac:(lia)
               (IH e s4 _ (n + holes f) true ltac:(lia) Hdrop4 Hclean Hks ltac:(lia) Hrest)).
    f_equal. f_equal. rewrite Ha.
    rewrite <- (app_nil_r f) at 1.
    rewrite render_app by (rewrite !length_map; exact Hh).
    cbn [render]. rewrite app_nil_r, map_map. reflexivity.
Qed.

End RenderExplicit.

Lemma empty_blocks_no_args (h : Heap) (fargs : list Arg) (ks : list key) (offs : key -> nat) :
  Forall (keyShaped h) ks ->
  flat_map (fun k => block h (offs k) k) ks = [] ->
  flat_map (contrib h fargs) (firstRefs ks) = [].
Proof.
  intros Hks Hnil.
  assert (forall k, k ∈ ks -> contrib h fargs k = []) as Hall.
  { intros k Hk. rewrite Forall_forall in Hks. specialize (Hks k Hk).
    assert (block h (offs k) k = []) as Hb.
    { clear -Hnil Hk. induction ks as [|x ks IH]; [inversion Hk|].
      simpl in Hnil. apply app_eq_nil in Hnil. destruct Hnil as [Hx Hrest].
      apply elem_of_cons in Hk. destruct Hk as [->|Hk]; [exact Hx | apply IH; assumption]. }
    destruct k as [j|p]; simpl in *; [discriminate|].
    destruct Hks as (f & _ & _ & _ & Hne).
    apply map_eq_nil in Hb. unfold normIndices in Hb.
    destruct (argIndices (h p)) as [l|]; [subst; congruence|].
    destruct (args (h p)); [reflexivity | discriminate]. }
  assert (forall l, (forall k, k ∈ l -> k ∈ ks) -> flat_map (contrib h fargs) l = []) as Hl.
  { induction l as [|x l IH]; intros Hsub; [reflexivity|]. simpl.
    rewrite (Hall x) by (apply Hsub; left). apply IH. intros k Hk. apply Hsub. right. exact Hk. }
  apply Hl. intros k Hk. apply elem_of_firstRefs. exact Hk.
Qed.

(** Rendering a composition of the explicit path whose format leaves no
    marker unterminated and whose nested queries have templates given
    piece by piece. *)
Lemma explicit_render (h : Heap) (format : gostring) (fargs : list Arg) (r : Query)
    (binder : BindVar) :
  sprintfExplicit h format fargs = Ok r ->
  existsb isPercent (trailing format) = false ->
  Forall (keyShaped h) (placeholderKeys format fargs) ->
  Query_Query r binder =
  Some (renderedText h format fargs binder (offsetOf h fargs (placeholderKeys format fargs))
          (parseDirectives format) 0 0%Z).
Proof.
  intros Hs Htail Hks.
  destruct (sprintfExplicit_result h format fargs r Hs) as (Hall & _).
  rewrite (sprintfExplicit_ok h format fargs Hall) in Hs. injection Hs as <-.
  set (ks := placeholderKeys format fargs) in *.
  set (L := flat_map (fun k => block h (offsetOf h fargs ks k) k) ks).
  assert (Query_Query
            (mkQuery (composeText h format fargs (parseDirectives format) 0 0%Z)
               (flat_map (contrib h fargs) (firstRefs ks)) (sliceOf L)) binder =
          fmtSprintf (composeText h format fargs (parseDirectives format) 0 0%Z) (map binder L)) as ->.
  { unfold Query_Query. cbn [argIndices fmt args].
    destruct L as [|x L'] eqn:EL; [|reflexivity]. cbn [sliceOf].
    rewrite (empty_blocks_no_args h fargs ks _ Hks EL). reflexivity. }
  unfold fmtSprintf. rewrite <- Nat.add_1_r. unfold parseDirectives.
  apply (render_composeText h format fargs binder (offsetOf h fargs ks)
           (S (length format)) 0 format 0%Z (map binder L) 0 false true).
  - lia.
  - reflexivity.
  - unfold cleanFrom. rewrite Nat.sub_0_r. exact Htail.
  - exact Hks.
  - lia.
  - reflexivity.
Qed.

Section RenderExplicitHead.

Variable h : Heap.
Variable format : gostring.
Variable fargs : list Arg.
Variable binder : BindVar.
Variable offs : key -> nat.

Lemma renderedHead_skip (d : directive) (ds : list directive) (i : nat) (cur : Z)
    (c : ascii) (s1 : gostring) :
  drop i format = c :: s1 ->
  S i <= d_start d ->
  renderedHead h format fargs binder offs (d :: ds) i cur =
  c :: renderedHead h format fargs binder offs (d :: ds) (S i) cur.
Proof.
  intros Hd Hs.
  assert (drop (S i) format = s1) as Hd'.
  { replace (S i) with (i + length [c]) by (simpl; lia). apply drop_app_suffix. exact Hd. }
  cbn [renderedHead]. unfold slice. rewrite Hd, Hd'.
  replace (d_start d - i) with (S (d_start d - S i)) by lia. reflexivity.
Qed.

Lemma renderedText_head (ds : list directive) (i : nat) (cur : Z) :
  renderedText h format fargs binder offs ds i cur =
  renderedHead h format fargs binder offs ds i cur ++ sliceFrom format (lastEndOf ds i).
Proof.
  revert i cur. induction ds as [|d ds IH]; intros i cur; [reflexivity|].
  cbn [renderedText renderedHead]. rewrite lastEndOf_cons.
  destruct (isLiteral d); rewrite IH, <- ?app_assoc; reflexivity.
Qed.

(** Package [fmt] on the composed template: verb by verb along the scan
    of the format up to the last directive, and then on the text that
    follows it. *)
Lemma render_composeText_then (fuel i : nat) (s : gostring) (cur : Z)
    (a : list gostring) (n : nat) (r g : bool) :
  length s < fuel ->
  drop i format = s ->
  Forall (keyShaped h) (map (keyAt fargs) (resolveAll (scan fuel i s) cur)) ->
  n <= length a ->
  drop n a = map binder (flat_map (fun k => block h (offs k) k)
                           (map (keyAt fargs) (resolveAll (scan fuel i s) cur))) ->
  doPrintf (S (length (composeText h format fargs (scan fuel i s) i cur))) a (mkPp n r g)
    (composeText h format fargs (scan fuel i s) i cur) =
  app (renderedHead h format fargs binder offs (scan fuel i s) i cur)
    <$> doPrintf (S (length (sliceFrom format (lastEndOf (scan fuel i s) i)))) a
          (mkPp (length a) r true) (sliceFrom format (lastEndOf (scan fuel i s) i)).
Proof.
  revert i s cur n g. induction fuel as [|fuel IH]; intros i s cur n g Hfuel Hdrop Hks Hn Ha; [lia|].
  assert (scan (S fuel) i s = [] ->
          doPrintf (S (length (composeText h format fargs (scan (S fuel) i s) i cur))) a (mkPp n r g)
            (composeText h format fargs (scan (S fuel) i s) i cur) =
          app (renderedHead h format fargs binder offs (scan (S fuel) i s) i cur)
            <$> doPrintf (S (length (sliceFrom format (lastEndOf (scan (S fuel) i s) i)))) a
                  (mkPp (length a) r true)
                  (sliceFrom format (lastEndOf (scan (S fuel) i s) i))) as Hbase.
  { intros E. rewrite E in *. cbn [composeText renderedHead resolveAll map flat_map] in *.
    change (lastEndOf [] i) with i. rewrite fmap_app_nil.
    assert (n = length a) as ->.
    { apply (f_equal length) in Ha. rewrite length_drop in Ha. simpl in Ha. lia. }
    apply doPrintf_good. }
  destruct s as [|c s1]; [apply Hbase, scan_nil|].
  simpl in Hfuel.
  destruct (isPercent c) eqn:Hc.
  2:{ rewrite (scan_text fuel i c s1 Hc) in *.
      destruct (scan fuel (S i) s1) as [|d ds] eqn:Hscan; [apply Hbase; reflexivity|].
      clear Hbase.
      assert (forall d', d' ∈ d :: ds -> S i <= d_start d') as Hb
        by (intros d' Hd'; rewrite <- Hscan in Hd'; apply scan_bounds in Hd'; lia).
      rewrite (composeText_skip h format fargs _ i cur c s1 Hdrop Hb).
      rewrite (renderedHead_skip d ds i cur c s1 Hdrop (Hb d ltac:(left))).
      cbn [length]. rewrite doPrintf_text by exact Hc.
      assert (drop (S i) format = s1) as Hdrop1.
      { replace (S i) with (i + length [c]) by (simpl; lia). apply drop_app_suffix. exact Hdrop. }
      specialize (IH (S i) s1 cur n g ltac:(lia) Hdrop1). rewrite Hscan in IH.
      rewrite (IH Hks Hn Ha). rewrite fmap_cons_app. reflexivity. }
  assert (c = "%"%char) as -> by (apply Ascii.eqb_eq; exact Hc).
  destruct s1 as [|c1 s2]; [apply Hbase, scan_lone|].
  simpl in Hfuel.
  destruct (isPercent c1) eqn:Hc1.
  { assert (c1 = "%"%char) as -> by (apply Ascii.eqb_eq; exact Hc1). clear Hbase.
    rewrite scan_percent in *.
    cbn [composeText renderedHead resolveAll isLiteral map flat_map d_start d_end] in Hks, Ha |- *.
    rewrite lastEndOf_cons. cbn [d_end].
    unfold slice. rewrite Nat.sub_diag, take_0, !app_nil_l.
    change (str "%%" ++ ?x) with ("%"%char :: "%"%char :: x).
    cbn [length]. rewrite doPrintf_marker, doVerb_percent. cbn [argNum reordered].
    assert (drop (i + 2) format = s2) as Hdrop2.
    { replace (i + 2) with (i + length ["%"%char; "%"%char]) by (simpl; lia).
      apply drop_app_suffix. exact Hdrop. }
    rewrite (doPrintf_fuel (S (S _)) (S (length (composeText h format fargs (scan fuel (i + 2) s2)
                                                     (i + 2) cur)))) by lia.
    rewrite (IH (i + 2) s2 cur n true ltac:(lia) Hdrop2 Hks Hn Ha).
    rewrite fmap_app_app. reflexivity. }
  destruct (parseDecor (c1 :: s2)) as [[hi ix] s3] eqn:Hd.
  destruct s3 as [|v s4]; [apply Hbase, (scan_noverb _ _ _ _ _ _ Hc1 Hd)|]. clear Hbase.
  destruct (parseDecor_verb _ _ _ _ _ Hd) as (pre & Hpre & Hlen).
  rewrite (scan_directive fuel i c1 s2 hi ix v s4 Hc1 Hd) in *.
  rewrite Hlen in *.
  set (e := i + 1 + S (length pre)) in *.
  cbn [composeText renderedHead resolveAll isLiteral map flat_map d_start d_end] in Hks, Ha |- *.
  rewrite lastEndOf_cons. cbn [d_end].
  unfold slice. rewrite Nat.sub_diag, take_0, !app_nil_l.
  set (d := mkDirective i e hi ix false) in *.
  set (k := keyAt fargs (fst (resolve d cur))) in *.
  apply Forall_cons in Hks. destruct Hks as [Hk Hks].
  rewrite map_app in Ha.
  assert (length (c1 :: s2) = length pre + S (length s4)) as Hq
    by (rewrite Hpre, length_app; reflexivity).
  simpl in Hq.
  assert (drop e format = s4) as Hdrop4.
  { unfold e. replace (i + 1 + S (length pre)) with (i + length ("%"%char :: pre ++ [v]))
      by (simpl; rewrite length_app; simpl; lia).
    apply drop_app_suffix. rewrite Hdrop, Hpre. simpl. rewrite <- app_assoc. reflexivity. }
  assert (length a = n + length (drop n a)) as Hla by (rewrite length_drop; lia).
  rewrite Ha, length_app, !length_map in Hla.
  assert (drop (n + length (block h (offs k) k)) a =
          map binder (flat_map (fun k0 => block h (offs k0) k0)
                        (map (keyAt fargs) (resolveAll (scan fuel e s4) (snd (resolve d cur)))))) as Hrest.
  { rewrite <- drop_drop, Ha.
    rewrite <- (length_map binder (block h (offs k) k)). apply drop_app_length. }
  set (CT := composeText h format fargs (scan fuel e s4) e (snd (resolve d cur))) in *.
  destruct k as [j|p] eqn:Ek.
  - (* a leaf: the placeholder [%s] *)
    cbn [replacement renderKey block] in *. cbn [length] in Hla, Hrest.
    change (str "%s" ++ ?x) with ("%"%char :: "s"%char :: x).
    cbn [length]. rewrite doPrintf_marker. cbn [argNum reordered].
    assert (a !! n = Some (binder (offs (KLeaf j)))) as Hx.
    { rewrite <- (Nat.add_0_r n), <- lookup_drop, Ha. reflexivity. }
    rewrite (doVerb_hole a n r "s"%char _ _ eq_refl Hx).
    replace (n + 1) with (S n) in Hrest by lia.
    rewrite (doPrintf_fuel (S (S (length CT))) (S (length CT))) by lia.
    unfold CT.
    rewrite (IH e s4 _ (S n) true ltac:(lia) Hdrop4 Hks ltac:(lia) Hrest).
    rewrite fmap_app_app. reflexivity.
  - (* a nested query: its template, piece by piece *)
    cbn [replacement renderKey block] in *. destruct Hk as (f & Hf & Hok & Hh & Hne).
    rewrite length_map in Hla, Hrest. rewrite Hf.
    rewrite (Query_Query_shaped (h p) f _ (conj Hf (conj Hok (conj Hh Hne)))).
    cbn [default]. rewrite <- Hh in Hrest, Hla.
    replace (S (length (flat f ++ CT))) with (length (flat f) + S (length CT))
      by (rewrite length_app; lia).
    rewrite (doPrintf_flat_then f (S (length CT)) a n r g CT Hok ltac:(lia) ltac:(lia)).
    unfold CT.
    rewrite (IH e s4 _ (n + holes f) true ltac:(lia) Hdrop4 Hks ltac:(lia) Hrest).
    rewrite fmap_app_app. f_equal. f_equal. rewrite Ha.
    rewrite <- (app_nil_r f) at 1.
    rewrite render_app by (rewrite !length_map; exact Hh).
    cbn [render]. rewrite app_nil_r, map_map. reflexivity.
Qed.

End RenderExplicitHead.

(** Rendering a composition of the explicit path whose nested queries
    have templates given piece by piece, whatever text follows the last
    directive of the format. *)
Lemma explicit_render_prefix (h : Heap) (format : gostring) (fargs : list Arg) (r : Query)
    (binder : BindVar) (out : gostring) :
  sprintfExplicit h format fargs = Ok r ->
  Forall (keyShaped h) (placeholderKeys format fargs) ->
  Query_Query r binder = Some out ->
  exists tail,
    out = renderedHead h format fargs binder (offsetOf h fargs (placeholderKeys format fargs))
            (parseDirectives format) 0 0%Z ++ tail.
Proof.
  intros Hs Hks Hq.
  destruct (sprintfExplicit_result h format fargs r Hs) as (Hall & _).
  rewrite (sprintfExplicit_ok h format fargs Hall) in Hs. injection Hs as <-.
  set (ks := placeholderKeys format fargs) in *.
  set (L := flat_map (fun k => block h (offsetOf h fargs ks k) k) ks) in *.
  assert (Query_Query
            (mkQuery (composeText h format fargs (parseDirectives format) 0 0%Z)
               (flat_map (contrib h fargs) (firstRefs ks)) (sliceOf L)) binder =
          fmtSprintf (composeText h format fargs (parseDirectives format) 0 0%Z) (map binder L)) as E.
  { unfold Query_Query. cbn [argIndices fmt args].
    destruct L as [|x L'] eqn:EL; [|reflexivity]. cbn [sliceOf].
    rewrite (empty_blocks_no_args h fargs ks _ Hks EL). reflexivity. }
  rewrite E in Hq. unfold fmtSprintf, parseDirectives in Hq.
  rewrite (render_composeText_then h format fargs binder (offsetOf h fargs ks)
             (S (length format)) 0 format 0%Z (map binder L) 0 false true
             ltac:(lia) ltac:(reflexivity) Hks ltac:(lia) ltac:(reflexivity)) in Hq.
  destruct (doPrintf _ _ _ (sliceFrom format _)) as [tail|]; [|discriminate].
  simpl in Hq. injection Hq as <-. exists tail. reflexivity.
Qed.

(** C3, on the inputs that refute it.  On the explicit path an argument
    that no placeholder refers to is left out: the nested query's
    argument does not reach the outer array.  A nested query that was
    composed with fewer arguments than placeholders does not render
    inside a composition as it renders alone: its error text takes the
    bind variable of the leaf that follows.  And a width given as a
    star takes the nested query for the width: its template does not
    reach the result. *)
Lemma unreferenced_nested_not_flattened :
  Sprintf (heapOf []) (str "z = %d") [Leaf (VInt 5)] = Ok (mkQuery (str "z = %s") [VInt 5] None)
  /\ Sprintf (heapOf [mkQuery (str "z = %s") [VInt 5] None]) (str "a = %[1]s")
       [Leaf (VString "v"); Ref 0] =
     Ok (mkQuery (str "a = %s") [VString "v"] (Some [0]))
  /\ (VInt 5 ∉ args (mkQuery (str "a = %s") [VString "v"] (Some [0])))
  /\ (Sprintf (heapOf []) (str "a = %s AND b = %s") [Leaf (VString "q")] =
        Ok (mkQuery (str "a = %s AND b = %!s(MISSING)") [VString "q"] None)
      /\ Query_Query (mkQuery (str "a = %s AND b = %!s(MISSING)") [VString "q"] None)
           PostgresBindVar = Some (str "a = $1 AND b = %!!(MISSING)s(MISSING)")
      /\ Sprintf (heapOf [mkQuery (str "a = %s AND b = %!s(MISSING)") [VString "q"] None])
           (str "(%s) AND c = %s") [Ref 0; Leaf (VInt 1)] =
         Ok (mkQuery (str "(a = %s AND b = %!s(MISSING)) AND c = %s") [VString "q"; VInt 1] None)
      /\ Query_Query
           (mkQuery (str "(a = %s AND b = %!s(MISSING)) AND c = %s") [VString "q"; VInt 1] None)
           PostgresBindVar = Some (str "(a = $1 AND b = $2s(MISSING)) AND c = %!s(MISSING)"))
  /\ (placeholders (str "x = (%*s)") = 1
      /\ Sprintf (heapOf [mkQuery (str "z = %s") [VInt 5] None]) (str "x = (%*s)") [Ref 0] =
         Ok (mkQuery (str "x = (%!(BADWIDTH)%!s(MISSING))") [VInt 5] None)
      /\ Query_Query (mkQuery (str "x = (%!(BADWIDTH)%!s(MISSING))") [VInt 5] None)
           PostgresBindVar = Some (str "x = ($1(BADWIDTH)%!!(MISSING)s(MISSING))")).
Proof.
  split; [vm_compute; reflexivity|]. split; [vm_compute; reflexivity|].
  split; [simpl; intros H; apply list_elem_of_singleton in H; discriminate|].
  split.
  - split; [|split; [|split]]; vm_compute; reflexivity.
  - split; [|split]; vm_compute; reflexivity.
Qed.

(** C3, amended.  Flattening needs nothing of the template: whatever
    [Sprintf] returns on the identity path holds the arguments of its
    arguments in order, a nested query bringing its own as one block in
    its own order, and whatever it returns on the explicit path holds
    the contributions of the keys the placeholders refer to, in order
    of first reference.  The rendering needs nested queries with one
    placeholder for every argument.  On the identity path, for an outer
    template made of marker-free text, literal percents and directives
    that are the marker, flags, a width and a precision in digits, and
    a verb byte, whose placeholders are matched in order by the
    arguments, each a leaf or a nested query composed earlier in the
    same way: [Sprintf] returns; the rendering is the outer text with,
    at the placeholder of a nested query, what that query renders to on
    its own with every slot number shifted by the offset of its block;
    and the result is again a query that can be nested in this way.
    When such pieces and their arguments are only the beginning of the
    template and of the arguments, the rendering of what [Sprintf]
    returns begins in this way.  On the explicit path, for nested
    queries with templates given piece by piece and one index entry for
    every placeholder, the rendering is told the same way: up to the
    last directive whatever the format, and to the end for a format
    without an unterminated marker.  The example of the specification
    is computed at the end. *)
Theorem nested_composition :
  (forall (h : Heap) (format : gostring) (fargs : list Arg) (q : Query),
     needsExplicitPath h format fargs = false ->
     Sprintf h format fargs = Ok q ->
     Query_Args q = flat_map (argValues h) fargs)
  /\ (forall (h : Heap) (dps : list dpiece) (fargs : list Arg) (fs : list (list piece)),
        forallb okDPiece dps = true ->
        holes (map bare dps) = length fargs ->
        Forall2 (argPieces h) fargs fs ->
        exists q, Sprintf h (dflat dps) fargs = Ok q
          /\ Query_Args q = flat_map (argValues h) fargs
          /\ regular q (splice (map bare dps) fs)
          /\ forall binder,
               Query_Query q binder = Some (renderNested h binder 0 (map bare dps) fargs))
  /\ (forall (h : Heap) (dps : list dpiece) (rest : gostring) (fargs extra : list Arg)
             (fs : list (list piece)) (q : Query),
        forallb okDPiece dps = true ->
        holes (map bare dps) = length fargs ->
        Forall2 (argPieces h) fargs fs ->
        needsExplicitPath h (dflat dps ++ rest) (fargs ++ extra) = false ->
        Sprintf h (dflat dps ++ rest) (fargs ++ extra) = Ok q ->
        forall binder out,
          Query_Query q binder = Some out ->
          exists tail, out = renderNested h binder 0 (map bare dps) fargs ++ tail)
  /\ (forall (h : Heap) (format : gostring) (fargs : list Arg) (r : Query),
        needsExplicitPath h format fargs = true ->
        Sprintf h format fargs = Ok r ->
        Query_Args r = flat_map (contrib h fargs) (firstRefs (placeholderKeys format fargs))
        /\ (Forall (keyShaped h) (placeholderKeys format fargs) ->
            (forall binder out,
               Query_Query r binder = Some out ->
               exists tail,
                 out = renderedHead h format fargs binder
                         (offsetOf h fargs (placeholderKeys format fargs))
                         (parseDirectives format) 0 0%Z ++ tail)
            /\ (existsb isPercent (trailing format) = false ->
                forall binder,
                  Query_Query r binder =
                  Some (renderedText h format fargs binder
                          (offsetOf h fargs (placeholderKeys format fargs))
                          (parseDirectives format) 0 0%Z))))
  /\ (exists inner q,
        Sprintf (heapOf []) (str "SELECT y FROM t WHERE z = %d") [Leaf (VInt 5)] = Ok inner
        /\ Sprintf (heapOf [inner]) (str "WHERE x = (%s)") [Ref 0] = Ok q
        /\ Query_Query q PostgresBindVar = Some (str "WHERE x = (SELECT y FROM t WHERE z = $1)")
        /\ Query_Args q = [VInt 5]).
Proof.
  split; [|split; [|split; [|split]]].
  - intros h format fargs q Hpath Hs. unfold Sprintf in Hs. rewrite Hpath in Hs.
    destruct (fmtSprintf _ _); [|discriminate]. injection Hs as <-. reflexivity.
  - intros h dps fargs fs Hok Hn HF.
    destruct (identity_path_spec h (map bare dps) fargs fs (bare_ok dps Hok) Hn HF)
      as (Hs & Hreg & Hq).
    rewrite <- (Sprintf_decorated h dps _ Hok (argPieces_implicit h _ _ HF)) in Hs.
    eexists. split; [exact Hs|]. split; [reflexivity|]. split; [exact Hreg | exact Hq].
  - intros h dps rest fargs extra fs q Hok Hn HF Hpath Hs.
    apply (identity_path_prefix h dps rest fargs extra fs q Hok Hn HF Hpath Hs).
  - intros h format fargs r Hpath Hs. unfold Sprintf in Hs. rewrite Hpath in Hs.
    split.
    + destruct (sprintfExplicit_result h format fargs r Hs) as (_ & _ & Ha & _). exact Ha.
    + intros Hks. split.
      * intros binder out Hq. apply (explicit_render_prefix h format fargs r binder out Hs Hks Hq).
      * intros Htail binder. apply explicit_render; assumption.
  - exists (mkQuery (str "SELECT y FROM t WHERE z = %s") [VInt 5] None),
           (mkQuery (str "WHERE x = (SELECT y FROM t WHERE z = %s)") [VInt 5] None).
    split; [|split; [|split]]; vm_compute; reflexivity.
Qed.

Lemma nested_composition_witness :
  exists q,
    Sprintf (heapOf [mkQuery (str "SELECT y FROM t WHERE z = %s") [VInt 5] None])
      (dflat [DText (str "WHERE a = "); DHole (str "-5") "s"%char; DText (str " AND x = (");
              DHole [] "s"%char; DText (str ")")])
      [Leaf (VString "foo"); Ref 0] = Ok q
    /\ Query_Args q =
       flat_map (argValues (heapOf [mkQuery (str "SELECT y FROM t WHERE z = %s") [VInt 5] None]))
         [Leaf (VString "foo"); Ref 0]
    /\ regular q
         (splice
            (map bare [DText (str "WHERE a = "); DHole (str "-5") "s"%char;
                       DText (str " AND x = ("); DHole [] "s"%char; DText (str ")")])
            [[PHole "s"%char]; [PText (str "SELECT y FROM t WHERE z = "); PHole "s"%char]])
    /\ forall binder,
         Query_Query q binder =
         Some (renderNested (heapOf [mkQuery (str "SELECT y FROM t WHERE z = %s") [VInt 5] None])
                 binder 0
                 (map bare [DText (str "WHERE a = "); DHole (str "-5") "s"%char;
                            DText (str " AND x = ("); DHole [] "s"%char; DText (str ")")])
                 [Leaf (VString "foo"); Ref 0]).
Proof.
  destruct nested_composition as (_ & H & _).
  apply (H (heapOf [mkQuery (str "SELECT y FROM t WHERE z = %s") [VInt 5] None])
           [DText (str "WHERE a = "); DHole (str "-5") "s"%char; DText (str " AND x = (");
            DHole [] "s"%char; DText (str ")")]
           [Leaf (VString "foo"); Ref 0]
           [[PHole "s"%char]; [PText (str "SELECT y FROM t WHERE z = "); PHole "s"%char]]);
    [reflexivity | reflexivity |].
  constructor; [reflexivity|]. constructor; [|constructor].
  repeat split; reflexivity.
Defined.

Lemma index_list_invariants_witness :
  length [0; 0; 1] =
    placeholders (fmt (mkQuery (str "WHERE a = (%s OR %s) AND b = %s")
                         [VString "x"; VString "y"] (Some [0; 0; 1])))
  /\ Forall (fun x => x < length (args (mkQuery (str "WHERE a = (%s OR %s) AND b = %s")
                                        [VString "x"; VString "y"] (Some [0; 0; 1]))))
       [0; 0; 1].
Proof.
  destruct index_list_invariants as [H _].
  apply (H (heapOf [mkQuery (str "(%s OR %s)") [VString "x"] (Some [0; 0])])
           (str "WHERE a = %s AND b = %s") [Ref 0; Leaf (VString "y")]
           (mkQuery (str "WHERE a = (%s OR %s) AND b = %s") [VString "x"; VString "y"]
              (Some [0; 0; 1]))
           [0; 0; 1]);
    [vm_compute; reflexivity | reflexivity |].
  assert (placeholderKeys (str "WHERE a = %s AND b = %s") [Ref 0; Leaf (VString "y")] =
          [KRef 0; KLeaf 1%Z]) as Ek by (vm_compute; reflexivity).
  rewrite Ek.
  constructor; [|constructor; [exact I | constructor]].
  split.
  - assert (forallb okPiece
              [PText (str "("); PHole "s"%char; PText (str " OR "); PHole "s"%char;
               PText (str ")")] = true) as Hok by (vm_compute; reflexivity).
    pose proof (flat_counts _ Hok) as Hc.
    assert (flat [PText (str "("); PHole "s"%char; PText (str " OR "); PHole "s"%char;
                  PText (str ")")] =
            fmt (heapOf [mkQuery (str "(%s OR %s)") [VString "x"] (Some [0; 0])] 0)) as E1
      by (vm_compute; reflexivity).
    assert (holes [PText (str "("); PHole "s"%char; PText (str " OR "); PHole "s"%char;
                   PText (str ")")] =
            length (normIndices (heapOf [mkQuery (str "(%s OR %s)") [VString "x"] (Some [0; 0])] 0)))
      as E2 by (vm_compute; reflexivity).
    rewrite E1, E2 in Hc. exact Hc.
  - repeat constructor.
Defined.

(** * Further properties of the package *)

(** ** Where the directives lie *)

(** Every directive of a scan comes from one of the two places of the
    loop that append one. *)
Lemma scan_elem (fuel i : nat) (s : gostring) (d : directive) :
  d ∈ scan fuel i s ->
  exists pre s', s = pre ++ "%"%char :: s' /\ d_start d = i + length pre
    /\ ((exists s2, s' = "%"%char :: s2
                    /\ d = mkDirective (d_start d) (d_start d + 2) false 0%Z true)
        \/ (exists c1 s2 hi ix v s4,
              s' = c1 :: s2 /\ isPercent c1 = false
              /\ parseDecor (c1 :: s2) = (hi, ix, v :: s4)
              /\ d = mkDirective (d_start d) (d_start d + 1 + (length (c1 :: s2) - length s4))
                       hi ix false)).
Proof.
  revert i s. induction fuel as [|fuel IH]; intros i s Hin; [inversion Hin|].
  destruct s as [|c s1]; [rewrite scan_nil in Hin; inversion Hin|].
  destruct (isPercent c) eqn:Hc.
  - apply Ascii.eqb_eq in Hc. subst c.
    destruct s1 as [|c1 s2]; [rewrite scan_lone in Hin; inversion Hin|].
    destruct (isPercent c1) eqn:Hc1.
    + apply Ascii.eqb_eq in Hc1. subst c1. rewrite scan_percent in Hin.
      apply elem_of_cons in Hin. destruct Hin as [->|Hin].
      * exists [], ("%"%char :: s2). split; [reflexivity|]. split; [simpl; lia|].
        left. exists s2. split; reflexivity.
      * apply IH in Hin. destruct Hin as (pre & s' & -> & Hst & Hcase).
        exists ("%"%char :: "%"%char :: pre), s'. split; [reflexivity|].
        split; [simpl; lia | exact Hcase].
    + destruct (parseDecor (c1 :: s2)) as [[hi ix] s3] eqn:Hd.
      destruct s3 as [|v s4].
      { rewrite (scan_noverb _ _ _ _ _ _ Hc1 Hd) in Hin. inversion Hin. }
      rewrite (scan_directive _ _ _ _ _ _ _ _ Hc1 Hd) in Hin.
      apply elem_of_cons in Hin. destruct Hin as [->|Hin].
      * exists [], (c1 :: s2). split; [reflexivity|]. split; [simpl; lia|].
        right. exists c1, s2, hi, ix, v, s4. cbn [d_start].
        repeat split; assumption.
      * apply IH in Hin. destruct Hin as (pre & s' & Hs4 & Hst & Hcase).
        destruct (parseDecor_verb _ _ _ _ _ Hd) as (pre0 & Hpre0 & Hlen).
        exists ("%"%char :: pre0 ++ v :: pre), s'. split.
        { cbn [app]. f_equal. rewrite Hpre0, Hs4, <- app_assoc. reflexivity. }
        split; [|exact Hcase]. rewrite Hst. simpl length. rewrite length_app. simpl length.
        simpl in Hlen. lia.
  - rewrite scan_text in Hin by exact Hc. apply IH in Hin.
    destruct Hin as (pre & s' & -> & Hst & Hcase).
    exists (c :: pre), s'. split; [reflexivity|]. split; [simpl; lia | exact Hcase].
Qed.

Lemma scan_chained (fuel i : nat) (s : gostring) :
  chained i (scan fuel i s) (i + length s).
Proof.
  revert i s. induction fuel as [|fuel IH]; intros i s; [simpl; lia|].
  destruct s as [|c s1]; [rewrite scan_nil; simpl; lia|].
  assert (forall j ds n m, chained j ds n -> n <= m -> forall j', j' <= j -> chained j' ds m) as Hmono.
  { clear. intros j ds. revert j. induction ds as [|d ds IH]; intros j n m H Hnm j' Hj; simpl in *.
    - lia.
    - destruct H as (H1 & H2 & H3). split; [lia|]. split; [lia|].
      apply (IH _ n m H3 Hnm). lia. }
  destruct (isPercent c) eqn:Hc.
  - apply Ascii.eqb_eq in Hc. subst c.
    destruct s1 as [|c1 s2]; [rewrite scan_lone; simpl; lia|].
    destruct (isPercent c1) eqn:Hc1.
    + apply Ascii.eqb_eq in Hc1. subst c1. rewrite scan_percent.
      cbn [chained d_start d_end]. split; [lia|]. split; [lia|].
      apply (Hmono _ _ _ _ (IH (i + 2) s2)); simpl; lia.
    + destruct (parseDecor (c1 :: s2)) as [[hi ix] s3] eqn:Hd.
      destruct s3 as [|v s4].
      { rewrite (scan_noverb _ _ _ _ _ _ Hc1 Hd). simpl. lia. }
      rewrite (scan_directive _ _ _ _ _ _ _ _ Hc1 Hd).
      destruct (parseDecor_verb _ _ _ _ _ Hd) as (pre0 & Hpre0 & Hlen).
      assert (length (c1 :: s2) = length pre0 + S (length s4)) as Hl
        by (rewrite Hpre0, length_app; reflexivity).
      cbn [chained d_start d_end]. split; [lia|]. split; [lia|].
      apply (Hmono _ _ _ _ (IH _ s4)); simpl in *; lia.
  - rewrite scan_text by exact Hc. apply (Hmono _ _ _ _ (IH (S i) s1)); simpl; lia.
Qed.

(** X1. The directives the scanner returns lie one after the other
    inside the format: each starts at or after the end of the one
    before it, spans at least two bytes, and the last one ends within
    the format.  So the slices of the format that [sprintfExplicit]
    takes between directives and after the last one are always in
    range. *)
Theorem directives_in_order (format : gostring) :
  chained 0 (parseDirectives format) (length format).
Proof. exact (scan_chained (S (length format)) 0 format). Qed.

(** ** The explicit index right after the marker *)

Lemma isDigit_bracket : isDigit "]"%char = false.
Proof. reflexivity. Qed.

Lemma parseIndex_digits (ds r : gostring) :
  ds <> [] -> forallb isDigit ds = true ->
  parseIndex ("["%char :: ds ++ "]"%char :: r) = (true, Atoi ds, r).
Proof.
  intros Hne Hds. unfold parseIndex.
  destruct (takeWhile_app_stop isDigit ds "]"%char r Hds isDigit_bracket) as [-> ->].
  rewrite bool_decide_false by exact Hne. reflexivity.
Qed.

Lemma skipOptionalIndex_digits (ds r : gostring) :
  ds <> [] -> forallb isDigit ds = true ->
  skipOptionalIndex ("["%char :: ds ++ "]"%char :: r) = r.
Proof.
  intros Hne Hds. unfold skipOptionalIndex.
  destruct (takeWhile_app_stop isDigit ds "]"%char r Hds isDigit_bracket) as [-> ->].
  rewrite bool_decide_false by exact Hne. reflexivity.
Qed.

Lemma parseIndex_cases (s : gostring) :
  parseIndex s = (false, 0%Z, s)
  \/ exists ds r, s = "["%char :: ds ++ "]"%char :: r /\ ds <> [] /\ forallb isDigit ds = true
                  /\ parseIndex s = (true, Atoi ds, r).
Proof.
  unfold parseIndex. destruct s as [|c s1]; [left; reflexivity|].
  destruct (Ascii.eqb_spec c "["%char) as [->|Hc].
  - pose proof (takeWhile_dropWhile isDigit s1) as Hsplit.
    pose proof (takeWhile_all isDigit s1) as Hall.
    destruct (dropWhile isDigit s1) as [|c' r]; [left; reflexivity|].
    destruct (Ascii.eqb_spec c' "]"%char) as [->|Hc'].
    + case_bool_decide as Hnil; [left; reflexivity|].
      right. exists (takeWhile isDigit s1), r. rewrite Hsplit. repeat split; assumption.
    + left. destruct c' as [[] [] [] [] [] [] [] []]; try reflexivity. congruence.
  - left. destruct c as [[] [] [] [] [] [] [] []]; try reflexivity. congruence.
Qed.

Lemma skipOptionalIndex_cases (s : gostring) :
  skipOptionalIndex s = s
  \/ exists ds r, s = "["%char :: ds ++ "]"%char :: r /\ ds <> [] /\ forallb isDigit ds = true
                  /\ skipOptionalIndex s = r.
Proof.
  unfold skipOptionalIndex. destruct s as [|c s1]; [left; reflexivity|].
  destruct (Ascii.eqb_spec c "["%char) as [->|Hc].
  - pose proof (takeWhile_dropWhile isDigit s1) as Hsplit.
    pose proof (takeWhile_all isDigit s1) as Hall.
    destruct (dropWhile isDigit s1) as [|c' r]; [left; reflexivity|].
    destruct (Ascii.eqb_spec c' "]"%char) as [->|Hc'].
    + case_bool_decide as Hnil; [left; reflexivity|].
      right. exists (takeWhile isDigit s1), r. rewrite Hsplit. repeat split; assumption.
    + left. destruct c' as [[] [] [] [] [] [] [] []]; try reflexivity. congruence.
  - left. destruct c as [[] [] [] [] [] [] [] []]; try reflexivity. congruence.
Qed.

Lemma digitVal_range (c : ascii) : isDigit c = true -> (0 <= digitVal c <= 9)%Z.
Proof.
  unfold isDigit, digitVal. intros H. apply andb_prop in H. destruct H as [H1 H2].
  apply Nat.leb_le in H1, H2. lia.
Qed.

Lemma decimal_nonneg (ds : gostring) : forallb isDigit ds = true -> (0 <= decimal ds)%Z.
Proof.
  unfold decimal. assert (forall acc, (0 <= acc)%Z -> forallb isDigit ds = true ->
    (0 <= fold_left (fun acc c => (10 * acc + digitVal c)%Z) ds acc)%Z) as H.
  { induction ds as [|c ds IH]; intros acc Hacc Hds; [exact Hacc|]. simpl in *.
    apply andb_prop in Hds. destruct Hds as [Hc Hds]. apply IH; [|exact Hds].
    pose proof (digitVal_range c Hc). lia. }
  apply H. lia.
Qed.

Lemma Atoi_range (ds : gostring) : forallb isDigit ds = true -> (0 <= Atoi ds <= maxInt)%Z.
Proof.
  intros H. unfold Atoi. pose proof (decimal_nonneg ds H).
  assert (0 <= maxInt)%Z by (unfold maxInt; lia). lia.
Qed.

Lemma parseDecor_index (s : gostring) (hi : bool) (ix : Z) (r : gostring) :
  parseDecor s = (hi, ix, r) -> parseIndex s = (hi, ix, snd (parseIndex s)).
Proof.
  unfold parseDecor. destruct (parseIndex s) as [[hi' ix'] s1]. intros H.
  injection H as -> -> _. reflexivity.
Qed.

(** X2. What the span of a directive holds.  Every directive starts at a
    marker, and its index lies between 0 and the largest [int].  A
    literal directive is exactly the two bytes of a doubled marker and
    carries no index.  A directive that is not literal has a byte other
    than the marker after its marker; it carries an index exactly when
    the marker is followed at once by a bracketed, non-empty run of
    digits, and the index is then the value [strconv.Atoi] gives for
    that run; a directive without an index has index 0, and the text
    after its marker is not of that bracketed form. *)
Theorem directive_spans (format : gostring) (d : directive) :
  d ∈ parseDirectives format ->
  exists rest,
    drop (d_start d) format = "%"%char :: rest
    /\ (0 <= index d <= maxInt)%Z
    /\ if isLiteral d then
         (exists r, rest = "%"%char :: r)
         /\ d_end d = d_start d + 2 /\ hasIndex d = false /\ index d = 0%Z
       else
         (exists c r, rest = c :: r /\ isPercent c = false)
         /\ if hasIndex d then
              exists ds r, rest = "["%char :: ds ++ "]"%char :: r /\ ds <> []
                           /\ forallb isDigit ds = true /\ index d = Atoi ds
            else index d = 0%Z
                 /\ ~ (exists ds r, rest = "["%char :: ds ++ "]"%char :: r /\ ds <> []
                                    /\ forallb isDigit ds = true).
Proof.
  intros Hin. apply scan_elem in Hin. destruct Hin as (pre & s' & Hf & Hst & Hcase).
  exists s'. split.
  { rewrite Hst, Hf. simpl. apply drop_app_length. }
  destruct Hcase as [(s2 & -> & Hd) | (c1 & s2 & hi & ix & v & s4 & -> & Hc1 & Hdec & Hd)];
    rewrite Hd; cbn [isLiteral hasIndex index d_end d_start].
  - split; [unfold maxInt; lia|]. split; [exists s2; reflexivity|]. repeat split.
  - apply parseDecor_index in Hdec.
    destruct (parseIndex_cases (c1 :: s2)) as [Hno | (ds & r & Hs & Hne & Hds & Hyes)].
    + rewrite Hno in Hdec. injection Hdec as <- <-.
      split; [unfold maxInt; lia|]. split; [exists c1, s2; split; [reflexivity | exact Hc1]|].
      split; [reflexivity|]. intros (ds & r & Hs & Hne & Hds).
      rewrite Hs, (parseIndex_digits ds r Hne Hds) in Hno. discriminate Hno.
    + rewrite Hyes in Hdec. injection Hdec as <- <-.
      split; [apply Atoi_range; exact Hds|].
      split; [exists c1, s2; split; [reflexivity | exact Hc1]|].
      exists ds, r. repeat split; assumption.
Qed.

Lemma directive_spans_witness :
  exists rest,
    drop 4 (str "a = %[2]s %%") = "%"%char :: rest
    /\ (0 <= 2 <= maxInt)%Z
    /\ (exists c r, rest = c :: r /\ isPercent c = false)
    /\ exists ds r, rest = "["%char :: ds ++ "]"%char :: r /\ ds <> []
                    /\ forallb isDigit ds = true /\ 2%Z = Atoi ds.
Proof.
  apply (directive_spans (str "a = %[2]s %%") (mkDirective 4 9 true 2%Z false)).
  vm_compute. left.
Defined.

(** X3. The index parser written out inside [parseDirectives] and
    [skipOptionalIndex] agree: they leave the same text unread, and the
    scanner reports an index exactly when [skipOptionalIndex] moves. *)
Theorem index_parsers_agree (s : gostring) :
  snd (parseIndex s) = skipOptionalIndex s
  /\ (fst (fst (parseIndex s)) = true <-> skipOptionalIndex s <> s).
Proof.
  destruct (parseIndex_cases s) as [Hno | (ds & r & Hs & Hne & Hds & Hyes)].
  - rewrite Hno. cbn [fst snd].
    destruct (skipOptionalIndex_cases s) as [Hs | (ds & r & Hs & Hne & Hds & Hyes)].
    + rewrite Hs. split; [reflexivity|]. split; [discriminate | congruence].
    + exfalso. rewrite Hs, (parseIndex_digits ds r Hne Hds) in Hno. discriminate.
  - rewrite Hyes. cbn [fst snd]. rewrite Hs, (skipOptionalIndex_digits ds r Hne Hds).
    split; [reflexivity|]. split; [intros _|reflexivity].
    intros Heq. apply (f_equal (@length ascii)) in Heq. simpl in Heq.
    rewrite length_app in Heq. simpl in Heq. lia.
Qed.

(** ** When the explicit path returns *)

(** X4. The explicit path returns a query exactly when every resolved
    logical index lies within the arguments: the out-of-range panic is
    its only failure. *)
Theorem explicit_path_returns_iff_in_range (h : Heap) (format : gostring) (fargs : list Arg) :
  (exists r, sprintfExplicit h format fargs = Ok r)
  <-> forallb (inRange (length fargs)) (resolveAll (parseDirectives format) 0%Z) = true.
Proof.
  split.
  - intros [r Hr]. apply (sprintfExplicit_result h format fargs r Hr).
  - intros Hall. eexists. apply sprintfExplicit_ok. exact Hall.
Qed.

Lemma forallb_inRange_seq (n k : nat) :
  forallb (inRange n) (map (fun j => (0 + Z.of_nat j)%Z) (seq 0 k)) = true <-> k <= n.
Proof.
  rewrite forallb_forall. split.
  - intros H. destruct k as [|k]; [lia|].
    specialize (H (0 + Z.of_nat k)%Z). unfold inRange in H.
    assert ((0 <=? 0 + Z.of_nat k)%Z && (0 + Z.of_nat k <? Z.of_nat n)%Z = true) as Hk.
    { apply H. apply in_map_iff. exists k. split; [reflexivity|]. apply in_seq. lia. }
    apply andb_prop in Hk. destruct Hk as [_ Hk]. apply Z.ltb_lt in Hk. lia.
  - intros Hk x Hx. apply in_map_iff in Hx. destruct Hx as (j & <- & Hj). apply in_seq in Hj.
    unfold inRange. apply andb_true_intro. split; [apply Z.leb_le | apply Z.ltb_lt]; lia.
Qed.

Lemma existsb_false_Forall {A} (f : A -> bool) (l : list A) :
  existsb f l = false -> Forall (fun x => f x = false) l.
Proof.
  induction l as [|a l IH]; intros H; [constructor|]. simpl in H.
  apply orb_false_elim in H. destruct H as [Ha Hl]. constructor; [exact Ha | exact (IH Hl)].
Qed.

(** X5. When the explicit path is taken for a format without any
    explicit index (some argument is a nested query carrying an index
    list), [Sprintf] returns a query exactly when there are at least as
    many arguments as non-literal placeholders. *)
Theorem implicit_placeholders_need_arguments (h : Heap) (format : gostring) (fargs : list Arg) :
  needsExplicitPath h format fargs = true ->
  existsb hasIndex (parseDirectives format) = false ->
  (exists r, Sprintf h format fargs = Ok r) <-> placeholders format <= length fargs.
Proof.
  intros Hpath Hno. unfold Sprintf. rewrite Hpath.
  pose proof (resolveAll_implicit _ 0%Z (existsb_false_Forall _ _ Hno)) as Hres.
  fold (placeholders format) in Hres.
  rewrite <- forallb_inRange_seq, <- Hres. split.
  - intros [r Hr]. apply (sprintfExplicit_result h format fargs r Hr).
  - intros Hall. eexists. apply sprintfExplicit_ok. exact Hall.
Qed.

Lemma implicit_placeholders_need_arguments_witness :
  (exists r, Sprintf (heapOf [mkQuery (str "x = %s") [VInt 1] (Some [0])])
               (str "%s AND y = %s") [Ref 0] = Ok r)
  <-> placeholders (str "%s AND y = %s") <= length [Ref 0].
Proof.
  apply (implicit_placeholders_need_arguments
           (heapOf [mkQuery (str "x = %s") [VInt 1] (Some [0])]) (str "%s AND y = %s") [Ref 0]);
    vm_compute; reflexivity.
Defined.

(** ** The implicit counter *)

Lemma step_counter (h : Heap) (format : gostring) (fargs : list Arg) (st st' : state)
    (d : directive) :
  step h format fargs st d = Ok st' ->
  (0 <= currentImplicitArg st <= Z.of_nat (length fargs))%Z ->
  (0 <= currentImplicitArg st' <= Z.of_nat (length fargs))%Z.
Proof.
  unfold step. intros Hs Hb. destruct (isLiteral d).
  { injection Hs as <-. exact Hb. }
  assert (forall i cur, resolve d (currentImplicitArg st) = (i, cur) ->
            (i <? 0)%Z || (Z.of_nat (length fargs) <=? i)%Z = false ->
            (0 <= cur <= Z.of_nat (length fargs))%Z) as Hres.
  { intros i cur Hr Hin. apply orb_false_elim in Hin. destruct Hin as [H0 H1].
    apply Z.ltb_ge in H0. apply Z.leb_gt in H1. unfold resolve in Hr.
    destruct (hasIndex d); injection Hr as <- <-; lia. }
  destruct (resolve d (currentImplicitArg st)) as [i cur].
  specialize (Hres i cur eq_refl).
  destruct ((i <? 0)%Z || (Z.of_nat (length fargs) <=? i)%Z); [discriminate|].
  specialize (Hres eq_refl).
  destruct (fargs !! Z.to_nat i) as [[v|q]|]; [| |discriminate].
  - destruct (argToResultPos st !! i); injection Hs as <-; exact Hres.
  - destruct (nestedQueries st !! q); injection Hs as <-; exact Hres.
Qed.

(** X6. Whenever the loop of [sprintfExplicit] gets through a list of
    directives without panicking, the implicit counter lies between 0
    and the number of arguments: it cannot run past the range of an
    [int]. *)
Theorem implicit_counter_in_bounds (h : Heap) (format : gostring) (fargs : list Arg)
    (ds : list directive) (st : state) :
  loop h format fargs ds initState = Ok st ->
  (0 <= currentImplicitArg st <= Z.of_nat (length fargs))%Z.
Proof.
  assert (forall st0, (0 <= currentImplicitArg st0 <= Z.of_nat (length fargs))%Z ->
            loop h format fargs ds st0 = Ok st ->
            (0 <= currentImplicitArg st <= Z.of_nat (length fargs))%Z) as H.
  { induction ds as [|d ds IH]; intros st0 Hb Hl; simpl in Hl.
    - injection Hl as <-. exact Hb.
    - destruct (step h format fargs st0 d) as [st1| |] eqn:Hs; try discriminate.
      apply (IH st1); [|exact Hl]. exact (step_counter _ _ _ _ _ _ Hs Hb). }
  intros Hl. apply (H initState); [simpl; lia | exact Hl].
Qed.

Lemma implicit_counter_in_bounds_witness :
  (0 <= 2 <= Z.of_nat (length [Leaf (VInt 1); Leaf (VInt 2)]))%Z.
Proof.
  apply (implicit_counter_in_bounds (heapOf []) (str "%[2]s %[1]s %s")
           [Leaf (VInt 1); Leaf (VInt 2)] (parseDirectives (str "%[2]s %[1]s %s"))
           (mkState (str "%s %s %s") [0; 1; 0] [VInt 2; VInt 1]
              (<[1%Z := 0]> (<[0%Z := 1]> ∅)) ∅ 14 2%Z)).
  vm_compute. reflexivity.
Defined.

(** ** Every argument of the explicit path is used *)

Lemma flat_map_slot {A B} (f : A -> list B) (l : list A) (j : nat) :
  j < length (flat_map f l) ->
  exists pre x post j',
    l = pre ++ x :: post /\ j = length (flat_map f pre) + j' /\ j' < length (f x).
Proof.
  revert j. induction l as [|a l IH]; intros j Hj; simpl in Hj; [lia|].
  rewrite length_app in Hj. destruct (decide (j < length (f a))) as [Hlt|Hge].
  - exists [], a, l, j. simpl. auto.
  - destruct (IH (j - length (f a))) as (pre & x & post & j' & -> & Hjj & Hj'); [lia|].
    exists (a :: pre), x, post, j'. simpl. rewrite length_app. repeat split; [lia | exact Hj'].
Qed.

Lemma keyAt_ref (fargs : list Arg) (i : Z) (p : Ptr) : keyAt fargs i = KRef p -> Ref p ∈ fargs.
Proof.
  unfold keyAt. destruct (fargs !! Z.to_nat i) as [[v|q]|] eqn:E; try discriminate.
  intros H. injection H as ->. eapply list_elem_of_lookup_2. exact E.
Qed.

(** X7. On the explicit path no argument of the result is left without
    a placeholder: every slot of the returned arguments occurs in the
    returned index list, provided that holds of every nested query
    among the arguments (its normalized index list mentions every one
    of its own arguments). *)
Theorem explicit_arguments_all_referenced (h : Heap) (format : gostring) (fargs : list Arg)
    (r : Query) :
  needsExplicitPath h format fargs = true ->
  Sprintf h format fargs = Ok r ->
  (forall p j, Ref p ∈ fargs -> j < length (args (h p)) -> j ∈ normIndices (h p)) ->
  forall j, j < length (Query_Args r) -> j ∈ indexList r.
Proof.
  intros Hpath Hs Hcov j Hj. unfold Sprintf in Hs. rewrite Hpath in Hs.
  destruct (sprintfExplicit_result h format fargs r Hs) as (_ & _ & Ha & Hi).
  unfold Query_Args in Hj. rewrite Ha in Hj. rewrite Hi.
  set (ks := placeholderKeys format fargs) in *.
  destruct (flat_map_slot _ _ _ Hj) as (pre & k & post & j' & Hl & Hjj & Hj').
  assert (k ∈ ks) as Hk.
  { apply elem_of_firstRefs. rewrite Hl. apply elem_of_app. right. left. }
  assert (offsetOf h fargs ks k = length (flat_map (contrib h fargs) pre)) as Hoff.
  { unfold offsetOf. rewrite Hl, before_fresh; [reflexivity|].
    pose proof (NoDup_firstRefs ks) as Hnd. rewrite Hl in Hnd.
    apply NoDup_app in Hnd. destruct Hnd as (_ & Hdis & _).
    intros Hin. apply (Hdis k Hin). left. }
  apply list_elem_of_In, in_flat_map. exists k. split; [apply list_elem_of_In; exact Hk|].
  apply list_elem_of_In. rewrite Hoff, Hjj. destruct k as [i|p]; simpl in *.
  - destruct (fargs !! Z.to_nat i) as [[v|q]|]; simpl in Hj'; try lia.
    replace j' with 0 by lia. rewrite Nat.add_0_r. left.
  - apply list_elem_of_fmap. exists j'. split; [reflexivity|].
    apply Hcov; [|exact Hj']. unfold ks, placeholderKeys in Hk.
    apply list_elem_of_fmap in Hk. destruct Hk as (i & Hi' & _).
    apply (keyAt_ref fargs i). symmetry. exact Hi'.
Qed.

Lemma explicit_arguments_all_referenced_witness :
  1 ∈ indexList (mkQuery (str "a = %s AND (x = %s OR y = %s)")
                   [VString "v"; VInt 1] (Some [0; 1; 1])).
Proof.
  apply (explicit_arguments_all_referenced
           (heapOf [mkQuery (str "(x = %s OR y = %s)") [VInt 1] (Some [0; 0])])
           (str "a = %s AND %s") [Leaf (VString "v"); Ref 0]).
  - vm_compute. reflexivity.
  - vm_compute. reflexivity.
  - intros p j Hp Hj.
    apply elem_of_cons in Hp. destruct Hp as [Hp|Hp]; [discriminate|].
    apply list_elem_of_singleton in Hp. injection Hp as ->.
    simpl in Hj. replace j with 0 by lia. simpl. left.
  - simpl. lia.
Defined.

(** ** [Join] of joins *)

Lemma sliceOf_proper (fm : gostring) (a : list Value) (l : list nat) :
  properIndices (mkQuery fm a (sliceOf l)).
Proof. unfold properIndices. destruct l; simpl; congruence. Qed.

Lemma Join_proper (qs : list Query) (sep : gostring) : properIndices (Join qs sep).
Proof.
  unfold properIndices. destruct (Join_closed_form qs sep) as (_ & _ & ->).
  destruct (existsb hasArgIndices qs); [|congruence].
  destruct (mergedIndices qs); simpl; congruence.
Qed.

Lemma Sprintf_proper (h : Heap) (format : gostring) (fargs : list Arg) (r : Query) :
  Sprintf h format fargs = Ok r -> properIndices r.
Proof.
  unfold Sprintf, sprintfExplicit. destruct (needsExplicitPath h format fargs).
  - destruct (loop h format fargs (parseDirectives format) initState); try discriminate.
    intros H. injection H as <-. apply sliceOf_proper.
  - destruct (fmtSprintf _ _); [|discriminate]. intros H. injection H as <-.
    unfold properIndices. simpl. congruence.
Qed.

Lemma joinLoop_app (b : bool) (xs ys : list Query) (off : nat) :
  joinLoop b (xs ++ ys) off =
  (fst (fst (joinLoop b xs off)) ++ fst (fst (joinLoop b ys (off + length (concat (map args xs))))),
   snd (fst (joinLoop b xs off)) ++ snd (fst (joinLoop b ys (off + length (concat (map args xs))))),
   snd (joinLoop b xs off) ++ snd (joinLoop b ys (off + length (concat (map args xs))))).
Proof.
  revert off. induction xs as [|x xs IH]; intros off.
  - simpl. rewrite Nat.add_0_r. destruct (joinLoop b ys off) as [[f a] ai]. reflexivity.
  - simpl. rewrite IH, length_app.
    replace (off + length (args x) + length (concat (map args xs)))
      with (off + (length (args x) + length (concat (map args xs)))) by lia.
    destruct (joinLoop b xs (off + length (args x))) as [[f a] ai].
    destruct (joinLoop b ys _) as [[f' a'] ai']. simpl.
    rewrite <- !app_assoc. reflexivity.
Qed.

Lemma joinLoop_cons_indices (q : Query) (rest : list Query) (off : nat) :
  snd (joinLoop true (q :: rest) off) =
  map (fun x => off + x) (normIndices q) ++ snd (joinLoop true rest (off + length (args q))).
Proof.
  simpl. destruct (joinLoop true rest (off + length (args q))) as [[f a] ai]. simpl.
  unfold normIndices. destruct (argIndices q); reflexivity.
Qed.

Lemma joinLoop_shift (qs : list Query) (off k : nat) :
  snd (joinLoop true qs (off + k)) = map (fun x => off + x) (snd (joinLoop true qs k)).
Proof.
  revert k. induction qs as [|q qs IH]; intros k; [reflexivity|].
  rewrite !joinLoop_cons_indices, map_app, map_map. f_equal.
  - apply map_ext. intros x. lia.
  - rewrite <- IH. rewrite Nat.add_assoc. reflexivity.
Qed.

Lemma joinLoop_legacy (qs : list Query) (off : nat) :
  existsb hasArgIndices qs = false ->
  snd (joinLoop true qs off) = seq off (length (concat (map args qs))).
Proof.
  revert off. induction qs as [|q qs IH]; intros off Hno; [reflexivity|].
  simpl in Hno. apply orb_false_elim in Hno. destruct Hno as [Hq Hqs].
  rewrite joinLoop_cons_indices, (IH _ Hqs). simpl. rewrite length_app, seq_app. f_equal.
  unfold normIndices, hasArgIndices in *. destruct (argIndices q); [discriminate|].
  change (Nat.add off <$> seq 0 (length (args q)) = seq off (length (args q))).
  rewrite fmap_add_seq, Nat.add_0_r. reflexivity.
Qed.

Lemma joinLoop_nonempty (qs : list Query) (off : nat) :
  Forall properIndices qs -> existsb hasArgIndices qs = true ->
  snd (joinLoop true qs off) <> [].
Proof.
  intros Hwf. revert off. induction Hwf as [|q qs Hq _ IH]; intros off Hex; [discriminate|].
  rewrite joinLoop_cons_indices. simpl in Hex. intros Hnil. apply app_eq_nil in Hnil.
  destruct Hnil as [Hm Hrest]. apply map_eq_nil in Hm.
  destruct (hasArgIndices q) eqn:Hh.
  - unfold hasArgIndices, normIndices, properIndices in *.
    destruct (argIndices q); [subst; congruence | discriminate].
  - simpl in Hex. exact (IH _ Hex Hrest).
Qed.

(** The index list of a join, normalized, is what the loop collects. *)
Lemma Join_normIndices (qs : list Query) (sep : gostring) :
  Forall properIndices qs ->
  normIndices (Join qs sep) = snd (joinLoop true qs 0)
  /\ hasArgIndices (Join qs sep) = existsb hasArgIndices qs.
Proof.
  intros Hwf.
  destruct (Join_closed_form qs sep) as (_ & Ha & Hi). unfold Query_Args in Ha.
  assert (mergedIndices qs = snd (joinLoop true qs 0)) as Hm
    by (rewrite joinLoop_indices_true; reflexivity).
  unfold normIndices, hasArgIndices at 1. rewrite Hi, Ha, Hm.
  destruct (existsb hasArgIndices qs) eqn:Hex.
  - pose proof (joinLoop_nonempty qs 0 Hwf Hex) as Hne.
    destruct (snd (joinLoop true qs 0)); [congruence|]. split; reflexivity.
  - rewrite (joinLoop_legacy qs 0 Hex). split; reflexivity.
Qed.

Lemma stringsJoin_cons (x y : gostring) (l : list gostring) (sep : gostring) :
  stringsJoin (x :: y :: l) sep = x ++ sep ++ stringsJoin (y :: l) sep.
Proof. reflexivity. Qed.

Lemma stringsJoin_app (a b : list gostring) (sep : gostring) :
  a <> [] -> b <> [] ->
  stringsJoin (a ++ b) sep = stringsJoin a sep ++ sep ++ stringsJoin b sep.
Proof.
  intros Ha Hb. induction a as [|x a IH]; [congruence|].
  destruct a as [|y a].
  - destruct b as [|z b]; [congruence|]. reflexivity.
  - change ((x :: y :: a) ++ b) with (x :: y :: (a ++ b)).
    rewrite !stringsJoin_cons. change (y :: a ++ b) with ((y :: a) ++ b).
    rewrite IH by discriminate. rewrite <- !app_assoc. reflexivity.
Qed.

Lemma stringsJoin_nested (a b c : list gostring) (sep : gostring) :
  b <> [] ->
  stringsJoin (a ++ stringsJoin b sep :: c) sep = stringsJoin (a ++ b ++ c) sep.
Proof.
  intros Hb.
  assert (stringsJoin (stringsJoin b sep :: c) sep = stringsJoin (b ++ c) sep) as Hbc.
  { destruct c as [|z c]; [rewrite app_nil_r; reflexivity|].
    rewrite stringsJoin_app by (assumption || discriminate).
    rewrite stringsJoin_cons. reflexivity. }
  destruct a as [|x a]; [exact Hbc|].
  rewrite (stringsJoin_app (x :: a) (stringsJoin b sep :: c)) by discriminate.
  rewrite (stringsJoin_app (x :: a) (b ++ c)); [|discriminate|].
  - rewrite Hbc. reflexivity.
  - destruct b; [congruence | discriminate].
Qed.

(** X8. [Join] flattens: joining with the same separator a list one of
    whose elements is itself the join of a non-empty list gives the
    same query as joining the flattened list, when the inner queries
    carry either no index list or a non-empty one. *)
Theorem Join_flattens (xs ys zs : list Query) (sep : gostring) :
  ys <> [] ->
  Forall properIndices ys ->
  Join (xs ++ Join ys sep :: zs) sep = Join (xs ++ ys ++ zs) sep.
Proof.
  intros Hne Hwf.
  destruct (Join_normIndices ys sep Hwf) as [Hnorm Hhas].
  destruct (Join_closed_form ys sep) as (Hfmt & Hargs & _). unfold Query_Args in Hargs.
  assert (existsb hasArgIndices (xs ++ Join ys sep :: zs)
          = existsb hasArgIndices (xs ++ ys ++ zs)) as Hex.
  { rewrite !existsb_app. simpl. rewrite Hhas. reflexivity. }
  change (map (fun q : Query => args q) ys) with (map args ys) in Hargs.
  unfold Join at 1 3. rewrite Hex.
  set (b := existsb hasArgIndices (xs ++ ys ++ zs)).
  rewrite (joinLoop_app b xs (Join ys sep :: zs)), (joinLoop_app b xs (ys ++ zs)).
  change (Join ys sep :: zs) with ([Join ys sep] ++ zs).
  rewrite (joinLoop_app b [Join ys sep] zs), (joinLoop_app b ys zs).
  change (concat (map args [Join ys sep])) with (args (Join ys sep) ++ []).
  rewrite app_nil_r, Hargs.
  rewrite !joinLoop_fmt, !joinLoop_args.
  set (o1 := 0 + length (concat (map args xs))).
  assert (snd (joinLoop b [Join ys sep] o1) = snd (joinLoop b ys o1)) as Hi.
  { destruct b.
    - rewrite joinLoop_cons_indices. simpl. rewrite app_nil_r, Hnorm.
      rewrite <- joinLoop_shift, Nat.add_0_r. reflexivity.
    - rewrite !joinLoop_indices_false. reflexivity. }
  rewrite Hi. cbn [fst snd]. simpl map.
  change (concat [args (Join ys sep)]) with (args (Join ys sep) ++ []).
  rewrite app_nil_r, Hargs, Hfmt.
  change ([stringsJoin (map fmt ys) (str " " ++ sep ++ str " ")] ++ map fmt zs)
    with (stringsJoin (map fmt ys) (str " " ++ sep ++ str " ") :: map fmt zs).
  rewrite (stringsJoin_nested (map fmt xs) (map fmt ys) (map fmt zs)); [reflexivity|].
  destruct ys; [congruence | discriminate].
Qed.

Lemma Join_flattens_witness :
  Join ([mkQuery (str "a = %s") [VInt 1] None]
          ++ Join [mkQuery (str "b = %s") [VInt 2] None;
                   mkQuery (str "c = %s OR d = %s") [VInt 3] (Some [0; 0])] (str "AND")
          :: []) (str "AND")
  = Join ([mkQuery (str "a = %s") [VInt 1] None]
          ++ [mkQuery (str "b = %s") [VInt 2] None;
              mkQuery (str "c = %s OR d = %s") [VInt 3] (Some [0; 0])] ++ []) (str "AND").
Proof.
  apply (Join_flattens [mkQuery (str "a = %s") [VInt 1] None]
           [mkQuery (str "b = %s") [VInt 2] None;
            mkQuery (str "c = %s OR d = %s") [VInt 3] (Some [0; 0])] [] (str "AND")).
  - discriminate.
  - repeat constructor; unfold properIndices; simpl; congruence.
Defined.

(** X9. Joining a single query gives that query back, whatever the
    separator, when its index list is nil or non-empty. *)
Theorem Join_of_one (q : Query) (sep : gostring) :
  properIndices q -> Join [q] sep = q.
Proof.
  intros Hwf. unfold Join. cbn [existsb joinLoop]. rewrite orb_false_r.
  unfold hasArgIndices, properIndices in *. destruct q as [f a ai]. simpl in *.
  rewrite app_nil_r. destruct ai as [l|]; simpl; [|reflexivity].
  rewrite app_nil_r. rewrite (map_ext _ id) by reflexivity. rewrite map_id.
  destruct l; [congruence | reflexivity].
Qed.

Lemma Join_of_one_witness :
  Join [mkQuery (str "c = %s OR d = %s") [VInt 3] (Some [0; 0])] (str "AND")
  = mkQuery (str "c = %s OR d = %s") [VInt 3] (Some [0; 0]).
Proof.
  apply (Join_of_one (mkQuery (str "c = %s OR d = %s") [VInt 3] (Some [0; 0])) (str "AND")).
  unfold properIndices. simpl. congruence.
Defined.

(** ** Rendering a join *)

Lemma Query_Query_norm (q : Query) (binder : BindVar) :
  Query_Query q binder = fmtSprintf (fmt q) (map binder (normIndices q)).
Proof. unfold Query_Query, normIndices. destruct (argIndices q); reflexivity. Qed.

Lemma shaped_pieces (qs : list Query) :
  Forall (fun q => exists f, shaped q f) qs -> exists fs, Forall2 shaped qs fs.
Proof.
  induction 1 as [|q qs [f Hf] _ [fs Hfs]]; [exists []; constructor|].
  exists (f :: fs). constructor; assumption.
Qed.

Lemma joinPieces_cons (f g : list piece) (fs : list (list piece)) (sep : gostring) :
  joinPieces (f :: g :: fs) sep = f ++ PText sep :: joinPieces (g :: fs) sep.
Proof. reflexivity. Qed.

Lemma renderShifted_cons (binder : BindVar) (off : nat) (q : Query) (qs : list Query) :
  renderShifted binder off (q :: qs) =
  default [] (Query_Query q (fun x => binder (off + x)))
  :: renderShifted binder (off + length (args q)) qs.
Proof. reflexivity. Qed.

Lemma joinPieces_spec (binder : BindVar) (sep : gostring) (qs : list Query)
    (fs : list (list piece)) (off : nat) :
  existsb isPercent sep = false ->
  Forall2 shaped qs fs ->
  flat (joinPieces fs sep) = stringsJoin (map fmt qs) sep
  /\ forallb okPiece (joinPieces fs sep) = true
  /\ holes (joinPieces fs sep) = length (snd (joinLoop true qs off))
  /\ render (joinPieces fs sep) (map binder (snd (joinLoop true qs off))) =
     stringsJoin (renderShifted binder off qs) sep.
Proof.
  intros Hsep HF. revert off. induction HF as [|q f qs fs Hq HF IH]; intros off.
  - repeat split.
  - assert (render f (map binder (map (fun x => off + x) (normIndices q))) =
            default [] (Query_Query q (fun x => binder (off + x)))) as Hr.
    { rewrite (Query_Query_shaped q f _ Hq), map_map. reflexivity. }
    destruct Hq as (Hf & Hok & Hh & _).
    rewrite joinLoop_cons_indices.
    destruct HF as [|q' f' qs' fs' Hq' HF'].
    + simpl. rewrite !app_nil_r, length_map. repeat split; try assumption. symmetry. exact Hf.
    + specialize (IH (off + length (args q))).
      destruct IH as (IHf & IHok & IHh & IHr).
      rewrite joinPieces_cons, renderShifted_cons.
      change (map fmt (q :: q' :: qs')) with (fmt q :: fmt q' :: map fmt qs').
      rewrite !stringsJoin_cons. repeat split.
      * rewrite flat_app. change (flat (PText sep :: ?l)) with (sep ++ flat l).
        rewrite IHf, Hf. reflexivity.
      * rewrite forallb_app, Hok. cbn [forallb okPiece andb]. rewrite Hsep. exact IHok.
      * rewrite holes_app, holes_cons, IHh, length_app, length_map, Hh. simpl. reflexivity.
      * rewrite map_app, render_app by (rewrite !length_map; exact Hh).
        cbn [render]. rewrite IHr, Hr. reflexivity.
Qed.

(** X10. Rendering a join is joining the renderings: for a separator
    without marker and inputs whose templates are given piece by piece
    with one index entry per placeholder, [Query.Query] on the join gives
    what each input renders to on its own, every slot number of an
    input shifted by the number of arguments of the inputs before it,
    with the separator between single spaces in between. *)
Theorem Join_renders_joined (qs : list Query) (sep : gostring) (binder : BindVar) :
  existsb isPercent sep = false ->
  Forall (fun q => exists f, shaped q f) qs ->
  Query_Query (Join qs sep) binder =
  Some (stringsJoin (renderShifted binder 0 qs) (str " " ++ sep ++ str " ")).
Proof.
  intros Hsep Hqs. destruct (shaped_pieces qs Hqs) as [fs HF].
  assert (Forall properIndices qs) as Hwf.
  { eapply Forall_impl; [exact Hqs|]. intros q (f & _ & _ & _ & Hp). exact Hp. }
  assert (existsb isPercent (str " " ++ sep ++ str " ") = false) as Hsep'.
  { rewrite !existsb_app, Hsep. reflexivity. }
  destruct (joinPieces_spec binder _ qs fs 0 Hsep' HF) as (Hf & Hok & Hh & Hr).
  destruct (Join_normIndices qs sep Hwf) as [Hn _].
  destruct (Join_closed_form qs sep) as (Hfmt & _).
  rewrite Query_Query_norm, Hn, Hfmt, <- Hf, <- Hr.
  apply fmtSprintf_flat; [exact Hok|]. rewrite length_map. exact Hh.
Qed.

Lemma Join_renders_joined_witness :
  Query_Query (Join [mkQuery (str "a = %s") [VInt 1] None;
                     mkQuery (str "c = %s OR d = %s") [VInt 3] (Some [0; 0])] (str "AND"))
    PostgresBindVar =
  Some (stringsJoin (renderShifted PostgresBindVar 0
                       [mkQuery (str "a = %s") [VInt 1] None;
                        mkQuery (str "c = %s OR d = %s") [VInt 3] (Some [0; 0])])
          (str " " ++ str "AND" ++ str " ")).
Proof.
  apply (Join_renders_joined
           [mkQuery (str "a = %s") [VInt 1] None;
            mkQuery (str "c = %s OR d = %s") [VInt 3] (Some [0; 0])] (str "AND") PostgresBindVar).
  - reflexivity.
  - constructor; [|constructor; [|constructor]].
    + exists [PText (str "a = "); PHole "s"%char].
      split; [reflexivity|]. split; [reflexivity|]. split; [reflexivity|]. discriminate.
    + exists [PText (str "c = "); PHole "s"%char; PText (str " OR d = "); PHole "s"%char].
      split; [reflexivity|]. split; [reflexivity|]. split; [reflexivity|]. discriminate.
Defined.

(** ** The identity path with any number of arguments *)

Lemma doVerb_missing (a : list gostring) (n : nat) (r : bool) (v : ascii) (rest : gostring) :
  simpleVerb v = true ->
  a !! n = None ->
  doVerb a (mkPp n r true) (v :: rest) =
  VNext (str "%!" ++ v :: str "(MISSING)") (mkPp n r true) rest.
Proof.
  intros Hv Hx. unfold simpleVerb in Hv.
  apply andb_true_iff in Hv. destruct Hv as [Hv H128].
  apply andb_true_iff in Hv. destruct Hv as [Hv Hsp].
  rewrite (doVerb_plain a _ v rest Hv). unfold doVerbByte.
  apply Nat.ltb_lt in H128. rewrite (proj2 (Nat.leb_gt _ _)) by exact H128.
  rewrite (plainVerb_not_percent v Hv). cbn [argNum goodArgNum negb].
  rewrite Hx. reflexivity.
Qed.

Lemma doPrintf_flat_any (ps : list piece) (fuel : nat) (a : list gostring)
    (n : nat) (r g : bool) (rest out : gostring) :
  forallb okPiece ps = true ->
  n <= length a ->
  doPrintf fuel a (mkPp (Nat.min (n + holes ps) (length a)) r true) rest = Some out ->
  doPrintf (length (flat ps) + fuel) a (mkPp n r g) (flat ps ++ rest) =
  Some (renderAny ps (drop n a) ++ out).
Proof.
  revert n g. induction ps as [|p ps IH]; intros n g Hok Hn H.
  - simpl. change (holes []) with 0 in H. rewrite Nat.add_0_r, Nat.min_l in H by exact Hn.
    rewrite (doPrintf_good fuel a n r g true). exact H.
  - simpl in Hok. apply andb_true_iff in Hok. destruct Hok as [Hp Hps].
    rewrite holes_cons in H.
    change (flat (p :: ps)) with (flatPiece p ++ flat ps).
    rewrite <- app_assoc, length_app, <- Nat.add_assoc.
    destruct p as [t| |v].
    + change (flatPiece (PText t)) with t. simpl in Hp. apply negb_true_iff in Hp.
      simpl in H. cbn [renderAny]. rewrite <- app_assoc.
      apply doPrintf_plain_text; [exact Hp|]. apply IH; assumption.
    + simpl in H. cbn [renderAny].
      change (flatPiece PLit ++ flat ps ++ rest) with ("%"%char :: "%"%char :: flat ps ++ rest).
      change (length (flatPiece PLit) + (length (flat ps) + fuel))
        with (S (1 + (length (flat ps) + fuel))).
      rewrite doPrintf_marker, doVerb_percent. simpl argNum. simpl reordered.
      rewrite (doPrintf_mono _ 1 _ _ _ _ (IH n true Hps Hn H)). reflexivity.
    + simpl in Hp. simpl isHole in H. cbn iota in H.
      change (flatPiece (PHole v) ++ flat ps ++ rest) with ("%"%char :: v :: flat ps ++ rest).
      change (length (flatPiece (PHole v)) + (length (flat ps) + fuel))
        with (S (1 + (length (flat ps) + fuel))).
      rewrite doPrintf_marker. simpl argNum. simpl reordered.
      destruct (a !! n) as [x|] eqn:Hx.
      * assert (n < length a) as Hlt by (apply lookup_lt_is_Some_1; eauto).
        rewrite (drop_S _ _ _ Hx). cbn [renderAny].
        rewrite (doVerb_hole a n r v _ x Hp Hx).
        replace (n + (1 + holes ps)) with (S n + holes ps) in H by lia.
        rewrite (doPrintf_mono _ 1 _ _ _ _ (IH (S n) true Hps ltac:(lia) H)).
        simpl. rewrite <- app_assoc. reflexivity.
      * assert (length a <= n) as Hge by (apply lookup_ge_None_1; exact Hx).
        rewrite (drop_ge a n) in * by exact Hge. cbn [renderAny].
        rewrite (doVerb_missing a n r v _ Hp Hx).
        assert (Nat.min (n + (1 + holes ps)) (length a) = Nat.min (n + holes ps) (length a)) as E
          by lia.
        rewrite E in H. specialize (IH n true Hps Hn H).
        rewrite (drop_ge a n) in IH by exact Hge.
        rewrite (doPrintf_mono _ 1 _ _ _ _ IH).
        simpl. rewrite <- ?app_assoc. reflexivity.
Qed.

(** [fmt.Sprintf] on a template given piece by piece, whatever the number
    of operands. *)
Lemma fmtSprintf_flat_any (ps : list piece) (a : list gostring) :
  forallb okPiece ps = true ->
  fmtSprintf (flat ps) a =
  Some (renderAny ps a ++ extraArgs a (mkPp (Nat.min (holes ps) (length a)) false true)).
Proof.
  intros Hok. unfold fmtSprintf.
  pose proof (doPrintf_flat_any ps 1 a 0 false true [] _ Hok ltac:(lia) (doPrintf_nil 0 a _)) as H.
  rewrite !app_nil_r in H. replace (S (length (flat ps))) with (length (flat ps) + 1) by lia.
  exact H.
Qed.

(** X11. On the identity path a wrong number of arguments is no error.
    For a template of marker-free text, literal percents and plain
    directives, whatever the arguments: [Sprintf] returns a query that
    holds all the arguments (a nested query bringing its own); its
    template has, for every placeholder, the text of its argument (the
    template of a nested query, [%s] for a leaf), for a placeholder
    without argument the error text of package [fmt] for a missing
    operand, and at the end that for the operands left over. *)
Theorem identity_path_any_arguments (h : Heap) (ps : list piece) (fargs : list Arg) :
  forallb okPiece ps = true ->
  needsExplicitPath h (flat ps) fargs = false ->
  Sprintf h (flat ps) fargs =
  Ok (mkQuery
        (renderAny (doubleLits ps) (operandTexts h fargs)
         ++ extraArgs (operandTexts h fargs)
              (mkPp (Nat.min (holes ps) (length fargs)) false true))
        (flat_map (argValues h) fargs) None).
Proof.
  intros Hok Hpath. unfold Sprintf. rewrite Hpath.
  rewrite (doublePercents_flat ps Hok).
  change (map (fun arg => match arg with Ref q => fmt (h q) | Leaf _ => str "%s" end) fargs)
    with (operandTexts h fargs).
  rewrite (fmtSprintf_flat_any (doubleLits ps)) by (apply okPiece_doubleLits; exact Hok).
  rewrite holes_doubleLits. unfold operandTexts at 3. rewrite length_map. reflexivity.
Qed.

Lemma identity_path_any_arguments_witness :
  Sprintf (heapOf []) (flat [PText (str "a = "); PHole "s"%char; PText (str " AND b = "); PHole "d"%char])
    [Leaf (VInt 1)] =
  Ok (mkQuery
        (renderAny (doubleLits [PText (str "a = "); PHole "s"%char; PText (str " AND b = "); PHole "d"%char])
           (operandTexts (heapOf []) [Leaf (VInt 1)])
         ++ extraArgs (operandTexts (heapOf []) [Leaf (VInt 1)])
              (mkPp (Nat.min (holes [PText (str "a = "); PHole "s"%char; PText (str " AND b = ");
                                     PHole "d"%char]) (length [Leaf (VInt 1)])) false true))
        (flat_map (argValues (heapOf [])) [Leaf (VInt 1)]) None).
Proof.
  apply (identity_path_any_arguments (heapOf [])
           [PText (str "a = "); PHole "s"%char; PText (str " AND b = "); PHole "d"%char]
           [Leaf (VInt 1)]); vm_compute; reflexivity.
Defined.

(** ** The explicit path on templates given piece by piece *)

Section ComposePieces.

Variable h : Heap.
Variable format : gostring.
Variable fargs : list Arg.

Lemma composeText_text (t rest : gostring) (fuel i : nat) (cur : Z) :
  existsb isPercent t = false ->
  drop i format = t ++ rest ->
  composeText h format fargs (scan (length t + fuel) i (t ++ rest)) i cur =
  t ++ composeText h format fargs (scan fuel (i + length t) rest) (i + length t) cur.
Proof.
  revert i. induction t as [|c t IH]; intros i Ht Hd.
  - simpl. rewrite Nat.add_0_r. reflexivity.
  - simpl in Ht. apply orb_false_iff in Ht. destruct Ht as [Hc Ht].
    change (length (c :: t) + fuel) with (S (length t + fuel)).
    change ((c :: t) ++ rest) with (c :: (t ++ rest)).
    rewrite scan_text by exact Hc.
    rewrite (composeText_skip h format fargs _ i cur c (t ++ rest) Hd).
    + replace (i + length (c :: t)) with (S i + length t) by (simpl; lia).
      rewrite IH; [reflexivity | exact Ht|].
      replace (S i) with (i + length [c]) by (simpl; lia). apply drop_app_suffix. exact Hd.
    + intros d Hin. apply scan_bounds in Hin. lia.
Qed.

Lemma composeText_flat (ps : list piece) (rest : gostring) (fuel i : nat) (cur : Z) :
  forallb okPiece ps = true ->
  length rest < fuel ->
  drop i format = flat ps ++ rest ->
  composeText h format fargs (scan (length (flat ps) + fuel) i (flat ps ++ rest)) i cur =
  render (doubleLits ps)
    (map (fun j => replacement h (keyAt fargs (cur + Z.of_nat j)%Z)) (seq 0 (holes ps)))
  ++ composeText h format fargs (scan fuel (i + length (flat ps)) rest)
       (i + length (flat ps)) (cur + Z.of_nat (holes ps))%Z.
Proof.
  revert i cur. induction ps as [|p ps IH]; intros i cur Hok Hfuel Hd.
  - simpl. rewrite Nat.add_0_r, Z.add_0_r. reflexivity.
  - simpl in Hok. apply andb_true_iff in Hok. destruct Hok as [Hp Hps].
    change (flat (p :: ps)) with (flatPiece p ++ flat ps) in *.
    rewrite <- app_assoc in *. rewrite length_app.
    rewrite <- (Nat.add_assoc (length (flatPiece p)) (length (flat ps)) fuel).
    rewrite (Nat.add_assoc i (length (flatPiece p)) (length (flat ps))).
    rewrite holes_cons.
    assert (drop (i + length (flatPiece p)) format = flat ps ++ rest) as Hd'
      by (apply drop_app_suffix; exact Hd).
    specialize (IH (i + length (flatPiece p))).
    destruct p as [t| |v].
    + change (flatPiece (PText t)) with t in *. simpl in Hp. apply negb_true_iff in Hp.
      rewrite (composeText_text t (flat ps ++ rest) _ i cur Hp Hd).
      rewrite (IH cur Hps Hfuel Hd'). cbn [doubleLits flat_map app render isHole].
      rewrite <- app_assoc. reflexivity.
    + change (flatPiece PLit) with ["%"%char; "%"%char] in *.
      change (length ["%"%char; "%"%char] + (length (flat ps) + fuel))
        with (S (S (length (flat ps) + fuel))).
      cbn [app]. rewrite scan_percent.
      rewrite (scan_fuel (S (length (flat ps) + fuel)) (length (flat ps) + fuel))
        by (rewrite length_app; lia).
      cbn [composeText isLiteral d_start d_end]. unfold slice at 1.
      rewrite Nat.sub_diag, take_0, app_nil_l.
      change (i + length ["%"%char; "%"%char]) with (i + 2) in *.
      rewrite (IH cur Hps Hfuel Hd'). reflexivity.
    + change (flatPiece (PHole v)) with ["%"%char; v] in *. simpl in Hp.
      pose proof (simpleVerb_plain v Hp) as Hv.
      change (length ["%"%char; v] + (length (flat ps) + fuel))
        with (S (S (length (flat ps) + fuel))).
      cbn [app].
      rewrite (scan_directive _ i v (flat ps ++ rest) false 0%Z v (flat ps ++ rest)
                 (plainVerb_not_percent v Hv) (parseDecor_plain v _ Hv)).
      replace (i + 1 + (length (v :: flat ps ++ rest) - length (flat ps ++ rest)))
        with (i + 2) by (simpl length; lia).
      rewrite (scan_fuel (S (length (flat ps) + fuel)) (length (flat ps) + fuel))
        by (rewrite length_app; lia).
      cbn [composeText isLiteral d_start d_end]. unfold slice at 1.
      rewrite Nat.sub_diag, take_0, app_nil_l.
      unfold resolve. cbn [hasIndex fst snd].
      change (i + length ["%"%char; v]) with (i + 2) in *.
      rewrite (IH (cur + 1)%Z Hps Hfuel Hd').
      cbn [isHole]. change (1 + holes ps) with (S (holes ps)).
      cbn [seq map doubleLits flat_map app render]. rewrite Z.add_0_r, <- app_assoc.
      f_equal. f_equal.
      * f_equal. rewrite <- seq_shift, map_map. apply map_ext. intros j.
        do 2 f_equal. lia.
      * f_equal. lia.
Qed.

End ComposePieces.

(** ** One argument for every placeholder, in order *)

Lemma keyAt_middle (pre suf : list Arg) (arg : Arg) :
  keyAt (pre ++ arg :: suf) (Z.of_nat (length pre)) =
  match arg with Leaf _ => KLeaf (Z.of_nat (length pre)) | Ref p => KRef p end.
Proof.
  unfold keyAt. rewrite Nat2Z.id, list_lookup_middle by reflexivity. destruct arg; reflexivity.
Qed.

Lemma keysFrom_cons (j : nat) (arg : Arg) (rest : list Arg) :
  keysFrom j (arg :: rest) =
  match arg with Leaf _ => KLeaf (Z.of_nat j) | Ref p => KRef p end :: keysFrom (S j) rest.
Proof. destruct arg; reflexivity. Qed.

Lemma keys_of_args (pre suf : list Arg) :
  map (keyAt (pre ++ suf)) (map (fun j => (0 + Z.of_nat j)%Z) (seq (length pre) (length suf))) =
  keysFrom (length pre) suf.
Proof.
  revert pre. induction suf as [|arg suf IH]; intros pre; [reflexivity|].
  cbn [length seq map]. rewrite Z.add_0_l, keyAt_middle, keysFrom_cons. f_equal.
  specialize (IH (pre ++ [arg])). rewrite <- app_assoc, length_app in IH. cbn [app length] in IH.
  rewrite Nat.add_1_r in IH. exact IH.
Qed.

Lemma contrib_middle (h : Heap) (pre suf : list Arg) (arg : Arg) :
  contrib h (pre ++ arg :: suf)
    (match arg with Leaf _ => KLeaf (Z.of_nat (length pre)) | Ref p => KRef p end) =
  args (asQuery h arg).
Proof.
  destruct arg as [v|p]; [|reflexivity]. unfold contrib.
  rewrite Nat2Z.id, list_lookup_middle by reflexivity. reflexivity.
Qed.

Lemma contrib_keys (h : Heap) (pre suf : list Arg) :
  flat_map (contrib h (pre ++ suf)) (keysFrom (length pre) suf) =
  concat (map args (map (asQuery h) suf)).
Proof.
  revert pre. induction suf as [|arg suf IH]; intros pre; [reflexivity|].
  rewrite keysFrom_cons. cbn [flat_map map concat]. rewrite contrib_middle. f_equal.
  specialize (IH (pre ++ [arg])). rewrite <- app_assoc, length_app in IH. cbn [app length] in IH.
  rewrite Nat.add_1_r in IH. exact IH.
Qed.

Lemma replacement_keys (h : Heap) (j : nat) (fargs : list Arg) :
  map (replacement h) (keysFrom j fargs) = operandTexts h fargs.
Proof.
  revert j. induction fargs as [|arg fargs IH]; intros j; [reflexivity|].
  rewrite keysFrom_cons. cbn [map operandTexts]. unfold operandTexts in IH. rewrite IH.
  destruct arg; reflexivity.
Qed.

Lemma block_key (h : Heap) (off j : nat) (arg : Arg) :
  block h off (match arg with Leaf _ => KLeaf (Z.of_nat j) | Ref p => KRef p end) =
  map (fun x => off + x) (normIndices (asQuery h arg)).
Proof. destruct arg as [v|p]; [simpl; rewrite Nat.add_0_r|]; reflexivity. Qed.

Lemma keysFrom_leaf (z : Z) (j : nat) (fargs : list Arg) :
  KLeaf z ∈ keysFrom j fargs -> (Z.of_nat j <= z)%Z.
Proof.
  revert j. induction fargs as [|arg fargs IH]; intros j Hin; [inversion Hin|].
  rewrite keysFrom_cons in Hin. apply elem_of_cons in Hin. destruct Hin as [Heq|Hin].
  - destruct arg; [injection Heq as ->; lia | discriminate].
  - apply IH in Hin. lia.
Qed.

Lemma keysFrom_ref (p : Ptr) (j : nat) (fargs : list Arg) :
  KRef p ∈ keysFrom j fargs -> p ∈ refs fargs.
Proof.
  revert j. induction fargs as [|arg fargs IH]; intros j Hin; [inversion Hin|].
  rewrite keysFrom_cons in Hin. apply elem_of_cons in Hin. unfold refs. cbn [flat_map].
  apply elem_of_app. destruct Hin as [Heq|Hin].
  - left. destruct arg; [discriminate | injection Heq as ->; left].
  - right. exact (IH _ Hin).
Qed.

Lemma NoDup_keysFrom (j : nat) (fargs : list Arg) :
  NoDup (refs fargs) -> NoDup (keysFrom j fargs).
Proof.
  revert j. induction fargs as [|arg fargs IH]; intros j Hnd; [constructor|].
  rewrite keysFrom_cons. unfold refs in Hnd. cbn [flat_map] in Hnd.
  apply NoDup_app in Hnd. destruct Hnd as (_ & Hdis & Hnd).
  constructor; [|exact (IH _ Hnd)].
  destruct arg as [v|p]; intros Hin.
  - apply keysFrom_leaf in Hin. lia.
  - apply keysFrom_ref in Hin. apply (Hdis p); [left | exact Hin].
Qed.

Lemma firstRefs_NoDup (ks : list key) : NoDup ks -> firstRefs ks = ks.
Proof.
  induction ks as [|k ks IH] using rev_ind; intros Hnd; [reflexivity|].
  apply NoDup_app in Hnd. destruct Hnd as (Hks & Hdis & _).
  rewrite firstRefs_snoc, (IH Hks). rewrite decide_False; [reflexivity|].
  intros Hin. apply (Hdis k Hin). left.
Qed.

Lemma blocks_joinLoop (h : Heap) (fargs pre suf : list Arg) (kpre : list key) :
  fargs = pre ++ suf ->
  NoDup (kpre ++ keysFrom (length pre) suf) ->
  flat_map (fun k => block h (offsetOf h fargs (kpre ++ keysFrom (length pre) suf) k) k)
    (keysFrom (length pre) suf) =
  snd (joinLoop true (map (asQuery h) suf) (length (flat_map (contrib h fargs) kpre))).
Proof.
  revert pre kpre. induction suf as [|arg suf IH]; intros pre kpre Hf Hnd; [reflexivity|].
  rewrite keysFrom_cons in *. set (k := match arg with Leaf _ => _ | Ref p => _ end) in *.
  cbn [flat_map map]. rewrite joinLoop_cons_indices.
  assert (offsetOf h fargs (kpre ++ k :: keysFrom (S (length pre)) suf) k =
          length (flat_map (contrib h fargs) kpre)) as Hoff.
  { unfold offsetOf. rewrite (firstRefs_NoDup _ Hnd), before_fresh; [reflexivity|].
    apply NoDup_app in Hnd. destruct Hnd as (_ & Hdis & _).
    intros Hin. apply (Hdis k Hin). left. }
  rewrite Hoff. unfold k at 1. rewrite block_key. f_equal.
  specialize (IH (pre ++ [arg]) (kpre ++ [k])).
  rewrite <- !app_assoc, length_app in IH. cbn [app length] in IH. rewrite Nat.add_1_r in IH.
  rewrite IH by assumption. f_equal.
  rewrite flat_map_app, length_app. cbn [flat_map]. rewrite app_nil_r. f_equal.
  unfold k. rewrite Hf, contrib_middle. reflexivity.
Qed.

(** With an operand for every hole nothing is reported missing. *)
Lemma render_enough (ps : list piece) (a : list gostring) :
  holes ps = length a -> renderAny ps a = render ps a.
Proof.
  revert a. induction ps as [|p ps IH]; intros a H; [reflexivity|].
  rewrite holes_cons in H. destruct p as [t| |v]; simpl in *.
  - rewrite IH by exact H. reflexivity.
  - rewrite IH by exact H. reflexivity.
  - destruct a as [|x a]; [discriminate|]. simpl in H. rewrite IH by lia. reflexivity.
Qed.

Lemma needsExplicitPath_pieces (h : Heap) (ps : list piece) (fargs : list Arg) :
  forallb okPiece ps = true ->
  needsExplicitPath h (flat ps) fargs = existsb hasArgIndices (map (asQuery h) fargs).
Proof.
  intros Hok. unfold needsExplicitPath. rewrite (flat_explicit_free ps Hok), orb_false_r.
  induction fargs as [|arg fargs IH]; [reflexivity|]. simpl. rewrite IH.
  destruct arg; reflexivity.
Qed.

(** What [Sprintf] returns for a template given piece by piece with one
    argument for every placeholder. *)
Lemma Sprintf_pieces (h : Heap) (ps : list piece) (fargs : list Arg) :
  forallb okPiece ps = true ->
  holes ps = length fargs ->
  exists r,
    Sprintf h (flat ps) fargs = Ok r
    /\ fmt r = render (doubleLits ps) (operandTexts h fargs)
    /\ (NoDup (refs fargs) ->
        args r = concat (map args (map (asQuery h) fargs))
        /\ argIndices r =
           if existsb hasArgIndices (map (asQuery h) fargs)
           then sliceOf (snd (joinLoop true (map (asQuery h) fargs) 0)) else None).
Proof.
  intros Hok Hn.
  pose proof (needsExplicitPath_pieces h ps fargs Hok) as Hpath.
  destruct (existsb hasArgIndices (map (asQuery h) fargs)) eqn:Hex.
  - assert (resolveAll (parseDirectives (flat ps)) 0%Z =
            map (fun j => (0 + Z.of_nat j)%Z) (seq 0 (length fargs))) as Hres.
    { rewrite (resolveAll_implicit _ 0%Z (existsb_false_Forall _ _ (flat_explicit_free ps Hok))).
      change (countPlaceholders (parseDirectives (flat ps))) with (placeholders (flat ps)).
      rewrite (countsAs_total _ _ (flat_counts ps Hok)), Hn. reflexivity. }
    assert (placeholderKeys (flat ps) fargs = keysFrom 0 fargs) as Hks.
    { unfold placeholderKeys. rewrite Hres. exact (keys_of_args [] fargs). }
    eexists. split.
    { unfold Sprintf. rewrite Hpath. apply sprintfExplicit_ok.
      rewrite Hres. apply forallb_inRange_seq. lia. }
    cbn [fmt args argIndices]. split.
    + unfold parseDirectives.
      pose proof (composeText_flat h (flat ps) fargs ps [] 1 0 0%Z Hok ltac:(simpl; lia)) as Hc.
      rewrite app_nil_r, Nat.add_1_r in Hc. rewrite Hc by reflexivity.
      rewrite scan_nil. cbn [composeText]. unfold sliceFrom.
      rewrite Nat.add_0_l, drop_all, app_nil_r.
      rewrite Hn. f_equal.
      pose proof (keys_of_args [] fargs) as Hk. cbn [app length] in Hk.
      rewrite <- (replacement_keys h 0 fargs), <- Hk, !map_map. reflexivity.
    + intros Hnd. rewrite Hks.
      pose proof (NoDup_keysFrom 0 fargs Hnd) as Hndk.
      rewrite (firstRefs_NoDup _ Hndk). split.
      * exact (contrib_keys h [] fargs).
      * f_equal. exact (blocks_joinLoop h fargs [] fargs [] eq_refl Hndk).
  - eexists. split.
    { unfold Sprintf. rewrite Hpath, (doublePercents_flat ps Hok).
      rewrite (fmtSprintf_flat (doubleLits ps)); [reflexivity | apply okPiece_doubleLits; exact Hok|].
      rewrite holes_doubleLits, length_map. exact Hn. }
    cbn [fmt args argIndices]. split; [reflexivity|]. intros _. split; [|reflexivity].
    clear. induction fargs as [|arg fargs IH]; [reflexivity|].
    cbn [flat_map map concat]. rewrite IH. destruct arg; reflexivity.
Qed.

Lemma holes_joined {A} (l : list A) (sep : gostring) :
  existsb isPercent sep = false ->
  flat (joinPieces (map (fun _ => [PHole "s"%char]) l) sep) =
    stringsJoin (map (fun _ => str "%s") l) sep
  /\ forallb okPiece (joinPieces (map (fun _ => [PHole "s"%char]) l) sep) = true
  /\ holes (joinPieces (map (fun _ => [PHole "s"%char]) l) sep) = length l
  /\ forall ops, length ops = length l ->
       render (doubleLits (joinPieces (map (fun _ => [PHole "s"%char]) l) sep)) ops =
       stringsJoin ops sep.
Proof.
  intros Hsep. induction l as [|x l IH].
  - repeat split. intros ops Hops. destruct ops; [reflexivity | discriminate].
  - destruct IH as (IHf & IHok & IHh & IHr). destruct l as [|y l].
    + repeat split. intros ops Hops. destruct ops as [|o [|o' ops]]; try discriminate.
      simpl. rewrite app_nil_r. reflexivity.
    + cbn [map] in *. rewrite joinPieces_cons, stringsJoin_cons. repeat split.
      * rewrite flat_app. change (flat (PText sep :: ?l)) with (sep ++ flat l).
        rewrite IHf. reflexivity.
      * cbn [app forallb okPiece]. rewrite Hsep. exact IHok.
      * rewrite holes_app, (holes_cons (PText sep)), IHh. reflexivity.
      * intros ops Hops. destruct ops as [|o [|o' ops]]; try discriminate.
        rewrite stringsJoin_cons. cbn [app doubleLits flat_map render].
        change (flat_map (fun p => match p with PLit => [PLit; PLit] | _ => [p] end) ?l)
          with (doubleLits l).
        rewrite IHr by (simpl in *; lia). reflexivity.
Qed.

(** X12. The template [Sprintf] builds, on either path, from a format of
    marker-free text, literal percents and plain directives with one
    argument for every placeholder: the text is kept, a literal percent
    stays doubled, and every placeholder is replaced by the template of
    its nested query or by [%s] for a leaf. *)
Theorem template_of_composition (h : Heap) (ps : list piece) (fargs : list Arg) :
  forallb okPiece ps = true ->
  holes ps = length fargs ->
  exists r, Sprintf h (flat ps) fargs = Ok r
    /\ fmt r = render (doubleLits ps) (operandTexts h fargs).
Proof.
  intros Hok Hn. destruct (Sprintf_pieces h ps fargs Hok Hn) as (r & Hr & Hf & _).
  exists r. split; assumption.
Qed.

Lemma template_of_composition_witness :
  exists r,
    Sprintf (heapOf [mkQuery (str "x = %s") [VInt 1] (Some [0])])
      (flat [PHole "s"%char; PText (str " AND 100"); PLit; PText (str " = "); PHole "d"%char;
             PText (str " OR "); PHole "v"%char])
      [Ref 0; Leaf (VInt 2); Ref 0] = Ok r
    /\ fmt r =
       render (doubleLits [PHole "s"%char; PText (str " AND 100"); PLit; PText (str " = ");
                           PHole "d"%char; PText (str " OR "); PHole "v"%char])
         (operandTexts (heapOf [mkQuery (str "x = %s") [VInt 1] (Some [0])])
            [Ref 0; Leaf (VInt 2); Ref 0]).
Proof.
  apply (template_of_composition (heapOf [mkQuery (str "x = %s") [VInt 1] (Some [0])])
           [PHole "s"%char; PText (str " AND 100"); PLit; PText (str " = "); PHole "d"%char;
            PText (str " OR "); PHole "v"%char]
           [Ref 0; Leaf (VInt 2); Ref 0]); reflexivity.
Defined.

(** X13. With one argument for every placeholder and no nested query
    passed twice, [Sprintf] merges arguments and index lists the way
    [Join] does: the result has the arguments and the index list of the
    join of its arguments, a leaf counting as the query of one
    placeholder and one argument. *)
Theorem Sprintf_merges_like_Join (h : Heap) (ps : list piece) (fargs : list Arg) :
  forallb okPiece ps = true ->
  holes ps = length fargs ->
  NoDup (refs fargs) ->
  exists r, Sprintf h (flat ps) fargs = Ok r
    /\ forall sep,
         Query_Args r = Query_Args (Join (map (asQuery h) fargs) sep)
         /\ argIndices r = argIndices (Join (map (asQuery h) fargs) sep).
Proof.
  intros Hok Hn Hnd. destruct (Sprintf_pieces h ps fargs Hok Hn) as (r & Hr & _ & Hai).
  destruct (Hai Hnd) as [Ha Hi]. exists r. split; [exact Hr|]. intros sep.
  destruct (Join_closed_form (map (asQuery h) fargs) sep) as (_ & Ha' & Hi').
  rewrite Ha', Hi', Hi. unfold Query_Args. split; [exact Ha|].
  rewrite joinLoop_indices_true. reflexivity.
Qed.

Lemma Sprintf_merges_like_Join_witness :
  exists r,
    Sprintf (heapOf [mkQuery (str "x = %s OR y = %s") [VInt 1] (Some [0; 0])])
      (flat [PText (str "a = "); PHole "s"%char; PText (str " AND ("); PHole "s"%char;
             PText (str ")")])
      [Leaf (VInt 2); Ref 0] = Ok r
    /\ forall sep,
         Query_Args r =
         Query_Args (Join (map (asQuery (heapOf [mkQuery (str "x = %s OR y = %s") [VInt 1]
                                                   (Some [0; 0])]))
                             [Leaf (VInt 2); Ref 0]) sep)
         /\ argIndices r =
            argIndices (Join (map (asQuery (heapOf [mkQuery (str "x = %s OR y = %s") [VInt 1]
                                                      (Some [0; 0])]))
                                [Leaf (VInt 2); Ref 0]) sep).
Proof.
  apply (Sprintf_merges_like_Join
           (heapOf [mkQuery (str "x = %s OR y = %s") [VInt 1] (Some [0; 0])])
           [PText (str "a = "); PHole "s"%char; PText (str " AND ("); PHole "s"%char;
            PText (str ")")]
           [Leaf (VInt 2); Ref 0]); [reflexivity | reflexivity |].
  simpl. apply NoDup_singleton.
Defined.

Lemma refs_map_Ref (ptrs : list Ptr) : refs (map Ref ptrs) = ptrs.
Proof. induction ptrs as [|p ptrs IH]; [reflexivity|]. unfold refs in *. simpl. f_equal. exact IH. Qed.

Lemma asQuery_map_Ref (h : Heap) (ptrs : list Ptr) : map (asQuery h) (map Ref ptrs) = map h ptrs.
Proof. rewrite map_map. reflexivity. Qed.

(** X14. [Join] is [Sprintf] on the template of as many [%s] as there are
    queries with the separator between single spaces in between, when
    no query is passed twice and the separator holds no marker. *)
Theorem Join_is_Sprintf (h : Heap) (ptrs : list Ptr) (sep : gostring) :
  NoDup ptrs ->
  existsb isPercent sep = false ->
  Sprintf h (stringsJoin (map (fun _ => str "%s") ptrs) (str " " ++ sep ++ str " "))
    (map Ref ptrs) =
  Ok (Join (map h ptrs) sep).
Proof.
  intros Hnd Hsep.
  assert (existsb isPercent (str " " ++ sep ++ str " ") = false) as Hsep'.
  { rewrite !existsb_app, Hsep. reflexivity. }
  destruct (holes_joined ptrs _ Hsep') as (Hf & Hok & Hh & Hrender).
  rewrite <- Hf.
  destruct (Sprintf_pieces h _ (map Ref ptrs) Hok) as (r & Hr & Hfmt & Hai).
  { rewrite Hh, length_map. reflexivity. }
  rewrite refs_map_Ref, asQuery_map_Ref in Hai. destruct (Hai Hnd) as [Ha Hi].
  rewrite Hr. f_equal.
  destruct (Join_closed_form (map h ptrs) sep) as (Hf' & Ha' & Hi').
  unfold Query_Args in Ha'.
  rewrite Hrender in Hfmt by (unfold operandTexts; rewrite !length_map; reflexivity).
  assert (operandTexts h (map Ref ptrs) = map fmt (map h ptrs)) as Hops.
  { unfold operandTexts. rewrite !map_map. reflexivity. }
  rewrite Hops in Hfmt. rewrite joinLoop_indices_true in Hi.
  destruct r as [f a ai]. destruct (Join (map h ptrs) sep) as [f' a' ai'].
  simpl in *. subst. reflexivity.
Qed.

Lemma Join_is_Sprintf_witness :
  Sprintf (heapOf [mkQuery (str "a = %s") [VInt 1] None;
                   mkQuery (str "c = %s OR d = %s") [VInt 3] (Some [0; 0])])
    (stringsJoin (map (fun _ => str "%s") [0; 1]) (str " " ++ str "AND" ++ str " "))
    (map Ref [0; 1]) =
  Ok (Join (map (heapOf [mkQuery (str "a = %s") [VInt 1] None;
                         mkQuery (str "c = %s OR d = %s") [VInt 3] (Some [0; 0])]) [0; 1])
        (str "AND")).
Proof.
  apply (Join_is_Sprintf
           (heapOf [mkQuery (str "a = %s") [VInt 1] None;
                    mkQuery (str "c = %s OR d = %s") [VInt 3] (Some [0; 0])])
           [0; 1] (str "AND")); [|reflexivity].
  apply NoDup_cons. split; [|apply NoDup_singleton].
  intros H. apply list_elem_of_singleton in H. discriminate.
Defined.

(** X15. Wrapping changes nothing: [Sprintf] on a format that is a single
    plain directive, applied to one nested query, returns that query
    (when its index list is nil or non-empty). *)
Theorem Sprintf_of_one_query (h : Heap) (v : ascii) (p : Ptr) :
  simpleVerb v = true ->
  properIndices (h p) ->
  Sprintf h ["%"%char; v] [Ref p] = Ok (h p).
Proof.
  intros Hv Hwf.
  destruct (Sprintf_pieces h [PHole v] [Ref p]) as (r & Hr & Hf & Hai).
  { simpl. rewrite Hv. reflexivity. }
  { reflexivity. }
  change (flat [PHole v]) with ["%"%char; v] in Hr. rewrite Hr. f_equal.
  destruct Hai as [Ha Hi]; [apply NoDup_singleton|].
  cbn [map asQuery existsb concat] in Ha, Hi. rewrite orb_false_r in Hi.
  rewrite joinLoop_cons_indices in Hi. cbn [joinLoop snd] in Hi.
  rewrite !app_nil_r in *. simpl in Hf. rewrite app_nil_r in Hf.
  rewrite (map_ext _ id) in Hi by reflexivity. rewrite map_id in Hi.
  unfold properIndices, hasArgIndices, normIndices in *.
  destruct r as [f a ai]. destruct (h p) as [f' a' ai']. simpl in *. subst. f_equal.
  destruct ai' as [[|x l]|]; [congruence | reflexivity | reflexivity].
Qed.

Lemma Sprintf_of_one_query_witness :
  Sprintf (heapOf [mkQuery (str "c = %s OR d = %s") [VInt 3] (Some [0; 0])])
    ["%"%char; "v"%char] [Ref 0] =
  Ok (heapOf [mkQuery (str "c = %s OR d = %s") [VInt 3] (Some [0; 0])] 0).
Proof.
  apply (Sprintf_of_one_query (heapOf [mkQuery (str "c = %s OR d = %s") [VInt 3] (Some [0; 0])])
           "v"%char 0); [reflexivity|].
  unfold properIndices. simpl. congruence.
Defined.

(** X16. [Query.Query] follows the index list: for a query whose template
    is given piece by piece with one index entry per placeholder, the
    rendering keeps the text, prints one percent for a literal percent,
    and at the i-th placeholder the bind variable of the slot that the
    i-th entry of the index list names (the slot i when the query has
    no index list). *)
Theorem rendering_follows_index_list (q : Query) (f : list piece) (binder : BindVar) :
  shaped q f ->
  Query_Query q binder = Some (render f (map binder (normIndices q))).
Proof. exact (Query_Query_shaped q f binder). Qed.

Lemma rendering_follows_index_list_witness :
  Query_Query (mkQuery (str "a = %s AND b = %s OR 100%% = %s") [VInt 1; VInt 2] (Some [1; 0; 1]))
    PostgresBindVar =
  Some (render [PText (str "a = "); PHole "s"%char; PText (str " AND b = "); PHole "s"%char;
                PText (str " OR 100"); PLit; PText (str " = "); PHole "s"%char]
          (map PostgresBindVar
             (normIndices (mkQuery (str "a = %s AND b = %s OR 100%% = %s") [VInt 1; VInt 2]
                             (Some [1; 0; 1]))))).
Proof.
  apply (rendering_follows_index_list
           (mkQuery (str "a = %s AND b = %s OR 100%% = %s") [VInt 1; VInt 2] (Some [1; 0; 1]))
           [PText (str "a = "); PHole "s"%char; PText (str " AND b = "); PHole "s"%char;
            PText (str " OR 100"); PLit; PText (str " = "); PHole "s"%char]).
  split; [reflexivity|]. split; [reflexivity|]. split; [reflexivity|]. discriminate.
Defined.

(** X17. Text without any marker passes through unchanged: the scanner
    finds no directive in it, [Sprintf] without arguments returns it as
    the template of a query without arguments, and it renders to
    itself. *)
Theorem plain_text_passes_through (h : Heap) (t : gostring) (binder : BindVar) :
  existsb isPercent t = false ->
  Sprintf h t [] = Ok (mkQuery t [] None)
  /\ Query_Query (mkQuery t [] None) binder = Some t
  /\ parseDirectives t = [].
Proof.
  intros Ht.
  assert (forallb okPiece [PText t] = true) as Hok by (simpl; rewrite Ht; reflexivity).
  assert (flat [PText t] = t) as Hflat by apply app_nil_r.
  split; [|split].
  - pose proof (identity_path_spec h [PText t] [] [] Hok eq_refl ltac:(constructor)) as (Hs & _).
    rewrite Hflat in Hs. simpl in Hs. rewrite app_nil_r in Hs. exact Hs.
  - unfold Query_Query. cbn [argIndices fmt args length seq map].
    pose proof (fmtSprintf_flat [PText t] [] Hok eq_refl) as Hq.
    rewrite Hflat in Hq. simpl in Hq. rewrite app_nil_r in Hq. exact Hq.
  - destruct (parseDirectives t) as [|d ds] eqn:E; [reflexivity|]. exfalso.
    assert (d ∈ parseDirectives t) as Hin by (rewrite E; left).
    apply scan_elem in Hin. destruct Hin as (pre & s' & Hs & _).
    rewrite Hs, existsb_app in Ht. simpl in Ht. rewrite orb_true_r in Ht. discriminate.
Qed.

Lemma plain_text_passes_through_witness :
  Sprintf (heapOf []) (str "SELECT 1") [] = Ok (mkQuery (str "SELECT 1") [] None)
  /\ Query_Query (mkQuery (str "SELECT 1") [] None) PostgresBindVar = Some (str "SELECT 1")
  /\ parseDirectives (str "SELECT 1") = [].
Proof.
  apply (plain_text_passes_through (heapOf []) (str "SELECT 1") PostgresBindVar). reflexivity.
Defined.
(** ** Printing an index and reading it back *)

Lemma digits_of_uint (d : Decimal.uint) :
  forallb isDigit (str (NilEmpty.string_of_uint d)) = true.
Proof. induction d; simpl; try exact IHd; reflexivity. Qed.

Lemma of_uint_acc_value (d : Decimal.uint) (acc : positive) :
  N.pos (Pos.of_uint_acc d acc) =
  (N.pos acc * 10 ^ N.of_nat (length (str (NilEmpty.string_of_uint d))) + Pos.of_uint d)%N.
Proof.
  unfold str. revert acc. induction d; intros acc;
    try (cbn [Pos.of_uint_acc Pos.of_uint NilEmpty.string_of_uint list_ascii_of_string length];
         rewrite Nat2N.inj_succ, N.pow_succ_r', IHd, ?(IHd 1%positive), ?(IHd 2%positive),
           ?(IHd 3%positive), ?(IHd 4%positive), ?(IHd 5%positive), ?(IHd 6%positive),
           ?(IHd 7%positive), ?(IHd 8%positive), ?(IHd 9%positive);
         generalize (10 ^ N.of_nat (length (list_ascii_of_string (NilEmpty.string_of_uint d))))%N;
         intros P; lia).
  simpl. lia.
Qed.

Lemma decimal_of_uint (d : Decimal.uint) (acc : Z) :
  fold_left (fun acc c => (10 * acc + digitVal c)%Z) (str (NilEmpty.string_of_uint d)) acc =
  (acc * 10 ^ Z.of_nat (length (str (NilEmpty.string_of_uint d))) + Z.of_N (Pos.of_uint d))%Z.
Proof.
  pose proof of_uint_acc_value as Hacc.
  unfold str in *. revert acc. induction d; intros acc;
    try (cbn [Pos.of_uint NilEmpty.string_of_uint list_ascii_of_string length fold_left];
         rewrite IHd, Nat2Z.inj_succ, Z.pow_succ_r by lia;
         rewrite ?Hacc, ?N2Z.inj_add, ?N2Z.inj_mul, ?N2Z.inj_pow, ?nat_N_Z;
         change (Z.of_N 10) with 10%Z;
         match goal with |- context [digitVal ?c] =>
           let v := eval vm_compute in (digitVal c) in change (digitVal c) with v end;
         generalize (10 ^ Z.of_nat (length (list_ascii_of_string (NilEmpty.string_of_uint d))))%Z;
         intros P; lia).
  simpl. lia.
Qed.

Lemma itoa_digits (z : Z) : (0 <= z)%Z -> itoa z <> [] /\ forallb isDigit (itoa z) = true.
Proof.
  intros Hz. unfold itoa. destruct z as [|p|p]; [split; [discriminate | reflexivity]| |lia].
  cbn [Z.to_int NilZero.string_of_int]. unfold NilZero.string_of_uint.
  destruct (Pos.to_uint p) eqn:E; try (split; [discriminate | apply digits_of_uint]).
  split; [discriminate | reflexivity].
Qed.

Lemma decimal_itoa (z : Z) : (0 <= z)%Z -> decimal (itoa z) = z.
Proof.
  intros Hz. unfold itoa, decimal. destruct z as [|p|p]; [reflexivity| |lia].
  cbn [Z.to_int NilZero.string_of_int]. unfold NilZero.string_of_uint.
  pose proof (DecimalPos.Unsigned.of_to p) as Hp.
  destruct (Pos.to_uint p) eqn:E; try (rewrite decimal_of_uint, Hp, Z.mul_0_l; reflexivity).
  discriminate Hp.
Qed.

Lemma Atoi_itoa (z : Z) : (0 <= z <= maxInt)%Z -> Atoi (itoa z) = z.
Proof. intros Hz. unfold Atoi. rewrite decimal_itoa by lia. lia. Qed.

Lemma decor_plain (v : ascii) (rest : gostring) :
  plainVerb v = true -> skipPrecision (skipWidth (dropWhile isFlag (v :: rest))) = v :: rest.
Proof.
  destruct v as [[] [] [] [] [] [] [] []]; intros H; try discriminate H; reflexivity.
Qed.

Lemma parseDirectives_indexed (n : Z) (v : ascii) :
  (0 <= n <= maxInt)%Z ->
  plainVerb v = true ->
  parseDirectives ("%"%char :: "["%char :: itoa n ++ ["]"%char; v]) =
  [mkDirective 0 (4 + length (itoa n)) true n false].
Proof.
  intros Hn Hv. destruct (itoa_digits n) as [Hne Hds]; [lia|].
  assert (parseDecor ("["%char :: itoa n ++ ["]"%char; v]) = (true, n, [v])) as Hd.
  { unfold parseDecor. change (itoa n ++ ["]"%char; v]) with (itoa n ++ "]"%char :: [v]).
    rewrite (parseIndex_digits (itoa n) [v] Hne Hds), (Atoi_itoa n Hn), (decor_plain v [] Hv).
    reflexivity. }
  unfold parseDirectives. cbn [length].
  rewrite (scan_directive _ 0 "["%char _ true n v [] eq_refl Hd), scan_nil.
  f_equal. f_equal. simpl. rewrite length_app. simpl. lia.
Qed.

(** X18. An explicit index is read back as written: for [n] within the
    range of an [int] and a plain verb, the scanner finds in the marker
    followed by the bracketed decimal numeral of [n] and the verb one
    directive, spanning all of it, whose index is [n]. *)
Theorem explicit_index_is_read_back (n : Z) (v : ascii) :
  (0 <= n <= maxInt)%Z ->
  plainVerb v = true ->
  parseDirectives ("%"%char :: "["%char :: itoa n ++ ["]"%char; v]) =
  [mkDirective 0 (4 + length (itoa n)) true n false].
Proof. exact (parseDirectives_indexed n v). Qed.

Lemma explicit_index_is_read_back_witness :
  parseDirectives ("%"%char :: "["%char :: itoa 12 ++ ["]"%char; "d"%char]) =
  [mkDirective 0 (4 + length (itoa 12)) true 12%Z false].
Proof.
  apply (explicit_index_is_read_back 12 "d"%char); [unfold maxInt; lia | reflexivity].
Defined.

(** X19. A format that is one directive with the explicit index [n]
    selects the [n]-th argument: when that is a leaf, the result has the
    template [%s], that leaf as its only argument, and the index list
    of the single slot 0; the other arguments are left out. *)
Theorem indexed_directive_selects_argument (h : Heap) (n : Z) (v : ascii) (fargs : list Arg)
    (x : Value) :
  (1 <= n <= maxInt)%Z ->
  plainVerb v = true ->
  fargs !! Z.to_nat (n - 1) = Some (Leaf x) ->
  Sprintf h ("%"%char :: "["%char :: itoa n ++ ["]"%char; v]) fargs =
  Ok (mkQuery (str "%s") [x] (Some [0])).
Proof.
  intros Hn Hv Hx.
  assert (Z.to_nat (n - 1) < length fargs) as Hlt by (apply lookup_lt_is_Some_1; eauto).
  pose proof (parseDirectives_indexed n v ltac:(lia) Hv) as Hp.
  set (format := "%"%char :: "["%char :: itoa n ++ ["]"%char; v]) in *.
  assert (length format = 4 + length (itoa n)) as Hlen.
  { unfold format. simpl. rewrite length_app. simpl. lia. }
  unfold Sprintf.
  assert (needsExplicitPath h format fargs = true) as ->.
  { unfold needsExplicitPath. rewrite Hp. simpl. apply orb_true_r. }
  rewrite sprintfExplicit_ok.
  2:{ rewrite Hp. cbn [resolveAll isLiteral resolve hasIndex index fst snd forallb].
      rewrite andb_true_r. unfold inRange. apply andb_true_intro.
      split; [apply Z.leb_le | apply Z.ltb_lt]; lia. }
  assert (keyAt fargs (n - 1) = KLeaf (n - 1)) as Hk by (unfold keyAt; rewrite Hx; reflexivity).
  unfold placeholderKeys. rewrite Hp.
  cbn [resolveAll isLiteral resolve hasIndex index fst snd map composeText d_start d_end].
  rewrite Hk. rewrite (firstRefs_NoDup [KLeaf (n - 1)%Z]) by apply NoDup_singleton.
  unfold offsetOf. rewrite (firstRefs_NoDup [KLeaf (n - 1)%Z]) by apply NoDup_singleton.
  cbn [flat_map before block replacement contrib]. rewrite decide_True by reflexivity.
  rewrite Hx. unfold slice, sliceFrom. rewrite Nat.sub_diag, take_0, <- Hlen, drop_all.
  reflexivity.
Qed.

Lemma indexed_directive_selects_argument_witness :
  Sprintf (heapOf []) ("%"%char :: "["%char :: itoa 2 ++ ["]"%char; "s"%char])
    [Leaf (VInt 7); Leaf (VInt 8); Leaf (VInt 9)] =
  Ok (mkQuery (str "%s") [VInt 8] (Some [0])).
Proof.
  apply (indexed_directive_selects_argument (heapOf []) 2 "s"%char
           [Leaf (VInt 7); Leaf (VInt 8); Leaf (VInt 9)] (VInt 8));
    [unfold maxInt; lia | reflexivity | reflexivity].
Defined.

(** ** Formats without a bracket *)

Lemma no_bracket_no_index (format : gostring) :
  existsb (fun c => Ascii.eqb c "["%char) format = false ->
  existsb hasIndex (parseDirectives format) = false.
Proof.
  intros Hno. destruct (existsb hasIndex (parseDirectives format)) eqn:E; [|reflexivity].
  exfalso. apply existsb_exists in E. destruct E as (d & Hin & Hd).
  apply list_elem_of_In, scan_elem in Hin.
  destruct Hin as (pre & s' & Hs & _ & [(s2 & _ & Heq) | (c1 & s2 & hi & ix & v & s4 & -> & _ & Hdec & Heq)]).
  - rewrite Heq in Hd. discriminate.
  - rewrite Heq in Hd. cbn [hasIndex] in Hd. subst hi.
    apply parseDecor_index in Hdec.
    destruct (parseIndex_cases (c1 :: s2)) as [Hc | (ds & r & Hc & _)].
    + rewrite Hc in Hdec. discriminate.
    + rewrite Hs, Hc, existsb_app in Hno. simpl in Hno. rewrite orb_true_r in Hno. discriminate.
Qed.

(** X20. Without an opening bracket in the format no directive carries
    an explicit index, so the explicit path is taken only if some
    argument is a nested query with an index list. *)
Theorem no_bracket_no_explicit_index (h : Heap) (format : gostring) (fargs : list Arg) :
  existsb (fun c => Ascii.eqb c "["%char) format = false ->
  existsb hasIndex (parseDirectives format) = false
  /\ needsExplicitPath h format fargs =
     existsb (fun arg => match arg with Ref p => hasArgIndices (h p) | Leaf _ => false end) fargs.
Proof.
  intros Hno. pose proof (no_bracket_no_index format Hno) as H. split; [exact H|].
  unfold needsExplicitPath. rewrite H. apply orb_false_r.
Qed.

Lemma no_bracket_no_explicit_index_witness :
  existsb hasIndex (parseDirectives (str "a = %5.2f AND b = %*d")) = false
  /\ needsExplicitPath (heapOf []) (str "a = %5.2f AND b = %*d") [Leaf (VInt 1)] =
     existsb (fun arg => match arg with
                         | Ref p => hasArgIndices (heapOf [] p)
                         | Leaf _ => false
                         end) [Leaf (VInt 1)].
Proof.
  apply (no_bracket_no_explicit_index (heapOf []) (str "a = %5.2f AND b = %*d") [Leaf (VInt 1)]).
  reflexivity.
Defined.

(** X21. [skipOptionalIndex] skips an opening bracket, a non-empty run of
    digits and a closing bracket at the start of the text, and leaves
    any other text as it is (in particular empty brackets). *)
Theorem skipOptionalIndex_skips_bracketed_digits (s : gostring) :
  (exists ds r, s = "["%char :: ds ++ "]"%char :: r /\ ds <> [] /\ forallb isDigit ds = true
                /\ skipOptionalIndex s = r)
  \/ ((forall ds r, ds <> [] -> forallb isDigit ds = true -> s <> "["%char :: ds ++ "]"%char :: r)
      /\ skipOptionalIndex s = s).
Proof.
  destruct (skipOptionalIndex_cases s) as [Hs | (ds & r & Hs & Hne & Hds & Hr)].
  - right. split; [|exact Hs]. intros ds r Hne Hds Heq.
    rewrite Heq, (skipOptionalIndex_digits ds r Hne Hds) in Hs.
    apply (f_equal (@length ascii)) in Hs. simpl in Hs. rewrite length_app in Hs. simpl in Hs. lia.
  - left. exists ds, r. repeat split; assumption.
Qed.

(** ** Leaves on the explicit path *)

(** X22. With only leaves as arguments, the explicit path returns no
    more arguments than it was given, and every returned argument is
    one of them. *)
Theorem explicit_path_keeps_referenced_leaves (h : Heap) (format : gostring) (fargs : list Arg)
    (r : Query) :
  needsExplicitPath h format fargs = true ->
  Sprintf h format fargs = Ok r ->
  Forall (fun arg => exists v, arg = Leaf v) fargs ->
  length (Query_Args r) <= length fargs
  /\ forall v, v ∈ Query_Args r -> Leaf v ∈ fargs.
Proof.
  intros Hpath Hs Hleaves. unfold Sprintf in Hs. rewrite Hpath in Hs.
  destruct (sprintfExplicit_result h format fargs r Hs) as (Hall & _ & Ha & _).
  unfold Query_Args. rewrite Ha. set (ks := placeholderKeys format fargs).
  assert (forall k, k ∈ firstRefs ks ->
            exists i v, k = KLeaf i /\ (0 <= i < Z.of_nat (length fargs))%Z
                        /\ fargs !! Z.to_nat i = Some (Leaf v)) as Hk.
  { intros k Hin. apply (proj1 (elem_of_firstRefs _ _)) in Hin.
    unfold ks, placeholderKeys in Hin.
    apply list_elem_of_fmap in Hin. destruct Hin as (i & -> & Hi).
    rewrite forallb_forall in Hall. specialize (Hall i (proj1 (list_elem_of_In _ _) Hi)).
    unfold inRange in Hall. apply andb_prop in Hall. destruct Hall as [H0 H1].
    apply Z.leb_le in H0. apply Z.ltb_lt in H1.
    destruct (lookup_lt_is_Some_2 fargs (Z.to_nat i)) as [arg Harg]; [lia|].
    rewrite Forall_forall in Hleaves.
    destruct (Hleaves arg (list_elem_of_lookup_2 _ _ _ Harg)) as [v ->].
    exists i, v. unfold keyAt. rewrite Harg. repeat split; try lia. }
  split.
  - assert (length (flat_map (contrib h fargs) (firstRefs ks)) = length (firstRefs ks)) as ->.
    { induction (firstRefs ks) as [|k l IH]; [reflexivity|]. simpl. rewrite length_app, IH.
      - destruct (Hk k) as (i & v & -> & _ & Hv); [left|]. simpl. rewrite Hv. reflexivity.
      - intros k' Hk'. apply Hk. right. exact Hk'. }
    set (pos := fun k => match k with KLeaf i => Z.to_nat i | KRef p => 0 end).
    assert (NoDup (pos <$> firstRefs ks)) as Hnd.
    { apply NoDup_fmap_2_strong; [|apply NoDup_firstRefs].
      intros k1 k2 H1 H2 Heq.
      destruct (Hk k1 H1) as (i1 & v1 & -> & Hr1 & _).
      destruct (Hk k2 H2) as (i2 & v2 & -> & Hr2 & _). simpl in Heq. f_equal. lia. }
    assert (pos <$> firstRefs ks ⊆+ seq 0 (length fargs)) as Hsub.
    { apply NoDup_submseteq; [exact Hnd|]. intros x Hx.
      apply list_elem_of_fmap in Hx. destruct Hx as (k & -> & Hin).
      destruct (Hk k Hin) as (i & v & -> & Hr & _). simpl.
      apply list_elem_of_In, in_seq. lia. }
    apply submseteq_length in Hsub. rewrite length_fmap, length_seq in Hsub. exact Hsub.
  - intros v Hv. apply list_elem_of_In, in_flat_map in Hv. destruct Hv as (k & Hin & Hv).
    destruct (Hk k (proj2 (list_elem_of_In _ _) Hin)) as (i & x & -> & _ & Hx).
    simpl in Hv. rewrite Hx in Hv. destruct Hv as [<-|[]].
    eapply list_elem_of_lookup_2. exact Hx.
Qed.

Lemma explicit_path_keeps_referenced_leaves_witness :
  length (Query_Args (mkQuery (str "%s = %s OR %s") [VInt 3; VInt 1] (Some [0; 1; 0])))
    <= length [Leaf (VInt 1); Leaf (VInt 2); Leaf (VInt 3)]
  /\ forall v, v ∈ Query_Args (mkQuery (str "%s = %s OR %s") [VInt 3; VInt 1] (Some [0; 1; 0])) ->
               Leaf v ∈ [Leaf (VInt 1); Leaf (VInt 2); Leaf (VInt 3)].
Proof.
  apply (explicit_path_keeps_referenced_leaves (heapOf []) (str "%[3]s = %[1]s OR %[3]s")
           [Leaf (VInt 1); Leaf (VInt 2); Leaf (VInt 3)]).
  - vm_compute. reflexivity.
  - vm_compute. reflexivity.
  - repeat constructor; eexists; reflexivity.
Defined.

(** ** The template of the explicit path *)

(** X23. The template of the explicit path: the text of the format
    between the directives is copied, a literal directive is written as
    a doubled marker, and every other directive, whatever its flags,
    width, precision and verb, is replaced by [%s] when it refers to a
    leaf and by the template of the nested query when it refers to
    one. *)
Theorem explicit_template_text (h : Heap) (format : gostring) (fargs : list Arg) (r : Query) :
  needsExplicitPath h format fargs = true ->
  Sprintf h format fargs = Ok r ->
  fmt r = composeText h format fargs (parseDirectives format) 0 0%Z.
Proof.
  intros Hpath Hs. unfold Sprintf in Hs. rewrite Hpath in Hs.
  apply (sprintfExplicit_result h format fargs r Hs).
Qed.

Lemma explicit_template_text_witness :
  fmt (mkQuery (str "a = %s, b = %s %% c = (x = %s)") [VInt 1; VInt 2] (Some [0; 0; 1])) =
  composeText (heapOf [mkQuery (str "x = %s") [VInt 2] None])
    (str "a = %[1]s, b = %[1]02d %% c = (%s)") [Leaf (VInt 1); Ref 0]
    (parseDirectives (str "a = %[1]s, b = %[1]02d %% c = (%s)")) 0 0%Z.
Proof.
  apply (explicit_template_text (heapOf [mkQuery (str "x = %s") [VInt 2] None])
           (str "a = %[1]s, b = %[1]02d %% c = (%s)") [Leaf (VInt 1); Ref 0]);
    vm_compute; reflexivity.
Defined.

(** ** One placeholder for every argument on the identity path *)

(** X24. The identity path keeps one placeholder for every argument: for
    a template given piece by piece whose placeholders are matched in
    order by leaves and by nested queries that carry no index list and
    have one placeholder per argument, the result carries no index
    list and its template holds as many non-literal placeholders as it
    has arguments. *)
Theorem identity_path_keeps_queries_regular (h : Heap) (ps : list piece) (fargs : list Arg)
    (fs : list (list piece)) :
  forallb okPiece ps = true ->
  holes ps = length fargs ->
  Forall2 (argPieces h) fargs fs ->
  exists q, Sprintf h (flat ps) fargs = Ok q
    /\ argIndices q = None
    /\ placeholders (fmt q) = length (Query_Args q)
    /\ regular q (splice ps fs).
Proof.
  intros Hok Hn HF. destruct (identity_path_spec h ps fargs fs Hok Hn HF) as (Hs & Hreg & _).
  eexists. split; [exact Hs|]. split; [reflexivity|]. split; [|exact Hreg].
  destruct Hreg as (_ & Hf & Hok' & Hh). rewrite Hf.
  rewrite (countsAs_total _ _ (flat_counts _ Hok')). exact Hh.
Qed.

Lemma identity_path_keeps_queries_regular_witness :
  exists q,
    Sprintf (heapOf [mkQuery (str "z = %s") [VInt 5] None])
      (flat [PText (str "a = "); PHole "d"%char; PText (str " AND ("); PHole "s"%char;
             PText (str ")")])
      [Leaf (VInt 1); Ref 0] = Ok q
    /\ argIndices q = None
    /\ placeholders (fmt q) = length (Query_Args q)
    /\ regular q (splice [PText (str "a = "); PHole "d"%char; PText (str " AND (");
                          PHole "s"%char; PText (str ")")]
                    [[PHole "s"%char]; [PText (str "z = "); PHole "s"%char]]).
Proof.
  apply (identity_path_keeps_queries_regular (heapOf [mkQuery (str "z = %s") [VInt 5] None])
           [PText (str "a = "); PHole "d"%char; PText (str " AND ("); PHole "s"%char;
            PText (str ")")]
           [Leaf (VInt 1); Ref 0]
           [[PHole "s"%char]; [PText (str "z = "); PHole "s"%char]]);
    [reflexivity | reflexivity |].
  constructor; [reflexivity|]. constructor; [|constructor].
  repeat split; reflexivity.
Defined.

(** ** Placeholders numbered in order *)

Lemma scan_plain_text (t rest : gostring) (fuel i : nat) :
  existsb isPercent t = false ->
  scan (length t + fuel) i (t ++ rest) = scan fuel (i + length t) rest.
Proof.
  intros Ht. revert i. induction t as [|c t IH]; intros i.
  - simpl. rewrite Nat.add_0_r. reflexivity.
  - simpl in Ht. apply orb_false_iff in Ht. destruct Ht as [Hc Ht].
    change (length (c :: t) + fuel) with (S (length t + fuel)).
    change ((c :: t) ++ rest) with (c :: (t ++ rest)).
    rewrite scan_text by exact Hc. rewrite (IH Ht).
    replace (S i + length t) with (i + length (c :: t)) by (simpl; lia). reflexivity.
Qed.

Section NumberedPieces.

Variable h : Heap.
Variable format : gostring.
Variable fargs : list Arg.

Lemma scan_flatIx (ps : list piece) (rest : gostring) (fuel i j : nat) :
  forallb okPiece ps = true ->
  length rest < fuel ->
  drop i format = flatIx j ps ++ rest ->
  (Z.of_nat (j + holes ps) <= maxInt)%Z ->
  composeText h format fargs (scan (length (flatIx j ps) + fuel) i (flatIx j ps ++ rest)) i
    (Z.of_nat j) =
    render (doubleLits ps)
      (map (fun k => replacement h (keyAt fargs (Z.of_nat (j + k)))) (seq 0 (holes ps)))
    ++ composeText h format fargs (scan fuel (i + length (flatIx j ps)) rest)
         (i + length (flatIx j ps)) (Z.of_nat (j + holes ps))
  /\ resolveAll (scan (length (flatIx j ps) + fuel) i (flatIx j ps ++ rest)) (Z.of_nat j) =
     map (fun k => Z.of_nat (j + k)) (seq 0 (holes ps))
     ++ resolveAll (scan fuel (i + length (flatIx j ps)) rest) (Z.of_nat (j + holes ps))
  /\ existsb hasIndex (scan (length (flatIx j ps) + fuel) i (flatIx j ps ++ rest)) =
     (0 <? holes ps) || existsb hasIndex (scan fuel (i + length (flatIx j ps)) rest).
Proof.
  revert i j. induction ps as [|p ps IH]; intros i j Hok Hfuel Hd Hmax.
  - simpl. rewrite !Nat.add_0_r. repeat split.
  - simpl in Hok. apply andb_true_iff in Hok. destruct Hok as [Hp Hps].
    rewrite holes_cons in *. destruct p as [t| |v].
    + cbn [flatIx isHole] in *. rewrite <- app_assoc in *.
      simpl in Hp. apply negb_true_iff in Hp.
      assert (drop (i + length t) format = flatIx j ps ++ rest) as Hd'
        by (apply drop_app_suffix; exact Hd).
      destruct (IH (i + length t) j Hps Hfuel Hd' Hmax) as (IHc & IHr & IHx).
      rewrite length_app, <- (Nat.add_assoc (length t)), (Nat.add_assoc i).
      rewrite (composeText_text h format fargs t (flatIx j ps ++ rest) _ i _ Hp Hd).
      rewrite (scan_plain_text t (flatIx j ps ++ rest) _ i Hp).
      rewrite IHc, IHr, IHx. cbn [doubleLits flat_map app render]. rewrite <- app_assoc.
      repeat split.
    + cbn [flatIx isHole] in *. change (str "%%") with ["%"%char; "%"%char] in *.
      cbn [app length] in *.
      assert (drop (i + 2) format = flatIx j ps ++ rest) as Hd'.
      { replace (i + 2) with (i + length ["%"%char; "%"%char]) by reflexivity.
        apply drop_app_suffix. exact Hd. }
      destruct (IH (i + 2) j Hps Hfuel Hd' Hmax) as (IHc & IHr & IHx).
      cbn [Nat.add]. rewrite scan_percent.
      rewrite (scan_fuel (S (length (flatIx j ps) + fuel)) (length (flatIx j ps) + fuel))
        by (rewrite length_app; lia).
      cbn [composeText resolveAll existsb isLiteral hasIndex d_start d_end]. unfold slice at 1.
      rewrite Nat.sub_diag, take_0, app_nil_l.
      replace (i + S (S (length (flatIx j ps)))) with (i + 2 + length (flatIx j ps)) by lia.
      rewrite IHc, IHr, IHx. repeat split.
    + cbn [flatIx isHole] in *. simpl in Hp. pose proof (simpleVerb_plain v Hp) as Hv.
      set (n := Z.of_nat (S j)) in *.
      destruct (itoa_digits n) as [Hne Hds]; [lia|].
      set (Y := flatIx (S j) ps ++ rest).
      assert (("%"%char :: "["%char :: itoa n ++ "]"%char :: v :: flatIx (S j) ps) ++ rest =
              "%"%char :: "["%char :: itoa n ++ "]"%char :: v :: Y) as Happ.
      { cbn [app]. rewrite <- app_assoc. reflexivity. }
      rewrite Happ in *.
      assert (parseDecor ("["%char :: itoa n ++ "]"%char :: v :: Y) = (true, n, v :: Y)) as Hdec.
      { unfold parseDecor.
        rewrite (parseIndex_digits (itoa n) (v :: Y) Hne Hds), (decor_plain v Y Hv).
        rewrite Atoi_itoa by lia. reflexivity. }
      assert (length ("%"%char :: "["%char :: itoa n ++ "]"%char :: v :: flatIx (S j) ps) =
              4 + length (itoa n) + length (flatIx (S j) ps)) as Hlen.
      { simpl. rewrite length_app. simpl. lia. }
      rewrite Hlen.
      assert (drop (i + (4 + length (itoa n))) format = Y) as Hd'.
      { replace (4 + length (itoa n))
          with (length ("%"%char :: "["%char :: itoa n ++ ["]"%char; v]))
          by (simpl; rewrite length_app; simpl; lia).
        apply drop_app_suffix. rewrite Hd. cbn [app]. rewrite <- app_assoc. reflexivity. }
      assert (Z.of_nat (S j + holes ps) <= maxInt)%Z as Hmax' by lia.
      destruct (IH (i + (4 + length (itoa n))) (S j) Hps Hfuel Hd' Hmax') as (IHc & IHr & IHx).
      change (4 + length (itoa n) + length (flatIx (S j) ps) + fuel)
        with (S (3 + length (itoa n) + length (flatIx (S j) ps) + fuel)).
      rewrite (scan_directive _ i "["%char _ true n v Y eq_refl Hdec).
      replace (i + 1 + (length ("["%char :: itoa n ++ "]"%char :: v :: Y) - length Y))
        with (i + (4 + length (itoa n)))
        by (simpl length; rewrite length_app; simpl length; lia).
      rewrite (scan_fuel (3 + length (itoa n) + length (flatIx (S j) ps) + fuel)
                 (length (flatIx (S j) ps) + fuel))
        by (unfold Y; rewrite length_app; lia).
      cbn [composeText resolveAll existsb isLiteral hasIndex d_start d_end]. unfold slice at 1.
      rewrite Nat.sub_diag, take_0, app_nil_l.
      unfold resolve. cbn [hasIndex index fst snd].
      replace (n - 1)%Z with (Z.of_nat j) by lia. fold Y.
      replace (i + (4 + length (itoa n) + length (flatIx (S j) ps)))
        with (i + (4 + length (itoa n)) + length (flatIx (S j) ps)) by lia.
      subst Y n. rewrite IHc, IHr.
      change (1 + holes ps) with (S (holes ps)).
      replace (j + S (holes ps)) with (S j + holes ps) by lia.
      cbn [seq map doubleLits flat_map app render orb Nat.ltb Nat.leb].
      rewrite Nat.add_0_r, <- app_assoc.
      assert (forall (A : Type) (f : nat -> A),
                map (fun k => f (j + k)) (seq 1 (holes ps)) =
                map (fun k => f (S j + k)) (seq 0 (holes ps))) as Hshift.
      { intros A f. rewrite <- seq_shift, map_map. apply map_ext. intros k. f_equal. lia. }
      rewrite (Hshift _ (fun m => replacement h (keyAt fargs (Z.of_nat m)))).
      rewrite (Hshift _ Z.of_nat). repeat split.
Qed.

End NumberedPieces.

(** The explicit path when the placeholders refer to the arguments in
    order, one each. *)
Lemma explicit_in_order (h : Heap) (format : gostring) (fargs : list Arg) :
  resolveAll (parseDirectives format) 0%Z =
    map (fun j => (0 + Z.of_nat j)%Z) (seq 0 (length fargs)) ->
  exists r,
    sprintfExplicit h format fargs = Ok r
    /\ fmt r = composeText h format fargs (parseDirectives format) 0 0%Z
    /\ (NoDup (refs fargs) ->
        args r = concat (map args (map (asQuery h) fargs))
        /\ argIndices r = sliceOf (snd (joinLoop true (map (asQuery h) fargs) 0))).
Proof.
  intros Hres.
  assert (placeholderKeys format fargs = keysFrom 0 fargs) as Hks.
  { unfold placeholderKeys. rewrite Hres. exact (keys_of_args [] fargs). }
  eexists. split.
  { apply sprintfExplicit_ok. rewrite Hres. apply forallb_inRange_seq. lia. }
  cbn [fmt args argIndices]. split; [reflexivity|].
  intros Hnd. rewrite Hks.
  pose proof (NoDup_keysFrom 0 fargs Hnd) as Hndk.
  rewrite (firstRefs_NoDup _ Hndk). split.
  - exact (contrib_keys h [] fargs).
  - f_equal. exact (blocks_joinLoop h fargs [] fargs [] eq_refl Hndk).
Qed.

Lemma flatIx_no_holes (j : nat) (ps : list piece) : holes ps = 0 -> flatIx j ps = flat ps.
Proof.
  induction ps as [|p ps IH]; intros H; [reflexivity|].
  rewrite holes_cons in H. destruct p as [t| |v]; simpl in H.
  - cbn [flatIx]. rewrite (IH H). reflexivity.
  - cbn [flatIx]. rewrite (IH H). reflexivity.
  - discriminate.
Qed.

Lemma operands_of_keys (h : Heap) (fargs : list Arg) :
  map (fun k => replacement h (keyAt fargs (Z.of_nat (0 + k)))) (seq 0 (length fargs)) =
  operandTexts h fargs.
Proof.
  pose proof (keys_of_args [] fargs) as Hk. cbn [app length] in Hk.
  rewrite <- (replacement_keys h 0 fargs), <- Hk, !map_map. reflexivity.
Qed.

(** X25. Numbering the placeholders in order changes nothing that a
    caller sees: for a template given piece by piece with one argument
    for every placeholder and no nested query passed twice, writing the
    j-th placeholder with the explicit index j gives a query with the
    same template, the same arguments and the same rendering as leaving
    the placeholders without index. *)
Theorem numbering_in_order_changes_nothing (h : Heap) (ps : list piece) (fargs : list Arg) :
  forallb okPiece ps = true ->
  holes ps = length fargs ->
  (Z.of_nat (holes ps) <= maxInt)%Z ->
  NoDup (refs fargs) ->
  exists r r',
    Sprintf h (flat ps) fargs = Ok r
    /\ Sprintf h (flatIx 0 ps) fargs = Ok r'
    /\ fmt r' = fmt r
    /\ Query_Args r' = Query_Args r
    /\ forall binder, Query_Query r' binder = Query_Query r binder.
Proof.
  intros Hok Hn Hmax Hnd.
  destruct (Sprintf_pieces h ps fargs Hok Hn) as (r & Hr & Hf & Hai).
  destruct (Hai Hnd) as [Ha Hi]. exists r.
  destruct (holes ps) as [|k] eqn:Hh.
  { exists r. rewrite (flatIx_no_holes 0 ps Hh).
    split; [exact Hr|]. split; [exact Hr|]. repeat split. }
  rewrite <- Hh in *.
  destruct (scan_flatIx h (flatIx 0 ps) fargs ps [] 1 0 0 Hok ltac:(simpl; lia)
              ltac:(rewrite app_nil_r; reflexivity) ltac:(simpl; lia)) as (Hc & Hres & Hx).
  rewrite app_nil_r, Nat.add_1_r, scan_nil in Hc, Hres, Hx.
  change (scan (S (length (flatIx 0 ps))) 0 (flatIx 0 ps)) with (parseDirectives (flatIx 0 ps))
    in Hc, Hres, Hx.
  cbn [composeText resolveAll existsb] in Hc, Hres, Hx. unfold sliceFrom in Hc.
  rewrite Nat.add_0_l, drop_all in Hc. rewrite !app_nil_r in Hc, Hres.
  rewrite orb_false_r, Hh in Hx. cbn in Hx.
  rewrite Hn in Hc, Hres. rewrite operands_of_keys in Hc.
  destruct (explicit_in_order h (flatIx 0 ps) fargs) as (r' & Hr' & Hf' & Hai').
  { exact Hres. }
  destruct (Hai' Hnd) as [Ha' Hi']. exists r'. split; [exact Hr|]. split.
  { unfold Sprintf, needsExplicitPath. rewrite Hx, orb_true_r. exact Hr'. }
  change (Z.of_nat 0) with 0%Z in Hc.
  assert (fmt r' = fmt r) as Hfmt by congruence.
  assert (args r' = args r) as Hargs by congruence.
  split; [exact Hfmt|]. split; [exact Hargs|]. intros binder.
  rewrite !Query_Query_norm, Hfmt. do 2 f_equal.
  unfold normIndices. rewrite Hi', Hi, Hargs.
  destruct (existsb hasArgIndices (map (asQuery h) fargs)) eqn:Hex; [reflexivity|].
  rewrite (joinLoop_legacy _ 0 Hex), <- Ha.
  destruct (args r); reflexivity.
Qed.

Lemma numbering_in_order_changes_nothing_witness :
  exists r r',
    Sprintf (heapOf [mkQuery (str "z = %s") [VInt 5] None])
      (flat [PText (str "a = "); PHole "d"%char; PText (str " AND ("); PHole "s"%char;
             PText (str ")")]) [Leaf (VInt 1); Ref 0] = Ok r
    /\ Sprintf (heapOf [mkQuery (str "z = %s") [VInt 5] None])
         (flatIx 0 [PText (str "a = "); PHole "d"%char; PText (str " AND ("); PHole "s"%char;
                    PText (str ")")]) [Leaf (VInt 1); Ref 0] = Ok r'
    /\ fmt r' = fmt r
    /\ Query_Args r' = Query_Args r
    /\ forall binder, Query_Query r' binder = Query_Query r binder.
Proof.
  apply (numbering_in_order_changes_nothing (heapOf [mkQuery (str "z = %s") [VInt 5] None])
           [PText (str "a = "); PHole "d"%char; PText (str " AND ("); PHole "s"%char;
            PText (str ")")] [Leaf (VInt 1); Ref 0]);
    [reflexivity | reflexivity | vm_compute; intros H; discriminate H |].
  simpl. apply NoDup_singleton.
Defined.

(** ** The shape of the queries the package builds *)

Lemma shapes_of_arguments (h : Heap) (fargs : list Arg) (fs : list (list piece)) :
  Forall2 (fun arg f => shaped (asQuery h arg) f) fargs fs ->
  operandTexts h fargs = map flat fs
  /\ Forall (fun f => forallb okPiece f = true) fs
  /\ holes (concat fs) = length (concat (map normIndices (map (asQuery h) fargs)))
  /\ forall p, Ref p ∈ fargs -> exists f, shaped (h p) f.
Proof.
  induction 1 as [|arg f fargs fs Hf _ (IHo & IHk & IHh & IHp)].
  - repeat split; [constructor|]. intros p Hp. inversion Hp.
  - pose proof Hf as (Hfm & Hok & Hh & _). repeat split.
    + unfold operandTexts in *. cbn [map]. rewrite IHo. f_equal.
      rewrite <- Hfm. destruct arg; reflexivity.
    + constructor; assumption.
    + cbn [concat map]. rewrite holes_app, length_app, IHh, Hh. reflexivity.
    + intros p Hp. apply elem_of_cons in Hp. destruct Hp as [<-|Hp]; [exists f; exact Hf|].
      exact (IHp p Hp).
Qed.

Lemma holes_splice_all (ps : list piece) (fs : list (list piece)) :
  holes ps = length fs -> holes (splice ps fs) = holes (concat fs).
Proof.
  revert fs. induction ps as [|p ps IH]; intros fs H.
  - destruct fs; [reflexivity | discriminate].
  - rewrite holes_cons in H. destruct p as [t| |v]; simpl in H.
    + cbn [splice]. rewrite holes_cons. apply IH. exact H.
    + cbn [splice]. rewrite holes_cons. apply IH. exact H.
    + destruct fs as [|f fs]; [discriminate|]. simpl in H.
      cbn [splice concat]. rewrite !holes_app. f_equal. apply IH. lia.
Qed.

Lemma blocks_length (h : Heap) (j : nat) (fargs : list Arg) :
  length (flat_map (block h 0) (keysFrom j fargs)) =
  length (concat (map normIndices (map (asQuery h) fargs))).
Proof.
  revert j. induction fargs as [|arg fargs IH]; intros j; [reflexivity|].
  rewrite keysFrom_cons. cbn [flat_map map concat].
  rewrite !length_app, IH, block_key, length_map. reflexivity.
Qed.

Lemma legacy_lengths (qs : list Query) :
  existsb hasArgIndices qs = false ->
  length (concat (map normIndices qs)) = length (concat (map args qs)).
Proof.
  induction qs as [|q qs IH]; intros H; [reflexivity|]. simpl in H.
  apply orb_false_elim in H. destruct H as [Hq Hqs]. cbn [map concat].
  rewrite !length_app, (IH Hqs). f_equal. unfold normIndices, hasArgIndices in *.
  destruct (argIndices q); [discriminate | apply length_seq].
Qed.

Lemma elem_of_refs (p : Ptr) (fargs : list Arg) : p ∈ refs fargs -> Ref p ∈ fargs.
Proof.
  unfold refs. intros H. apply list_elem_of_In, in_flat_map in H.
  destruct H as (arg & Hin & Hp). destruct arg as [v|q]; [destruct Hp|].
  destruct Hp as [->|[]]. apply list_elem_of_In. exact Hin.
Qed.

(** X26. [Sprintf] keeps the shape that the results on rendering ask for:
    from a template given piece by piece with one argument for every
    placeholder, each argument a leaf or a nested query whose template
    is given piece by piece with one index entry per placeholder, it
    returns a query of that shape again, its pieces being the outer
    pieces with the placeholders replaced by those of the arguments. *)
Theorem Sprintf_keeps_shape (h : Heap) (ps : list piece) (fargs : list Arg)
    (fs : list (list piece)) :
  forallb okPiece ps = true ->
  holes ps = length fargs ->
  Forall2 (fun arg f => shaped (asQuery h arg) f) fargs fs ->
  exists r, Sprintf h (flat ps) fargs = Ok r /\ shaped r (splice ps fs).
Proof.
  intros Hok Hn HF.
  destruct (shapes_of_arguments h fargs fs HF) as (Hops & Hoks & Hholes & Hrefs).
  pose proof (Forall2_length _ _ _ HF) as Hlen.
  destruct (Sprintf_pieces h ps fargs Hok Hn) as (r & Hr & Hf & _).
  exists r. split; [exact Hr|]. split; [|split; [|split]].
  - rewrite Hf, Hops. apply render_doubleLits. congruence.
  - apply okPiece_splice; assumption.
  - rewrite holes_splice_all by congruence. rewrite Hholes.
    pose proof (needsExplicitPath_pieces h ps fargs Hok) as Hpath.
    unfold Sprintf in Hr. rewrite Hpath in Hr.
    destruct (existsb hasArgIndices (map (asQuery h) fargs)) eqn:Hex.
    + destruct (sprintfExplicit_result h (flat ps) fargs r Hr) as (_ & _ & Ha & Hi).
      assert (placeholderKeys (flat ps) fargs = keysFrom 0 fargs) as Hks.
      { unfold placeholderKeys.
        rewrite (resolveAll_implicit _ 0%Z (existsb_false_Forall _ _ (flat_explicit_free ps Hok))).
        change (countPlaceholders (parseDirectives (flat ps))) with (placeholders (flat ps)).
        rewrite (countsAs_total _ _ (flat_counts ps Hok)), Hn. exact (keys_of_args [] fargs). }
      rewrite Hks in Ha, Hi.
      assert (Forall (keyShaped h) (keysFrom 0 fargs)) as Hshaped.
      { apply Forall_forall. intros k Hk. destruct k as [i|p]; [exact I|].
        apply Hrefs, elem_of_refs. exact (keysFrom_ref p 0 fargs Hk). }
      assert (length (indexList r) = length (concat (map normIndices (map (asQuery h) fargs))))
        as Hl.
      { rewrite Hi, flat_map_block_length. apply blocks_length. }
      unfold normIndices at 2. unfold indexList in Hi, Hl.
      destruct (argIndices r) as [l|]; [symmetry; exact Hl|].
      simpl in Hi, Hl. symmetry in Hi.
      rewrite Ha, (empty_blocks_no_args h fargs _ _ Hshaped Hi). symmetry. exact Hl.
    + destruct (fmtSprintf _ _); [|discriminate]. injection Hr as <-.
      unfold normIndices at 2. cbn [argIndices args]. rewrite length_seq.
      rewrite (legacy_lengths _ Hex). f_equal.
      clear. induction fargs as [|arg fargs IH]; [reflexivity|].
      cbn [flat_map map concat]. rewrite IH. destruct arg; reflexivity.
  - exact (Sprintf_proper h (flat ps) fargs r Hr).
Qed.

Lemma Sprintf_keeps_shape_witness :
  exists r,
    Sprintf (heapOf [mkQuery (str "x = %s OR y = %s") [VInt 1] (Some [0; 0])])
      (flat [PText (str "a = "); PHole "d"%char; PText (str " AND ("); PHole "s"%char;
             PText (str ")")]) [Leaf (VInt 2); Ref 0] = Ok r
    /\ shaped r (splice [PText (str "a = "); PHole "d"%char; PText (str " AND (");
                         PHole "s"%char; PText (str ")")]
                   [[PHole "s"%char];
                    [PText (str "x = "); PHole "s"%char; PText (str " OR y = "); PHole "s"%char]]).
Proof.
  apply (Sprintf_keeps_shape (heapOf [mkQuery (str "x = %s OR y = %s") [VInt 1] (Some [0; 0])])
           [PText (str "a = "); PHole "d"%char; PText (str " AND ("); PHole "s"%char;
            PText (str ")")] [Leaf (VInt 2); Ref 0]
           [[PHole "s"%char];
            [PText (str "x = "); PHole "s"%char; PText (str " OR y = "); PHole "s"%char]]);
    [reflexivity | reflexivity |].
  constructor; [|constructor; [|constructor]].
  - split; [reflexivity|]. split; [reflexivity|]. split; [reflexivity|]. discriminate.
  - split; [reflexivity|]. split; [reflexivity|]. split; [reflexivity|]. discriminate.
Defined.

(** X27. [Join] keeps that shape too: the join of queries whose templates
    are given piece by piece with one index entry per placeholder, with
    a separator without marker, has the pieces of the inputs with the
    separator between single spaces in between, and one index entry per
    placeholder. *)
Theorem Join_keeps_shape (qs : list Query) (fs : list (list piece)) (sep : gostring) :
  existsb isPercent sep = false ->
  Forall2 shaped qs fs ->
  shaped (Join qs sep) (joinPieces fs (str " " ++ sep ++ str " ")).
Proof.
  intros Hsep HF.
  assert (existsb isPercent (str " " ++ sep ++ str " ") = false) as Hsep'.
  { rewrite !existsb_app, Hsep. reflexivity. }
  assert (Forall properIndices qs) as Hwf.
  { clear -HF. induction HF as [|q f qs fs (_ & _ & _ & Hp) _ IH]; constructor; assumption. }
  destruct (joinPieces_spec (fun _ => []) _ qs fs 0 Hsep' HF) as (Hf & Hok & Hh & _).
  destruct (Join_normIndices qs sep Hwf) as [Hn _].
  destruct (Join_closed_form qs sep) as (Hfmt & _).
  split; [|split; [|split]].
  - rewrite Hfmt, Hf. reflexivity.
  - exact Hok.
  - rewrite Hn. exact Hh.
  - apply Join_proper.
Qed.

Lemma Join_keeps_shape_witness :
  shaped (Join [mkQuery (str "a = %s") [VInt 1] None;
                mkQuery (str "c = %s OR d = %s") [VInt 3] (Some [0; 0])] (str "AND"))
    (joinPieces [[PText (str "a = "); PHole "s"%char];
                 [PText (str "c = "); PHole "s"%char; PText (str " OR d = "); PHole "s"%char]]
       (str " " ++ str "AND" ++ str " ")).
Proof.
  apply (Join_keeps_shape
           [mkQuery (str "a = %s") [VInt 1] None;
            mkQuery (str "c = %s OR d = %s") [VInt 3] (Some [0; 0])]
           [[PText (str "a = "); PHole "s"%char];
            [PText (str "c = "); PHole "s"%char; PText (str " OR d = "); PHole "s"%char]]
           (str "AND")); [reflexivity|].
  constructor; [|constructor; [|constructor]].
  - split; [reflexivity|]. split; [reflexivity|]. split; [reflexivity|]. discriminate.
  - split; [reflexivity|]. split; [reflexivity|]. split; [reflexivity|]. discriminate.
Defined.

(** ** Flags, width and precision *)

(** X28. On the identity path the flags, width and precision of a
    directive change nothing.  For a template of marker-free text,
    literal percents and directives made of the marker, flags, a width
    and a precision in digits and a verb, and arguments of which no
    nested query carries an index list: the scanner finds no explicit
    index, and [Sprintf] returns exactly what it returns for the
    template with every directive cut down to the marker and its
    verb. *)
Theorem decorations_change_nothing (h : Heap) (dps : list dpiece) (fargs : list Arg) :
  forallb okDPiece dps = true ->
  existsb (fun arg => match arg with Ref p => hasArgIndices (h p) | Leaf _ => false end) fargs = false ->
  needsExplicitPath h (dflat dps) fargs = false
  /\ countPlaceholders (parseDirectives (dflat dps)) = holes (map bare dps)
  /\ Sprintf h (dflat dps) fargs = Sprintf h (flat (map bare dps)) fargs.
Proof.
  intros Hok Hargs. split; [|split].
  - unfold needsExplicitPath. rewrite Hargs, (dflat_explicit_free dps Hok). reflexivity.
  - apply dflat_counts, Hok.
  - apply Sprintf_decorated; assumption.
Qed.

Lemma decorations_change_nothing_witness :
  needsExplicitPath (heapOf [mkQuery (str "z = %s") [VInt 5] None])
    (dflat [DText (str "a = "); DHole (str "-5") "s"%char; DText (str " AND x = (");
            DHole (str "08.3") "v"%char; DText (str ")")])
    [Leaf (VString "foo"); Ref 0] = false
  /\ countPlaceholders
       (parseDirectives
          (dflat [DText (str "a = "); DHole (str "-5") "s"%char; DText (str " AND x = (");
                  DHole (str "08.3") "v"%char; DText (str ")")])) =
     holes (map bare [DText (str "a = "); DHole (str "-5") "s"%char; DText (str " AND x = (");
                      DHole (str "08.3") "v"%char; DText (str ")")])
  /\ Sprintf (heapOf [mkQuery (str "z = %s") [VInt 5] None])
       (dflat [DText (str "a = "); DHole (str "-5") "s"%char; DText (str " AND x = (");
               DHole (str "08.3") "v"%char; DText (str ")")])
       [Leaf (VString "foo"); Ref 0] =
     Sprintf (heapOf [mkQuery (str "z = %s") [VInt 5] None])
       (flat (map bare [DText (str "a = "); DHole (str "-5") "s"%char; DText (str " AND x = (");
                        DHole (str "08.3") "v"%char; DText (str ")")]))
       [Leaf (VString "foo"); Ref 0].
Proof.
  apply (decorations_change_nothing (heapOf [mkQuery (str "z = %s") [VInt 5] None])
           [DText (str "a = "); DHole (str "-5") "s"%char; DText (str " AND x = (");
            DHole (str "08.3") "v"%char; DText (str ")")]
           [Leaf (VString "foo"); Ref 0]); reflexivity.
Defined.
